(** * Sugar (function build): core registry, path resolver, equality and
      serialization helpers, memoization

    A shallow embedding of [dist/sugar-function.js].  Every definition below
    carries the name of the JavaScript function it is translated from.

    Conventions of the embedding.
    - JavaScript values are the type [value]; objects live in a [heap] and are
      referred to by address, so identity ([===] on objects) is equality of
      addresses.
    - Numbers are the special IEEE values together with the integers; a
      computation that would leave this set (a non-integer quotient, a numeric
      literal with a fraction or an exponent) yields [Unmodelled].
    - A computation is a function from a state to a [result]: it returns a
      value and a new state, throws, leaves the modelled fragment of the host
      ([Unmodelled]) or exhausts its recursion budget ([OutOfFuel]).
    - The host is an ES5 engine: the built-in prototypes hold the ES5 members,
      and [Array.prototype.toString] joins with the cycle check every engine
      implements. *)

From Stdlib Require Import ZArith String Ascii List Lia Bool DecimalString DecimalPos DecimalZ.
From stdpp Require Import base gmap strings list sorting.

Open Scope Z_scope.
Open Scope string_scope.
Open Scope list_scope.

(** ** Results and the state-and-error monad *)

Inductive error :=
| TypeError (msg : string)
| RangeError (msg : string).

Inductive result (A : Type) :=
| Ok (a : A)
| Throw (e : error)
| Unmodelled
| OutOfFuel.

Arguments Ok {A} a.
Arguments Throw {A} e.
Arguments Unmodelled {A}.
Arguments OutOfFuel {A}.

#[global] Instance result_ret : MRet result := fun _ a => Ok a.

#[global] Instance result_bind : MBind result := fun _ _ k r =>
  match r with
  | Ok a => k a
  | Throw e => Throw e
  | Unmodelled => Unmodelled
  | OutOfFuel => OutOfFuel
  end.

Definition M (S A : Type) : Type := S -> result (A * S).

Definition ret {S A} (a : A) : M S A := fun s => Ok (a, s).

Definition bind {S A B} (c : M S A) (k : A -> M S B) : M S B :=
  fun s =>
    match c s with
    | Ok (a, s') => k a s'
    | Throw e => Throw e
    | Unmodelled => Unmodelled
    | OutOfFuel => OutOfFuel
    end.

Definition throw {S A} (e : error) : M S A := fun _ => Throw e.
Definition unmodelled {S A} : M S A := fun _ => Unmodelled.
Definition outOfFuel {S A} : M S A := fun _ => OutOfFuel.
Definition getState {S} : M S S := fun s => Ok (s, s).
Definition putState {S} (s : S) : M S unit := fun _ => Ok (tt, s).
Definition modifyState {S} (f : S -> S) : M S unit := fun s => Ok (tt, f s).

(** A host operation that is partial in the model. *)
Definition liftOpt {S A} (o : option A) : M S A :=
  match o with Some a => ret a | None => unmodelled end.

(** A host operation that reads the heap only. *)
Definition liftR {S A} (r : result A) : M S A :=
  fun s =>
    match r with
    | Ok a => Ok (a, s)
    | Throw e => Throw e
    | Unmodelled => Unmodelled
    | OutOfFuel => OutOfFuel
    end.

Fixpoint foldM {S A B} (f : A -> B -> M S A) (l : list B) (a : A) : M S A :=
  match l with
  | [] => ret a
  | b :: l' => bind (f a b) (foldM f l')
  end.

Notation "'let*' x ':=' c1 'in' c2" := (bind c1 (fun x => c2))
  (at level 10, x pattern, c1 at level 100, c2 at level 200).

(** ** JavaScript values *)

(** The numbers of the model: NaN, the infinities, the negative zero and
    the integers.  [Int z] stands for the double of that value; below 2^53
    in magnitude every integer is one. *)
Inductive number :=
| NaN
| PosInf
| NegInf
| NegZero
| Int (z : Z).

Inductive value :=
| VUndefined
| VNull
| VBool (b : bool)
| VNum (n : number)
| VStr (s : string)
| VRef (a : nat).

(** A value that is no reference to an object. *)
Definition primitive (v : value) : Prop :=
  match v with VRef _ => False | _ => True end.

(** The sorts of object of the modelled heap.  [KObject] is an object
    literal (prototype [Object.prototype]); [KArray len] an array of length
    [len]; [KError text] an error whose [toString()] is [text]; [KHost cls]
    a host object or class instance whose class string is [[object cls]] and
    which inherits [Object.prototype.toString]; [KChainable owner] an
    instance of a chainable class, the one of the namespace at address
    [owner] or, for [None], the default one. *)
Inductive kind :=
| KObject
| KArray (len : nat)
| KFunction
| KError (text : string)
| KHost (cls : string)
| KChainable (owner : option nat).

(** [oprops]: the own enumerable properties, in enumeration order. *)
Record object := mkObject {
  okind : kind;
  oprops : list (string * value)
}.

Abbreviation heap := (list object).

Definition num_eqb (x y : number) : bool :=
  match x, y with
  | NaN, _ | _, NaN => false
  | PosInf, PosInf | NegInf, NegInf => true
  | NegZero, NegZero => true
  | NegZero, Int z | Int z, NegZero => Z.eqb z 0
  | Int a, Int b => Z.eqb a b
  | _, _ => false
  end.

(** [a === b] *)
Definition strict_eq (a b : value) : bool :=
  match a, b with
  | VUndefined, VUndefined | VNull, VNull => true
  | VBool x, VBool y => Bool.eqb x y
  | VNum x, VNum y => num_eqb x y
  | VStr x, VStr y => String.eqb x y
  | VRef x, VRef y => Nat.eqb x y
  | _, _ => false
  end.

Definition Z_to_string (z : Z) : string := NilZero.string_of_int (Z.to_int z).

(** Number::toString, on the modelled numbers.  An integer is written in
    decimal digits, as the host writes the integers below 10^21; from there
    on the host writes an exponent, which is not modelled: what is stated of
    the string of a number is stated below that bound. *)
Definition num_to_string (n : number) : string :=
  match n with
  | NaN => "NaN"
  | PosInf => "Infinity"
  | NegInf => "-Infinity"
  | NegZero => "0"
  | Int z => Z_to_string z
  end.

(** [1 / n]; the quotient of 1 by an integer other than 0, 1 and -1 is not
    an integer. *)
Definition recip (n : number) : option number :=
  match n with
  | NaN => Some NaN
  | PosInf => Some (Int 0)
  | NegInf => Some NegZero
  | NegZero => Some NegInf
  | Int 0 => Some PosInf
  | Int 1 => Some (Int 1)
  | Int (-1) => Some (Int (-1))
  | Int _ => None
  end.

Definition truthy (v : value) : bool :=
  match v with
  | VUndefined | VNull => false
  | VBool b => b
  | VNum NaN | VNum NegZero | VNum (Int 0) => false
  | VNum _ => true
  | VStr s => negb (String.eqb s "")
  | VRef _ => true
  end.

Definition typeof (h : heap) (v : value) : string :=
  match v with
  | VUndefined => "undefined"
  | VNull => "object"
  | VBool _ => "boolean"
  | VNum _ => "number"
  | VStr _ => "string"
  | VRef a =>
      match h !! a with
      | Some (mkObject KFunction _) => "function"
      | _ => "object"
      end
  end.

Definition kind_class (k : kind) : string :=
  match k with
  | KObject => "Object"
  | KArray _ => "Array"
  | KFunction => "Function"
  | KError _ => "Error"
  | KHost cls => cls
  | KChainable _ => "Object"
  end.

(** [classToString(obj)], that is [Object.prototype.toString.call(obj)]. *)
Definition classToString (h : heap) (v : value) : option string :=
  match v with
  | VUndefined => Some "[object Undefined]"
  | VNull => Some "[object Null]"
  | VBool _ => Some "[object Boolean]"
  | VNum _ => Some "[object Number]"
  | VStr _ => Some "[object String]"
  | VRef a =>
      match h !! a with
      | Some o => Some ("[object " +:+ kind_class (okind o) +:+ "]")
      | None => None
      end
  end.

(** ** Strings and numbers *)

Definition is_digit (c : ascii) : bool :=
  let n := nat_of_ascii c in (48 <=? n)%nat && (n <=? 57)%nat.

Fixpoint all_chars (p : ascii -> bool) (s : string) : bool :=
  match s with
  | EmptyString => true
  | String c s' => p c && all_chars p s'
  end.

Fixpoint digits_value (acc : Z) (s : string) : Z :=
  match s with
  | EmptyString => acc
  | String c s' => digits_value (10 * acc + (Z.of_nat (nat_of_ascii c) - 48)) s'
  end.

(** A non-empty run of decimal digits denotes its value. *)
Definition parse_digits (s : string) : option Z :=
  match s with
  | EmptyString => None
  | _ => if all_chars is_digit s then Some (digits_value 0 s) else None
  end.

Definition in_number_alphabet (c : ascii) : bool :=
  is_digit c || Ascii.eqb c "-" || Ascii.eqb c "+".

(** The first character of a numeric literal, white space apart. *)
Definition may_start_number (c : ascii) : bool :=
  let n := nat_of_ascii c in
  is_digit c || Ascii.eqb c "-" || Ascii.eqb c "+" || Ascii.eqb c "." ||
  Ascii.eqb c "I" || (n <=? 32)%nat || (127 <=? n)%nat.

(** ToNumber on strings.  Signed and unsigned runs of digits below 2^53 are
    read exactly; a string over digits and signs that is no such run, or one
    whose first character cannot start a numeric literal, is NaN; fractions,
    exponents, hexadecimal literals, [Infinity] and surrounding white space
    are left out of the model. *)
Definition str_to_number (s : string) : option number :=
  let exact z := if Z.ltb z (2 ^ 53) then Some z else None in
  match s with
  | EmptyString => Some (Int 0)
  | String c rest =>
      match parse_digits s with
      | Some z => z' ← exact z; Some (Int z')
      | None =>
          if Ascii.eqb c "-" then
            match parse_digits rest with
            | Some z => z' ← exact z; Some (if Z.eqb z' 0 then NegZero else Int (- z'))
            | None => if all_chars in_number_alphabet s then Some NaN else None
            end
          else if Ascii.eqb c "+" then
            match parse_digits rest with
            | Some z => z' ← exact z; Some (Int z')
            | None => if all_chars in_number_alphabet s then Some NaN else None
            end
          else if all_chars in_number_alphabet s then Some NaN
          else if may_start_number c then None
          else Some NaN
      end
  end.

(** ToNumber on primitives; objects are left out. *)
Definition to_number (v : value) : option number :=
  match v with
  | VUndefined => Some NaN
  | VNull => Some (Int 0)
  | VBool b => Some (Int (if b then 1 else 0))
  | VNum n => Some n
  | VStr s => str_to_number s
  | VRef _ => None
  end.

(** [x + y] on numbers, exact below 2^53. *)
Definition num_add (x y : number) : option number :=
  match x, y with
  | NaN, _ | _, NaN => Some NaN
  | PosInf, NegInf | NegInf, PosInf => Some NaN
  | PosInf, _ | _, PosInf => Some PosInf
  | NegInf, _ | _, NegInf => Some NegInf
  | NegZero, NegZero => Some NegZero
  | NegZero, Int z | Int z, NegZero => Some (Int z)
  | Int a, Int b =>
      if Z.ltb (Z.abs (a + b)) (2 ^ 53) then Some (Int (a + b)) else None
  end.

(** [x < y] on numbers. *)
Definition num_ltb (x y : number) : bool :=
  match x, y with
  | NaN, _ | _, NaN => false
  | PosInf, _ => false
  | _, PosInf => true
  | _, NegInf => false
  | NegInf, _ => true
  | NegZero, NegZero => false
  | NegZero, Int z => Z.ltb 0 z
  | Int z, NegZero => Z.ltb z 0
  | Int a, Int b => Z.ltb a b
  end.

Definition index_key (i : nat) : string := Z_to_string (Z.of_nat i).

(** The array index a property name denotes, if it is the canonical
    decimal form of an integer below 2^32 - 1. *)
Definition array_index (key : string) : option nat :=
  match parse_digits key with
  | Some z =>
      if String.eqb (Z_to_string z) key && Z.ltb z (2 ^ 32 - 1)
      then Some (Z.to_nat z) else None
  | None => None
  end.

(** The order of [Array.prototype.sort] without comparator. *)
Definition str_le (a b : string) : Prop := String.leb a b = true.

#[global] Instance str_le_dec : RelDecision str_le.
Proof. intros a b. unfold str_le. apply _. Defined.

Definition sort_keys (l : list string) : list string := merge_sort str_le l.

(** ** Objects and their properties *)

Fixpoint assoc {A} (key : string) (l : list (string * A)) : option A :=
  match l with
  | [] => None
  | (k, v) :: l' => if String.eqb k key then Some v else assoc key l'
  end.

Fixpoint assoc_replace {A} (key : string) (v : A) (l : list (string * A))
  : list (string * A) :=
  match l with
  | [] => []
  | (k, w) :: l' =>
      if String.eqb k key then (k, v) :: l' else (k, w) :: assoc_replace key v l'
  end.

(** A new property takes its place in the enumeration order: an array index
    among the indices, in ascending order; any other name at the end. *)
Fixpoint insert_index {A} (i : nat) (key : string) (v : A)
  (l : list (string * A)) : list (string * A) :=
  match l with
  | [] => [(key, v)]
  | (k, w) :: l' =>
      match array_index k with
      | Some j =>
          if (j <? i)%nat then (k, w) :: insert_index i key v l'
          else (key, v) :: (k, w) :: l'
      | None => (key, v) :: (k, w) :: l'
      end
  end.

Definition assoc_set {A} (key : string) (v : A) (l : list (string * A))
  : list (string * A) :=
  match assoc key l with
  | Some _ => assoc_replace key v l
  | None =>
      match array_index key with
      | Some i => insert_index i key v l
      | None => l ++ [(key, v)]
      end
  end.

(** The ES5 members of the built-in prototypes. *)
Definition object_proto_names : list string :=
  ["constructor"; "toString"; "toLocaleString"; "valueOf"; "hasOwnProperty";
   "isPrototypeOf"; "propertyIsEnumerable"; "__proto__"; "__defineGetter__";
   "__defineSetter__"; "__lookupGetter__"; "__lookupSetter__"].

Definition array_proto_names : list string :=
  ["concat"; "join"; "pop"; "push"; "reverse"; "shift"; "slice"; "sort";
   "splice"; "unshift"; "indexOf"; "lastIndexOf"; "every"; "some"; "forEach";
   "map"; "filter"; "reduce"; "reduceRight"].

Definition mem_str (s : string) (l : list string) : bool :=
  existsb (String.eqb s) l.

(** What the model knows of a property of an object beyond its own
    enumerable ones. *)
Inductive hidden :=
| HLength (len : nat)   (* the own [length] of an array *)
| HInherited            (* a built-in method found on the prototype chain *)
| HAbsent               (* no such property *)
| HUnknown.             (* the prototype chain is not modelled *)

Definition hidden_prop (k : kind) (key : string) : hidden :=
  match k with
  | KObject => if mem_str key object_proto_names then HInherited else HAbsent
  | KArray len =>
      if String.eqb key "length" then HLength len
      else if mem_str key array_proto_names || mem_str key object_proto_names
      then HInherited else HAbsent
  | _ => HUnknown
  end.

(** [hasOwn(obj, prop)]: [!!obj && hasOwnProperty.call(obj, prop)]. *)
Definition hasOwn (h : heap) (obj : value) (prop : string) : result bool :=
  if negb (truthy obj) then Ok false else
  match obj with
  | VStr s =>
      Ok (String.eqb prop "length" ||
          match array_index prop with
          | Some i => (i <? String.length s)%nat
          | None => false
          end)
  | VRef a =>
      match h !! a with
      | None => Unmodelled
      | Some o =>
          match assoc prop (oprops o) with
          | Some _ => Ok true
          | None =>
              match hidden_prop (okind o) prop with
              | HLength _ => Ok true
              | HInherited | HAbsent => Ok false
              | HUnknown => Unmodelled
              end
          end
      end
  | _ => Ok false
  end.

(** [prop in obj] *)
Definition hasIn (h : heap) (obj : value) (prop : string) : result bool :=
  match obj with
  | VRef a =>
      match h !! a with
      | None => Unmodelled
      | Some o =>
          match assoc prop (oprops o) with
          | Some _ => Ok true
          | None =>
              match hidden_prop (okind o) prop with
              | HLength _ | HInherited => Ok true
              | HAbsent => Ok false
              | HUnknown => Unmodelled
              end
          end
      end
  | _ => Throw (TypeError "Cannot use 'in' operator to search for a key in a primitive")
  end.

(** [obj[prop]] *)
Definition getProp (h : heap) (obj : value) (prop : string) : result value :=
  match obj with
  | VUndefined | VNull => Throw (TypeError "Cannot read property of undefined or null")
  | VStr s =>
      if String.eqb prop "length" then Ok (VNum (Int (Z.of_nat (String.length s))))
      else
        match array_index prop with
        | Some i =>
            match String.get i s with
            | Some c => Ok (VStr (String c EmptyString))
            | None => Ok VUndefined
            end
        | None => Unmodelled
        end
  | VBool _ | VNum _ => Unmodelled
  | VRef a =>
      match h !! a with
      | None => Unmodelled
      | Some o =>
          match assoc prop (oprops o) with
          | Some v => Ok v
          | None =>
              match hidden_prop (okind o) prop with
              | HLength len => Ok (VNum (Int (Z.of_nat len)))
              | HAbsent => Ok VUndefined
              | HInherited | HUnknown => Unmodelled
              end
          end
      end
  end.

(** [obj[prop] = val] in strict mode.  The assignment to [__proto__] runs
    the setter of [Object.prototype], which makes no property and throws on
    no primitive value: it is left out. *)
Definition setProp (h : heap) (obj : value) (prop : string) (val : value)
  : result heap :=
  if String.eqb prop "__proto__" then Unmodelled else
  match obj with
  | VUndefined | VNull => Throw (TypeError "Cannot set property of undefined or null")
  | VBool _ | VNum _ | VStr _ => Throw (TypeError "Cannot create property on a primitive")
  | VRef a =>
      match h !! a with
      | None => Unmodelled
      | Some o =>
          match okind o with
          | KObject => Ok (<[a := mkObject KObject (assoc_set prop val (oprops o))]> h)
          | KArray len =>
              if String.eqb prop "length" then Unmodelled else
              let len' :=
                match array_index prop with
                | Some i => Nat.max len (S i)
                | None => len
                end in
              Ok (<[a := mkObject (KArray len') (assoc_set prop val (oprops o))]> h)
          | k =>
              match assoc prop (oprops o) with
              | Some _ => Ok (<[a := mkObject k (assoc_replace prop val (oprops o))]> h)
              | None => Unmodelled
              end
          end
      end
  end.

(** [getKeys(obj)], that is [Object.keys(obj)]. *)
Definition getKeys (o : object) : list string := map fst (oprops o).

(** ** Conversion to string *)

Definition prim_to_string (v : value) : string :=
  match v with
  | VUndefined => "undefined"
  | VNull => "null"
  | VBool b => if b then "true" else "false"
  | VNum n => num_to_string n
  | VStr s => s
  | VRef _ => ""
  end.

(** Classes of host objects whose prototype has a [toString] of its own. *)
Definition own_toString_classes : list string :=
  ["Boolean"; "Number"; "String"; "Date"; "RegExp"; "Function"; "Array";
   "Error"; "Set"; "Map"; "Int8Array"; "Uint8Array"; "Uint8ClampedArray";
   "Int16Array"; "Uint16Array"; "Int32Array"; "Uint32Array"; "Float32Array";
   "Float64Array"].

Fixpoint join_strings (sep : string) (l : list string) : string :=
  match l with
  | [] => ""
  | [s] => s
  | s :: l' => s +:+ sep +:+ join_strings sep l'
  end.

Fixpoint mapR {A B} (f : A -> result B) (l : list A) : result (list B) :=
  match l with
  | [] => Ok []
  | a :: l' =>
      match f a with
      | Ok b =>
          match mapR f l' with
          | Ok bs => Ok (b :: bs)
          | Throw e => Throw e
          | Unmodelled => Unmodelled
          | OutOfFuel => OutOfFuel
          end
      | Throw e => Throw e
      | Unmodelled => Unmodelled
      | OutOfFuel => OutOfFuel
      end
  end.

(** Whether an object has a [toString] or a [join] of its own, in place of
    the built-in one. *)
Definition overridesToString (o : object) : bool :=
  match assoc "toString" (oprops o), assoc "join" (oprops o) with
  | None, None => false
  | _, _ => true
  end.

(** [obj.toString()] on an object with the built-in [toString].  [joining]
    holds the arrays whose join is in progress: the host yields the empty
    string for a nested occurrence of one of them.  A chainable is left out:
    its prototype gets a [toString] of the library, mapped from the native
    one, which works on the raw value. *)
Fixpoint toStringObj (fuel : nat) (h : heap) (joining : list nat) (a : nat)
  : result string :=
  match fuel with
  | O => OutOfFuel
  | S fuel' =>
      match h !! a with
      | None => Unmodelled
      | Some o =>
          if overridesToString o then Unmodelled else
          match okind o with
          | KObject => Ok "[object Object]"
          | KError text => Ok text
          | KFunction | KChainable _ => Unmodelled
          | KHost cls =>
              if mem_str cls own_toString_classes then Unmodelled
              else Ok ("[object " +:+ cls +:+ "]")
          | KArray len =>
              if existsb (Nat.eqb a) joining then Ok "" else
              match
                mapR (fun i =>
                        match assoc (index_key i) (oprops o) with
                        | None | Some VUndefined | Some VNull => Ok ""
                        | Some (VRef b) => toStringObj fuel' h (a :: joining) b
                        | Some v => Ok (prim_to_string v)
                        end) (seq 0 len)
              with
              | Ok parts => Ok (join_strings "," parts)
              | Throw e => Throw e
              | Unmodelled => Unmodelled
              | OutOfFuel => OutOfFuel
              end
          end
      end
  end.

(** ToString of a value; the nesting of arrays is bounded by the heap. *)
Definition toString (h : heap) (v : value) : result string :=
  match v with
  | VRef a => toStringObj (S (length h)) h [] a
  | _ => Ok (prim_to_string v)
  end.

(** Classes of host objects whose prototype has a [valueOf] of its own. *)
Definition own_valueOf_classes : list string :=
  ["Boolean"; "Number"; "String"; "Date"; "Symbol"].

(** [v.valueOf()].  An object that inherits [Object.prototype.valueOf] is
    its own value.  An object with a property [valueOf] of its own, a
    chainable (whose prototype has a [valueOf] that returns the raw value)
    and a host object of a class with its own [valueOf] are left out. *)
Definition valueOf (h : heap) (v : value) : result value :=
  match v with
  | VUndefined | VNull => Throw (TypeError "Cannot read property 'valueOf' of undefined or null")
  | VRef a =>
      match h !! a with
      | None => Unmodelled
      | Some o =>
          match assoc "valueOf" (oprops o) with
          | Some _ => Unmodelled
          | None =>
              match okind o with
              | KChainable _ => Unmodelled
              | KHost cls =>
                  if mem_str cls own_valueOf_classes then Unmodelled else Ok v
              | _ => Ok v
              end
          end
      end
  | _ => Ok v
  end.

(** [v.toString()] *)
Definition callToString (h : heap) (v : value) : result string :=
  match v with
  | VUndefined | VNull => Throw (TypeError "Cannot read property 'toString' of undefined or null")
  | _ => toString h v
  end.

(** ** Common: class checks *)

(** [NATIVE_TYPES] *)
Definition NATIVE_TYPES : list string :=
  ["Boolean"; "Number"; "String"; "Date"; "RegExp"; "Function"; "Array";
   "Error"; "Set"; "Map"].

(** [isClass(obj, className, str)] with [str] given. *)
Definition isClass (className str : string) : bool :=
  String.eqb str ("[object " +:+ className +:+ "]").

(** [knownTypes] as [addCoreTypes] and [addArrayTypes] fill it. *)
Definition knownTypes : list string :=
  map (fun className => "[object " +:+ className +:+ "]")
    (["Arguments"; "Boolean"; "Number"; "String"; "Date"; "RegExp"; "Array"] ++
     map (fun str => str +:+ "Array")
       ["Int8"; "Uint8"; "Uint8Clamped"; "Int16"; "Uint16"; "Int32"; "Uint32";
        "Float32"; "Float64"]).

Definition isKnownType (className : string) : bool := mem_str className knownTypes.

(** [isObjectType(obj)] *)
Definition isObjectType (h : heap) (obj : value) : bool :=
  truthy obj && String.eqb (typeof h obj) "object".

(** [isPrimitive(obj, type)] *)
Definition isPrimitive (obj : value) (type : string) : bool :=
  match obj with
  | VUndefined | VNull => true
  | _ => String.eqb type "string" || String.eqb type "number" || String.eqb type "boolean"
  end.

(** [hasValidPlainObjectPrototype(obj)]: of the modelled objects only the
    object literal has [Object.prototype] as its prototype.  There
    [toString] and [constructor] are in the object, [Object.prototype] has
    [isPrototypeOf], and what is left of the test is that the object has no
    [constructor] of its own. *)
Definition hasValidPlainObjectPrototype (h : heap) (obj : value) : bool :=
  match obj with
  | VRef a =>
      match h !! a with
      | Some (mkObject KObject props) =>
          match assoc "constructor" props with
          | None => true
          | Some _ => false
          end
      | _ => false
      end
  | _ => false
  end.

(** [hasOwnEnumeratedProperties(obj)]: the built-in prototypes have no
    enumerable member, so every enumerated property is an own one. *)
Definition hasOwnEnumeratedProperties (h : heap) (obj : value) : bool := true.

(** [isPlainObject(obj, className)] *)
Definition isPlainObject (h : heap) (obj : value) (className : string) : bool :=
  isObjectType h obj && isClass "Object" className &&
  hasValidPlainObjectPrototype h obj && hasOwnEnumeratedProperties h obj.

(** [isSerializable(obj, className)] *)
Definition isSerializable (h : heap) (obj : value) (className : string) : bool :=
  isKnownType className || isPlainObject h obj className.

(** [isRealNaN(obj)]: [obj != null && obj !== obj]. *)
Definition isRealNaN (obj : value) : bool :=
  match obj with
  | VUndefined | VNull => false
  | _ => negb (strict_eq obj obj)
  end.

(** ** Common: traversal with the cycle check *)

(** The two arrays a traversal shares with its callees: [refs], the
    reference table of [serializeInternal], and [stack], the chain of values
    being visited. *)
Record trav := mkTrav {
  refs : list value;
  stack : list value
}.

Definition T := M trav.

Definition pushStack (val : value) : T unit :=
  modifyState (fun t => mkTrav (refs t) (stack t ++ [val])).

Definition popStack : T unit :=
  modifyState (fun t => mkTrav (refs t) (removelast (stack t))).

(** The variable [cyc] of [next]: once the stack holds more than one
    value, whether one of them is [val]. *)
Definition onStack (stack : list value) (val : value) : bool :=
  if (1 <? length stack)%nat
  then existsb (fun s => strict_eq s val) stack
  else false.

(** [next(val, key)] of [iterateWithCyclicCheck]; [acc] stands for the
    variables of the caller that the callback [fn] assigns. *)
Definition next {Acc} (fn : string -> value -> bool -> Acc -> T Acc)
  (val : value) (key : string) (acc : Acc) : T Acc :=
  let* t := getState in
  let cyc := onStack (stack t) val in
  let* _ := pushStack val in
  let* acc' := fn key val cyc acc in
  let* _ := popStack in
  ret acc'.

(** [iterateWithCyclicCheck(obj, sortedKeys, stack, fn)] *)
Definition iterateWithCyclicCheck {Acc} (h : heap) (obj : value)
  (sortedKeys : bool) (fn : string -> value -> bool -> Acc -> T Acc)
  (acc : Acc) : T Acc :=
  match obj with
  | VRef a =>
      match h !! a with
      | None => unmodelled
      | Some o =>
          let keys := if sortedKeys then sort_keys (getKeys o) else getKeys o in
          foldM (fun acc key =>
                   let* val := liftR (getProp h obj key) in
                   next fn val key acc) keys acc
      end
  | _ => unmodelled
  end.

(** ** Common: equality *)

Definition isSet (className : string) : bool := isClass "Set" className.
Definition isMap (className : string) : bool := isClass "Map" className.
Definition isError (className : string) : bool := isClass "Error" className.

(** The callback [objectIsEqual] passes to [iterateWithCyclicCheck]; [acc]
    holds the variables [propsEqual] and [count]. *)
Definition equalStep (isEqual : value -> value -> T bool) (h : heap) (b : value)
  (key : string) (val : value) (cyc : bool) (acc : bool * nat) : T (bool * nat) :=
  let '(propsEqual, count) := acc in
  let* propsEqual' :=
    if cyc then ret propsEqual else
    let* found := liftR (hasIn h b key) in
    if negb found then ret false else
    let* bval := liftR (getProp h b key) in
    let* eq := isEqual val bval in
    ret (if eq then propsEqual else false) in
  ret (propsEqual', S count).

(** [objectIsEqual(a, b, aClass, stack)]; [isEqual] is the recursive call. *)
Definition objectIsEqual (isEqual : value -> value -> T bool) (h : heap)
  (a b : value) (aClass : string) : T bool :=
  let aType := typeof h a in
  let bType := typeof h b in
  if negb (String.eqb aType bType) then ret false else
  let* av := liftR (valueOf h a) in
  let* differ :=
    if isObjectType h av then
      let* alen := liftR (getProp h a "length") in
      let* blen := liftR (getProp h b "length") in
      if negb (strict_eq alen blen) then ret true else
      let* (propsEqual, count) :=
        iterateWithCyclicCheck h a false (equalStep isEqual h b) (true, O) in
      let* bkeys :=
        match b with
        | VRef bAddr => liftOpt (getKeys <$> h !! bAddr)
        | _ => unmodelled
        end in
      ret (negb propsEqual || negb (count =? length bkeys)%nat)
    else ret false in
  if differ then ret false else
  let* bv := liftR (valueOf h b) in
  let* astr := liftR (callToString h av) in
  let* bstr := liftR (callToString h bv) in
  ret (String.eqb astr bstr).

(** [isEqual(a, b, stack)]; [isEqual'] is the recursive call. *)
Definition isEqual_body (isEqual' : value -> value -> T bool) (h : heap)
  (a b : value) : T bool :=
  if strict_eq a b then
    if negb (strict_eq a (VNum (Int 0))) then ret true else
    let* x := liftOpt (to_number a ≫= recip) in
    let* y := liftOpt (to_number b ≫= recip) in
    ret (num_eqb x y)
  else
    let* aClass := liftOpt (classToString h a) in
    let* bClass := liftOpt (classToString h b) in
    if negb (String.eqb aClass bClass) then ret false else
    if isSerializable h a aClass && isSerializable h b bClass then
      objectIsEqual isEqual' h a b aClass
    else if isSet aClass && isSet bClass then unmodelled
    else if isMap aClass && isMap bClass then unmodelled
    else if isError aClass && isError bClass then
      let* astr := liftR (callToString h a) in
      let* bstr := liftR (callToString h b) in
      ret (String.eqb astr bstr)
    else ret false.

(** The recursion of [isEqual] through [objectIsEqual], [fuel] deep. *)
Fixpoint isEqual (fuel : nat) (h : heap) (a b : value) : T bool :=
  match fuel with
  | O => outOfFuel
  | S fuel' => isEqual_body (isEqual fuel' h) h a b
  end.

(** ** Common: serialization *)

(** [indexOf(arr, el)] on a dense array. *)
Fixpoint indexOf_from (i : nat) (arr : list value) (el : value) : option nat :=
  match arr with
  | [] => None
  | x :: arr' => if strict_eq x el then Some i else indexOf_from (S i) arr' el
  end.

Definition indexOf (arr : list value) (el : value) : option nat :=
  indexOf_from 0 arr el.

(** The callback [serializeDeep] passes to [iterateWithCyclicCheck]; the
    accumulator is the variable [result]. *)
Definition serializeStep (serializeInternal : value -> T value) (h : heap)
  (key : string) (val : value) (cyc : bool) (result : string) : T string :=
  if cyc then ret (result +:+ "CYC") else
  let* tok := serializeInternal val in
  let* tokStr := liftR (toString h tok) in
  ret (result +:+ (key +:+ tokStr)).

(** [serializeDeep(obj, refs, stack)]; [serializeInternal] is the recursive
    call. *)
Definition serializeDeep (serializeInternal : value -> T value) (h : heap)
  (obj : value) : T string :=
  iterateWithCyclicCheck h obj true (serializeStep serializeInternal h) "".

(** [serializeInternal(obj, refs, stack)]; [serializeInternal'] is the
    recursive call.  The token is a string, or the number that is the index
    of a non-serializable object in [refs]. *)
Definition serializeInternal_body (serializeInternal' : value -> T value)
  (h : heap) (obj : value) : T value :=
  let type := typeof h obj in
  if isPrimitive obj type && negb (isRealNaN obj) then
    ret (VStr (type +:+ prim_to_string obj))
  else
    let* className := liftOpt (classToString h obj) in
    if negb (isSerializable h obj className) then
      let* t := getState in
      match indexOf (refs t) obj with
      | Some ref => ret (VNum (Int (Z.of_nat ref)))
      | None =>
          let ref := length (refs t) in
          let* _ := putState (mkTrav (refs t ++ [obj]) (stack t)) in
          ret (VNum (Int (Z.of_nat ref)))
      end
    else
      let* value :=
        if isObjectType h obj then
          let* deep := serializeDeep serializeInternal' h obj in
          let* str := liftR (callToString h obj) in
          ret (deep +:+ str)
        else
          let* r := liftOpt (to_number obj ≫= recip) in
          if num_eqb r NegInf then ret "-0"
          else
            (* [obj.valueOf] is a built-in method, hence truthy *)
            let* v := liftR (valueOf h obj) in
            ret (prim_to_string v) in
      ret (VStr (type +:+ className +:+ value)).

(** The recursion of [serializeInternal] through [serializeDeep], [fuel]
    deep. *)
Fixpoint serializeInternal (fuel : nat) (h : heap) (obj : value) : T value :=
  match fuel with
  | O => outOfFuel
  | S fuel' => serializeInternal_body (serializeInternal fuel' h) h obj
  end.

(** The depth of nesting a heap of [length h] objects allows before the
    cycle check cuts the descent. *)
Definition depth_bound (h : heap) : nat := 3 + length h.

(** [isEqual(a, b)] as the library calls it: no stack is passed. *)
Definition equal (h : heap) (a b : value) : result bool :=
  match isEqual (depth_bound h) h a b (mkTrav [] []) with
  | Ok (r, _) => Ok r
  | Throw e => Throw e
  | Unmodelled => Unmodelled
  | OutOfFuel => OutOfFuel
  end.

(** [serializeInternal(obj, refs)] for a fresh reference table. *)
Definition serialize (h : heap) (obj : value) : result value :=
  match serializeInternal (depth_bound h) h obj (mkTrav [] []) with
  | Ok (r, _) => Ok r
  | Throw e => Throw e
  | Unmodelled => Unmodelled
  | OutOfFuel => OutOfFuel
  end.

(** ** Common: memoization *)

Definition INTERNAL_MEMOIZE_LIMIT : nat := 1000.

(** The variables [memo] and [counter] of one [memoizeFunction(fn)]. *)
Record memoTable (V : Type) := mkMemo {
  memo : gmap string V;
  counter : nat
}.

Arguments mkMemo {V} memo counter.
Arguments memo {V} m.
Arguments counter {V} m.

Definition memoEmpty {V} : memoTable V := mkMemo ∅ O.

(** [memo[key] = v] on the object literal [memo]: the assignment to
    [__proto__] runs the setter of [Object.prototype] and makes no property
    of the object. *)
Definition memo_set {V} (key : string) (v : V) (memo : gmap string V)
  : gmap string V :=
  if String.eqb key "__proto__" then memo else <[key := v]> memo.

(** The function [memoizeFunction(fn)] returns, applied to [key].  When [fn]
    throws, the table has been reset and the counter advanced, and no entry
    is stored. *)
Definition memoizeFunction {V} (fn : string -> result V) (key : string)
  (m : memoTable V) : result V * memoTable V :=
  match memo m !! key with
  | Some v => (Ok v, m)
  | None =>
      let m1 := if (counter m =? INTERNAL_MEMOIZE_LIMIT)%nat then memoEmpty else m in
      let m2 := mkMemo (memo m1) (S (counter m1)) in
      match fn key with
      | Ok v => (Ok v, mkMemo (memo_set key v (memo m2)) (counter m2))
      | r => (r, m2)
      end
  end.

(** ** Function: hashed memoization *)

(** Computations on the heap. *)
Definition H := M heap.

Definition readH {A} (f : heap -> result A) : H A :=
  fun h => a ← f h; Ok (a, h).

Definition writeH (f : heap -> result heap) : H unit :=
  fun h => h' ← f h; Ok (tt, h').

(** A function of the caller: its result on [this] and the arguments. *)
Definition jsfun := value -> list value -> H value.

Definition alloc (o : object) : H nat :=
  fun h => Ok (length h, h ++ [o]).

Definition array_of (l : list value) : object :=
  mkObject (KArray (length l)) (imap (fun i v => (index_key i, v)) l).

(** [collectArguments()] *)
Definition collectArguments : jsfun :=
  fun _ args => let* a := alloc (array_of args) in ret (VRef a).

(** The variables [map], [refs] and [counter] of one
    [createHashedMemoizeFunction(fn, hashFn, limit)]. *)
Record hashedMemo := mkHashed {
  hmap : gmap string value;
  hrefs : list value;
  hcounter : nat
}.

Definition hashedEmpty : hashedMemo := mkHashed ∅ [] O.

(** The function [createHashedMemoizeFunction(fn, hashFn, limit)] returns,
    called on [this] with [args]. *)
Definition createHashedMemoizeFunction (fn hashFn : jsfun) (limit : value)
  (this : value) (args : list value) : M (heap * hashedMemo) value :=
  fun '(h, m) =>
    match hashFn this args h with
    | Ok (hashObj, h1) =>
        match serializeInternal (depth_bound h1) h1 hashObj (mkTrav (hrefs m) []) with
        | Ok (tok, t) =>
            match toString h1 tok with
            | Ok key =>
                let m1 := mkHashed (hmap m) (refs t) (hcounter m) in
                match hmap m1 !! key with
                | Some v => Ok (v, (h1, m1))
                | None =>
                    let m2 :=
                      if strict_eq (VNum (Int (Z.of_nat (hcounter m1)))) limit
                      then hashedEmpty else m1 in
                    let m3 := mkHashed (hmap m2) (hrefs m2) (S (hcounter m2)) in
                    match fn this args h1 with
                    | Ok (v, h2) =>
                        Ok (v, (h2, mkHashed (memo_set key v (hmap m3)) (hrefs m3) (hcounter m3)))
                    | Throw e => Throw e
                    | Unmodelled => Unmodelled
                    | OutOfFuel => OutOfFuel
                    end
                end
            | Throw e => Throw e
            | Unmodelled => Unmodelled
            | OutOfFuel => OutOfFuel
            end
        | Throw e => Throw e
        | Unmodelled => Unmodelled
        | OutOfFuel => OutOfFuel
        end
    | Throw e => Throw e
    | Unmodelled => Unmodelled
    | OutOfFuel => OutOfFuel
    end.

(** ** Core: the registry of namespaces

    A namespace is a function object.  Its methods are its enumerable
    members; beside them it has members that are not enumerable: those of
    every function, those [getNewChainableClass] and [createNamespace]
    install, and [active].  [ns_methods] holds the former, under names other
    than those of the latter ([namespace_member_names]); [setMethod] keeps it
    so. *)

Module Core.

(** [STATIC], [INSTANCE] *)
Definition STATIC : Z := 1.
Definition INSTANCE : Z := 2.

(** [NATIVE_NAMES], split at the spaces. *)
Definition NATIVE_NAMES : list string :=
  ["Object"; "Number"; "String"; "Array"; "Date"; "RegExp"; "Function"].

(** The functions the registry handles, by the expression that creates
    them. *)
Inductive fnval :=
| FUser (length : nat) (body : jsfun)         (* a function of the caller *)
| FNative (cls name : string) (length : nat)  (* a built-in of the host *)
| FWithArguments (fn : fnval) (instance : bool) (* [wrapMethodWithArguments(fn, instance)] *)
| FFixed (n : nat) (fn : fnval)               (* [wrapInstanceMethodFixed(fn)], forwarding [n] arguments *)
| FChainable (fn : fnval)                     (* [wrapWithChainableResult(fn)] *)
| FDisambiguate (methodName : string)         (* [disambiguateMethod(methodName)] *)
| FValueOf                                    (* the [valueOf] of a chainable prototype *)
| FConstructor (owner : option nat).          (* a chainable class *)

(** [fn.length] *)
Definition fnLength (fn : fnval) : nat :=
  match fn with
  | FUser n _ => n
  | FNative _ _ n => n
  | FFixed n _ => n
  | FConstructor _ => 2
  | _ => 0
  end.

(** [fn.disambiguate], set by [disambiguateMethod] only. *)
Definition disambiguate (fn : fnval) : bool :=
  match fn with
  | FDisambiguate _ => true
  | _ => false
  end.

(** A function together with the properties [defineMethods] sets on it:
    [flags], [instance] (absent, or present and possibly undefined) and
    [static]. *)
Record method := mkMethod {
  m_fn : fnval;
  m_flags : option (list string);
  m_instance : option (option fnval);
  m_static : bool
}.

Definition plainMethod (fn : fnval) : method := mkMethod fn None None false.

(** A member of a chainable prototype, enumerable or not. *)
Record pentry := mkEntry {
  p_fn : fnval;
  p_enum : bool
}.

(** A namespace: a chainable class with its enumerable members (the
    methods), its [active] flag and the own members of its prototype. *)
Record namespace := mkNamespace {
  ns_name : string;
  ns_methods : list (string * method);
  ns_active : bool;
  ns_proto : list (string * pentry)
}.

(** A member of a native class or prototype. *)
Inductive nprop :=
| PFun (f : fnval)
| PData (isTruthy : bool)
| PThrows.

(** A native class of the global context: its own members and those of its
    prototype. *)
Record native := mkNative {
  n_static : list (string * nprop);
  n_proto : list (string * nprop)
}.

(** The variables of the module and the objects they refer to.  A namespace
    is identified by its address in [namespaces]. *)
Record state := mkState {
  allowObjectPrototype : bool;
  namespacesByName : list (string * nat);
  namespacesByClassString : list (string * nat);
  namespaces : list namespace;
  Sugar : list (string * nat);
  dcp : list (string * pentry);
  globalContext : list (string * native)
}.

Definition R := M state.

Definition set_allowObjectPrototype (b : bool) (st : state) : state :=
  mkState b (namespacesByName st) (namespacesByClassString st) (namespaces st)
    (Sugar st) (dcp st) (globalContext st).

Definition set_namespacesByName (l : list (string * nat)) (st : state) : state :=
  mkState (allowObjectPrototype st) l (namespacesByClassString st) (namespaces st)
    (Sugar st) (dcp st) (globalContext st).

Definition set_namespacesByClassString (l : list (string * nat)) (st : state) : state :=
  mkState (allowObjectPrototype st) (namespacesByName st) l (namespaces st)
    (Sugar st) (dcp st) (globalContext st).

Definition set_namespaces (l : list namespace) (st : state) : state :=
  mkState (allowObjectPrototype st) (namespacesByName st)
    (namespacesByClassString st) l (Sugar st) (dcp st) (globalContext st).

Definition set_Sugar (l : list (string * nat)) (st : state) : state :=
  mkState (allowObjectPrototype st) (namespacesByName st)
    (namespacesByClassString st) (namespaces st) l (dcp st) (globalContext st).

Definition set_dcp (l : list (string * pentry)) (st : state) : state :=
  mkState (allowObjectPrototype st) (namespacesByName st)
    (namespacesByClassString st) (namespaces st) (Sugar st) l (globalContext st).

Definition set_globalContext (l : list (string * native)) (st : state) : state :=
  mkState (allowObjectPrototype st) (namespacesByName st)
    (namespacesByClassString st) (namespaces st) (Sugar st) (dcp st) l.

(** [obj[key] = val] on an object used as a table. *)
Definition table_set {A} (key : string) (v : A) (l : list (string * A))
  : list (string * A) :=
  match assoc key l with
  | Some _ => assoc_replace key v l
  | None => l ++ [(key, v)]
  end.

(** [obj[key] = val] on an object literal used as a table: the assignment
    to [__proto__] runs the setter of [Object.prototype] and makes no
    property. *)
Definition literal_set {A} (key : string) (v : A) (l : list (string * A))
  : list (string * A) :=
  if String.eqb key "__proto__" then l else table_set key v l.

(** [proto[key] = fn]: an existing member keeps its enumerability. *)
Definition proto_set (key : string) (fn : fnval) (l : list (string * pentry))
  : list (string * pentry) :=
  match assoc key l with
  | Some e => assoc_replace key (mkEntry fn (p_enum e)) l
  | None => l ++ [(key, mkEntry fn true)]
  end.

Definition getNamespace (ns : nat) : R namespace :=
  let* st := getState in liftOpt (namespaces st !! ns).

Definition updNamespace (ns : nat) (f : namespace -> namespace) : R unit :=
  modifyState (fun st =>
    set_namespaces
      (match namespaces st !! ns with
       | Some o => <[ns := f o]> (namespaces st)
       | None => namespaces st
       end) st).

Definition set_proto (ns : nat) (methodName : string) (fn : fnval) : R unit :=
  updNamespace ns (fun o =>
    mkNamespace (ns_name o) (ns_methods o) (ns_active o)
      (proto_set methodName fn (ns_proto o))).

(** [getNewChainableClass(name)] for the class of a namespace. *)
Definition getNewChainableClass (name : string) : R nat :=
  let* st := getState in
  let fn := length (namespaces st) in
  let* _ := putState (set_namespaces
    (namespaces st ++
       [mkNamespace name [] false
          [("constructor", mkEntry (FConstructor (Some fn)) false);
           ("valueOf", mkEntry FValueOf false)]]) st) in
  ret fn.

(** The prototype of [DefaultChainable], as [getNewChainableClass('Chainable')]
    leaves it. *)
Definition dcp_initial : list (string * pentry) :=
  [("constructor", mkEntry (FConstructor None) false);
   ("valueOf", mkEntry FValueOf false)].

(** [Object.prototype[methodName]] *)
Definition objectProtoMember (st : state) (methodName : string)
  : result (option nprop) :=
  match assoc "Object" (globalContext st) with
  | Some n => Ok (assoc methodName (n_proto n))
  | None => Unmodelled
  end.

(** [setObjectChainableOnNamespace(sugarNamespace, methodName, fn)] *)
Definition setObjectChainableOnNamespace (sugarNamespace : nat)
  (methodName : string) (fn : fnval) : R unit :=
  let* o := getNamespace sugarNamespace in
  match assoc methodName (ns_proto o) with
  | Some _ => ret tt
  | None => set_proto sugarNamespace methodName fn
  end.

(** [mapObjectChainableToAllNamespaces(methodName, fn)] *)
Definition mapObjectChainableToAllNamespaces (methodName : string) (fn : fnval)
  : R unit :=
  let* st := getState in
  foldM (fun _ entry =>
           setObjectChainableOnNamespace (snd entry) methodName fn)
    (namespacesByName st) tt.

(** [mapObjectChainablesToNamespace(sugarNamespace)] *)
Definition mapObjectChainablesToNamespace (sugarNamespace : nat) : R unit :=
  let* st := getState in
  match assoc "Object" (Sugar st) with
  | None => ret tt
  | Some sugarObject =>
      let* o := getNamespace sugarObject in
      foldM (fun _ member =>
               let '(methodName, e) := member in
               if p_enum e
               then setObjectChainableOnNamespace sugarNamespace methodName (p_fn e)
               else ret tt)
        (ns_proto o) tt
  end.

(** [defineChainableMethod(sugarNamespace, methodName, fn)].  A member that
    [dcp] inherits is the very member of [Object.prototype]; an own one is a
    function the library created, hence another object.  Either way the
    member of [Object.prototype] is read: through [dcp[methodName]] when
    [dcp] has no own member, in the comparison otherwise.  Under the name
    [__proto__] the two assignments run the setter of [Object.prototype] and
    change the prototypes of the prototypes, which is left out. *)
Definition defineChainableMethod (sugarNamespace : nat) (methodName : string)
  (fn : fnval) : R unit :=
  if String.eqb methodName "__proto__" then unmodelled else
  let wrapped := FChainable fn in
  let* st := getState in
  let* inherited := liftR (objectProtoMember st methodName) in
  let* _ := match inherited with Some PThrows => unmodelled | _ => ret tt end in
  let '(existing, existingDisambiguate, collision) :=
    match assoc methodName (dcp st) with
    | Some e => (true, disambiguate (p_fn e), true)
    | None =>
        match inherited with
        | Some (PFun f) => (true, disambiguate f, false)
        | Some (PData t) => (t, false, false)
        | _ => (false, false, false)
        end
    end in
  let* _ :=
    if negb existing || negb existingDisambiguate then
      modifyState (set_dcp
        (proto_set methodName
           (if collision then FDisambiguate methodName else wrapped) (dcp st)))
    else ret tt in
  let* _ := set_proto sugarNamespace methodName wrapped in
  let* st' := getState in
  if decide (assoc "Object" (Sugar st') = Some sugarNamespace)
  then mapObjectChainableToAllNamespaces methodName wrapped
  else ret tt.

(** [nativeMethodProhibited(methodName)] *)
Definition nativeMethodProhibited (methodName : string) : bool :=
  String.eqb methodName "constructor" || String.eqb methodName "valueOf" ||
  String.eqb methodName "__proto__".

(** [mapNativeToChainable(name)], with the names [ownPropertyNames] gives. *)
Definition mapNativeToChainable (name : string) : R unit :=
  let* st := getState in
  let* sugarNamespace := liftOpt (assoc name (namespacesByName st)) in
  match assoc name (globalContext st) with
  | None => throw (TypeError "Cannot read property 'prototype' of undefined")
  | Some n =>
      foldM (fun _ member =>
               let '(methodName, p) := member in
               if nativeMethodProhibited methodName then ret tt else
               match p with
               | PFun fn => defineChainableMethod sugarNamespace methodName fn
               | PData _ | PThrows => ret tt
               end)
        (n_proto n) tt
  end.

(** The two objects [extend] writes to: the native class of the namespace
    and its prototype. *)
Inductive target := TClass | TProto.

Definition target_eqb (a b : target) : bool :=
  match a, b with
  | TClass, TClass | TProto, TProto => true
  | _, _ => false
  end.

(** [target[methodName]], found on the target or inherited by it. *)
Definition targetMember (st : state) (name : string) (t : target)
  (methodName : string) : result (option nprop) :=
  match assoc name (globalContext st) with
  | None => Unmodelled
  | Some n =>
      match t with
      | TProto =>
          match assoc methodName (n_proto n) with
          | Some p => Ok (Some p)
          | None =>
              if String.eqb name "Object" then Ok None
              else objectProtoMember st methodName
          end
      | TClass =>
          match assoc methodName (n_static n) with
          | Some p => Ok (Some p)
          | None =>
              match assoc "Function" (globalContext st) with
              | None => Unmodelled
              | Some f =>
                  match assoc methodName (n_proto f) with
                  | Some p => Ok (Some p)
                  | None => objectProtoMember st methodName
                  end
              end
          end
      end
  end.

Definition memberTruthy (p : option nprop) : result bool :=
  match p with
  | Some (PFun _) => Ok true
  | Some (PData t) => Ok t
  | Some PThrows => Unmodelled
  | None => Ok false
  end.

(** [setProperty(target, name, value)] on a native. *)
Definition setNativeProperty (name : string) (t : target) (key : string)
  (v : nprop) : R unit :=
  modifyState (fun st =>
    match assoc name (globalContext st) with
    | None => st
    | Some n =>
        let n' :=
          match t with
          | TClass => mkNative (table_set key v (n_static n)) (n_proto n)
          | TProto => mkNative (n_static n) (table_set key v (n_proto n))
          end in
        set_globalContext (table_set name n' (globalContext st)) st
    end).

(** [extendNative(target, source, polyfill, override)] *)
Definition extendNative (name : string) (t : target)
  (source : list (string * nprop)) (polyfill override : bool) : R unit :=
  foldM (fun _ member =>
           let '(key, method) := member in
           let* st := getState in
           let* present := liftR (targetMember st name t key ≫= memberTruthy) in
           if polyfill && negb override && present then ret tt
           else setNativeProperty name t key method)
    source tt.

(** An element of the [except] or [namespaces] option: the name of a method
    or a native class, given by its global name. *)
Inductive optEl :=
| ElName (s : string)
| ElClass (name : string).

Definition optEl_eqb (a b : optEl) : bool :=
  match a, b with
  | ElName x, ElName y | ElClass x, ElClass y => String.eqb x y
  | _, _ => false
  end.

Definition optEl_truthy (a : optEl) : bool :=
  match a with
  | ElName s => negb (String.eqb s "")
  | ElClass _ => true
  end.

(** The options of [extend]; [o_false] lists the other options whose value
    is [false]. *)
Record options := mkOptions {
  o_methods : option (list string);
  o_except : option (list optEl);
  o_namespaces : option (list optEl);
  o_objectPrototype : option bool;
  o_false : list string
}.

Definition noOptions : options := mkOptions None None None None [].

(** [opts[flag] === false] *)
Definition optionIsFalse (opts : options) (flag : string) : bool :=
  if String.eqb flag "objectPrototype"
  then match o_objectPrototype opts with Some false => true | _ => false end
  else mem_str flag (o_false opts).

(** The loop of [arrayOptionExists]: it ends at the first falsy element. *)
Fixpoint arrayScan (arr : list optEl) (val : optEl) : bool :=
  match arr with
  | [] => false
  | el :: arr' =>
      if optEl_truthy el
      then (if optEl_eqb el val then true else arrayScan arr' val)
      else false
  end.

(** [arrayOptionExists(field, val)] *)
Definition arrayOptionExists (field : option (list optEl)) (val : optEl) : bool :=
  match field with
  | Some arr => arrayScan arr val
  | None => false
  end.

(** [arrayOptionExcludes(field, val)] *)
Definition arrayOptionExcludes (field : option (list optEl)) (val : optEl) : bool :=
  match field with
  | Some _ => negb (arrayOptionExists field val)
  | None => false
  end.

(** [objectRestricted(name, target)] inside [extend] *)
Definition objectRestricted (st : state) (isObject : bool) (name : string)
  (t : target) : bool :=
  isObject && target_eqb t TProto &&
  (negb (allowObjectPrototype st) || String.eqb name "get" || String.eqb name "set").

(** [disallowedByFlags(methodName, target, flags)] *)
Definition disallowedByFlags (st : state) (opts : options) (nativeName : string)
  (methodName : string) (t : target) (flags : option (list string))
  : result bool :=
  match targetMember st nativeName t methodName ≫= memberTruthy with
  | Ok present =>
      match flags with
      | Some fl => Ok (present && existsb (optionIsFalse opts) fl)
      | None => Ok false
      end
  | Throw e => Throw e
  | Unmodelled => Unmodelled
  | OutOfFuel => OutOfFuel
  end.

(** [namespaceIsExcepted()] *)
Definition namespaceIsExcepted (opts : options) (nativeName : string) : bool :=
  arrayOptionExists (o_except opts) (ElClass nativeName) ||
  arrayOptionExcludes (o_namespaces opts) (ElClass nativeName).

(** [methodIsExcepted(methodName)] *)
Definition methodIsExcepted (opts : options) (methodName : string) : bool :=
  arrayOptionExists (o_except opts) (ElName methodName).

(** [canExtend(methodName, method, target)] *)
Definition canExtend (st : state) (opts : options) (nativeName : string)
  (isObject : bool) (methodName : string) (method : method) (t : target)
  : result bool :=
  if objectRestricted st isObject methodName t then Ok false else
  match disallowedByFlags st opts nativeName methodName t (m_flags method) with
  | Ok true => Ok false
  | Ok false => Ok (negb (methodIsExcepted opts methodName))
  | r => r
  end.

Definition instanceMember (i : option fnval) : nprop :=
  match i with
  | Some f => PFun f
  | None => PData false
  end.

(** The callback of the loop of [extend]: [acc] holds [staticMethods] and
    [instanceMethods]. *)
Definition collectMethod (st : state) (opts : options) (nativeName : string)
  (isObject : bool) (acc : list (string * nprop) * list (string * nprop))
  (candidate : string * option method)
  : result (list (string * nprop) * list (string * nprop)) :=
  let '(staticMethods, instanceMethods) := acc in
  let '(methodName, found) := candidate in
  match found with
  | None => Ok acc
  | Some method =>
      match
        match m_instance method with
        | Some i =>
            match canExtend st opts nativeName isObject methodName method TProto with
            | Ok true => Ok (literal_set methodName (instanceMember i) instanceMethods)
            | Ok false => Ok instanceMethods
            | Throw e => Throw e
            | Unmodelled => Unmodelled
            | OutOfFuel => OutOfFuel
            end
        | None => Ok instanceMethods
        end
      with
      | Ok instanceMethods' =>
          if m_static method then
            match canExtend st opts nativeName isObject methodName method TClass with
            | Ok true =>
                Ok (literal_set methodName (PFun (m_fn method)) staticMethods,
                    instanceMethods')
            | Ok false => Ok (staticMethods, instanceMethods')
            | Throw e => Throw e
            | Unmodelled => Unmodelled
            | OutOfFuel => OutOfFuel
            end
          else Ok (staticMethods, instanceMethods')
      | Throw e => Throw e
      | Unmodelled => Unmodelled
      | OutOfFuel => OutOfFuel
      end
  end.

Fixpoint foldR {A B} (f : A -> B -> result A) (l : list B) (a : A) : result A :=
  match l with
  | [] => Ok a
  | b :: l' =>
      match f a b with
      | Ok a' => foldR f l' a'
      | r => r
      end
  end.

(** [sugarNamespace.extend(opts)], the function [extend] that
    [createNamespace] makes for the namespace [sugarNamespace]. *)
Definition extend (sugarNamespace : nat) (opts : options) : R unit :=
  let* o := getNamespace sugarNamespace in
  let name := ns_name o in
  let isObject := String.eqb name "Object" in
  let* st0 := getState in
  match assoc name (globalContext st0) with
  | None => throw (TypeError "Cannot read property 'prototype' of undefined")
  | Some _ =>
      if namespaceIsExcepted opts name then ret tt else
      let* _ :=
        match isObject, o_objectPrototype opts with
        | true, Some b => modifyState (set_allowObjectPrototype b)
        | _, _ => ret tt
        end in
      let* st := getState in
      let candidates :=
        match o_methods opts with
        | Some methodsByName =>
            map (fun methodName => (methodName, assoc methodName (ns_methods o)))
              methodsByName
        | None => map (fun member => (fst member, Some (snd member))) (ns_methods o)
        end in
      let* (staticMethods, instanceMethods) :=
        liftR (foldR (collectMethod st opts name isObject) candidates ([], [])) in
      let* _ := extendNative name TClass staticMethods false false in
      let* _ := extendNative name TProto instanceMethods false false in
      match o_methods opts with
      | Some _ => ret tt
      | None =>
          updNamespace sugarNamespace (fun o =>
            mkNamespace (ns_name o) (ns_methods o) true (ns_proto o))
      end
  end.

(** [Sugar(arg)], the global [extend]. *)
Definition SugarExtend (arg : options) : R unit :=
  let* st := getState in
  foldM (fun _ member =>
           let '(name, sugarNamespace) := member in
           let* st' := getState in
           match assoc name (namespacesByName st') with
           | Some _ => extend sugarNamespace arg
           | None => ret tt
           end)
    (Sugar st) tt.

(** [wrapMethodWithArguments(fn, instance)] *)
Definition wrapMethodWithArguments (fn : fnval) (instance : bool) : fnval :=
  FWithArguments fn instance.

(** [wrapInstanceMethodFixed(fn)]: the [switch] has no case for a length
    above 5, and the function then returns [undefined]. *)
Definition wrapInstanceMethodFixed (fn : fnval) : option fnval :=
  match fnLength fn with
  | 0%nat | 1%nat => Some (FFixed 0 fn)   (* function() { return fn(this); } *)
  | 2%nat => Some (FFixed 1 fn)           (* function(a) { return fn(this, a); } *)
  | 3%nat => Some (FFixed 2 fn)           (* function(a, b) { ... } *)
  | 4%nat => Some (FFixed 3 fn)           (* function(a, b, c) { ... } *)
  | 5%nat => Some (FFixed 4 fn)           (* function(a, b, c, d) { ... } *)
  | _ => None
  end.

(** [wrapInstanceMethod(fn, args)] *)
Definition wrapInstanceMethod (fn : fnval) (args : bool) : option fnval :=
  if args then Some (wrapMethodWithArguments fn true)
  else wrapInstanceMethodFixed fn.

(** The members of a namespace that are no methods: [length], [name] and
    [prototype], which every function has; [arguments], [caller] and
    [__proto__], accessors it inherits; [toString], the [define...]
    functions, [alias] and [extend], which [getNewChainableClass] and
    [createNamespace] install with [setProperty]; and [active], which
    [extend] sets and [defineMethods] reads. *)
Definition namespace_member_names : list string :=
  ["length"; "name"; "prototype"; "arguments"; "caller"; "__proto__";
   "toString"; "defineStatic"; "defineInstance"; "defineInstanceAndStatic";
   "defineStaticWithArguments"; "defineInstanceWithArguments";
   "defineStaticPolyfill"; "defineInstancePolyfill"; "alias"; "extend";
   "active"].

Definition isNamespaceMember (methodName : string) : bool :=
  mem_str methodName namespace_member_names.

(** [setMethod(sugarNamespace, methodName, method)].  The assignment
    [sugarNamespace[methodName] = method] makes or replaces an enumerable
    member, except under the name of a member that is no method: there it
    throws, runs an accessor or replaces that member, which is left out. *)
Definition setMethod (sugarNamespace : nat) (methodName : string)
  (method : method) : R unit :=
  if isNamespaceMember methodName then unmodelled else
  let* _ := updNamespace sugarNamespace (fun o =>
    mkNamespace (ns_name o) (table_set methodName method (ns_methods o))
      (ns_active o) (ns_proto o)) in
  match m_instance method with
  | Some (Some instance) => defineChainableMethod sugarNamespace methodName instance
  | _ => ret tt
  end.

(** [!!method.instance] *)
Definition hasInstance (method : method) : bool :=
  match m_instance method with
  | Some (Some _) => true
  | _ => false
  end.

(** [defineMethods(sugarNamespace, methods, type, args, flags)] *)
Definition defineMethods (sugarNamespace : nat) (methods : list (string * method))
  (type : Z) (args : bool) (flags : option (list string)) : R unit :=
  foldM (fun _ member =>
           let '(methodName, method) := member in
           let staticMethod :=
             if args then plainMethod (wrapMethodWithArguments (m_fn method) false)
             else method in
           let staticMethod :=
             match flags with
             | Some _ =>
                 mkMethod (m_fn staticMethod) flags (m_instance staticMethod)
                   (m_static staticMethod)
             | None => staticMethod
             end in
           let staticMethod :=
             if negb (Z.eqb (Z.land type INSTANCE) 0) && negb (hasInstance method) then
               let instanceMethod := wrapInstanceMethod (m_fn method) args in
               mkMethod (m_fn staticMethod) (m_flags staticMethod)
                 (Some instanceMethod) (m_static staticMethod)
             else staticMethod in
           let staticMethod :=
             if negb (Z.eqb (Z.land type STATIC) 0) then
               mkMethod (m_fn staticMethod) (m_flags staticMethod)
                 (m_instance staticMethod) true
             else staticMethod in
           let* _ := setMethod sugarNamespace methodName staticMethod in
           let* o := getNamespace sugarNamespace in
           if ns_active o then extend sugarNamespace noOptions else ret tt)
    methods tt.

(** The functions [defineWithOptionCollect] installs. *)
Definition defineStatic ns methods flags := defineMethods ns methods STATIC false flags.
Definition defineInstance ns methods flags := defineMethods ns methods INSTANCE false flags.
Definition defineInstanceAndStatic ns methods flags :=
  defineMethods ns methods (Z.lor INSTANCE STATIC) false flags.
Definition defineStaticWithArguments ns methods flags :=
  defineMethods ns methods STATIC true flags.
Definition defineInstanceWithArguments ns methods flags :=
  defineMethods ns methods INSTANCE true flags.

(** [sugarNamespace.defineStaticPolyfill(methods, override)] *)
Definition defineStaticPolyfill (sugarNamespace : nat)
  (methods : list (string * fnval)) (override : bool) : R unit :=
  let* o := getNamespace sugarNamespace in
  extendNative (ns_name o) TClass (map (fun m => (fst m, PFun (snd m))) methods)
    true override.

(** [sugarNamespace.defineInstancePolyfill(methods, override)] *)
Definition defineInstancePolyfill (sugarNamespace : nat)
  (methods : list (string * fnval)) (override : bool) : R unit :=
  let* o := getNamespace sugarNamespace in
  let* _ :=
    extendNative (ns_name o) TProto (map (fun m => (fst m, PFun (snd m))) methods)
      true override in
  foldM (fun _ m => defineChainableMethod sugarNamespace (fst m) (snd m)) methods tt.

(** The members a function inherits from [Function.prototype] and
    [Object.prototype]. *)
Definition function_proto_names : list string :=
  ["apply"; "bind"; "call"; "constructor"; "toString"; "toLocaleString";
   "valueOf"; "hasOwnProperty"; "isPrototypeOf"; "propertyIsEnumerable";
   "__defineGetter__"; "__defineSetter__"; "__lookupGetter__";
   "__lookupSetter__"].

(** [sugarNamespace.alias(name, source)] for a [source] that is a name.
    [sugarNamespace[source]] is a method, a member that is no method (left
    out), or undefined; [setMethod] then assigns undefined before it throws
    on [method.instance]. *)
Definition alias (sugarNamespace : nat) (name source : string) : R unit :=
  let* o := getNamespace sugarNamespace in
  match assoc source (ns_methods o) with
  | Some method => setMethod sugarNamespace name method
  | None =>
      if isNamespaceMember source || mem_str source function_proto_names
         || isNamespaceMember name
      then unmodelled
      else throw (TypeError "Cannot read property 'instance' of undefined")
  end.

(** The members of [Sugar] that are no namespaces: those of every function,
    and those [setGlobalProperties] installs. *)
Definition sugar_member_names : list string :=
  ["length"; "name"; "prototype"; "arguments"; "caller"; "__proto__";
   "extend"; "toString"; "createNamespace"; "util"].

Definition isSugarMember (name : string) : bool :=
  mem_str name sugar_member_names.

(** [createNamespace(name)].  The assignments [namespacesByName[name] =
    sugarNamespace] and [Sugar[name] = sugarNamespace] make the entries of
    the tables, except under the name of a member of [Sugar] that is no
    namespace, which is left out. *)
Definition createNamespace (name : string) : R nat :=
  if isSugarMember name then unmodelled else
  let* sugarNamespace := getNewChainableClass name in
  let* _ := modifyState (fun st =>
    set_namespacesByName (table_set name sugarNamespace (namespacesByName st)) st) in
  let* _ := modifyState (fun st =>
    set_namespacesByClassString
      (table_set ("[object " +:+ name +:+ "]") sugarNamespace
         (namespacesByClassString st)) st) in
  let* _ := mapNativeToChainable name in
  let* _ := mapObjectChainablesToNamespace sugarNamespace in
  let* _ := modifyState (fun st =>
    set_Sugar (table_set name sugarNamespace (Sugar st)) st) in
  ret sugarNamespace.

(** The variables of the module before [setupGlobal] runs, for a given
    global context. *)
Definition initial (globals : list (string * native)) : state :=
  mkState false [] [] [] [] dcp_initial globals.

(** [setupGlobal()], when no [Sugar] global exists yet. *)
Definition setupGlobal : R unit :=
  foldM (fun _ name => let* _ := createNamespace name in ret tt) NATIVE_NAMES tt.

(** *** Calling the functions of the registry *)

Definition argument (args : list value) (i : nat) : value := nth i args VUndefined.

(** [new fn(obj)] for the chainable class of [owner]; a prototype whose
    [constructor] was replaced runs a constructor of the caller. *)
Definition newChainable (st : state) (owner : option nat) (obj : value) : H value :=
  let proto :=
    match owner with
    | None => Some (dcp st)
    | Some ns => ns_proto <$> namespaces st !! ns
    end in
  match proto ≫= assoc "constructor" with
  | Some (mkEntry (FConstructor owner') _) =>
      if decide (owner' = owner) then
        let* a := alloc (mkObject (KChainable owner) [("raw", obj)]) in
        ret (VRef a)
      else unmodelled
  | _ => unmodelled
  end.

Definition readRaw (this : value) : H value :=
  readH (fun h => getProp h this "raw").

(** The call [fn.apply(this, args)] of a function that is no
    disambiguation function. *)
Fixpoint callPlain (st : state) (fn : fnval) (this : value) (args : list value)
  {struct fn} : H value :=
  match fn with
  | FUser _ body => body this args
  | FNative _ _ _ => unmodelled
  | FWithArguments fn' instance =>
      let startCollect := Z.of_nat (fnLength fn') - 1 - (if instance then 1 else 0) in
      let positional := map (argument args) (seq 0 (Z.to_nat startCollect)) in
      let collected := drop (Z.to_nat startCollect) args in
      let* collectedArgs := alloc (array_of collected) in
      callPlain st fn' this
        ((if instance then [this] else []) ++ positional ++ [VRef collectedArgs])
  | FFixed n fn' => callPlain st fn' VUndefined (this :: map (argument args) (seq 0 n))
  | FChainable fn' =>
      let* raw := readRaw this in
      let* r := callPlain st fn' raw args in
      newChainable st None r
  | FDisambiguate _ => unmodelled
  | FValueOf => readRaw this
  | FConstructor _ => unmodelled
  end.

(** The namespace [disambiguateMethod] finds for [raw]. *)
Definition resolveNamespace (st : state) (h : heap) (raw : value)
  : result (option nat) :=
  match raw with
  | VUndefined | VNull => Ok (assoc "Object" (Sugar st))
  | _ =>
      match classToString h raw with
      | None => Unmodelled
      | Some cls =>
          match assoc cls (namespacesByClassString st) with
          | Some ns => Ok (Some ns)
          | None => Ok (assoc "Object" (Sugar st))
          end
      end
  end.

(** [new sugarNamespace(raw)[methodName]]: the member of the prototype of
    the namespace, or the one [Object.prototype] hands down. *)
Definition fetchMethod (st : state) (sugarNamespace : nat) (methodName : string)
  : result (option fnval) :=
  if String.eqb methodName "raw" then Unmodelled else
  match namespaces st !! sugarNamespace with
  | None => Unmodelled
  | Some o =>
      match assoc methodName (ns_proto o) with
      | Some e => Ok (Some (p_fn e))
      | None =>
          p ← objectProtoMember st methodName;
          match p with
          | Some (PFun f) => Ok (Some f)
          | None => Ok None
          | _ => Unmodelled
          end
      end
  end.

(** The function [disambiguateMethod(methodName)] returns, called on
    [this] with [args]. *)
Definition disambiguateMethod (st : state) (methodName : string) (this : value)
  (args : list value) : H value :=
  let* raw := readRaw this in
  let* h := getState in
  let* resolved := liftR (resolveNamespace st h raw) in
  match resolved with
  | None => throw (TypeError "sugarNamespace is not a constructor")
  | Some sugarNamespace =>
      let* _ := newChainable st (Some sugarNamespace) raw in
      let* fetched := liftR (fetchMethod st sugarNamespace methodName) in
      match fetched with
      | None => throw (TypeError "Cannot read property 'disambiguate' of undefined")
      | Some fn =>
          if disambiguate fn then
            let* text := readH (fun h => toString h raw) in
            throw (TypeError ("Cannot resolve namespace for " +:+ text))
          else callPlain st fn this args
      end
  end.

(** The call [fn.apply(this, args)]. *)
Definition call (st : state) (fn : fnval) (this : value) (args : list value)
  : H value :=
  match fn with
  | FDisambiguate methodName => disambiguateMethod st methodName this args
  | _ => callPlain st fn this args
  end.

(** [new Sugar.X(obj).methodName(args)] and its kin: the call of a member
    of a chainable on that chainable.  A member of the chainable itself,
    as [raw] is, comes before those of the prototype and is no method: it is
    left out. *)
Definition invoke (st : state) (this : value) (methodName : string)
  (args : list value) : H value :=
  let* h := getState in
  match this with
  | VRef a =>
      match h !! a with
      | Some (mkObject (KChainable owner) props) =>
          let proto :=
            match owner with
            | None => Some (dcp st)
            | Some ns => ns_proto <$> namespaces st !! ns
            end in
          match assoc methodName props, proto ≫= assoc methodName with
          | None, Some e => call st (p_fn e) this args
          | _, _ => unmodelled
          end
      | _ => unmodelled
      end
  | _ => unmodelled
  end.

End Core.

(** ** Common: the path resolver *)

(** Strings are sequences of code units below 256. *)

Fixpoint contains (sub s : string) : bool :=
  String.prefix sub s ||
  match s with
  | EmptyString => false
  | String _ s' => contains sub s'
  end.

(** [str.split(c)] for a one-character separator. *)
Fixpoint split_on (c : ascii) (s : string) : list string :=
  match s with
  | EmptyString => [EmptyString]
  | String d s' =>
      if Ascii.eqb d c then EmptyString :: split_on c s'
      else
        match split_on c s' with
        | [] => [String d EmptyString]
        | p :: ps => String d p :: ps
        end
  end.

(** [periodSplit(str)] *)
Definition periodSplit (str : string) : list string := split_on "." str.

(** [str.indexOf(c)] *)
Fixpoint index_of_char (c : ascii) (s : string) : option nat :=
  match s with
  | EmptyString => None
  | String d s' =>
      if Ascii.eqb d c then Some O else S <$> index_of_char c s'
  end.

(** [str.slice(0, -1)] *)
Fixpoint drop_last (s : string) : string :=
  match s with
  | EmptyString => EmptyString
  | String _ EmptyString => EmptyString
  | String c s' => String c (drop_last s')
  end.

Definition is_range_char (c : ascii) : bool := is_digit c || Ascii.eqb c "-".

(** The characters [.] does not match, among the code units below 256. *)
Definition is_line_terminator (c : ascii) : bool :=
  let n := nat_of_ascii c in (n =? 10)%nat || (n =? 13)%nat.

Fixpoint span (p : ascii -> bool) (s : string) : string * string :=
  match s with
  | EmptyString => (EmptyString, EmptyString)
  | String c s' =>
      if p c then let '(a, b) := span p s' in (String c a, b)
      else (EmptyString, s)
  end.

(** The part of [PROPERTY_RANGE_REG] after its group 1, at the head of [s]:
    an opening bracket, a run of digits and minus signs (group 2), two
    periods, another such run (group 3), a closing bracket, and the rest of
    the string (group 4), free of line terminators.  The runs are greedy, and
    a shorter run leaves a digit or a minus sign where a period or the
    bracket must follow. *)
Definition match_range_here (s : string) : option (string * string * string) :=
  match s with
  | String "[" r =>
      let '(m2, r1) := span is_range_char r in
      match r1 with
      | String "." (String "." r2) =>
          let '(m3, r3) := span is_range_char r2 in
          match r3 with
          | String "]" r4 =>
              if all_chars (fun c => negb (is_line_terminator c)) r4
              then Some (m2, m3, r4) else None
          | _ => None
          end
      | _ => None
      end
  | _ => None
  end.

(** [key.match(PROPERTY_RANGE_REG)]: the groups 1 to 4.  The lazy group 1
    is the shortest prefix after which the rest of the pattern matches. *)
Fixpoint match_range_from (leading : string) (s : string)
  : option (string * string * string * string) :=
  match match_range_here s with
  | Some (m2, m3, trailing) => Some (leading, m2, m3, trailing)
  | None =>
      match s with
      | EmptyString => None
      | String c s' =>
          if is_line_terminator c then None
          else match_range_from (leading +:+ String c EmptyString) s'
      end
  end.

Definition PROPERTY_RANGE_REG (key : string)
  : option (string * string * string * string) :=
  match_range_from "" key.

(** [isString(obj)] on the modelled values. *)
Definition isString (v : value) : bool :=
  match v with VStr _ => true | _ => false end.

(** [Array.isArray(obj)] *)
Definition isArray (h : heap) (v : value) : bool :=
  match v with
  | VRef a =>
      match h !! a with
      | Some (mkObject (KArray _) _) => true
      | _ => false
      end
  | _ => false
  end.

(** [assertArray(obj)] *)
Definition assertArray (obj : value) : H unit :=
  let* h := getState in
  if isArray h obj then ret tt else throw (TypeError "Array required").

(** [assertWritable(obj)] *)
Definition assertWritable (obj : value) : H unit :=
  let* h := getState in
  if isPrimitive obj (typeof h obj)
  then throw (TypeError "Property cannot be written")
  else ret tt.

(** [x + ns.length] for a number [x]: a sum when the length is a number or
    undefined. *)
Definition plus_length (x : number) (len : value) : option number :=
  match len with
  | VNum n => num_add x n
  | VUndefined => Some NaN
  | _ => None
  end.

(** ToInteger, for the arguments of [slice]. *)
Definition to_integer (n : number) : option Z :=
  match n with
  | NaN | NegZero => Some 0
  | Int z => Some z
  | PosInf | NegInf => None
  end.

(** [arr.slice(start, end)]: the indices present in the range are copied,
    the holes stay holes. *)
Definition slice (arr : value) (start final : number) : H value :=
  let* h := getState in
  match arr with
  | VRef a =>
      match h !! a with
      | Some (mkObject (KArray len) props) =>
          let* s := liftOpt (to_integer start) in
          let* e := liftOpt (to_integer final) in
          let len := Z.of_nat len in
          let k := if Z.ltb s 0 then Z.max (len + s) 0 else Z.min s len in
          let f := if Z.ltb e 0 then Z.max (len + e) 0 else Z.min e len in
          let count := Z.to_nat (f - k) in
          let copied :=
            omap (fun n =>
                    match assoc (index_key (Z.to_nat k + n)) props with
                    | Some v => Some (index_key n, v)
                    | None => None
                    end) (seq 0 count) in
          let* r := alloc (mkObject (KArray count) copied) in
          ret (VRef r)
      | _ => unmodelled
      end
  | _ => unmodelled
  end.

(** [arr.map(fn)]: [fn] is applied to the elements present. *)
Definition arrayMap (arr : value) (fn : value -> H value) : H value :=
  let* h := getState in
  match arr with
  | VRef a =>
      match h !! a with
      | Some (mkObject (KArray len) props) =>
          let* mapped :=
            foldM (fun acc n =>
                     match assoc (index_key n) props with
                     | Some el =>
                         let* r := fn el in
                         ret (acc ++ [(index_key n, r)])
                     | None => ret acc
                     end) (seq 0 len) [] in
          let* r := alloc (mkObject (KArray len) mapped) in
          ret (VRef r)
      | _ => unmodelled
      end
  | _ => unmodelled
  end.

(** The state of the two loops of [handleDeepProperty]: the namespace
    reached, or the value a [return] inside the loops gave. *)
Inductive walk :=
| Continue (ns : value)
| Return (v : value).

(** The body of the inner loop of [handleDeepProperty], for the key
    [ps[j]] of the part [bs[i]]. *)
Definition handleKey (any : value) (has fill fillLast : bool) (val : value)
  (blen i plen j : nat) (part : string) (ns : value) : H walk :=
  let set := negb (strict_eq val VUndefined) in
  let isLast := (i =? blen - 1)%nat && (j =? plen - 1)%nat in
  let cbi := index_of_char "]" part in
  let isIndex := match cbi with Some _ => true | None => false end in
  let isPush := set && match cbi with Some O => true | _ => false end in
  let nextIsIndex := (1 <? blen)%nat && (j =? plen - 1)%nat in
  let* key :=
    if isPush then readH (fun h => getProp h ns "length")
    else if isIndex then ret (VStr (drop_last part))
    else ret (VStr part) in
  let* key :=
    if isIndex then
      let* n := liftOpt (to_number key) in
      if num_ltb n (Int 0) then
        let* len := readH (fun h => getProp h ns "length") in
        let* sum := liftOpt (plus_length n len) in
        ret (VNum sum)
      else ret key
    else ret key in
  if negb ((0 <? i)%nat || truthy key || (blen =? 1)%nat) then ret (Continue ns) else
  let* name := readH (fun h => toString h key) in
  let* exists_ :=
    if truthy any then readH (fun h => hasIn h ns name)
    else readH (fun h => hasOwn h ns name) in
  if fill && (negb isLast || fillLast) && negb exists_ then
    let* fresh :=
      alloc (if nextIsIndex || (fillLast && isLast)
             then mkObject (KArray 0) [] else mkObject KObject []) in
    let* _ := writeH (fun h => setProp h ns name (VRef fresh)) in
    ret (Continue (VRef fresh))
  else if has && (isLast || negb exists_) then ret (Return (VBool exists_))
  else
    let* _ :=
      if negb has && set && isLast then
        let* _ := assertWritable ns in
        writeH (fun h => setProp h ns name val)
      else ret tt in
    if exists_ then
      let* v := readH (fun h => getProp h ns name) in ret (Continue v)
    else ret (Continue VUndefined).

(** The inner loop, over the keys [ps] of the part [bs[i]]. *)
Definition walkKeys (any : value) (has fill fillLast : bool) (val : value)
  (blen i : nat) (ps : list string) (w : walk) : H walk :=
  foldM (fun w jp =>
           match w with
           | Return _ => ret w
           | Continue ns =>
               handleKey any has fill fillLast val blen i (length ps) (fst jp)
                 (snd jp) ns
           end)
    (imap (fun j p => (j, p)) ps) w.

(** The strings an array used as accessor holds. *)
Definition accessorKeys (h : heap) (key : value) : result (list string) :=
  match key with
  | VRef a =>
      match h !! a with
      | Some (mkObject (KArray len) props) =>
          mapR (fun n =>
                  match assoc (index_key n) props with
                  | Some (VStr s) => Ok s
                  | _ => Unmodelled
                  end) (seq 0 len)
      | _ => Unmodelled
      end
  | _ => Unmodelled
  end.

(** The range loop of [handleArrayIndexRange]: [count] iterations from
    [i]. *)
Fixpoint rangeLoop (body : string -> H value) (trailing : string) (i : Z)
  (count : nat) : H unit :=
  match count with
  | O => ret tt
  | S count' =>
      let* _ := body (Z_to_string i +:+ trailing) in
      rangeLoop body trailing (i + 1) count'
  end.

(** [handleArrayIndexRange(obj, key, any, val)]; [handleDeepProperty] is
    the function it calls back. *)
Definition handleArrayIndexRange
  (handleDeepProperty :
     value -> value -> value -> bool -> bool -> bool -> value -> H value)
  (obj : value) (key : string) (any : value) (val : value) : H value :=
  match PROPERTY_RANGE_REG key with
  | None => ret VUndefined
  | Some (leading, m2, m3, trailing) =>
      let set := negb (strict_eq val VUndefined) in
      let* arr :=
        if negb (String.eqb leading "")
        then handleDeepProperty obj (VStr leading) any false set true VUndefined
        else ret obj in
      let* _ := assertArray arr in
      let* len := readH (fun h => getProp h arr "length") in
      let* start :=
        if negb (String.eqb m2 "") then liftOpt (str_to_number m2)
        else ret (Int 0) in
      let* final :=
        if negb (String.eqb m3 "") then liftOpt (str_to_number m3)
        else liftOpt (to_number len) in
      let* final :=
        if num_eqb final (Int (-1)) then liftOpt (to_number len)
        else liftOpt (num_add final (Int 1)) in
      if set then
        let* _ :=
          match to_integer start, to_integer final with
          | Some s, Some e =>
              if num_ltb start final
              then rangeLoop (fun k => handleDeepProperty arr (VStr k) any false
                                         true false val)
                     trailing s (Z.to_nat (e - s))
              else ret tt
          | _, _ => unmodelled
          end in
        ret arr
      else
        let* arr := slice arr start final in
        if negb (String.eqb trailing "") then
          let trailing :=
            match trailing with
            | String "." rest => rest
            | _ => trailing
            end in
          arrayMap arr (fun el =>
            handleDeepProperty el (VStr trailing) VUndefined false false false
              VUndefined)
        else ret arr
  end.

(** [handleDeepProperty(obj, key, any, has, fill, fillLast, val)];
    [handleDeepProperty'] is the function [handleArrayIndexRange] calls
    back. *)
Definition handleDeepProperty_body
  (handleDeepProperty' :
     value -> value -> value -> bool -> bool -> bool -> value -> H value)
  (obj key any : value) (has fill fillLast : bool) (val : value) : H value :=
  let ns := if truthy obj then obj else VUndefined in
  match key with
  | VUndefined | VNull => ret VUndefined
  | _ =>
      let* h := getState in
      let* bs :=
        if isObjectType h key then
          let* ps := liftR (accessorKeys h key) in
          ret (inr [ps])
        else
          let* key := liftR (toString h key) in
          if contains ".." key then ret (inl key)
          else ret (inr (map periodSplit (split_on "[" key))) in
      match bs with
      | inl key => handleArrayIndexRange handleDeepProperty' obj key any val
      | inr bs =>
          let* w :=
            foldM (fun w ips =>
                     walkKeys any has fill fillLast val (length bs) (fst ips)
                       (snd ips) w)
              (imap (fun i ps => (i, ps)) bs) (Continue ns) in
          match w with
          | Continue ns => ret ns
          | Return v => ret v
          end
      end
  end.

(** The recursion of [handleDeepProperty] through [handleArrayIndexRange],
    [fuel] deep. *)
Fixpoint handleDeepProperty (fuel : nat) (obj key any : value)
  (has fill fillLast : bool) (val : value) : H value :=
  match fuel with
  | O => outOfFuel
  | S fuel' =>
      handleDeepProperty_body (handleDeepProperty fuel') obj key any has fill
        fillLast val
  end.

(** The nesting of ranges a key can ask for is below its length. *)
Definition key_fuel (h : heap) (key : value) : nat :=
  match key with
  | VStr s => S (String.length s)
  | _ => S (String.length (prim_to_string key))
  end.

(** [deepHasProperty(obj, key, any)] *)
Definition deepHasProperty (obj key any : value) : H value :=
  let* h := getState in
  handleDeepProperty (key_fuel h key) obj key any true false false VUndefined.

(** [deepGetProperty(obj, key, any)] *)
Definition deepGetProperty (obj key any : value) : H value :=
  let* h := getState in
  handleDeepProperty (key_fuel h key) obj key any false false false VUndefined.

(** [deepSetProperty(obj, key, val)] *)
Definition deepSetProperty (obj key val : value) : H value :=
  let* h := getState in
  let* _ := handleDeepProperty (key_fuel h key) obj key (VBool false) false true
              false val in
  ret obj.


(** ** Common: numbers and strings *)

(** ToInt32 and ToUint32 *)
Definition to_int32 (n : number) : Z :=
  match n with
  | Int z => (z + 2 ^ 31) mod 2 ^ 32 - 2 ^ 31
  | _ => 0
  end.

Definition to_uint32 (n : number) : Z :=
  match n with
  | Int z => z mod 2 ^ 32
  | _ => 0
  end.

(** [Math.abs(x)] *)
Definition num_abs (x : number) : number :=
  match x with
  | NaN => NaN
  | PosInf | NegInf => PosInf
  | NegZero => Int 0
  | Int z => Int (Z.abs z)
  end.

(** [- x] *)
Definition num_neg (x : number) : number :=
  match x with
  | NaN => NaN
  | PosInf => NegInf
  | NegInf => PosInf
  | NegZero => Int 0
  | Int 0 => NegZero
  | Int z => Int (- z)
  end.

(** [x - y] *)
Definition num_sub (x y : number) : option number := num_add x (num_neg y).

(** [x % y]: the remainder has the sign of the dividend, so a negative
    dividend that the divisor divides gives -0. *)
Definition num_rem (x y : number) : number :=
  match x, y with
  | NaN, _ | _, NaN => NaN
  | PosInf, _ | NegInf, _ => NaN
  | _, Int 0 | _, NegZero => NaN
  | _, PosInf | _, NegInf => x
  | NegZero, Int _ => NegZero
  | Int a, Int b =>
      let r := Z.rem a b in
      if Z.eqb r 0 then (if Z.ltb a 0 then NegZero else Int 0) else Int r
  end.

(** [repeatString(str, num)]: the loop, which shifts [num] down to 0 in at
    most 33 rounds, [num] being an integer of 32 bits after the first;
    [res] is the variable [result]. *)
Fixpoint repeatString_loop (fuel : nat) (res str : string) (num : number)
  : result string :=
  match fuel with
  | O => OutOfFuel
  | S fuel' =>
      if num_ltb (Int 0) num then
        let res := if Z.eqb (Z.land (to_int32 num) 1) 0 then res
                   else res +:+ str in
        let num := Z.shiftr (to_int32 num) 1 in
        let str := if Z.eqb num 0 then str else str +:+ str in
        repeatString_loop fuel' res str (Int num)
      else Ok res
  end.

(** [repeatString(str, num)] for a string [str]. *)
Definition repeatString (str : string) (num : number) : result string :=
  repeatString_loop 33 "" str num.

(** [padNumber(num, place, sign, base, replacement)] in base 10, for a
    number below 10^21, which [toString] writes without an exponent.  The
    modelled numbers have no fraction, which is what the [replace] drops. *)
Definition padNumber (num place : number) (sign : bool) (base : value)
  (replacement : string) : result string :=
  if truthy base && negb (strict_eq base (VNum (Int 10))) then Unmodelled else
  if negb (num_ltb (num_abs num) (Int (10 ^ 21))) then Unmodelled else
  let str := num_to_string (num_abs num) in
  match num_sub place (Int (Z.of_nat (String.length str))) with
  | None => Unmodelled
  | Some count =>
      match repeatString (if String.eqb replacement "" then "0" else replacement)
              count with
      | Ok padding =>
          let str := padding +:+ str in
          if sign || num_ltb num (Int 0)
          then Ok ((if num_ltb num (Int 0) then "-" else "+") +:+ str)
          else Ok str
      | Throw e => Throw e
      | Unmodelled => Unmodelled
      | OutOfFuel => OutOfFuel
      end
  end.

(** [isArrayIndex(n)] for a number [n] *)
Definition isArrayIndex (n : number) : bool :=
  num_eqb (Int (to_uint32 n)) n && negb (num_eqb n (Int 4294967295)).

(** [getNormalizedIndex(index, length, loop)] *)
Definition getNormalizedIndex (index length : number) (loop : bool)
  : option number :=
  let index :=
    if truthy (VNum index) && loop then num_rem index length else index in
  if num_ltb index (Int 0) then num_add length index else Some index.

(** [coercePositiveInteger(n)]; [trunc] leaves the modelled numbers as they
    are. *)
Definition coercePositiveInteger (n : value) : result number :=
  match to_number n with
  | None => Unmodelled
  | Some n =>
      let n := if truthy (VNum n) then n else Int 0 in
      if num_ltb n (Int 0) ||
         match n with PosInf | NegInf | NaN => true | _ => false end
      then Throw (RangeError "Invalid number")
      else Ok n
  end.

(** ** Function: partial application *)

(** [isDefined(o)] *)
Definition isDefined (o : value) : bool := negb (strict_eq o VUndefined).

(** The private property [lock] of a function made by [partial]: absent, or
    what [lock(fn, n)] has stored, [null] or a number. *)
Inductive lockSetting :=
| LockUnset
| LockNull
| LockNumber (n : number).

(** [lock(fn, n)] on a function made by [partial]: the value it stores. *)
Definition lockPartial (n : value) : result lockSetting :=
  match n with
  | VNum x => Ok (LockNumber x)
  | VRef _ => Unmodelled
  | _ => Ok LockNull
  end.

(** The two loops of [partialFn]: the curried arguments with the call-site
    arguments in the place of the undefined ones, then the call-site
    arguments that are left. *)
Definition partialArgs (curriedArgs arguments : list value) : list value :=
  let '(applyArgs, argIndex) :=
    fold_left (fun '(applyArgs, argIndex) arg =>
                 if isDefined arg then (applyArgs ++ [arg], argIndex)
                 else (applyArgs ++ [nth argIndex arguments VUndefined],
                       S argIndex))
      curriedArgs ([], 0%nat) in
  applyArgs ++ drop argIndex arguments.

(** [applyArgs.length = min(applyArgs.length, lock)] *)
Definition truncateArgs (applyArgs : list value) (lock : number)
  : result (list value) :=
  match lock with
  | Int z =>
      if Z.ltb z 0 then Throw (RangeError "Invalid array length")
      else Ok (take (Z.to_nat z) applyArgs)
  | NegZero => Ok []
  | PosInf => Ok applyArgs
  | NaN | NegInf => Throw (RangeError "Invalid array length")
  end.

(** [self instanceof partialFn] can hold for an object whose prototype
    chain the heap does not tell. *)
Definition instanceOfCaller (h : heap) (self : value) : bool :=
  match self with
  | VRef a =>
      match h !! a with
      | Some (mkObject (KHost _) _) | None => true
      | _ => false
      end
  | _ => false
  end.

(** The function [partial(fn, curriedArgs)] returns, with its private
    property [lock]. *)
Definition partial (fn : jsfun) (curriedArgs : list value) (lock : lockSetting)
  : jsfun :=
  fun this arguments =>
    let* h := getState in
    if instanceOfCaller h this then unmodelled else
    let applyArgs := partialArgs curriedArgs arguments in
    let lock :=
      match lock with
      | LockNull => LockNumber (Int (Z.of_nat (length curriedArgs)))
      | _ => lock
      end in
    let* applyArgs :=
      match lock with
      | LockNumber n => liftR (truncateArgs applyArgs n)
      | _ => ret applyArgs
      end in
    fn this applyArgs.

(** ** Common: merging and options *)

(** [simpleMerge(target, source)].  [forEachProperty] visits the own
    enumerable properties of [source]; its callback writes to [target] only,
    so that the properties of [source] are those it had at the start, also
    when [target] is [source] itself. *)
Definition simpleMerge (target source : value) : H value :=
  let* h := getState in
  let* props :=
    match source with
    | VRef a => liftOpt (oprops <$> h !! a)
    | VStr _ => unmodelled
    | _ => ret []
    end in
  let* _ :=
    foldM (fun _ member =>
             writeH (fun h => setProp h target (fst member) (snd member)))
      props tt in
  ret target.

(** [simpleClone(obj)] *)
Definition simpleClone (obj : value) : H value :=
  let* target := alloc (mkObject KObject []) in
  simpleMerge (VRef target) obj.

(** [defineOptionsAccessor(namespace, defaults)]: the object [obj] that the
    two accessors share. *)
Definition defineOptionsAccessor (defaults : value) : H value :=
  simpleClone defaults.

(** [getOption(name)] of [defineOptionsAccessor] *)
Definition getOption (obj : value) (name : string) : H value :=
  readH (fun h => getProp h obj name).

(** [setOption(name, val)] of [defineOptionsAccessor] *)
Definition setOption (obj defaults : value) (name : string) (val : value)
  : H unit :=
  let* val :=
    if strict_eq val VNull then readH (fun h => getProp h defaults name)
    else ret val in
  writeH (fun h => setProp h obj name val).

(** * Properties *)

(** ** Reading an object whose content is known *)

Section KnownObject.
Variables (h : heap) (a : nat) (o : object).
Hypothesis Ha : h !! a = Some o.

Lemma typeof_known :
  typeof h (VRef a) =
  match okind o with KFunction => "function" | _ => "object" end.
Proof using Ha. unfold typeof. rewrite Ha. by destruct o as [[] ?]. Qed.

Lemma classToString_known :
  classToString h (VRef a) = Some ("[object " +:+ kind_class (okind o) +:+ "]").
Proof using Ha. unfold classToString. by rewrite Ha. Qed.

Lemma getProp_known (key : string) (v : value) :
  assoc key (oprops o) = Some v -> getProp h (VRef a) key = Ok v.
Proof using Ha. intros Hk. unfold getProp. by rewrite Ha, Hk. Qed.

Lemma iterate_known {Acc} (sortedKeys : bool)
  (fn : string -> value -> bool -> Acc -> T Acc) (acc : Acc) :
  iterateWithCyclicCheck h (VRef a) sortedKeys fn acc =
  foldM (fun acc key =>
           let* val := liftR (getProp h (VRef a) key) in
           next fn val key acc)
    (if sortedKeys then sort_keys (getKeys o) else getKeys o) acc.
Proof using Ha. unfold iterateWithCyclicCheck. by rewrite Ha. Qed.
End KnownObject.

Definition is_zero (n : number) : bool :=
  match n with Int 0 | NegZero => true | _ => false end.

Lemma serialize_zero_arguments (h : heap) (a : nat) (n : number)
  (table : list value) (k : nat) :
  h !! a = Some (array_of [VNum n]) ->
  is_zero n = true ->
  serializeInternal (S (S k)) h (VRef a) (mkTrav table []) =
  Ok (VStr "object[object Array]0number00", mkTrav table []).
Proof.
  intros Ha Hz.
  assert (Hs : toString h (VRef a) = Ok "0").
  { unfold toString. cbn [toStringObj]. rewrite Ha.
    destruct n as [| | | |[| |]]; try discriminate Hz; reflexivity. }
  cbn [serializeInternal]. unfold serializeInternal_body at 1.
  unfold isSerializable, isObjectType, isPlainObject, serializeDeep, callToString.
  rewrite (typeof_known _ _ _ Ha), (classToString_known _ _ _ Ha),
    (iterate_known _ _ _ Ha), Hs.
  assert (Hp : getProp h (VRef a) "0" = Ok (VNum n)) by (by apply (getProp_known _ _ _ Ha)).
  cbn [array_of okind kind_class getKeys oprops imap map fst length].
  replace (sort_keys [index_key 0]) with ["0"] by reflexivity.
  cbn [foldM]. rewrite Hp.
  destruct n as [| | | |[| |]]; try discriminate Hz; reflexivity.
Qed.

(** ** Equality and serialization of the zeros and of NaN *)

Lemma lookup_alloc (h : heap) (o : object) : (h ++ [o]) !! length h = Some o.
Proof. by rewrite lookup_app_r, Nat.sub_diag by lia. Qed.

(** C7. [equal(0, -0)] is false: the two are [===], so the fast path is
    taken, and there [1 / 0] and [1 / -0] differ.  [equal(NaN, NaN)] is
    true: NaN is not [===] to itself, both sides have the class of numbers,
    and [objectIsEqual] compares the strings ["NaN"] of the two. *)
Theorem equal_zero_negzero_nan (h : heap) :
  strict_eq (VNum (Int 0)) (VNum NegZero) = true /\
  equal h (VNum (Int 0)) (VNum NegZero) = Ok false /\
  equal h (VNum NegZero) (VNum (Int 0)) = Ok false /\
  strict_eq (VNum NaN) (VNum NaN) = false /\
  callToString h (VNum NaN) = Ok "NaN" /\
  equal h (VNum NaN) (VNum NaN) = Ok true.
Proof. repeat split; reflexivity. Qed.

(** The function [1 / x] of the first argument, to be memoized. *)
Definition reciprocal : jsfun :=
  fun _ args =>
    match args with
    | VNum x :: _ =>
        match recip x with
        | Some r => ret (VNum r)
        | None => unmodelled
        end
    | _ => ret (VNum NaN)
    end.

(** C10. [serializeInternal] gives 0 and -0 the one token ["number0"], so a
    function memoized with the default hash ([collectArguments]) that was
    called with one zero answers a call with the other zero from its table:
    the result [v] of the first call comes back and [fn] is not called
    again (the heap only grows by the array of the arguments), although
    [isEqual] tells the two zeros apart. *)
Theorem memoize_confuses_zeros (fn : jsfun) (limit this : value) (h h1 : heap)
  (n1 n2 : number) (v : value) :
  is_zero n1 = true ->
  is_zero n2 = true ->
  fn this [VNum n1] (h ++ [array_of [VNum n1]]) = Ok (v, h1) ->
  serialize h (VNum n1) = Ok (VStr "number0") /\
  serialize h (VNum n2) = Ok (VStr "number0") /\
  equal h (VNum (Int 0)) (VNum NegZero) = Ok false /\
  exists m1,
    createHashedMemoizeFunction fn collectArguments limit this [VNum n1]
      (h, hashedEmpty) = Ok (v, (h1, m1)) /\
    createHashedMemoizeFunction fn collectArguments limit this [VNum n2]
      (h1, m1) = Ok (v, (h1 ++ [array_of [VNum n2]], m1)).
Proof.
  intros Hz1 Hz2 Hfn.
  split; [by destruct n1 as [| | | |[| |]]|].
  split; [by destruct n2 as [| | | |[| |]]|].
  split; [reflexivity|].
  exists (mkHashed (<["object[object Array]0number00" := v]> ∅) [] 1).
  split.
  - unfold createHashedMemoizeFunction, collectArguments, alloc, bind, ret.
    unfold depth_bound. cbn [Nat.add].
    rewrite (serialize_zero_arguments _ _ n1) by (apply lookup_alloc || done).
    cbn [toString prim_to_string hmap hrefs hcounter refs hashedEmpty].
    rewrite lookup_empty.
    replace (if strict_eq (VNum (Int (Z.of_nat 0))) limit then hashedEmpty
             else mkHashed ∅ [] 0) with hashedEmpty by (by destruct (strict_eq _ _)).
    rewrite Hfn. reflexivity.
  - unfold createHashedMemoizeFunction, collectArguments, alloc, bind, ret.
    unfold depth_bound. cbn [Nat.add].
    rewrite (serialize_zero_arguments _ _ n2) by (apply lookup_alloc || done).
    cbn [toString prim_to_string hmap hrefs hcounter refs].
    rewrite lookup_insert_eq. reflexivity.
Qed.

Lemma memoize_confuses_zeros_witness :
  exists m1,
    createHashedMemoizeFunction reciprocal collectArguments VUndefined VUndefined
      [VNum (Int 0)] ([], hashedEmpty) =
    Ok (VNum PosInf, ([array_of [VNum (Int 0)]], m1)) /\
    createHashedMemoizeFunction reciprocal collectArguments VUndefined VUndefined
      [VNum NegZero] ([array_of [VNum (Int 0)]], m1) =
    Ok (VNum PosInf,
        ([array_of [VNum (Int 0)]] ++ [array_of [VNum NegZero]], m1)).
Proof.
  apply (memoize_confuses_zeros reciprocal VUndefined VUndefined []
           [array_of [VNum (Int 0)]] (Int 0) NegZero (VNum PosInf));
    reflexivity.
Defined.

(** ** Ranges in paths *)

(** The array [[10, 20, 30, 40]], alone in its heap. *)
Definition tens : heap :=
  [array_of [VNum (Int 10); VNum (Int 20); VNum (Int 30); VNum (Int 40)]].

(** C2, as stated, fails: [PROPERTY_RANGE_REG] asks for brackets around the
    range, so for the strings ["1..2"], ["1..-1"] and ["0..1"]
    [handleArrayIndexRange] finds no match and returns undefined; nothing is
    read and nothing is written. *)
Lemma unbracketed_range_is_no_range :
  PROPERTY_RANGE_REG "1..2" = None /\
  deepGetProperty (VRef 0) (VStr "1..2") VUndefined tens = Ok (VUndefined, tens) /\
  deepGetProperty (VRef 0) (VStr "1..-1") VUndefined tens = Ok (VUndefined, tens) /\
  deepSetProperty (VRef 0) (VStr "0..1") (VNum (Int 99)) tens = Ok (VRef 0, tens).
Proof. repeat split; vm_compute; reflexivity. Qed.

(** C2, amended: with the range in brackets, [get] returns a new array
    holding the inclusive slice, an end of -1 standing for the end of the
    array, and [set] writes the value at every index of the slice, in
    place. *)
Theorem bracketed_range_get_set :
  deepGetProperty (VRef 0) (VStr "[1..2]") VUndefined tens =
    Ok (VRef 1, tens ++ [array_of [VNum (Int 20); VNum (Int 30)]]) /\
  deepGetProperty (VRef 0) (VStr "[1..-1]") VUndefined tens =
    Ok (VRef 1, tens ++ [array_of [VNum (Int 20); VNum (Int 30); VNum (Int 40)]]) /\
  deepSetProperty (VRef 0) (VStr "[0..1]") (VNum (Int 99)) tens =
    Ok (VRef 0,
        [array_of [VNum (Int 99); VNum (Int 99); VNum (Int 30); VNum (Int 40)]]).
Proof. repeat split; vm_compute; reflexivity. Qed.

(** ** Reasoning about computations *)

Lemma bind_Ok {S A B} (c : M S A) (k : A -> M S B) (s s' : S) (b : B) :
  bind c k s = Ok (b, s') ->
  exists a s1, c s = Ok (a, s1) /\ k a s1 = Ok (b, s').
Proof.
  unfold bind. destruct (c s) as [[a s1]| | |]; try discriminate. eauto.
Qed.

Section Respects.
Context {S : Type} (P : S -> S -> Prop) `{!Reflexive P, !Transitive P}.

(** Every successful run of [c] takes a state to one related to it. *)
Definition respects {A} (c : M S A) : Prop :=
  forall s a s', c s = Ok (a, s') -> P s s'.

Lemma respects_ret {A} (a : A) : respects (ret a).
Proof using Reflexive0. intros s a' s' [= _ <-]. reflexivity. Qed.

Lemma respects_bind {A B} (c : M S A) (k : A -> M S B) :
  respects c -> (forall a, respects (k a)) -> respects (bind c k).
Proof using Transitive0.
  intros Hc Hk s b s' (a & s1 & H1 & H2)%bind_Ok.
  transitivity s1; [by eapply Hc | by eapply Hk].
Qed.

Lemma respects_foldM {A B} (f : A -> B -> M S A) (l : list B) (a : A) :
  (forall a b, respects (f a b)) -> respects (foldM f l a).
Proof using Reflexive0 Transitive0.
  intros Hf. revert a. induction l as [|b l IH]; intros a; cbn [foldM].
  - apply respects_ret.
  - apply respects_bind; [apply Hf | intros a'; apply IH].
Qed.

Lemma respects_liftR {A} (r : result A) : respects (liftR r).
Proof using Reflexive0.
  intros s a s'. unfold liftR. destruct r; intros [= _ <-] || discriminate.
  reflexivity.
Qed.

Lemma respects_liftOpt {A} (o : option A) : respects (liftOpt o).
Proof using Reflexive0.
  destruct o; [apply respects_ret | discriminate].
Qed.

Lemma respects_getState : respects getState.
Proof using Reflexive0. intros s a s' [= _ <-]. reflexivity. Qed.

Lemma respects_throw {A} (e : error) : respects (throw (A := A) e).
Proof. discriminate. Qed.

Lemma respects_unmodelled {A} : respects (unmodelled (A := A)).
Proof. discriminate. Qed.

Lemma respects_modifyState (f : S -> S) :
  (forall s, P s (f s)) -> respects (modifyState f).
Proof. intros Hf s a s' [= _ <-]. apply Hf. Qed.

Lemma respects_putState (s0 : S) :
  (forall s, P s s0) -> respects (putState s0).
Proof. intros Hf s a s' [= _ <-]. apply Hf. Qed.
End Respects.

Ltac respects_step :=
  match goal with
  | |- Reflexive _ => apply _
  | |- Transitive _ => apply _
  | |- forall _, _ => intros ?
  | |- respects _ (ret _) => apply respects_ret
  | |- respects _ (liftR _) => apply respects_liftR
  | |- respects _ (liftOpt _) => apply respects_liftOpt
  | |- respects _ getState => apply respects_getState
  | |- respects _ (throw _) => apply respects_throw
  | |- respects _ unmodelled => apply respects_unmodelled
  | |- respects _ (bind _ _) => apply respects_bind
  | |- respects _ (foldM _ _ _) => apply respects_foldM
  | |- respects _ (match ?x with _ => _ end) => destruct x
  end.

Import Core.

(** The part of the registry that only [createNamespace] itself and
    [extend] write: the tables of namespaces, the global context, and the
    number of namespaces there are. *)
Definition same_tables (st st' : state) : Prop :=
  length (namespaces st') = length (namespaces st) /\
  namespacesByName st' = namespacesByName st /\
  namespacesByClassString st' = namespacesByClassString st /\
  Sugar st' = Sugar st /\
  globalContext st' = globalContext st /\
  allowObjectPrototype st' = allowObjectPrototype st.

#[local] Instance same_tables_refl : Reflexive same_tables.
Proof. by intros st. Qed.

#[local] Instance same_tables_trans : Transitive same_tables.
Proof. intros x y z (?&?&?&?&?&?) (?&?&?&?&?&?). repeat split; congruence. Qed.

Lemma updNamespace_tables (ns : nat) (f : namespace -> namespace) :
  respects same_tables (updNamespace ns f).
Proof.
  apply respects_modifyState. intros st. repeat split.
  cbn. destruct (namespaces st !! ns); [apply length_insert | done].
Qed.

Lemma setObjectChainableOnNamespace_tables ns methodName fn :
  respects same_tables (setObjectChainableOnNamespace ns methodName fn).
Proof.
  unfold setObjectChainableOnNamespace, getNamespace, set_proto.
  repeat (respects_step || apply updNamespace_tables).
Qed.

Lemma mapObjectChainableToAllNamespaces_tables methodName fn :
  respects same_tables (mapObjectChainableToAllNamespaces methodName fn).
Proof.
  unfold mapObjectChainableToAllNamespaces.
  repeat (respects_step || apply setObjectChainableOnNamespace_tables).
Qed.

Lemma mapObjectChainablesToNamespace_tables ns :
  respects same_tables (mapObjectChainablesToNamespace ns).
Proof.
  unfold mapObjectChainablesToNamespace, getNamespace.
  repeat (respects_step || apply setObjectChainableOnNamespace_tables).
Qed.

Lemma defineChainableMethod_tables ns methodName fn :
  respects same_tables (defineChainableMethod ns methodName fn).
Proof.
  unfold defineChainableMethod, set_proto.
  repeat (respects_step || apply updNamespace_tables
          || apply mapObjectChainableToAllNamespaces_tables
          || (apply respects_modifyState; by intros ?)).
Qed.

Lemma mapNativeToChainable_tables name :
  respects same_tables (mapNativeToChainable name).
Proof.
  unfold mapNativeToChainable.
  repeat (respects_step || apply defineChainableMethod_tables).
Qed.

Lemma assoc_replace_same {A} (key : string) (v : A) (l : list (string * A)) :
  is_Some (assoc key l) -> assoc key (assoc_replace key v l) = Some v.
Proof.
  induction l as [|[k w] l IH]; cbn; [by intros [? [=]]|].
  destruct (String.eqb_spec k key) as [->|Hne]; cbn.
  - by rewrite String.eqb_refl.
  - intros Hs. by rewrite (proj2 (String.eqb_neq k key) Hne), IH.
Qed.

Lemma assoc_app_None {A} (key : string) (l l' : list (string * A)) :
  assoc key l = None -> assoc key (l ++ l') = assoc key l'.
Proof.
  induction l as [|[k w] l IH]; cbn; [done|].
  destruct (String.eqb k key); [discriminate | done].
Qed.

Lemma assoc_table_set {A} (key : string) (v : A) (l : list (string * A)) :
  assoc key (table_set key v l) = Some v.
Proof.
  unfold table_set. destruct (assoc key l) eqn:Hk.
  - apply assoc_replace_same. by rewrite Hk.
  - rewrite assoc_app_None by done. cbn. by rewrite String.eqb_refl.
Qed.

(** What a successful [createNamespace(name)] leaves: a namespace at a new
    address, to which the three tables map the name. *)
Lemma createNamespace_spec (name : string) (st st1 : state) (a : nat) :
  createNamespace name st = Ok (a, st1) ->
  a = length (namespaces st) /\
  length (namespaces st1) = S (length (namespaces st)) /\
  assoc name (namespacesByName st1) = Some a /\
  assoc ("[object " +:+ name +:+ "]") (namespacesByClassString st1) = Some a /\
  assoc name (Sugar st1) = Some a /\
  globalContext st1 = globalContext st.
Proof.
  unfold createNamespace, getNewChainableClass.
  destruct (isSugarMember name); [discriminate|].
  intros (a' & s1 & H1 & H)%bind_Ok.
  apply bind_Ok in H1 as (s0 & ? & [= <- <-] & H1).
  apply bind_Ok in H1 as ([] & ? & [= <-] & [= <- <-]).
  apply bind_Ok in H as ([] & s2 & [= <-] & H).
  apply bind_Ok in H as ([] & s3 & [= <-] & H).
  apply bind_Ok in H as ([] & s4 & H4 & H).
  apply bind_Ok in H as ([] & s5 & H5 & H).
  apply bind_Ok in H as ([] & s6 & [= <-] & [= <- <-]).
  apply mapNativeToChainable_tables in H4 as (L4 & N4 & C4 & S4 & G4 & _).
  apply mapObjectChainablesToNamespace_tables in H5 as (L5 & N5 & C5 & S5 & G5 & _).
  cbn in *. rewrite L5, L4, N5, N4, C5, C4, G5, G4, length_app. cbn.
  rewrite !assoc_table_set. repeat split; lia.
Qed.

(** ** A second [createNamespace] succeeds *)

(** The tables name namespaces that exist. *)
Definition sound (st : state) : Prop :=
  Forall (fun e => snd e < length (namespaces st))%nat (namespacesByName st) /\
  Forall (fun e => snd e < length (namespaces st))%nat (Sugar st).

Lemma sound_same_tables (st st' : state) :
  same_tables st st' -> sound st -> sound st'.
Proof. intros (L & N & _ & S & _) [H1 H2]. unfold sound. by rewrite L, N, S. Qed.

(** The condition on the global context under which [createNamespace(name)]
    returns: the native class exists and, for every method of its prototype
    that is mapped, [Object.prototype] can be read at the name of the
    method. *)
Definition mappable (globals : list (string * native)) (member : string * nprop)
  : bool :=
  nativeMethodProhibited (fst member) ||
  match snd member with
  | PFun _ =>
      match assoc "Object" globals with
      | Some o =>
          match assoc (fst member) (n_proto o) with
          | Some PThrows => false
          | _ => true
          end
      | None => false
      end
  | _ => true
  end.

Definition ready (globals : list (string * native)) (name : string) : bool :=
  match assoc name globals with
  | Some n => forallb (mappable globals) (n_proto n)
  | None => false
  end.

Lemma foldM_succeeds {S A B} (Inv : S -> Prop) (f : A -> B -> M S A)
  (l : list B) (a : A) (s : S) :
  (forall a b s, In b l -> Inv s -> exists a' s', f a b s = Ok (a', s') /\ Inv s') ->
  Inv s -> exists a' s', foldM f l a s = Ok (a', s') /\ Inv s'.
Proof.
  revert a s. induction l as [|b l IH]; intros a s Hf Hs; cbn [foldM].
  - by exists a, s.
  - destruct (Hf a b s) as (a1 & s1 & H1 & Hs1); [by left | done |].
    unfold bind. rewrite H1. apply IH; [|done].
    intros a2 b2 s2 Hin. apply Hf. by right.
Qed.

Lemma foldM_inv {S A B} (P : S -> S -> Prop) `{!Reflexive P, !Transitive P}
  (Q : B -> S -> Prop) (f : A -> B -> M S A) (l : list B) (a : A) (s s' : S) (a' : A) :
  (forall a b, respects P (f a b)) ->
  (forall a b s a' s', f a b s = Ok (a', s') -> Q b s) ->
  (forall b s s', P s s' -> Q b s' -> Q b s) ->
  foldM f l a s = Ok (a', s') ->
  Forall (fun b => Q b s) l.
Proof.
  intros HP HQ Hback. revert a s. induction l as [|b l IH]; intros a s; cbn [foldM].
  - constructor.
  - intros (a1 & s1 & H1 & H2)%bind_Ok. constructor; [by eapply HQ|].
    apply IH in H2. eapply Forall_impl; [exact H2|].
    intros b' Hb'. eapply Hback; [|exact Hb']. by eapply HP.
Qed.

Lemma setObjectChainableOnNamespace_ok ns methodName fn (st : state) :
  (ns < length (namespaces st))%nat ->
  exists st', setObjectChainableOnNamespace ns methodName fn st = Ok (tt, st').
Proof.
  intros [o Ho]%lookup_lt_is_Some_2.
  unfold setObjectChainableOnNamespace, getNamespace, set_proto, updNamespace,
    bind, getState, liftOpt, ret, modifyState.
  rewrite Ho. destruct (assoc methodName (ns_proto o)); eauto.
Qed.

Lemma mapObjectChainableToAllNamespaces_ok methodName fn (st : state) :
  sound st ->
  exists st', mapObjectChainableToAllNamespaces methodName fn st = Ok (tt, st').
Proof.
  intros Hs. unfold mapObjectChainableToAllNamespaces, bind, getState.
  destruct (foldM_succeeds (fun s => same_tables st s)
              (fun (_ : unit) entry =>
                 setObjectChainableOnNamespace (snd entry) methodName fn)
              (namespacesByName st) tt st) as ([] & st' & H & _); [|done|eauto].
  intros [] entry s Hin Hst.
  destruct (setObjectChainableOnNamespace_ok (snd entry) methodName fn s)
    as (s' & Hs').
  - destruct Hst as (-> & _). destruct Hs as [Hn _].
    by apply (proj1 (List.Forall_forall _ _) Hn).
  - exists tt, s'. split; [done|]. etransitivity; [exact Hst|].
    by eapply setObjectChainableOnNamespace_tables.
Qed.

Lemma defineChainableMethod_ok ns methodName fn (st : state) (o : native) :
  sound st ->
  (ns < length (namespaces st))%nat ->
  assoc "Object" (globalContext st) = Some o ->
  assoc methodName (n_proto o) <> Some PThrows ->
  methodName <> "__proto__" ->
  exists st', defineChainableMethod ns methodName fn st = Ok (tt, st').
Proof.
  intros Hs Hns Ho Hm Hproto.
  unfold defineChainableMethod, objectProtoMember.
  rewrite (proj2 (String.eqb_neq _ _) Hproto).
  unfold bind at 1. unfold getState at 1. rewrite Ho.
  unfold bind at 1. cbn [liftR].
  unfold bind at 1.
  replace (match assoc methodName (n_proto o) with
           | Some PThrows => unmodelled
           | _ => ret tt
           end st) with (Ok (tt, st) : result (unit * state))
    by (by destruct (assoc methodName (n_proto o)) as [[]|]).
  set (triple := match assoc methodName (dcp st) with Some _ => _ | None => _ end).
  destruct triple as [[existing existingDisambiguate] collision].
  set (upd := if negb existing || negb existingDisambiguate then _ else _).
  assert (exists st1, upd st = Ok (tt, st1) /\ same_tables st st1) as (st1 & H1 & T1).
  { subst upd. destruct (negb existing || negb existingDisambiguate).
    - eexists. split; [reflexivity|]. by repeat split.
    - by exists st. }
  unfold bind at 1. rewrite H1.
  assert (exists st2, set_proto ns methodName (FChainable fn) st1 = Ok (tt, st2))
    as (st2 & H2) by (eexists; reflexivity).
  unfold bind at 1. rewrite H2.
  assert (T2 : same_tables st st2).
  { etransitivity; [exact T1|]. eapply updNamespace_tables, H2. }
  unfold bind at 1. unfold getState at 1.
  destruct (decide _); [|by eexists].
  apply mapObjectChainableToAllNamespaces_ok. by eapply sound_same_tables.
Qed.

Lemma mapNativeToChainable_ok name ns (st : state) :
  sound st ->
  assoc name (namespacesByName st) = Some ns ->
  (ns < length (namespaces st))%nat ->
  ready (globalContext st) name = true ->
  exists st', mapNativeToChainable name st = Ok (tt, st').
Proof.
  intros Hs Hn Hns Hr. unfold ready in Hr.
  destruct (assoc name (globalContext st)) as [n|] eqn:Hg; [|discriminate].
  unfold mapNativeToChainable, bind at 1, getState at 1.
  rewrite Hn. unfold bind at 1. cbn [liftOpt ret]. rewrite Hg.
  destruct (foldM_succeeds (fun s => same_tables st s)
              (fun (_ : unit) member =>
                 let '(methodName, p) := member in
                 if nativeMethodProhibited methodName then ret tt else
                 match p with
                 | PFun fn => defineChainableMethod ns methodName fn
                 | PData _ | PThrows => ret tt
                 end)
              (n_proto n) tt st) as ([] & st' & H & _); [|done|eauto].
  intros [] [methodName p] s Hin Hst.
  apply (proj1 (forallb_forall _ _) Hr) in Hin. unfold mappable in Hin. cbn in Hin.
  destruct (nativeMethodProhibited methodName) eqn:Hprohibited;
    [by exists tt, s|].
  destruct p as [fn| |]; try by exists tt, s.
  cbn in Hin.
  destruct (assoc "Object" (globalContext st)) as [o|] eqn:Ho; [|discriminate].
  destruct (defineChainableMethod_ok ns methodName fn s o) as (s' & Hs').
  - by eapply sound_same_tables.
  - by destruct Hst as (-> & _).
  - destruct Hst as (_ & _ & _ & _ & -> & _). done.
  - intros Hm. by rewrite Hm in Hin.
  - intros ->. discriminate Hprohibited.
  - exists tt, s'. split; [done|]. etransitivity; [exact Hst|].
    by eapply defineChainableMethod_tables.
Qed.

Lemma mapObjectChainablesToNamespace_ok ns (st : state) :
  sound st ->
  (ns < length (namespaces st))%nat ->
  exists st', mapObjectChainablesToNamespace ns st = Ok (tt, st').
Proof.
  intros Hs Hns. unfold mapObjectChainablesToNamespace, bind at 1, getState at 1.
  destruct (assoc "Object" (Sugar st)) as [sugarObject|] eqn:Ho; [|by eexists].
  assert (Hv : (sugarObject < length (namespaces st))%nat).
  { destruct Hs as [_ Hs]. revert Ho. clear -Hs.
    induction Hs as [|[k v] l Hv _ IH]; cbn; [done|].
    destruct (String.eqb k "Object"); [by intros [= <-] | done]. }
  apply lookup_lt_is_Some_2 in Hv as [o Hobj].
  unfold getNamespace, bind at 1, bind at 1, getState at 1. cbn [liftOpt].
  rewrite Hobj. cbn [ret].
  destruct (foldM_succeeds (fun s => same_tables st s)
              (fun (_ : unit) member =>
                 let '(methodName, e) := member in
                 if p_enum e
                 then setObjectChainableOnNamespace ns methodName (p_fn e)
                 else ret tt)
              (ns_proto o) tt st) as ([] & st' & H & _); [|done|eauto].
  intros [] [methodName e] s Hin Hst.
  destruct (p_enum e); [|by exists tt, s].
  destruct (setObjectChainableOnNamespace_ok ns methodName (p_fn e) s) as (s' & Hs').
  - by destruct Hst as (-> & _).
  - exists tt, s'. split; [done|]. etransitivity; [exact Hst|].
    by eapply setObjectChainableOnNamespace_tables.
Qed.

Lemma Forall_table_set {A} (P : string * A -> Prop) (key : string) (v : A)
  (l : list (string * A)) :
  (forall k, P (k, v)) -> Forall P l -> Forall P (table_set key v l).
Proof.
  intros Hv Hl. unfold table_set. destruct (assoc key l).
  - induction Hl as [|[k w] l Hw Hl IH]; cbn; [constructor|].
    destruct (String.eqb k key); constructor; auto.
  - apply Forall_app. split; [done|]. constructor; [apply Hv | constructor].
Qed.

(** [createNamespace] keeps the tables sound. *)
Lemma createNamespace_sound (name : string) (st st1 : state) (a : nat) :
  sound st -> createNamespace name st = Ok (a, st1) -> sound st1.
Proof.
  intros [Hn Hs] H. pose proof (createNamespace_spec _ _ _ _ H) as (-> & L & _).
  revert H. unfold createNamespace, getNewChainableClass.
  destruct (isSugarMember name); [discriminate|].
  intros (a' & s1 & H1 & H)%bind_Ok.
  apply bind_Ok in H1 as (s0 & ? & [= <- <-] & H1).
  apply bind_Ok in H1 as ([] & ? & [= <-] & [= <- <-]).
  apply bind_Ok in H as ([] & s2 & [= <-] & H).
  apply bind_Ok in H as ([] & s3 & [= <-] & H).
  apply bind_Ok in H as ([] & s4 & H4 & H).
  apply bind_Ok in H as ([] & s5 & H5 & H).
  apply bind_Ok in H as ([] & s6 & [= <-] & [= <-]).
  apply mapNativeToChainable_tables in H4 as (L4 & N4 & C4 & S4 & G4 & _).
  apply mapObjectChainablesToNamespace_tables in H5 as (L5 & N5 & C5 & S5 & G5 & _).
  unfold sound. cbn in *. rewrite L5, L4, N5, N4, S5, S4, length_app. cbn.
  split; apply Forall_table_set; try (intros; cbn; lia);
    (eapply Forall_impl; [eassumption|]); intros; cbn in *; lia.
Qed.

(** On sound tables [createNamespace(name)] returns when the global context
    is ready for the name. *)
Lemma createNamespace_ok (name : string) (st : state) :
  sound st -> ready (globalContext st) name = true ->
  isSugarMember name = false ->
  exists a st1, createNamespace name st = Ok (a, st1).
Proof.
  intros Hs Hr Hname. unfold createNamespace, getNewChainableClass.
  rewrite Hname.
  unfold bind at 1, bind at 1, getState at 1, bind at 1, putState at 1.
  cbn [ret]. unfold bind at 1, modifyState at 1. unfold bind at 1, modifyState at 1.
  set (a := length (namespaces st)).
  set (st3 := set_namespacesByClassString _ _).
  assert (Hs3 : sound st3).
  { destruct Hs as [Hn HS]. subst st3. unfold sound. cbn. rewrite length_app. cbn.
    split; [apply Forall_table_set; [intros; cbn; lia|]|];
      (eapply Forall_impl; [eassumption|]); intros; cbn in *; lia. }
  assert (Ha : (a < length (namespaces st3))%nat).
  { subst st3 a. cbn. rewrite length_app. cbn. lia. }
  destruct (mapNativeToChainable_ok name a st3) as (st4 & H4); try done.
  { subst st3. cbn. apply assoc_table_set. }
  unfold bind at 1. rewrite H4.
  pose proof (mapNativeToChainable_tables _ _ _ _ H4) as T4.
  destruct (mapObjectChainablesToNamespace_ok a st4) as (st5 & H5).
  { by eapply sound_same_tables. }
  { by destruct T4 as (-> & _). }
  unfold bind at 1. rewrite H5. by eexists _, _.
Qed.

(** A [createNamespace(name)] that returned found the global context ready
    for the name. *)
Lemma createNamespace_ready (name : string) (st st1 : state) (a : nat) :
  createNamespace name st = Ok (a, st1) -> ready (globalContext st) name = true.
Proof.
  unfold createNamespace, getNewChainableClass.
  destruct (isSugarMember name); [discriminate|].
  intros (a' & s1 & H1 & H)%bind_Ok.
  apply bind_Ok in H1 as (s0 & ? & [= <- <-] & H1).
  apply bind_Ok in H1 as ([] & ? & [= <-] & [= <- <-]).
  apply bind_Ok in H as ([] & s2 & [= <-] & H).
  apply bind_Ok in H as ([] & s3 & [= <-] & H).
  apply bind_Ok in H as ([] & s4 & H4 & _).
  revert H4. unfold mapNativeToChainable.
  intros (s & ? & [= <- <-] & H)%bind_Ok.
  apply bind_Ok in H as (ns & ? & Hns & H).
  cbn in Hns. rewrite assoc_table_set in Hns. injection Hns as <- <-.
  cbn in H. unfold ready.
  destruct (assoc name (globalContext st)) as [n|]; [|discriminate].
  apply forallb_forall. apply List.Forall_forall.
  set (s0 := set_namespacesByClassString _ _) in H.
  eapply (foldM_inv same_tables
            (fun member s => globalContext s = globalContext st ->
                             mappable (globalContext st) member = true)) in H.
  - eapply Forall_impl; [exact H|]. cbn. auto.
  - intros [] [methodName p].
    repeat (respects_step || apply defineChainableMethod_tables).
  - intros [] [methodName p] s s' [] Hstep Hg. unfold mappable. cbn.
    destruct (nativeMethodProhibited methodName); [done|]. cbn.
    destruct p as [fn| |]; try done.
    revert Hstep. unfold defineChainableMethod, objectProtoMember.
    destruct (String.eqb methodName "__proto__"); [discriminate|].
    intros (s1 & ? & [= <- <-] & Hstep)%bind_Ok. rewrite Hg in Hstep.
    destruct (assoc "Object" (globalContext st)) as [o|];
      [|by apply bind_Ok in Hstep as (?&?&[=]&_)].
    apply bind_Ok in Hstep as (inh & ? & [= <- <-] & Hstep).
    apply bind_Ok in Hstep as ([] & ? & Hthrows & _).
    by destruct (assoc methodName (n_proto o)) as [[]|].
  - intros member s s' (_ & _ & _ & _ & G & _) HQ Hg. apply HQ. congruence.
Qed.

(** C1, amended: [createNamespace] has no table of instances to look the
    name up in; every call makes a new chainable class.  On sound tables,
    after a call for a name has returned the namespace [a], a second call
    for the same name returns too, and returns a namespace [b] at a new
    address; the tables then map the name to [b], and [a] is still there. *)
Theorem createNamespace_twice_makes_two (name : string) (st st1 : state) (a : nat) :
  sound st ->
  createNamespace name st = Ok (a, st1) ->
  exists b st2,
    createNamespace name st1 = Ok (b, st2) /\
    b <> a /\
    assoc name (namespacesByName st2) = Some b /\
    assoc ("[object " +:+ name +:+ "]") (namespacesByClassString st2) = Some b /\
    assoc name (Sugar st2) = Some b /\
    is_Some (namespaces st2 !! a) /\
    is_Some (namespaces st2 !! b).
Proof.
  intros Hs H1.
  pose proof (createNamespace_spec _ _ _ _ H1) as (Ha & L1 & _ & _ & _ & G1).
  destruct (createNamespace_ok name st1) as (b & st2 & H2).
  { by eapply createNamespace_sound. }
  { rewrite G1. by eapply createNamespace_ready. }
  { revert H1. unfold createNamespace. by destruct (isSugarMember name). }
  exists b, st2. split; [done|].
  pose proof (createNamespace_spec _ _ _ _ H2) as (Hb & L2 & N2 & C2 & S2 & _).
  repeat split; try done; [lia| |]; apply lookup_lt_is_Some_2; lia.
Qed.


(** A global context with the natives [Object], [Function] and [Boolean],
    each with a few members. *)
Definition sampleGlobals : list (string * native) :=
  [("Object",
    mkNative [("keys", PFun (FNative "Object" "keys" 1))]
      [("toString", PFun (FNative "Object" "toString" 0));
       ("hasOwnProperty", PFun (FNative "Object" "hasOwnProperty" 1))]);
   ("Function", mkNative [] [("call", PFun (FNative "Function" "call" 1))]);
   ("Boolean",
    mkNative [] [("toString", PFun (FNative "Boolean" "toString" 0));
                 ("valueOf", PFun (FNative "Boolean" "valueOf" 0))])].

(** The state [createNamespace('Boolean')] leaves. *)
Definition afterBoolean : state :=
  match createNamespace "Boolean" (initial sampleGlobals) with
  | Ok (_, st) => st
  | _ => initial sampleGlobals
  end.

(** C1, as stated, fails: the second [createNamespace('Boolean')] returns
    the namespace at address 1, the first one returned that at address 0. *)
Lemma createNamespace_is_not_idempotent :
  exists st2,
    createNamespace "Boolean" (initial sampleGlobals) = Ok (0%nat, afterBoolean) /\
    createNamespace "Boolean" afterBoolean = Ok (1%nat, st2) /\
    0%nat <> 1%nat.
Proof.
  eexists. split; [vm_compute; reflexivity|].
  split; [vm_compute; reflexivity | discriminate].
Qed.

Lemma createNamespace_twice_makes_two_witness :
  exists b st2,
    createNamespace "Boolean" afterBoolean = Ok (b, st2) /\
    b <> 0%nat /\
    assoc "Boolean" (namespacesByName st2) = Some b /\
    assoc ("[object " +:+ "Boolean" +:+ "]") (namespacesByClassString st2) = Some b /\
    assoc "Boolean" (Sugar st2) = Some b /\
    is_Some (namespaces st2 !! 0%nat) /\
    is_Some (namespaces st2 !! b).
Proof.
  apply (createNamespace_twice_makes_two "Boolean" (initial sampleGlobals)
           afterBoolean 0).
  - split; constructor.
  - vm_compute. reflexivity.
Defined.

(** ** [extend] and [Object.prototype] *)

(** The own members of [Object.prototype]. *)
Definition objectPrototype (st : state) : option (list (string * nprop)) :=
  n_proto <$> assoc "Object" (globalContext st).

Lemma respects_foldM_in {S A B} (P : S -> S -> Prop) `{!Reflexive P, !Transitive P}
  (f : A -> B -> M S A) (l : list B) (a : A) :
  (forall a b, In b l -> respects P (f a b)) -> respects P (foldM f l a).
Proof.
  revert a. induction l as [|b l IH]; intros a Hf; cbn [foldM].
  - by apply respects_ret.
  - apply respects_bind; [done | apply Hf; by left |].
    intros a'. apply IH. intros a2 b2 Hin. apply Hf. by right.
Qed.

Lemma assoc_replace_other {A} (key key' : string) (v : A) (l : list (string * A)) :
  key <> key' -> assoc key (assoc_replace key' v l) = assoc key l.
Proof.
  intros Hne. induction l as [|[k w] l IH]; cbn; [done|].
  destruct (String.eqb_spec k key') as [->|Hk]; cbn.
  - by rewrite (proj2 (String.eqb_neq key' key)).
  - by rewrite IH.
Qed.

Lemma assoc_app_Some {A} (key : string) (v : A) (l l' : list (string * A)) :
  assoc key l = Some v -> assoc key (l ++ l') = Some v.
Proof.
  induction l as [|[k w] l IH]; cbn; [done|]. by destruct (String.eqb k key).
Qed.

Lemma assoc_table_set_other {A} (key key' : string) (v : A) (l : list (string * A)) :
  key <> key' -> assoc key (table_set key' v l) = assoc key l.
Proof.
  intros Hne. unfold table_set. destruct (assoc key' l).
  - by apply assoc_replace_other.
  - destruct (assoc key l) eqn:Hk.
    + by apply assoc_app_Some.
    + rewrite assoc_app_None by done. cbn.
      by rewrite (proj2 (String.eqb_neq key' key)).
Qed.

Lemma assoc_literal_set {A} (key : string) (v : A) (l : list (string * A)) :
  key <> "__proto__" -> assoc key (literal_set key v l) = Some v.
Proof.
  intros Hkey. unfold literal_set. rewrite (proj2 (String.eqb_neq _ _) Hkey).
  apply assoc_table_set.
Qed.

Lemma assoc_literal_set_other {A} (key key' : string) (v : A)
  (l : list (string * A)) :
  key <> key' -> assoc key (literal_set key' v l) = assoc key l.
Proof.
  intros Hne. unfold literal_set. destruct (String.eqb key' "__proto__"); [done|].
  by apply assoc_table_set_other.
Qed.

Lemma assoc_In {A} (key : string) (v : A) (l : list (string * A)) :
  In (key, v) l -> is_Some (assoc key l).
Proof.
  induction l as [|[k w] l IH]; cbn; [done|].
  intros [[= -> ->]|Hin]; [by rewrite String.eqb_refl|].
  destruct (String.eqb k key); [done | auto].
Qed.

(** The member [name] of [Object.prototype] is the same in both states. *)
Definition same_member (name : string) (st st' : state) : Prop :=
  (objectPrototype st' ≫= assoc name) = (objectPrototype st ≫= assoc name).

#[local] Instance same_member_refl name : Reflexive (same_member name).
Proof. by intros st. Qed.

#[local] Instance same_member_trans name : Transitive (same_member name).
Proof. unfold same_member. intros x y z ? ?. congruence. Qed.

(** [Object.prototype] has the same own members in both states. *)
Definition same_prototype (st st' : state) : Prop :=
  objectPrototype st' = objectPrototype st.

#[local] Instance same_prototype_refl : Reflexive same_prototype.
Proof. by intros st. Qed.

#[local] Instance same_prototype_trans : Transitive same_prototype.
Proof. unfold same_prototype. intros x y z ? ?. congruence. Qed.

Lemma setNativeProperty_class (key : string) (v : nprop) :
  respects same_prototype (setNativeProperty "Object" TClass key v).
Proof.
  apply respects_modifyState. intros st. unfold same_prototype, objectPrototype.
  unfold setNativeProperty.
  destruct (assoc "Object" (globalContext st)) as [n|] eqn:Hn; [|by rewrite ?Hn].
  cbn. by rewrite assoc_table_set, ?Hn.
Qed.

Lemma setNativeProperty_proto (name key : string) (v : nprop) :
  name <> key -> respects (same_member name) (setNativeProperty "Object" TProto key v).
Proof.
  intros Hne. apply respects_modifyState. intros st.
  unfold same_member, objectPrototype.
  destruct (assoc "Object" (globalContext st)) as [n|] eqn:Hn; [|by rewrite ?Hn].
  cbn. rewrite assoc_table_set, ?Hn. cbn. by apply assoc_table_set_other.
Qed.

Lemma extendNative_class (source : list (string * nprop)) (polyfill override : bool) :
  respects same_prototype (extendNative "Object" TClass source polyfill override).
Proof.
  unfold extendNative.
  repeat (respects_step || apply setNativeProperty_class).
Qed.

Lemma extendNative_proto (name : string) (source : list (string * nprop))
  (polyfill override : bool) :
  assoc name source = None ->
  respects (same_member name) (extendNative "Object" TProto source polyfill override).
Proof.
  intros Hname. unfold extendNative. apply respects_foldM_in; try apply _.
  intros [] [key v] Hin.
  assert (name <> key).
  { intros <-. apply assoc_In in Hin as [? Hin]. congruence. }
  repeat (respects_step || by apply setNativeProperty_proto).
Qed.

Lemma same_prototype_member (name : string) (st st' : state) :
  same_prototype st st' -> same_member name st st'.
Proof. unfold same_prototype, same_member. by intros ->. Qed.

(** The names [collectMethod] adds to [instanceMethods] are names that
    [objectRestricted] lets through. *)
Lemma collectMethod_instance (st : state) (opts : options) (nativeName : string)
  (isObject : bool) (acc acc' : list (string * nprop) * list (string * nprop))
  (candidate : string * option method) (name : string) :
  collectMethod st opts nativeName isObject acc candidate = Ok acc' ->
  objectRestricted st isObject name TProto = true ->
  assoc name (snd acc) = None -> assoc name (snd acc') = None.
Proof.
  destruct acc as [staticMethods instanceMethods], candidate as [methodName [method|]];
    cbn; [|by intros [= <-]].
  intros H Hr Hacc.
  assert (Hi : forall i instanceMethods',
             match canExtend st opts nativeName isObject methodName method TProto with
             | Ok true => Ok (literal_set methodName (instanceMember i) instanceMethods)
             | Ok false => Ok instanceMethods
             | Throw e => Throw e
             | Unmodelled => Unmodelled
             | OutOfFuel => OutOfFuel
             end = Ok instanceMethods' -> assoc name instanceMethods' = None).
  { intros i instanceMethods'. unfold canExtend.
    destruct (objectRestricted st isObject methodName TProto) eqn:Hm.
    - by intros [= <-].
    - assert (name <> methodName) by congruence.
      destruct (disallowedByFlags _ _ _ _ _ _) as [[]| | |]; try discriminate.
      + by intros [= <-].
      + destruct (negb _); intros [= <-]; [|done].
        by rewrite assoc_literal_set_other. }
  destruct (m_instance method) as [i|].
  - specialize (Hi i).
    destruct (match canExtend st opts nativeName isObject methodName method TProto
              with Ok true => _ | _ => _ end) as [instanceMethods'| | |];
      try discriminate.
    specialize (Hi _ eq_refl).
    destruct (m_static method); [|by injection H as <-].
    destruct (canExtend st opts nativeName isObject methodName method TClass)
      as [[]| | |]; try discriminate; by injection H as <-.
  - destruct (m_static method); [|by injection H as <-].
    destruct (canExtend st opts nativeName isObject methodName method TClass)
      as [[]| | |]; try discriminate; by injection H as <-.
Qed.

Lemma foldR_collectMethod_instance (st : state) (opts : options)
  (nativeName : string) (isObject : bool)
  (candidates : list (string * option method))
  (acc acc' : list (string * nprop) * list (string * nprop)) (name : string) :
  foldR (collectMethod st opts nativeName isObject) candidates acc = Ok acc' ->
  objectRestricted st isObject name TProto = true ->
  assoc name (snd acc) = None -> assoc name (snd acc') = None.
Proof.
  revert acc. induction candidates as [|c l IH]; intros acc; cbn [foldR].
  - by intros [= <-].
  - destruct (collectMethod st opts nativeName isObject acc c) as [acc1| | |] eqn:H1;
      try discriminate.
    intros H Hr Hacc. eapply IH; [exact H | done |].
    by eapply collectMethod_instance.
Qed.

Lemma assoc_all_None {A} (l : list (string * A)) :
  (forall key, assoc key l = None) -> l = [].
Proof.
  destruct l as [|[k v] l]; [done|]. intros H. specialize (H k). cbn in H.
  by rewrite String.eqb_refl in H.
Qed.

(** The flag [allowObjectPrototype] as [extend] sets it for the namespace
    of [Object]. *)
Definition flagAfter (st : state) (opts : options) : bool :=
  match o_objectPrototype opts with
  | Some b => b
  | None => allowObjectPrototype st
  end.

(** The steps of [extend] on the namespace of [Object], one after the
    other. *)
Lemma extend_object_steps (st st' : state) (ns : nat) (o : namespace)
  (opts : options) :
  namespaces st !! ns = Some o ->
  ns_name o = "Object" ->
  extend ns opts st = Ok (tt, st') ->
  st' = st \/
  exists (instanceMethods : list (string * nprop)) (s1 s2 : state),
    (forall name,
       negb (flagAfter st opts) || String.eqb name "get" || String.eqb name "set" = true ->
       assoc name instanceMethods = None) /\
    same_prototype st s1 /\
    extendNative "Object" TProto instanceMethods false false s1 = Ok (tt, s2) /\
    globalContext st' = globalContext s2.
Proof.
  intros Ho Hname. unfold extend, getNamespace.
  intros (o' & s & Hget & H)%bind_Ok.
  apply bind_Ok in Hget as (? & ? & [= <- <-] & Hget).
  cbn in Hget. rewrite Ho in Hget. injection Hget as <- <-.
  rewrite Hname in H. cbn [String.eqb Ascii.eqb Bool.eqb] in H.
  apply bind_Ok in H as (? & ? & [= <- <-] & H).
  destruct (assoc "Object" (globalContext st)) as [n|]; [|discriminate].
  destruct (namespaceIsExcepted opts "Object"); [left; by injection H as <-|].
  right.
  apply bind_Ok in H as ([] & sf & Hf & H).
  assert (Hsf : sf = set_allowObjectPrototype (flagAfter st opts) st
                \/ (sf = st /\ o_objectPrototype opts = None)).
  { unfold flagAfter. destruct (o_objectPrototype opts) as [b|].
    - left. by injection Hf as <-.
    - right. by injection Hf as <-. }
  assert (Hflag : allowObjectPrototype sf = flagAfter st opts).
  { destruct Hsf as [->|[-> Hnone]]; [done|]. unfold flagAfter. by rewrite Hnone. }
  assert (Hgc : globalContext sf = globalContext st).
  { by destruct Hsf as [->|[-> _]]. }
  apply bind_Ok in H as (? & ? & [= <- <-] & H).
  apply bind_Ok in H as ([staticMethods instanceMethods] & ? & Hfold & H).
  unfold liftR in Hfold.
  destruct (foldR _ _ _) as [acc| | |] eqn:Hacc; try discriminate.
  injection Hfold as -> <-.
  apply bind_Ok in H as ([] & s1 & H1 & H).
  apply bind_Ok in H as ([] & s2 & H2 & H).
  exists instanceMethods, s1, s2. repeat split.
  - intros name Hr.
    apply (foldR_collectMethod_instance _ _ _ _ _ _ _ name Hacc); [|done].
    unfold objectRestricted. by rewrite Hflag.
  - apply extendNative_class in H1. unfold same_prototype, objectPrototype in *.
    by rewrite H1, Hgc.
  - done.
  - destruct (o_methods opts); [by injection H as <-|].
    by injection H as <-.
Qed.

(** C4, amended: while [allowObjectPrototype] is off, [extend] on the
    namespace of [Object] copies no instance method onto
    [Object.prototype], the methods [get] and [set] included; and [get] and
    [set] are the exception the other way round: [extend] does not copy them
    onto [Object.prototype] when the flag is on either. *)
Theorem extend_spares_object_prototype (st st' : state) (ns : nat)
  (o : namespace) (opts : options) :
  namespaces st !! ns = Some o ->
  ns_name o = "Object" ->
  extend ns opts st = Ok (tt, st') ->
  (flagAfter st opts = false -> objectPrototype st' = objectPrototype st) /\
  (objectPrototype st' ≫= assoc "get") = (objectPrototype st ≫= assoc "get") /\
  (objectPrototype st' ≫= assoc "set") = (objectPrototype st ≫= assoc "set").
Proof.
  intros Ho Hname H.
  destruct (extend_object_steps _ _ _ _ _ Ho Hname H)
    as [->|(instanceMethods & s1 & s2 & Hnone & H1 & H2 & Hgc)];
    [done|].
  assert (Hst' : objectPrototype st' = objectPrototype s2).
  { unfold objectPrototype. by rewrite Hgc. }
  repeat split.
  - intros Hflag. rewrite Hflag in Hnone. cbn in Hnone.
    rewrite (assoc_all_None instanceMethods) in H2 by (intros; by apply Hnone).
    injection H2 as <-. by rewrite Hst'.
  - rewrite Hst'. apply (extendNative_proto "get") in H2;
      [|by apply Hnone; rewrite orb_true_r].
    unfold same_member in H2. rewrite H2. apply (same_prototype_member "get"), H1.
  - rewrite Hst'. apply (extendNative_proto "set") in H2;
      [|by apply Hnone; rewrite !orb_true_r].
    unfold same_member in H2. rewrite H2. apply (same_prototype_member "set"), H1.
Qed.

(** The value of a computation, its final state left out. *)
Definition outcome {S A} (r : result (A * S)) : result A :=
  match r with
  | Ok (a, _) => Ok a
  | Throw e => Throw e
  | Unmodelled => Unmodelled
  | OutOfFuel => OutOfFuel
  end.

(** The first argument of a call. *)
Definition firstArgument : jsfun := fun _ args => ret (argument args 0).

(** The namespaces of [Object] and [Boolean], that of [Object] with the
    instance methods [get] and [isEmpty]. *)
Definition withAccessors : state :=
  match
    (let* sugarObject := createNamespace "Object" in
     let* _ := createNamespace "Boolean" in
     defineInstance sugarObject
       [("get", plainMethod (FUser 2 firstArgument));
        ("isEmpty", plainMethod (FUser 1 firstArgument))] None)
      (initial sampleGlobals)
  with
  | Ok (_, st) => st
  | _ => initial sampleGlobals
  end.

Definition objectPrototypeOff : options := mkOptions None None None (Some false) [].
Definition objectPrototypeOn : options := mkOptions None None None (Some true) [].

Definition afterExtendOff : state :=
  match extend 0 objectPrototypeOff withAccessors with
  | Ok (_, st) => st
  | _ => withAccessors
  end.

Definition afterExtendOn : state :=
  match extend 0 objectPrototypeOn withAccessors with
  | Ok (_, st) => st
  | _ => withAccessors
  end.

(** C4, as stated, fails: the namespace of [Object] has the instance method
    [get], and [extend({objectPrototype: false})] leaves [Object.prototype]
    without a member [get].  With the flag on, [isEmpty] is copied and [get]
    still is not. *)
Lemma get_is_not_extended :
  hasInstance <$> (namespaces withAccessors !! 0%nat ≫= fun o => assoc "get" (ns_methods o))
    = Some true /\
  extend 0 objectPrototypeOff withAccessors = Ok (tt, afterExtendOff) /\
  (objectPrototype afterExtendOff ≫= assoc "get") = None /\
  extend 0 objectPrototypeOn withAccessors = Ok (tt, afterExtendOn) /\
  is_Some (objectPrototype afterExtendOn ≫= assoc "isEmpty") /\
  (objectPrototype afterExtendOn ≫= assoc "get") = None.
Proof.
  repeat split; try (vm_compute; reflexivity).
  vm_compute. eexists. reflexivity.
Qed.

Lemma extend_spares_object_prototype_witness :
  (flagAfter withAccessors objectPrototypeOff = false ->
   objectPrototype afterExtendOff = objectPrototype withAccessors) /\
  (objectPrototype afterExtendOff ≫= assoc "get") =
    (objectPrototype withAccessors ≫= assoc "get") /\
  (objectPrototype afterExtendOff ≫= assoc "set") =
    (objectPrototype withAccessors ≫= assoc "set").
Proof.
  eapply (extend_spares_object_prototype withAccessors afterExtendOff 0 _
            objectPrototypeOff).
  - vm_compute. reflexivity.
  - reflexivity.
  - vm_compute. reflexivity.
Defined.

(** ** The guard of the disambiguation function *)


(** The state [withAccessors] after an assignment of the caller: the
    disambiguation function of [toString] becomes the member [toString] of
    the prototype of the namespace of [Boolean]. *)
Definition tampered : state :=
  match set_proto 1 "toString" (FDisambiguate "toString") withAccessors with
  | Ok (_, st) => st
  | _ => withAccessors
  end.

(** A default chainable that wraps [true]. *)
Definition wrappedTrue : heap := [mkObject (KChainable None) [("raw", VBool true)]].


(** ** Instance methods with fixed arguments *)

(** The namespaces have the same methods in both states. *)
Definition same_methods (st st' : state) : Prop :=
  forall ns, (ns_methods <$> namespaces st' !! ns) = (ns_methods <$> namespaces st !! ns).

#[local] Instance same_methods_refl : Reflexive same_methods.
Proof. by intros st ns. Qed.

#[local] Instance same_methods_trans : Transitive same_methods.
Proof. intros x y z H1 H2 ns. by rewrite H2, H1. Qed.

Lemma updNamespace_methods (ns : nat) (f : namespace -> namespace) :
  (forall o, ns_methods (f o) = ns_methods o) ->
  respects same_methods (updNamespace ns f).
Proof.
  intros Hf. apply respects_modifyState. intros st ns'. cbn.
  destruct (namespaces st !! ns) as [o|] eqn:Ho; [|done].
  destruct (decide (ns = ns')) as [<-|Hne].
  - rewrite list_lookup_insert_eq by (by eapply lookup_lt_Some).
    rewrite Ho. cbn. by rewrite Hf.
  - by rewrite list_lookup_insert_ne.
Qed.

Ltac methods_step :=
  first
    [ respects_step
    | apply updNamespace_methods; by intros ?
    | apply respects_modifyState; by intros ? ? ].

Lemma setObjectChainableOnNamespace_methods ns methodName fn :
  respects same_methods (setObjectChainableOnNamespace ns methodName fn).
Proof.
  unfold setObjectChainableOnNamespace, getNamespace, set_proto.
  repeat methods_step.
Qed.

Lemma mapObjectChainableToAllNamespaces_methods methodName fn :
  respects same_methods (mapObjectChainableToAllNamespaces methodName fn).
Proof.
  unfold mapObjectChainableToAllNamespaces.
  repeat (methods_step || apply setObjectChainableOnNamespace_methods).
Qed.

Lemma defineChainableMethod_methods ns methodName fn :
  respects same_methods (defineChainableMethod ns methodName fn).
Proof.
  unfold defineChainableMethod, set_proto.
  repeat (methods_step || apply mapObjectChainableToAllNamespaces_methods).
Qed.

Lemma extendNative_methods name t source polyfill override :
  respects same_methods (extendNative name t source polyfill override).
Proof.
  unfold extendNative, setNativeProperty.
  repeat (methods_step ||
          (apply respects_modifyState; intros st ?;
           by destruct (assoc name (globalContext st)))).
Qed.

Lemma extend_methods ns opts : respects same_methods (extend ns opts).
Proof.
  unfold extend, getNamespace.
  repeat (methods_step || apply extendNative_methods).
Qed.

(** The number of call-site arguments [wrapInstanceMethodFixed(fn)]
    forwards. *)
Definition forwarded (fn : fnval) : nat := Nat.max (fnLength fn) 1 - 1.

Lemma wrapInstanceMethodFixed_spec (fn : fnval) :
  (fnLength fn <= 5)%nat ->
  wrapInstanceMethodFixed fn = Some (FFixed (forwarded fn) fn) /\
  (forwarded fn <= 4)%nat.
Proof.
  unfold wrapInstanceMethodFixed, forwarded. intros Hlen.
  destruct (fnLength fn) as [|[|[|[|[|[|n]]]]]]; cbn;
    try (split; [done | lia]).
  exfalso. lia.
Qed.

Lemma forwarded_prefix (n : nat) (a b c d : value) (extra : list value) :
  (n <= 4)%nat ->
  map (argument (a :: b :: c :: d :: extra)) (seq 0 n) =
  map (argument [a; b; c; d]) (seq 0 n).
Proof.
  intros Hn. destruct n as [|[|[|[|[|n]]]]]; try reflexivity. lia.
Qed.

(** The method [methodName] of the namespace [ns] has an instance variant
    that calls [fn] with the receiver and the first [forwarded fn] call-site
    arguments, at most 4 of them, and drops a fifth or later one. *)
Definition has_fixed_variant (st : state) (ns : nat) (methodName : string)
  (fn : fnval) : Prop :=
  let n := forwarded fn in
  exists o m,
    namespaces st !! ns = Some o /\
    assoc methodName (ns_methods o) = Some m /\
    m_instance m = Some (Some (FFixed n fn)) /\
    (n <= 4)%nat /\
    (forall stc this args,
       callPlain stc (FFixed n fn) this args =
       callPlain stc fn VUndefined (this :: map (argument args) (seq 0 n))) /\
    (forall stc this a b c d extra,
       callPlain stc (FFixed n fn) this (a :: b :: c :: d :: extra) =
       callPlain stc (FFixed n fn) this [a; b; c; d]).


(** A method of three parameters and one of six. *)
Definition threeParameters : fnval := FUser 3 firstArgument.
Definition sixParameters : fnval := FUser 6 firstArgument.

Definition afterThree : state :=
  match defineInstance 1 [("pick", plainMethod threeParameters)] None withAccessors with
  | Ok (_, st) => st
  | _ => withAccessors
  end.

Definition afterSix : state :=
  match defineInstance 1 [("wide", plainMethod sixParameters)] None withAccessors with
  | Ok (_, st) => st
  | _ => withAccessors
  end.

Definition afterStatic : state :=
  match defineStatic 1 [("pick", plainMethod threeParameters)] None withAccessors with
  | Ok (_, st) => st
  | _ => withAccessors
  end.

Definition methodOf (st : state) (ns : nat) (methodName : string) : option method :=
  namespaces st !! ns ≫= fun o => assoc methodName (ns_methods o).



(** ** Termination of the traversals *)

Lemma mapR_fuel {A B} (f : A -> result B) (l : list A) :
  (forall a, In a l -> f a <> OutOfFuel) -> mapR f l <> OutOfFuel.
Proof.
  induction l as [|a l IH]; cbn; [done|]. intros Hf.
  destruct (f a) eqn:Ha; try done.
  - destruct (mapR f l) eqn:Hl; try done. apply IH. intros; apply Hf; by right.
  - exfalso. apply (Hf a); [by left | done].
Qed.

(** The addresses of a heap that a list without repetition can hold are
    as many as the heap has objects. *)
Lemma addresses_bounded (h : heap) (l : list nat) :
  NoDup l -> Forall (fun a => is_Some (h !! a)) l -> (length l <= length h)%nat.
Proof.
  intros Hnd Hv.
  rewrite <- (List.length_seq (length h) 0%nat).
  apply List.NoDup_incl_length.
  { by apply NoDup_ListNoDup. }
  intros a Ha. apply in_seq. apply (proj1 (List.Forall_forall _ _) Hv) in Ha.
  apply lookup_lt_is_Some in Ha. lia.
Qed.

Lemma toStringObj_fuel (h : heap) (fuel : nat) (joining : list nat) (a : nat) :
  NoDup joining ->
  Forall (fun a => is_Some (h !! a)) joining ->
  (length h < fuel + length joining)%nat ->
  toStringObj fuel h joining a <> OutOfFuel.
Proof.
  revert joining a. induction fuel as [|fuel IH]; intros joining a Hnd Hv Hlen.
  - pose proof (addresses_bounded h joining Hnd Hv). lia.
  - cbn [toStringObj]. destruct (h !! a) as [o|] eqn:Ho; [|done].
    destruct (overridesToString o); [done|].
    destruct (okind o) as [|len| | |cls|]; try done.
    + destruct (existsb (Nat.eqb a) joining) eqn:Hin; [done|].
      assert (Hparts : forall (f : nat -> result string) l,
                 (forall i, In i l -> f i <> OutOfFuel) ->
                 match mapR f l with
                 | Ok parts => Ok (join_strings "," parts)
                 | Throw e => Throw e
                 | Unmodelled => Unmodelled
                 | OutOfFuel => OutOfFuel
                 end <> OutOfFuel).
      { intros f l Hf. pose proof (mapR_fuel f l Hf). by destruct (mapR f l). }
      apply Hparts. intros i _.
      destruct (assoc (index_key i) (oprops o)) as [[| | | | |b]|]; try done.
      apply IH.
      * apply NoDup_cons. split; [|done].
        intros Ha. apply list_elem_of_In in Ha.
        assert (existsb (Nat.eqb a) joining = true); [|congruence].
        apply existsb_exists. exists a. split; [done | apply Nat.eqb_refl].
      * constructor; [by rewrite Ho | done].
      * cbn. lia.
    + by destruct (mem_str cls own_toString_classes).
Qed.

(** [toString] never runs out of its budget. *)
Lemma toString_fuel (h : heap) (v : value) : toString h v <> OutOfFuel.
Proof.
  destruct v; try done. cbn [toString].
  apply toStringObj_fuel; [constructor | constructor | cbn; lia].
Qed.

Lemma callToString_fuel (h : heap) (v : value) : callToString h v <> OutOfFuel.
Proof. destruct v; try done; apply toString_fuel. Qed.

Lemma getProp_fuel (h : heap) (obj : value) (prop : string) :
  getProp h obj prop <> OutOfFuel.
Proof.
  destruct obj as [| | | |s|a]; cbn; try done.
  - destruct (String.eqb prop "length"); [done|].
    destruct (array_index prop); [|done]. by destruct (String.get _ _).
  - destruct (h !! a) as [o|]; [|done].
    destruct (assoc prop (oprops o)); [done|]. by destruct (hidden_prop _ _).
Qed.

Lemma hasIn_fuel (h : heap) (obj : value) (prop : string) :
  hasIn h obj prop <> OutOfFuel.
Proof.
  destruct obj as [| | | |s|a]; cbn; try done.
  destruct (h !! a) as [o|]; [|done].
  destruct (assoc prop (oprops o)); [done|]. by destruct (hidden_prop _ _).
Qed.

Lemma valueOf_fuel (h : heap) (v : value) : valueOf h v <> OutOfFuel.
Proof.
  destruct v as [| | | | |a]; try done. unfold valueOf.
  destruct (h !! a) as [o|]; [|done].
  destruct (assoc "valueOf" (oprops o)); [done|].
  destruct (okind o) as [| | | |cls|]; try done.
  by destruct (mem_str cls own_valueOf_classes).
Qed.

(** A computation that, started with the stack [s], does not run out of
    fuel and, when it returns, leaves the stack [s]. *)
Definition safe {A} (s : list value) (c : T A) : Prop :=
  forall t, stack t = s ->
    c t <> OutOfFuel /\ forall a t', c t = Ok (a, t') -> stack t' = s.

Lemma safe_ret {A} (s : list value) (a : A) : safe s (ret a).
Proof. intros t Ht. split; [done|]. by intros a' t' [= _ <-]. Qed.

Lemma safe_bind {A B} (s : list value) (c : T A) (k : A -> T B) :
  safe s c -> (forall a, safe s (k a)) -> safe s (bind c k).
Proof.
  intros Hc Hk t Ht. destruct (Hc t Ht) as [Hfuel Hstack]. unfold bind.
  destruct (c t) as [[a t1]| | |]; try done.
  apply (Hk a t1). by eapply Hstack.
Qed.

Lemma safe_foldM {A B} (s : list value) (f : A -> B -> T A) (l : list B) (a : A) :
  (forall a b, safe s (f a b)) -> safe s (foldM f l a).
Proof.
  intros Hf. revert a. induction l as [|b l IH]; intros a; cbn [foldM].
  - apply safe_ret.
  - apply safe_bind; [apply Hf | apply IH].
Qed.

Lemma safe_liftR {A} (s : list value) (r : result A) :
  r <> OutOfFuel -> safe s (liftR r).
Proof.
  intros Hr t Ht. unfold liftR. destruct r; try done.
  split; [done|]. by intros a' t' [= _ <-].
Qed.

Lemma safe_liftOpt {A} (s : list value) (o : option A) : safe s (liftOpt o).
Proof. destruct o; [apply safe_ret | done]. Qed.

Lemma safe_unmodelled {A} (s : list value) : safe s (unmodelled (A := A)).
Proof. done. Qed.

Lemma safe_getState (s : list value) : safe s getState.
Proof. intros t Ht. split; [done|]. by intros a' t' [= _ <-]. Qed.

Lemma safe_next {Acc} (s : list value)
  (fn : string -> value -> bool -> Acc -> T Acc) (val : value) (key : string)
  (acc : Acc) :
  safe (s ++ [val]) (fn key val (onStack s val) acc) ->
  safe s (next fn val key acc).
Proof.
  intros Hfn t Ht. unfold next, bind, getState, pushStack, popStack, modifyState, ret.
  rewrite Ht.
  destruct (Hfn (mkTrav (refs t) (s ++ [val])) eq_refl) as [Hfuel Hstack].
  destruct (fn key val (onStack s val) acc _) as [[acc' t1]| | |] eqn:Hrun; try done.
  split; [done|]. intros a t' [= _ <-]. cbn.
  rewrite (Hstack _ _ eq_refl). apply removelast_last.
Qed.

(** A chain of ancestors: objects of the heap, without repetition after
    the first. *)
Definition valid_ref (h : heap) (v : value) : Prop :=
  match v with
  | VRef a => is_Some (h !! a)
  | _ => False
  end.

Definition chain (h : heap) (s : list value) : Prop :=
  Forall (valid_ref h) s /\ NoDup (drop 1 s).

(** The stack when a traversal enters [obj]: empty, at the root, or the
    ancestors followed by [obj], which was not found among them. *)
Definition entered (h : heap) (s : list value) (obj : value) : Prop :=
  s = [] \/ exists anc, s = anc ++ [obj] /\ chain h anc /\ onStack anc obj = false.

Lemma valid_refs_addresses (h : heap) (l : list value) :
  Forall (valid_ref h) l ->
  exists l' : list nat, l = VRef <$> l' /\ Forall (fun a => is_Some (h !! a)) l'.
Proof.
  induction 1 as [|x l Hx _ (l' & -> & Hl')]; [by exists []|].
  destruct x as [| | | | |a]; try done.
  exists (a :: l'). split; [done | by constructor].
Qed.

Lemma chain_length (h : heap) (s : list value) :
  chain h s -> (length s <= length h + 1)%nat.
Proof.
  intros [Hv Hnd].
  destruct (valid_refs_addresses h (drop 1 s)) as (l & Hl & Hvl);
    [by apply Forall_drop|].
  assert (length l <= length h)%nat.
  { apply addresses_bounded; [|done]. rewrite Hl in Hnd.
    by eapply NoDup_fmap_1. }
  assert (length (drop 1 s) = length l) by (by rewrite Hl, length_fmap).
  rewrite length_drop in *. lia.
Qed.

Lemma onStack_false_not_in (h : heap) (s : list value) (a : nat) :
  (1 < length s)%nat -> onStack s (VRef a) = false -> VRef a ∉ s.
Proof.
  unfold onStack. intros Hlen. apply Nat.ltb_lt in Hlen. rewrite Hlen.
  intros Hex Hin. apply list_elem_of_In in Hin.
  assert (existsb (fun s => strict_eq s (VRef a)) s = true); [|congruence].
  apply existsb_exists. exists (VRef a). split; [done|]. cbn. apply Nat.eqb_refl.
Qed.

(** Entering an object of the heap extends the chain. *)
Lemma entered_chain (h : heap) (s : list value) (a : nat) :
  entered h s (VRef a) -> is_Some (h !! a) -> chain h s.
Proof.
  intros [->|(anc & -> & [Hv Hnd] & Hcyc)] Ha; [split; constructor|].
  split.
  - apply Forall_app. split; [done|]. by constructor.
  - destruct anc as [|x [|y anc]]; cbn; [constructor | apply NoDup_singleton |].
    cbn in Hnd. change (NoDup ((y :: anc) ++ [VRef a])).
    apply NoDup_app. split; [done|]. split; [|apply NoDup_singleton].
    intros v Hv' ->%list_elem_of_singleton.
    eapply (onStack_false_not_in h (x :: y :: anc)); [cbn; lia | done |].
    by right.
Qed.

Lemma entered_child (h : heap) (s : list value) (val : value) :
  chain h s -> onStack s val = false -> entered h (s ++ [val]) val.
Proof. intros Hs Hcyc. right. by exists s. Qed.

Lemma entered_length (h : heap) (s : list value) (obj : value) :
  entered h s obj -> (length s <= length h + 2)%nat.
Proof.
  intros [->|(anc & -> & Hc & _)]; [cbn; lia|].
  apply chain_length in Hc. rewrite length_app. cbn. lia.
Qed.

(** The iteration over an object that was entered is safe when the
    callback is, on the stack extended by the child, for a child that was
    entered in turn if it was not found on the stack. *)
Lemma safe_iterate {Acc} (h : heap) (s : list value) (obj : value)
  (sortedKeys : bool) (fn : string -> value -> bool -> Acc -> T Acc) (acc : Acc) :
  entered h s obj ->
  (forall key val acc,
     (onStack s val = false -> entered h (s ++ [val]) val) ->
     safe (s ++ [val]) (fn key val (onStack s val) acc)) ->
  safe s (iterateWithCyclicCheck h obj sortedKeys fn acc).
Proof.
  intros Hs Hfn. unfold iterateWithCyclicCheck.
  destruct obj as [| | | | |a]; try apply safe_unmodelled.
  destruct (h !! a) as [o|] eqn:Ho; [|apply safe_unmodelled].
  assert (Hc : chain h s) by (eapply entered_chain; [done | by rewrite Ho]).
  apply safe_foldM. intros acc' key.
  apply safe_bind; [apply safe_liftR, getProp_fuel|].
  intros val. apply safe_next, Hfn. intros Hcyc. by apply entered_child.
Qed.

Lemma safe_getState_bind {A} (s : list value) (k : trav -> T A) :
  (forall t, stack t = s -> safe s (k t)) -> safe s (bind getState k).
Proof. intros Hk t Ht. unfold bind, getState. by apply Hk. Qed.

Lemma safe_putState (s : list value) (t : trav) :
  stack t = s -> safe s (putState t).
Proof. intros Hs t0 _. split; [done|]. by intros a t' [= _ <-]. Qed.

Ltac safe_step :=
  match goal with
  | |- forall _, _ => intros ?
  | |- safe _ (ret _) => apply safe_ret
  | |- safe _ (liftOpt _) => apply safe_liftOpt
  | |- safe _ unmodelled => apply safe_unmodelled
  | |- safe _ (liftR (getProp _ _ _)) => apply safe_liftR, getProp_fuel
  | |- safe _ (liftR (hasIn _ _ _)) => apply safe_liftR, hasIn_fuel
  | |- safe _ (liftR (valueOf _ _)) => apply safe_liftR, valueOf_fuel
  | |- safe _ (liftR (toString _ _)) => apply safe_liftR, toString_fuel
  | |- safe _ (liftR (callToString _ _)) => apply safe_liftR, callToString_fuel
  | |- safe _ (bind _ _) => apply safe_bind
  | |- safe _ (match ?x with _ => _ end) => destruct x eqn:?
  end.

(** [serializeInternal], entered with enough fuel for the part of the heap
    that is not yet on the stack, is safe. *)
Lemma serializeInternal_safe (h : heap) (fuel : nat) (obj : value) (s : list value) :
  entered h s obj ->
  (length h + 3 <= fuel + length s)%nat ->
  safe s (serializeInternal fuel h obj).
Proof.
  revert obj s. induction fuel as [|fuel IH]; intros obj s Hs Hfuel.
  - apply entered_length in Hs. lia.
  - cbn [serializeInternal]. unfold serializeInternal_body.
    destruct (isPrimitive obj (typeof h obj) && negb (isRealNaN obj));
      [apply safe_ret|].
    apply safe_bind; [apply safe_liftOpt|]. intros className.
    destruct (negb (isSerializable h obj className)).
    + apply safe_getState_bind. intros t Ht.
      destruct (indexOf (refs t) obj); [apply safe_ret|].
      apply safe_bind; [by apply safe_putState | intros; apply safe_ret].
    + apply safe_bind; [|intros; apply safe_ret].
      destruct (isObjectType h obj); [|repeat safe_step].
      apply safe_bind; [|repeat safe_step].
      unfold serializeDeep. apply safe_iterate; [done|].
      intros key val acc Hentered. unfold serializeStep.
      destruct (onStack s val); [apply safe_ret|].
      apply safe_bind; [|repeat safe_step].
      apply IH; [by apply Hentered|]. rewrite length_app. cbn. lia.
Qed.

(** [isEqual], entered on its first argument with enough fuel, is safe. *)
Lemma isEqual_safe (h : heap) (fuel : nat) (a b : value) (s : list value) :
  entered h s a ->
  (length h + 3 <= fuel + length s)%nat ->
  safe s (isEqual fuel h a b).
Proof.
  revert a b s. induction fuel as [|fuel IH]; intros a b s Hs Hfuel.
  - apply entered_length in Hs. lia.
  - cbn [isEqual]. unfold isEqual_body.
    destruct (strict_eq a b); [repeat safe_step|].
    apply safe_bind; [apply safe_liftOpt|]. intros aClass.
    apply safe_bind; [apply safe_liftOpt|]. intros bClass.
    destruct (negb (String.eqb aClass bClass)); [apply safe_ret|].
    destruct (isSerializable h a aClass && isSerializable h b bClass);
      [|repeat safe_step].
    unfold objectIsEqual.
    destruct (negb (String.eqb (typeof h a) (typeof h b))); [apply safe_ret|].
    apply safe_bind; [repeat safe_step|]. intros av.
    apply safe_bind; [|repeat safe_step].
    destruct (isObjectType h av); [|apply safe_ret].
    apply safe_bind; [repeat safe_step|]. intros alen.
    apply safe_bind; [repeat safe_step|]. intros blen.
    destruct (negb (strict_eq alen blen)); [apply safe_ret|].
    apply safe_bind; [|repeat safe_step].
    apply safe_iterate; [done|].
    intros key val [propsEqual count] Hentered. unfold equalStep.
    apply safe_bind; [|repeat safe_step].
    destruct (onStack s val); [apply safe_ret|].
    apply safe_bind; [repeat safe_step|]. intros found.
    destruct (negb found); [apply safe_ret|].
    apply safe_bind; [repeat safe_step|]. intros bval.
    apply safe_bind; [|repeat safe_step].
    apply IH; [by apply Hentered|]. rewrite length_app. cbn. lia.
Qed.


(** A heap with two objects that refer to themselves and an array that
    holds itself. *)
Definition loops : heap :=
  [mkObject KObject [("name", VStr "a"); ("self", VRef 0)];
   mkObject KObject [("self", VRef 1); ("name", VStr "a")];
   mkObject (KArray 2) [("0", VNum (Int 1)); ("1", VRef 2)]].

Example loops_serialize :
  serialize loops (VRef 0) = serialize loops (VRef 0) /\
  (exists tok, serialize loops (VRef 0) = Ok (VStr tok)) /\
  (exists tok, serialize loops (VRef 2) = Ok (VStr tok)).
Proof. repeat split; eexists; vm_compute; reflexivity. Qed.

Example loops_equal :
  equal loops (VRef 0) (VRef 1) = Ok true /\
  equal loops (VRef 2) (VRef 2) = Ok true /\
  equal loops (VRef 0) (VRef 2) = Ok false.
Proof. repeat split; vm_compute; reflexivity. Qed.


(** ** Tokens of serialization *)

Lemma ascii_compare_Lt_trans (a b c : ascii) :
  Ascii.compare a b = Lt -> Ascii.compare b c = Lt -> Ascii.compare a c = Lt.
Proof.
  unfold Ascii.compare. rewrite !N.compare_lt_iff. apply N.lt_trans.
Qed.

#[local] Instance str_le_trans : Transitive str_le.
Proof.
  unfold str_le, String.leb. intros a.
  induction a as [|x a IH]; intros [|y b] [|z c]; cbn; try done.
  destruct (Ascii.compare x y) eqn:Hxy; try done.
  - apply Ascii.compare_eq_iff in Hxy as ->.
    destruct (Ascii.compare y z) eqn:Hyz; try done. apply IH.
  - destruct (Ascii.compare y z) eqn:Hyz; try done.
    + apply Ascii.compare_eq_iff in Hyz as <-. by rewrite Hxy.
    + by rewrite (ascii_compare_Lt_trans x y z).
Qed.

#[local] Instance str_le_antisym : AntiSymm (=) str_le.
Proof. intros a b. apply String.leb_antisym. Qed.

#[local] Instance str_le_total : Total str_le.
Proof. intros a b. apply String.leb_total. Qed.

(** The sorted keys do not depend on the order of enumeration. *)
Lemma sort_keys_permutation (l1 l2 : list string) :
  l1 ≡ₚ l2 -> sort_keys l1 = sort_keys l2.
Proof.
  intros Hp. unfold sort_keys. apply (Sorted_unique str_le).
  - apply Sorted_merge_sort, _.
  - apply Sorted_merge_sort, _.
  - by rewrite !merge_sort_Permutation.
Qed.

Lemma assoc_None_keys {A} (key : string) (l : list (string * A)) :
  assoc key l = None <-> key ∉ map fst l.
Proof.
  induction l as [|[k v] l IH]; cbn.
  - split; [intros _ Hin; by apply elem_of_nil in Hin | done].
  - rewrite not_elem_of_cons. destruct (String.eqb_spec k key) as [->|Hne].
    + split; [done | by intros [? _]].
    + rewrite IH. split; [by intros ?; split | by intros [_ ?]].
Qed.

Lemma mapR_ext {A B} (f g : A -> result B) (l : list A) :
  (forall a, In a l -> f a = g a) -> mapR f l = mapR g l.
Proof.
  induction l as [|a l IH]; intros Hfg; cbn [mapR]; [done|].
  rewrite Hfg by (by left). rewrite IH; [done|]. intros. apply Hfg. by right.
Qed.

Lemma Forall2_removelast {A B} (P : A -> B -> Prop) (l : list A) (k : list B) :
  Forall2 P l k -> Forall2 P (removelast l) (removelast k).
Proof.
  induction 1 as [|x y l k Hxy Hlk IH]; [constructor|].
  cbn [removelast]. destruct Hlk; [constructor|].
  constructor; [done | apply IH].
Qed.

(** *** Objects of the same structure *)

Section Similar.
Variables (h : heap) (R : nat -> nat -> Prop).

(** Two values are similar when they are the same primitive value, or
    objects that correspond by [R]. *)
Definition similar (x y : value) : Prop :=
  match x, y with
  | VRef a, VRef b => R a b
  | VRef _, _ | _, VRef _ => False
  | _, _ => x = y
  end.

Definition same_property (x y : option value) : Prop :=
  match x, y with
  | Some v, Some w => similar v w
  | None, None => True
  | _, _ => False
  end.

(** Objects that correspond are of the same kind and have the same keys,
    in whatever order, bound to similar values. *)
Definition same_structure (a b : nat) : Prop :=
  exists oa ob,
    h !! a = Some oa /\ h !! b = Some ob /\
    okind oa = okind ob /\
    NoDup (getKeys oa) /\ NoDup (getKeys ob) /\
    forall key, same_property (assoc key (oprops oa)) (assoc key (oprops ob)).

(** [R] is an isomorphism between two parts of the heap: a one-to-one
    correspondence of objects of the same structure. *)
Record isomorphism : Prop := {
  iso_structure : forall a b, R a b -> same_structure a b;
  iso_functional : forall a b b', R a b -> R a b' -> b = b';
  iso_injective : forall a a' b, R a b -> R a' b -> a = a'
}.

Definition same_trav (t t' : trav) : Prop :=
  Forall2 similar (refs t) (refs t') /\ Forall2 similar (stack t) (stack t').

Definition same_run {A} (r r' : result (A * trav)) : Prop :=
  match r, r' with
  | Ok (a, t), Ok (a', t') => a = a' /\ same_trav t t'
  | Throw e, Throw e' => e = e'
  | Unmodelled, Unmodelled | OutOfFuel, OutOfFuel => True
  | _, _ => False
  end.

(** [c'] does on similar tables what [c] does. *)
Definition simulates {A} (c c' : T A) : Prop :=
  forall t t', same_trav t t' -> same_run (c t) (c' t').

Lemma simulates_ret {A} (a : A) : simulates (ret a) (ret a).
Proof. by intros t t' Ht. Qed.

Lemma simulates_bind {A B} (c c' : T A) (k k' : A -> T B) :
  simulates c c' -> (forall a, simulates (k a) (k' a)) ->
  simulates (bind c k) (bind c' k').
Proof.
  intros Hc Hk t t' Ht. specialize (Hc t t' Ht). unfold bind.
  destruct (c t) as [[a t1]| | |], (c' t') as [[a' t1']| | |]; try done.
  destruct Hc as [<- Ht1]. by apply Hk.
Qed.

Lemma simulates_liftR {A} (r : result A) : simulates (liftR r) (liftR r).
Proof. intros t t' Ht. unfold liftR. by destruct r. Qed.

Lemma simulates_liftOpt {A} (o : option A) : simulates (liftOpt o) (liftOpt o).
Proof. intros t t' Ht. by destruct o. Qed.

Lemma simulates_foldM {A B} (f g : A -> B -> T A) (l : list B) (a : A) :
  (forall a b, In b l -> simulates (f a b) (g a b)) ->
  simulates (foldM f l a) (foldM g l a).
Proof.
  revert a. induction l as [|b l IH]; intros a Hfg; cbn [foldM].
  - apply simulates_ret.
  - apply simulates_bind; [apply Hfg; by left|].
    intros a'. apply IH. intros. apply Hfg. by right.
Qed.

Hypothesis Hiso : isomorphism.

Lemma similar_strict_eq (x1 y1 x2 y2 : value) :
  similar x1 y1 -> similar x2 y2 -> strict_eq x1 x2 = strict_eq y1 y2.
Proof using Hiso.
  intros H1 H2.
  destruct x1, y1; try done; cbn in H1; try (injection H1 as <-);
    destruct x2, y2; try done; cbn in H2; try (injection H2 as <-); try done.
  cbn. destruct (Nat.eqb_spec a a1) as [->|Hne].
  - rewrite (iso_functional Hiso _ _ _ H1 H2). symmetry. apply Nat.eqb_refl.
  - symmetry. apply Nat.eqb_neq. intros ->. apply Hne.
    apply (iso_injective Hiso _ _ _ H1 H2).
Qed.

Lemma similar_existsb (s s' : list value) (x y : value) :
  Forall2 similar s s' -> similar x y ->
  existsb (fun v => strict_eq v x) s = existsb (fun v => strict_eq v y) s'.
Proof using Hiso.
  intros Hs Hxy. induction Hs as [|v w s s' Hvw Hs IH]; [done|].
  cbn. by rewrite IH, (similar_strict_eq v w x y).
Qed.

Lemma similar_onStack (s s' : list value) (x y : value) :
  Forall2 similar s s' -> similar x y -> onStack s x = onStack s' y.
Proof using Hiso.
  intros Hs Hxy. unfold onStack.
  by rewrite (Forall2_length _ _ _ Hs), (similar_existsb s s' x y).
Qed.

Lemma similar_indexOf (i : nat) (l l' : list value) (x y : value) :
  Forall2 similar l l' -> similar x y ->
  indexOf_from i l x = indexOf_from i l' y.
Proof using Hiso.
  intros Hl Hxy. revert i. induction Hl as [|v w l l' Hvw Hl IH]; intros i; [done|].
  cbn. by rewrite IH, (similar_strict_eq v w x y).
Qed.

Lemma similar_primitive (x y : value) :
  similar x y -> (forall a, x <> VRef a) -> x = y.
Proof. intros Hxy Hx. destruct x, y; try done. by destruct (Hx a). Qed.

(** The conversion to a string sees the kind of an object and, of an array,
    its elements: the order of the keys does not show. *)
Lemma similar_toStringObj (fuel : nat) (joining joining' : list nat) (a b : nat) :
  Forall2 R joining joining' -> R a b ->
  toStringObj fuel h joining a = toStringObj fuel h joining' b.
Proof using Hiso.
  revert joining joining' a b.
  induction fuel as [|fuel IH]; intros joining joining' a b Hj Hab; [done|].
  destruct (iso_structure Hiso a b Hab) as (oa & ob & Ha & Hb & Hk & _ & _ & Hp).
  cbn [toStringObj]. rewrite Ha, Hb.
  assert (Ho : overridesToString oa = overridesToString ob).
  { unfold overridesToString.
    pose proof (Hp "toString") as Ht. pose proof (Hp "join") as Hjn.
    by destruct (assoc "toString" (oprops oa)), (assoc "toString" (oprops ob)),
      (assoc "join" (oprops oa)), (assoc "join" (oprops ob)). }
  rewrite <- Ho, <- Hk. destruct (overridesToString oa); [done|].
  destruct (okind oa) as [|len| | | |]; try done.
  assert (Hin : existsb (Nat.eqb a) joining = existsb (Nat.eqb b) joining').
  { clear IH. induction Hj as [|c d j j' Hcd Hj IHj]; [done|]. cbn.
    rewrite IHj. f_equal.
    pose proof (similar_strict_eq (VRef a) (VRef b) (VRef c) (VRef d) Hab Hcd) as He.
    exact He. }
  rewrite <- Hin. destruct (existsb (Nat.eqb a) joining); [done|].
  erewrite mapR_ext; [reflexivity|].
  intros i _. cbn beta. specialize (Hp (index_key i)).
  destruct (assoc (index_key i) (oprops oa)) as [x|],
    (assoc (index_key i) (oprops ob)) as [y|]; try done.
  cbn in Hp. destruct x, y; try done; try (by injection Hp as <-).
  apply IH; [by constructor | done].
Qed.

Lemma similar_callToString (x y : value) :
  similar x y -> callToString h x = callToString h y.
Proof using Hiso.
  intros Hxy. destruct x, y; try done; cbn in Hxy; try (by injection Hxy as <-).
  unfold callToString, toString. apply similar_toStringObj; [constructor | done].
Qed.

Lemma similar_typeof (x y : value) : similar x y -> typeof h x = typeof h y.
Proof using Hiso.
  intros Hxy. destruct x, y; try done. cbn in Hxy.
  destruct (iso_structure Hiso _ _ Hxy) as (oa & ob & Ha & Hb & Hk & _).
  by rewrite (typeof_known _ _ _ Ha), (typeof_known _ _ _ Hb), Hk.
Qed.

Lemma similar_classToString (x y : value) :
  similar x y -> classToString h x = classToString h y.
Proof using Hiso.
  intros Hxy. destruct x, y; try done. cbn in Hxy.
  destruct (iso_structure Hiso _ _ Hxy) as (oa & ob & Ha & Hb & Hk & _).
  by rewrite (classToString_known _ _ _ Ha), (classToString_known _ _ _ Hb), Hk.
Qed.

Lemma similar_isObjectType (x y : value) :
  similar x y -> isObjectType h x = isObjectType h y.
Proof using Hiso.
  intros Hxy. unfold isObjectType. rewrite (similar_typeof x y Hxy).
  destruct x, y; try done; cbn in Hxy; by injection Hxy as <-.
Qed.

Lemma similar_isSerializable (x y : value) (className : string) :
  similar x y -> isSerializable h x className = isSerializable h y className.
Proof using Hiso.
  intros Hxy. unfold isSerializable, isPlainObject.
  rewrite (similar_isObjectType x y Hxy). do 3 f_equal.
  destruct x, y; try done. cbn in Hxy.
  destruct (iso_structure Hiso _ _ Hxy) as (oa & ob & Ha & Hb & Hk & _).
  destruct (iso_structure Hiso _ _ Hxy) as (oa' & ob' & Ha' & Hb' & _ & _ & _ & Hp).
  rewrite Ha in Ha'. rewrite Hb in Hb'. injection Ha' as <-. injection Hb' as <-.
  unfold hasValidPlainObjectPrototype. rewrite Ha, Hb.
  specialize (Hp "constructor").
  destruct oa as [ka pa], ob as [kb pb]. cbn in Hk, Hp. subst kb.
  destruct ka; try done. by destruct (assoc _ pa), (assoc _ pb).
Qed.

(** The two have the same keys, up to their order. *)
Lemma similar_keys (a b : nat) (oa ob : object) :
  R a b -> h !! a = Some oa -> h !! b = Some ob ->
  sort_keys (getKeys oa) = sort_keys (getKeys ob).
Proof using Hiso.
  intros Hab Ha Hb.
  destruct (iso_structure Hiso a b Hab) as (oa' & ob' & Ha' & Hb' & _ & Hna & Hnb & Hp).
  rewrite Ha in Ha'. rewrite Hb in Hb'. injection Ha' as <-. injection Hb' as <-.
  apply sort_keys_permutation, NoDup_Permutation; [done | done |].
  intros key. specialize (Hp key). unfold getKeys.
  destruct (decide (key ∈ map fst (oprops oa))) as [Hi|Hi],
    (decide (key ∈ map fst (oprops ob))) as [Hj|Hj]; try tauto.
  - apply assoc_None_keys in Hj. rewrite Hj in Hp.
    destruct (assoc key (oprops oa)) eqn:He; [done|].
    by apply assoc_None_keys in He.
  - apply assoc_None_keys in Hi. rewrite Hi in Hp.
    destruct (assoc key (oprops ob)) eqn:He; [done|].
    by apply assoc_None_keys in He.
Qed.

Lemma simulates_next {Acc} (fn fn' : string -> value -> bool -> Acc -> T Acc)
  (val val' : value) (key : string) (acc : Acc) :
  similar val val' ->
  (forall cyc, simulates (fn key val cyc acc) (fn' key val' cyc acc)) ->
  simulates (next fn val key acc) (next fn' val' key acc).
Proof using Hiso.
  intros Hval Hfn [table s] [table' s'] [Htable Hs]. cbn in Htable, Hs.
  unfold next, bind, getState, pushStack, popStack, modifyState, ret. cbn.
  rewrite (similar_onStack s s' val val' Hs Hval).
  match goal with
  | |- same_run (match ?c ?t with _ => _ end) (match ?c' ?t' with _ => _ end) =>
      assert (Hrun : same_run (c t) (c' t'));
      [|destruct (c t) as [[a t1]| | |], (c' t') as [[a' t1']| | |]; try done]
  end.
  - apply Hfn. split; cbn; [done|]. apply Forall2_app; [done|]. by constructor.
  - destruct Hrun as [<- [Hr Hst]]. split; [done|]. split; cbn; [done|].
    by apply Forall2_removelast.
Qed.

Lemma simulates_iterate {Acc} (fn fn' : string -> value -> bool -> Acc -> T Acc)
  (x y : value) (acc : Acc) :
  similar x y ->
  (forall key val val' cyc acc, similar val val' ->
     simulates (fn key val cyc acc) (fn' key val' cyc acc)) ->
  simulates (iterateWithCyclicCheck h x true fn acc)
            (iterateWithCyclicCheck h y true fn' acc).
Proof using Hiso.
  intros Hxy Hfn. destruct x, y; try done. cbn in Hxy.
  destruct (iso_structure Hiso _ _ Hxy) as (oa & ob & Ha & Hb & _ & _ & _ & Hp).
  rewrite (iterate_known _ _ _ Ha), (iterate_known _ _ _ Hb).
  rewrite <- (similar_keys _ _ _ _ Hxy Ha Hb).
  apply simulates_foldM. intros acc' key _.
  unfold getProp. rewrite Ha, Hb. specialize (Hp key).
  destruct (assoc key (oprops oa)) as [v|], (assoc key (oprops ob)) as [w|];
    try done.
  - intros t t' Ht. unfold bind, liftR.
    apply (simulates_next fn fn' v w key acc'); [done | | done].
    intros cyc. by apply Hfn.
  - destruct (iso_structure Hiso _ _ Hxy) as (oa' & ob' & Ha' & Hb' & Hk & _).
    rewrite Ha in Ha'. rewrite Hb in Hb'. injection Ha' as <-. injection Hb' as <-.
    rewrite <- Hk. destruct (hidden_prop (okind oa) key); try done.
    + intros t t' Ht. unfold bind, liftR.
      apply simulates_next; [done | | done]. intros cyc. by apply Hfn.
    + intros t t' Ht. unfold bind, liftR.
      apply simulates_next; [done | | done]. intros cyc. by apply Hfn.
Qed.

(** [serializeInternal] gives similar values the same token, and leaves
    similar tables. *)
Lemma simulates_serializeInternal_body (descend descend' : value -> T value)
  (x y : value) :
  (forall x y, similar x y -> simulates (descend x) (descend' y)) ->
  similar x y ->
  simulates (serializeInternal_body descend h x)
            (serializeInternal_body descend' h y).
Proof using Hiso.
  intros Hd Hxy. unfold serializeInternal_body.
  rewrite <- (similar_typeof x y Hxy).
  assert (Hprim : isPrimitive y (typeof h x) = isPrimitive x (typeof h x)).
  { destruct x, y; try done; cbn in Hxy; by injection Hxy as <-. }
  assert (Hnan : isRealNaN y = isRealNaN x).
  { unfold isRealNaN. rewrite (similar_strict_eq x y x y Hxy Hxy).
    destruct x, y; try done; cbn in Hxy; by injection Hxy as <-. }
  rewrite Hprim, Hnan.
  destruct (isPrimitive x (typeof h x) && negb (isRealNaN x)) eqn:Hfast.
  { assert (Hx : x = y); [|subst y; apply simulates_ret].
    apply similar_primitive; [done|]. intros a ->.
    cbn in Hfast. by destruct (h !! a) as [[[] ?]|]. }
  rewrite <- (similar_classToString x y Hxy).
  apply simulates_bind; [apply simulates_liftOpt|]. intros className.
  rewrite <- (similar_isSerializable x y className Hxy).
  destruct (negb (isSerializable h x className)).
  { intros t t' Ht. unfold bind, getState, putState, ret, indexOf.
    rewrite (similar_indexOf 0 (refs t) (refs t') x y (proj1 Ht) Hxy).
    destruct (indexOf_from 0 (refs t') y); cbn.
    - done.
    - rewrite (Forall2_length _ _ _ (proj1 Ht)). split; [done|].
      split; cbn; [|apply Ht].
      apply Forall2_app; [apply Ht | by constructor]. }
  rewrite <- (similar_isObjectType x y Hxy).
  apply simulates_bind; [|intros value; apply simulates_ret].
  destruct (isObjectType h x) eqn:Hobj.
  - apply simulates_bind.
    + unfold serializeDeep. apply simulates_iterate; [done|].
      intros key val val' cyc result Hval. unfold serializeStep.
      destruct cyc; [apply simulates_ret|].
      apply simulates_bind; [by apply Hd|]. intros tok.
      apply simulates_bind; [apply simulates_liftR | intros; apply simulates_ret].
    + intros deep. rewrite <- (similar_callToString x y Hxy).
      apply simulates_bind; [apply simulates_liftR | intros; apply simulates_ret].
  - assert (Hx : (exists a b, x = VRef a /\ y = VRef b) \/ x = y).
    { destruct x, y; try done; [..|left; by eexists _, _]; by right. }
    destruct Hx as [(a & b & -> & ->)| <-]; [by intros t t' Ht|].
    apply simulates_bind; [apply simulates_liftOpt|]. intros r.
    destruct (num_eqb r NegInf); [apply simulates_ret|].
    apply simulates_bind; [apply simulates_liftR | intros; apply simulates_ret].
Qed.

Lemma simulates_serializeInternal (fuel : nat) (x y : value) :
  similar x y ->
  simulates (serializeInternal fuel h x) (serializeInternal fuel h y).
Proof using Hiso.
  revert x y. induction fuel as [|fuel IH]; intros x y Hxy.
  - by intros t t' Ht.
  - cbn [serializeInternal]. by apply simulates_serializeInternal_body.
Qed.

Lemma similar_serialize (x y : value) :
  similar x y -> serialize h x = serialize h y.
Proof using Hiso.
  intros Hxy. unfold serialize.
  assert (Hrun : same_run (serializeInternal (depth_bound h) h x (mkTrav [] []))
                          (serializeInternal (depth_bound h) h y (mkTrav [] []))).
  { apply simulates_serializeInternal; [done|]. split; constructor. }
  destruct (serializeInternal _ h x _) as [[tok t]| | |],
    (serializeInternal _ h y _) as [[tok' t']| | |]; try done.
  - by destruct Hrun as [-> _].
  - cbn in Hrun. by subst.
Qed.
End Similar.

(** *** The reference table *)

Lemma next_run {Acc} (fn : string -> value -> bool -> Acc -> T Acc)
  (val : value) (key : string) (acc : Acc) (t : trav) :
  next fn val key acc t =
  match fn key val (onStack (stack t) val) acc
          (mkTrav (refs t) (stack t ++ [val])) with
  | Ok (acc', t1) => Ok (acc', mkTrav (refs t1) (removelast (stack t1)))
  | Throw e => Throw e
  | Unmodelled => Unmodelled
  | OutOfFuel => OutOfFuel
  end.
Proof. reflexivity. Qed.

Lemma indexOf_from_prefix (i j : nat) (l l' : list value) (x : value) :
  indexOf_from i l x = Some j -> l `prefix_of` l' -> indexOf_from i l' x = Some j.
Proof.
  intros Hj [k ->]. revert i Hj. induction l as [|v l IH]; intros i Hj; [done|].
  cbn in *. destruct (strict_eq v x); [done|]. by apply IH.
Qed.

Lemma indexOf_from_new (i : nat) (l k : list value) (x : value) :
  indexOf_from i l x = None -> strict_eq x x = true ->
  indexOf_from i (l ++ x :: k) x = Some (i + length l)%nat.
Proof.
  intros Hl Hx. revert i Hl. induction l as [|v l IH]; intros i Hl; cbn in *.
  - rewrite Hx. f_equal. lia.
  - destruct (strict_eq v x); [done|]. rewrite IH by done. f_equal. lia.
Qed.

Lemma indexOf_from_lookup (i j : nat) (l : list value) (a : nat) :
  indexOf_from i l (VRef a) = Some j ->
  (i <= j)%nat /\ l !! (j - i)%nat = Some (VRef a).
Proof.
  revert i. induction l as [|v l IH]; intros i Hj; [done|]. cbn in Hj.
  destruct (strict_eq v (VRef a)) eqn:Hv.
  - injection Hj as <-. rewrite Nat.sub_diag. split; [lia|].
    destruct v; try done. cbn in Hv. apply Nat.eqb_eq in Hv. by subst.
  - apply IH in Hj as [Hle Hl]. split; [lia|].
    replace (j - i)%nat with (S (j - S i)) by lia. done.
Qed.

(** An index of the table stands for one object only. *)
Lemma indexOf_injective (l : list value) (a b : nat) (i : nat) :
  indexOf l (VRef a) = Some i -> indexOf l (VRef b) = Some i -> a = b.
Proof.
  intros [_ Ha]%indexOf_from_lookup [_ Hb]%indexOf_from_lookup. congruence.
Qed.

(** An object that is not serializable: neither of a known type nor a plain
    object. *)
Definition isHost (h : heap) (a : nat) : bool :=
  match classToString h (VRef a) with
  | Some className => negb (isSerializable h (VRef a) className)
  | None => false
  end.

(** The token of such an object is its index in the table, where the call
    appends it unless it is there. *)
Lemma host_token (h : heap) (fuel : nat) (a : nat) (t : trav) :
  isHost h a = true ->
  serializeInternal (S fuel) h (VRef a) t =
  match indexOf (refs t) (VRef a) with
  | Some ref => Ok (VNum (Int (Z.of_nat ref)), t)
  | None => Ok (VNum (Int (Z.of_nat (length (refs t)))),
                mkTrav (refs t ++ [VRef a]) (stack t))
  end.
Proof.
  unfold isHost. intros Hhost. cbn [serializeInternal]. unfold serializeInternal_body.
  assert (Hprim : isPrimitive (VRef a) (typeof h (VRef a)) = false).
  { cbn. by destruct (h !! a) as [[[] ?]|]. }
  rewrite Hprim. cbn [andb].
  destruct (classToString h (VRef a)) as [className|]; [|done].
  unfold bind at 1. cbn [liftOpt ret]. rewrite Hhost.
  unfold bind, getState, putState, ret. by destruct (indexOf (refs t) (VRef a)).
Qed.

(** A value that is given a token of the table is [===] to itself: NaN is
    of a known type. *)
Lemma not_host_reflexive (h : heap) (x : value) (className : string) :
  isPrimitive x (typeof h x) && negb (isRealNaN x) = false ->
  classToString h x = Some className ->
  isSerializable h x className = false ->
  strict_eq x x = true.
Proof.
  intros Hfast Hclass Hser. destruct x as [| |b|n|s|a]; try done; cbn.
  - by destruct b.
  - destruct n as [| | | |z]; try done.
    + cbn in Hclass. by injection Hclass as <-.
    + apply Z.eqb_refl.
  - apply String.eqb_refl.
  - apply Nat.eqb_refl.
Qed.

Section Replay.
Variable h : heap.

(** A run of [c] only appends to the table and leaves the stack as it was;
    run again on any table that holds what it appended, [c] returns the same
    and appends nothing. *)
Definition replays {A} (c : T A) : Prop :=
  forall t a t', c t = Ok (a, t') ->
    refs t `prefix_of` refs t' /\ stack t' = stack t /\
    forall table, refs t' `prefix_of` table ->
      c (mkTrav table (stack t)) = Ok (a, mkTrav table (stack t)).

Lemma replays_ret {A} (a : A) : replays (ret a).
Proof. by intros t a' t' [= <- <-]. Qed.

Lemma replays_bind {A B} (c : T A) (k : A -> T B) :
  replays c -> (forall a, replays (k a)) -> replays (bind c k).
Proof.
  intros Hc Hk t b t' (a & t1 & H1 & H2)%bind_Ok.
  destruct (Hc _ _ _ H1) as (Hp1 & Hs1 & Hr1).
  destruct (Hk _ _ _ _ H2) as (Hp2 & Hs2 & Hr2).
  split; [by etrans|]. split; [congruence|].
  intros table Htable. unfold bind. rewrite Hr1 by (by etrans).
  rewrite <- Hs1. by apply Hr2.
Qed.

Lemma replays_liftR {A} (r : result A) : replays (liftR r).
Proof. intros t a t'. unfold liftR. destruct r; try done. by intros [= <- <-]. Qed.

Lemma replays_liftOpt {A} (o : option A) : replays (liftOpt o).
Proof. destruct o; [apply replays_ret | done]. Qed.

Lemma replays_foldM {A B} (f : A -> B -> T A) (l : list B) (a : A) :
  (forall a b, replays (f a b)) -> replays (foldM f l a).
Proof.
  intros Hf. revert a. induction l as [|b l IH]; intros a; cbn [foldM].
  - apply replays_ret.
  - apply replays_bind; [apply Hf | apply IH].
Qed.

Lemma replays_next {Acc} (fn : string -> value -> bool -> Acc -> T Acc)
  (val : value) (key : string) (acc : Acc) :
  (forall cyc, replays (fn key val cyc acc)) -> replays (next fn val key acc).
Proof.
  intros Hfn. unfold replays. intros t acc' t'.
  rewrite (next_run fn val key acc t).
  destruct (fn key val _ acc _) as [[acc1 t1]| | |] eqn:Hrun; try done.
  intros [= <- <-]. destruct (Hfn _ _ _ _ Hrun) as (Hp & Hs & Hr).
  cbn [refs stack] in *.
  split; [done|]. split; [by rewrite Hs, removelast_last|].
  intros table Htable. rewrite (next_run fn val key acc (mkTrav table (stack t))).
  cbn [refs stack]. rewrite Hr by done. cbn [refs stack].
  by rewrite removelast_last.
Qed.

Lemma replays_iterate {Acc} (obj : value)
  (fn : string -> value -> bool -> Acc -> T Acc) (acc : Acc) :
  (forall key val cyc acc, replays (fn key val cyc acc)) ->
  replays (iterateWithCyclicCheck h obj true fn acc).
Proof.
  intros Hfn. unfold iterateWithCyclicCheck.
  destruct obj as [| | | | |a]; try done. destruct (h !! a); [|done].
  apply replays_foldM. intros acc' key.
  apply replays_bind; [apply replays_liftR|]. intros val. by apply replays_next.
Qed.

Lemma replays_ext {A} (c c' : T A) :
  (forall t, c t = c' t) -> replays c' -> replays c.
Proof.
  intros Hcc Hc t a t'. rewrite Hcc. intros Hrun.
  destruct (Hc _ _ _ Hrun) as (Hp & Hs & Hr). repeat split; [done..|].
  intros table Htable. rewrite Hcc. by apply Hr.
Qed.

Lemma replays_serializeInternal_body (descend : value -> T value) (obj : value) :
  (forall val, replays (descend val)) ->
  replays (serializeInternal_body descend h obj).
Proof.
  intros Hd. unfold serializeInternal_body.
  destruct (isPrimitive obj (typeof h obj) && negb (isRealNaN obj)) eqn:Hfast;
    [apply replays_ret|].
  destruct (classToString h obj) as [className|] eqn:Hclass;
    [|by intros t tok t'].
  eapply replays_ext;
    [intros t; unfold bind at 1; cbn [liftOpt ret]; reflexivity|].
  cbn beta.
  destruct (negb (isSerializable h obj className)) eqn:Hser.
  { apply negb_true_iff in Hser.
    pose proof (not_host_reflexive h obj className Hfast Hclass Hser) as Hrefl.
    intros t tok t'. unfold bind, getState, putState, ret, indexOf.
    destruct (indexOf_from 0 (refs t) obj) as [i|] eqn:Hi;
      intros [= <- <-]; cbn [refs stack].
    - split; [done|]. split; [done|]. intros table Htable.
      by rewrite (indexOf_from_prefix _ _ _ _ _ Hi Htable).
    - split; [by apply prefix_app_r|]. split; [done|]. intros table [k ->].
      rewrite <- app_assoc. cbn [app].
      by rewrite (indexOf_from_new 0 (refs t) k obj Hi Hrefl). }
  apply replays_bind; [|intros; apply replays_ret].
  destruct (isObjectType h obj).
  - apply replays_bind.
    + unfold serializeDeep. apply replays_iterate.
      intros key val cyc result. unfold serializeStep.
      destruct cyc; [apply replays_ret|].
      apply replays_bind; [apply Hd|]. intros tok.
      apply replays_bind; [apply replays_liftR | intros; apply replays_ret].
    + intros deep.
      apply replays_bind; [apply replays_liftR | intros; apply replays_ret].
  - apply replays_bind; [apply replays_liftOpt|]. intros r.
    destruct (num_eqb r NegInf); [apply replays_ret|].
    apply replays_bind; [apply replays_liftR | intros; apply replays_ret].
Qed.

Lemma replays_serializeInternal (fuel : nat) (obj : value) :
  replays (serializeInternal fuel h obj).
Proof.
  revert obj. induction fuel as [|fuel IH]; intros obj; [by intros t tok t'|].
  cbn [serializeInternal]. by apply replays_serializeInternal_body.
Qed.

(** A second call on the table the first one left returns the same token
    and leaves the table as it is. *)
Lemma serializeInternal_again (fuel : nat) (obj tok : value) (t t' : trav) :
  serializeInternal fuel h obj t = Ok (tok, t') ->
  serializeInternal fuel h obj t' = Ok (tok, t').
Proof.
  intros Hrun.
  destruct (replays_serializeInternal fuel obj _ _ _ Hrun) as (_ & Hs & Hr).
  specialize (Hr (refs t') (reflexivity _)). rewrite <- Hs in Hr.
  by destruct t'.
Qed.
End Replay.

(** Two objects that are not serializable and not the same have two tokens,
    each the index of its object in the table, whatever is serialized
    between the two. *)
Lemma host_tokens_differ (h : heap) (a b : nat) (fuel fuel' : nat)
  (t t1 t2 t3 : trav) (tokA tokB : value) :
  isHost h a = true -> isHost h b = true -> a <> b ->
  serializeInternal fuel h (VRef a) t = Ok (tokA, t1) ->
  refs t1 `prefix_of` refs t2 ->
  serializeInternal fuel' h (VRef b) t2 = Ok (tokB, t3) ->
  exists i j,
    tokA = VNum (Int (Z.of_nat i)) /\ tokB = VNum (Int (Z.of_nat j)) /\
    i <> j /\
    indexOf (refs t3) (VRef a) = Some i /\ indexOf (refs t3) (VRef b) = Some j.
Proof.
  intros Ha Hb Hab HrunA Ht HrunB.
  destruct fuel as [|fuel]; [done|]. destruct fuel' as [|fuel']; [done|].
  rewrite (host_token h fuel a t Ha) in HrunA.
  rewrite (host_token h fuel' b t2 Hb) in HrunB.
  assert (HA : exists i, tokA = VNum (Int (Z.of_nat i)) /\
                         indexOf (refs t1) (VRef a) = Some i).
  { destruct (indexOf (refs t) (VRef a)) as [i|] eqn:Hi;
      injection HrunA as <- <-; eexists; (split; [reflexivity|]); [done|].
    cbn [refs]. unfold indexOf in *.
    rewrite (indexOf_from_new 0 (refs t) [] (VRef a) Hi); [done|].
    apply Nat.eqb_refl. }
  assert (HB : exists j, tokB = VNum (Int (Z.of_nat j)) /\
                         indexOf (refs t3) (VRef b) = Some j /\
                         refs t2 `prefix_of` refs t3).
  { destruct (indexOf (refs t2) (VRef b)) as [j|] eqn:Hj;
      injection HrunB as <- <-; eexists; (split; [reflexivity|]).
    - done.
    - cbn [refs]. unfold indexOf in *.
      rewrite (indexOf_from_new 0 (refs t2) [] (VRef b) Hj) by apply Nat.eqb_refl.
      split; [done | by apply prefix_app_r]. }
  destruct HA as (i & -> & Hi). destruct HB as (j & -> & Hj & Ht3).
  assert (Hi3 : indexOf (refs t3) (VRef a) = Some i).
  { unfold indexOf in *. eapply indexOf_from_prefix; [done | by etrans]. }
  exists i, j. repeat split; [|done..].
  intros ->. by apply Hab, (indexOf_injective (refs t3) a b j).
Qed.

(** *** Trees: the same structure, whatever is shared *)

Section Shape.
Variable h : heap.

(** An object that [serializeInternal] goes into, and an object that is one
    of its properties. *)
Definition child (a c : nat) : Prop :=
  isHost h a = false /\
  exists o key, h !! a = Some o /\ assoc key (oprops o) = Some (VRef c).

(** Two values have the same shape when they are the same primitive value,
    the same object that is not serializable, or two serializable objects
    of the same kind with the same keys, in whatever order, bound to values
    of the same shape.  The definition is inductive: the values are finite
    trees, where an object may occur many times, but not inside itself. *)
Inductive same_shape : value -> value -> Prop :=
| shape_primitive (v : value) : primitive v -> same_shape v v
| shape_host (a : nat) : isHost h a = true -> same_shape (VRef a) (VRef a)
| shape_object (a b : nat) (oa ob : object) :
    h !! a = Some oa -> h !! b = Some ob ->
    isHost h a = false -> isHost h b = false ->
    okind oa = okind ob ->
    NoDup (getKeys oa) -> NoDup (getKeys ob) ->
    (forall key, assoc key (oprops oa) = None <-> assoc key (oprops ob) = None) ->
    (forall key v w,
       assoc key (oprops oa) = Some v -> assoc key (oprops ob) = Some w ->
       same_shape v w) ->
    same_shape (VRef a) (VRef b).

(** A value without a cycle through serializable objects. *)
Inductive tree : value -> Prop :=
| tree_primitive (v : value) : primitive v -> tree v
| tree_host (a : nat) : isHost h a = true -> tree (VRef a)
| tree_object (a : nat) (o : object) :
    h !! a = Some o -> isHost h a = false ->
    (forall key c, assoc key (oprops o) = Some c -> tree c) ->
    tree (VRef a).

Lemma shape_tree_l (x y : value) : same_shape x y -> tree x.
Proof.
  induction 1 as [v Hv|a Ha|a b oa ob Ha Hb Hha Hhb Hk Hna Hnb Hnone Hsome IH].
  - by apply tree_primitive.
  - by apply tree_host.
  - apply (tree_object a oa Ha Hha). intros key c Hc.
    destruct (assoc key (oprops ob)) as [w|] eqn:Hw; [by apply (IH key c w)|].
    apply Hnone in Hw. congruence.
Qed.

Lemma shape_tree_r (x y : value) : same_shape x y -> tree y.
Proof.
  induction 1 as [v Hv|a Ha|a b oa ob Ha Hb Hha Hhb Hk Hna Hnb Hnone Hsome IH].
  - by apply tree_primitive.
  - by apply tree_host.
  - apply (tree_object b ob Hb Hhb). intros key c Hc.
    destruct (assoc key (oprops oa)) as [v|] eqn:Hv; [by apply (IH key v c)|].
    apply Hnone in Hv. congruence.
Qed.

(** No object of a tree is inside itself. *)
Lemma tree_acyclic (v : value) :
  tree v -> forall a, v = VRef a -> ~ tc child a a.
Proof.
  induction 1 as [v Hv|a Ha|a o Ha Hh Hc IH]; intros a' E.
  - by subst.
  - injection E as <-. intros Htc.
    inversion Htc as [? ? [Hf _]|? ? ? [Hf _] _]; congruence.
  - injection E as <-. intros Htc.
    assert (exists c, child a c /\ rtc child c a) as (c & Hchild & Hback).
    { inversion Htc as [? ? Hstep|? c ? Hstep Hrest]; subst.
      - exists a. split; [done | reflexivity].
      - exists c. split; [done | by apply tc_rtc]. }
    pose proof Hchild as [_ (o' & key & Ho' & Hkey)].
    rewrite Ha in Ho'. injection Ho' as <-.
    apply (IH key (VRef c) Hkey c eq_refl).
    eapply tc_rtc_l; [exact Hback | by apply tc_once].
Qed.

(** The stack holds objects only, none of them inside the value that is
    being visited. *)
Definition clear (v : value) (s : list value) : Prop :=
  forall a, v = VRef a ->
    Forall (fun e => exists c, e = VRef c /\ ~ tc child a c) s.

Lemma clear_onStack (a : nat) (o : object) (key : string) (w : value)
  (s : list value) :
  clear (VRef a) s -> h !! a = Some o -> isHost h a = false ->
  assoc key (oprops o) = Some w -> onStack s w = false.
Proof.
  intros Hs Ha Hh Hw. unfold onStack. destruct (1 <? length s)%nat; [|done].
  apply not_true_iff_false. intros (e & Hin & Heq)%existsb_exists.
  specialize (Hs a eq_refl). rewrite Forall_forall in Hs.
  destruct (Hs e) as (c & -> & Hn); [by apply list_elem_of_In|].
  destruct w as [| | | | |d]; try done. cbn in Heq. apply Nat.eqb_eq in Heq as ->.
  apply Hn, tc_once. split; [done|]. by exists o, key.
Qed.

Lemma clear_push (a : nat) (o : object) (key : string) (w : value)
  (s : list value) :
  clear (VRef a) s -> h !! a = Some o -> isHost h a = false ->
  assoc key (oprops o) = Some w -> tree w -> clear w (s ++ [w]).
Proof.
  intros Hs Ha Hh Hw Ht d ->. apply Forall_app. split.
  - eapply Forall_impl; [exact (Hs a eq_refl)|].
    intros e (c & -> & Hn). exists c. split; [done|]. intros Htc. apply Hn.
    eapply tc_l; [|exact Htc]. split; [done|]. by exists o, key.
  - constructor; [|constructor]. exists d. split; [done|].
    by apply (tree_acyclic (VRef d)).
Qed.

(** The arrays whose join is in progress are not inside the one that is
    being joined, and are not that one. *)
Definition unjoined (a : nat) (j : list nat) : Prop :=
  forall c, c ∈ j -> ~ rtc child a c.

Lemma unjoined_existsb (a : nat) (j : list nat) :
  unjoined a j -> existsb (Nat.eqb a) j = false.
Proof.
  intros Hj. apply not_true_iff_false. intros (c & Hin & Heq)%existsb_exists.
  apply Nat.eqb_eq in Heq as <-. by apply (Hj a); [apply list_elem_of_In|].
Qed.

Lemma unjoined_push (a c : nat) (j : list nat) :
  unjoined a j -> child a c -> ~ tc child a a -> unjoined c (a :: j).
Proof.
  intros Hj Hc Ha e [->|He]%elem_of_cons Hrtc.
  - apply Ha. eapply tc_rtc_r; [by apply tc_once | done].
  - apply (Hj e He). by eapply rtc_l.
Qed.

Lemma host_not_array (a : nat) (o : object) (len : nat) :
  h !! a = Some o -> okind o = KArray len -> isHost h a = false.
Proof.
  intros Ha Hk. unfold isHost. rewrite (classToString_known _ _ _ Ha), Hk.
  reflexivity.
Qed.

(** The conversion to a string of two objects of the same shape. *)
Lemma shape_toStringObj (x y : value) :
  same_shape x y ->
  forall a0 b0 fuel j j',
    x = VRef a0 -> y = VRef b0 -> unjoined a0 j -> unjoined b0 j' ->
    toStringObj fuel h j a0 = toStringObj fuel h j' b0.
Proof.
  induction 1 as [v Hv|a Ha|a b oa ob Ha Hb Hha Hhb Hk Hna Hnb Hnone Hsome IH];
    intros a0 b0 fuel j j' Ex Ey Hj Hj'.
  - by subst.
  - injection Ex as <-. injection Ey as <-.
    destruct fuel as [|fuel]; [done|]. cbn [toStringObj].
    destruct (h !! a) as [o|] eqn:Ho; [|done].
    destruct (overridesToString o); [done|].
    destruct (okind o) as [|len| | | |] eqn:Hko; try done.
    rewrite (host_not_array a o len Ho Hko) in Ha. discriminate.
  - injection Ex as <-. injection Ey as <-.
    assert (Hta : ~ tc child a a).
    { apply (tree_acyclic (VRef a)); [|done].
      by apply (tree_object a oa Ha Hha), (fun key c Hc =>
        match assoc key (oprops ob) as r
          return assoc key (oprops ob) = r -> tree c with
        | Some w => fun Hw => shape_tree_l c w (Hsome key c w Hc Hw)
        | None => fun Hw =>
            match eq_ind (assoc key (oprops oa)) (fun r => r = Some c) Hc None
                    (proj2 (Hnone key) Hw) with end
        end eq_refl). }
    assert (Htb : ~ tc child b b).
    { apply (tree_acyclic (VRef b)); [|done].
      apply (shape_tree_r (VRef a) (VRef b)). by eapply shape_object. }
    destruct fuel as [|fuel]; [done|]. cbn [toStringObj]. rewrite Ha, Hb.
    assert (Ho : overridesToString oa = overridesToString ob).
    { unfold overridesToString.
      pose proof (Hnone "toString") as Ht. pose proof (Hnone "join") as Hjn.
      destruct (assoc "toString" (oprops oa)), (assoc "toString" (oprops ob)),
        (assoc "join" (oprops oa)), (assoc "join" (oprops ob)); try done;
        try (by destruct Ht as [Ht1 Ht2]; (discriminate Ht1 || discriminate Ht2));
        by destruct Hjn as [Hj1 Hj2]; (discriminate Hj1 || discriminate Hj2). }
    rewrite <- Ho, <- Hk. destruct (overridesToString oa); [done|].
    destruct (okind oa) as [|len| | | |]; try done.
    rewrite (unjoined_existsb a j Hj), (unjoined_existsb b j' Hj').
    erewrite mapR_ext; [reflexivity|].
    intros i _. cbn beta. pose proof (Hnone (index_key i)) as Hn.
    destruct (assoc (index_key i) (oprops oa)) as [v|] eqn:Hv,
      (assoc (index_key i) (oprops ob)) as [w|] eqn:Hw.
    + pose proof (Hsome _ _ _ Hv Hw) as Hvw.
      destruct v as [| |?|?|?|c], w as [| |?|?|?|d];
        try (by inversion Hvw); try (inversion Hvw; by subst).
      apply (IH _ _ _ Hv Hw c d fuel (a :: j) (b :: j') eq_refl eq_refl).
      * apply unjoined_push; [done| |done]. split; [done|]. by eexists _, _.
      * apply unjoined_push; [done| |done]. split; [done|]. by eexists _, _.
    + by destruct Hn as [_ Hn]; discriminate Hn.
    + by destruct Hn as [Hn _]; discriminate Hn.
    + done.
Qed.

Lemma shape_callToString (x y : value) :
  same_shape x y -> callToString h x = callToString h y.
Proof.
  intros Hxy. destruct x as [| |?|?|?|xa], y as [| |?|?|?|ya];
    try (by inversion Hxy); try (inversion Hxy; by subst).
  unfold callToString, toString.
  by apply (shape_toStringObj _ _ Hxy); [done | done | intros c Hc; apply elem_of_nil in Hc..].
Qed.

(** *** Runs on one table and two stacks *)

(** The two tables are the same, and the stacks are [s] and [s']. *)
Definition agree (s s' : list value) (t t' : trav) : Prop :=
  refs t = refs t' /\ stack t = s /\ stack t' = s'.

Definition matches {A} (s s' : list value) (r r' : result (A * trav)) : Prop :=
  match r, r' with
  | Ok (a, t), Ok (a', t') => a = a' /\ agree s s' t t'
  | Throw e, Throw e' => e = e'
  | Unmodelled, Unmodelled | OutOfFuel, OutOfFuel => True
  | _, _ => False
  end.

(** [c'] does on the same table what [c] does, each on its stack, which it
    leaves as it was. *)
Definition mirrors {A} (s s' : list value) (c c' : T A) : Prop :=
  forall t t', agree s s' t t' -> matches s s' (c t) (c' t').

Lemma mirrors_ret {A} (s s' : list value) (a : A) : mirrors s s' (ret a) (ret a).
Proof. by intros t t' Ht. Qed.

Lemma mirrors_bind {A B} (s s' : list value) (c c' : T A) (k k' : A -> T B) :
  mirrors s s' c c' -> (forall a, mirrors s s' (k a) (k' a)) ->
  mirrors s s' (bind c k) (bind c' k').
Proof.
  intros Hc Hk t t' Ht. specialize (Hc t t' Ht). unfold bind.
  destruct (c t) as [[a t1]| | |], (c' t') as [[a' t1']| | |]; try done.
  destruct Hc as [<- Ht1]. by apply Hk.
Qed.

Lemma mirrors_liftR {A} (s s' : list value) (r : result A) :
  mirrors s s' (liftR r) (liftR r).
Proof. intros t t' Ht. unfold liftR. by destruct r. Qed.

Lemma mirrors_liftOpt {A} (s s' : list value) (o : option A) :
  mirrors s s' (liftOpt o) (liftOpt o).
Proof. intros t t' Ht. by destruct o. Qed.

Lemma mirrors_foldM {A B} (s s' : list value) (f g : A -> B -> T A)
  (l : list B) (a : A) :
  (forall a b, In b l -> mirrors s s' (f a b) (g a b)) ->
  mirrors s s' (foldM f l a) (foldM g l a).
Proof.
  revert a. induction l as [|b l IH]; intros a Hfg; cbn [foldM].
  - apply mirrors_ret.
  - apply mirrors_bind; [apply Hfg; by left|].
    intros a'. apply IH. intros. apply Hfg. by right.
Qed.

Lemma mirrors_next {Acc} (s s' : list value)
  (fn fn' : string -> value -> bool -> Acc -> T Acc)
  (val val' : value) (key : string) (acc : Acc) :
  onStack s val = false -> onStack s' val' = false ->
  mirrors (s ++ [val]) (s' ++ [val']) (fn key val false acc) (fn' key val' false acc) ->
  mirrors s s' (next fn val key acc) (next fn' val' key acc).
Proof.
  intros Hc Hc' Hfn t t' (Hr & Hs & Hs'). rewrite !next_run.
  rewrite Hs, Hs', Hc, Hc'.
  specialize (Hfn (mkTrav (refs t) (s ++ [val])) (mkTrav (refs t') (s' ++ [val']))).
  destruct (fn key val false acc _) as [[a t1]| | |],
    (fn' key val' false acc _) as [[a' t1']| | |];
    try (by apply Hfn); try (by destruct Hfn).
  destruct Hfn as (<- & Hr1 & Hs1 & Hs1'); [done|].
  split; [done|]. split; [done|]. cbn [stack].
  by rewrite Hs1, Hs1', !removelast_last.
Qed.

(** The token of a value that is no serializable object does not depend on
    the stack. *)
Lemma mirrors_flat (s s' : list value) (fuel : nat) (v : value) :
  primitive v \/ (exists a, v = VRef a /\ isHost h a = true) ->
  mirrors s s' (serializeInternal fuel h v) (serializeInternal fuel h v).
Proof.
  intros Hv. destruct fuel as [|fuel]; [by intros t t' Ht|].
  destruct Hv as [Hv|(a & -> & Ha)].
  - cbn [serializeInternal]. unfold serializeInternal_body.
    destruct (isPrimitive v (typeof h v) && negb (isRealNaN v));
      [apply mirrors_ret|].
    apply mirrors_bind; [apply mirrors_liftOpt|]. intros className.
    assert (Hobj : isObjectType h v = false).
    { unfold isObjectType. destruct v; try done; apply andb_false_r. }
    rewrite Hobj.
    destruct (negb (isSerializable h v className)).
    { intros t t' (Hr & Hs & Hs'). unfold bind, getState, putState, ret.
      rewrite <- Hr. destruct (indexOf (refs t) v); cbn; by rewrite <- ?Hr. }
    apply mirrors_bind; [|intros; apply mirrors_ret].
    apply mirrors_bind; [apply mirrors_liftOpt|]. intros r.
    destruct (num_eqb r NegInf); [apply mirrors_ret|].
    apply mirrors_bind; [apply mirrors_liftR | intros; apply mirrors_ret].
  - intros t t' (Hr & Hs & Hs'). rewrite !(host_token h fuel a _ Ha), <- Hr.
    destruct (indexOf (refs t) (VRef a)); cbn; by rewrite <- ?Hr.
Qed.

Lemma mirrors_ext {A} (s s' : list value) (c c' d d' : T A) :
  (forall t, d t = c t) -> (forall t, d' t = c' t) ->
  mirrors s s' c c' -> mirrors s s' d d'.
Proof. intros Hc Hc' H t t' Ht. rewrite Hc, Hc'. by apply H. Qed.

(** [serializeInternal] gives two values of the same shape the same token
    and leaves the same table. *)
Lemma shape_serializeInternal (x y : value) :
  same_shape x y ->
  forall fuel s s', clear x s -> clear y s' ->
    mirrors s s' (serializeInternal fuel h x) (serializeInternal fuel h y).
Proof.
  induction 1 as [v Hv|a Ha|a b oa ob Ha Hb Hha Hhb Hk Hna Hnb Hnone Hsome IH];
    intros fuel s s' Hs Hs'.
  - apply mirrors_flat. by left.
  - apply mirrors_flat. right. by exists a.
  - assert (Hxy : same_shape (VRef a) (VRef b)) by (by eapply shape_object).
    destruct fuel as [|fuel]; [by intros t t' Ht|].
    cbn [serializeInternal]. unfold serializeInternal_body.
    assert (Hta : typeof h (VRef b) = typeof h (VRef a)).
    { by rewrite (typeof_known _ _ _ Ha), (typeof_known _ _ _ Hb), Hk. }
    assert (Hpa : isPrimitive (VRef a) (typeof h (VRef a)) = false).
    { rewrite (typeof_known _ _ _ Ha). by destruct (okind oa). }
    assert (Hoa : isObjectType h (VRef b) = isObjectType h (VRef a)).
    { unfold isObjectType. by rewrite Hta. }
    rewrite Hta, Hoa. change (isPrimitive (VRef b)) with (isPrimitive (VRef a)).
    rewrite Hpa. cbn [andb].
    pose proof Hha as Hia. pose proof Hhb as Hib.
    unfold isHost in Hha, Hhb.
    rewrite (classToString_known _ _ _ Ha) in Hha |- *.
    rewrite (classToString_known _ _ _ Hb) in Hhb |- *.
    rewrite <- Hk in Hhb |- *.
    set (className := "[object " +:+ kind_class (okind oa) +:+ "]") in *.
    eapply mirrors_ext; [intros t; unfold bind at 1; cbn [liftOpt ret]; reflexivity..|].
    rewrite Hha, Hhb.
    apply mirrors_bind; [|intros; apply mirrors_ret].
    destruct (isObjectType h (VRef a)); [|by intros t t' Ht].
    apply mirrors_bind.
    + unfold serializeDeep.
      rewrite (iterate_known _ _ _ Ha), (iterate_known _ _ _ Hb).
      assert (Hkeys : sort_keys (getKeys ob) = sort_keys (getKeys oa)).
      { apply sort_keys_permutation, NoDup_Permutation; [done..|].
        intros key. unfold getKeys.
        pose proof (assoc_None_keys key (oprops oa)) as Ka.
        pose proof (assoc_None_keys key (oprops ob)) as Kb.
        pose proof (Hnone key) as Hn.
        destruct (decide (key ∈ map fst (oprops oa))),
          (decide (key ∈ map fst (oprops ob))); tauto. }
      rewrite Hkeys. apply mirrors_foldM. intros result key Hin.
      assert (Hkey : key ∈ getKeys oa).
      { apply list_elem_of_In in Hin. unfold sort_keys in Hin.
        by rewrite merge_sort_Permutation in Hin. }
      destruct (assoc key (oprops oa)) as [v|] eqn:Hv;
        [|by apply assoc_None_keys in Hv].
      destruct (assoc key (oprops ob)) as [w|] eqn:Hw;
        [|apply Hnone in Hw; congruence].
      rewrite (getProp_known _ _ _ Ha key v Hv), (getProp_known _ _ _ Hb key w Hw).
      eapply mirrors_ext; [intros t; unfold bind at 1; cbn [liftR]; reflexivity..|].
      pose proof (Hsome key v w Hv Hw) as Hvw.
      apply mirrors_next.
      * by apply (clear_onStack a oa key).
      * by apply (clear_onStack b ob key).
      * unfold serializeStep. apply mirrors_bind.
        -- apply (IH key v w Hv Hw).
           ++ apply (clear_push a oa key); try done. by apply (shape_tree_l v w).
           ++ apply (clear_push b ob key); try done. by apply (shape_tree_r v w).
        -- intros tok.
           apply mirrors_bind; [apply mirrors_liftR | intros; apply mirrors_ret].
    + intros deep. rewrite (shape_callToString _ _ Hxy).
      apply mirrors_bind; [apply mirrors_liftR | intros; apply mirrors_ret].
Qed.

(** Two values of the same shape have the same token, and so on every
    table of references. *)
Lemma shape_serialize (x y : value) :
  same_shape x y ->
  serialize h x = serialize h y /\
  forall fuel table,
    serializeInternal fuel h x (mkTrav table []) =
    serializeInternal fuel h y (mkTrav table []).
Proof.
  intros Hxy.
  assert (Hrun : forall fuel table,
            serializeInternal fuel h x (mkTrav table []) =
            serializeInternal fuel h y (mkTrav table [])).
  { intros fuel table.
    pose proof (shape_serializeInternal x y Hxy fuel [] []
                  ltac:(by intros ? _) ltac:(by intros ? _)
                  (mkTrav table []) (mkTrav table []) ltac:(done)) as H.
    destruct (serializeInternal fuel h x _) as [[tok [r1 s1]]| | |],
      (serializeInternal fuel h y _) as [[tok' [r2 s2]]| | |]; try done.
    - destruct H as (-> & Hr & Hs & Hs'). cbn in Hr, Hs, Hs'. by subst.
    - cbn in H. by subst. }
  split; [|exact Hrun]. unfold serialize. by rewrite Hrun.
Qed.
End Shape.


(** [{a: 1, b: [1, 2]}] and [{b: [1, 2], a: 1}], each with an array of its
    own, and two functions. *)
Definition tokens : heap :=
  [mkObject KObject [("a", VNum (Int 1)); ("b", VRef 1)];
   mkObject (KArray 2) [("0", VNum (Int 1)); ("1", VNum (Int 2))];
   mkObject KObject [("b", VRef 3); ("a", VNum (Int 1))];
   mkObject (KArray 2) [("0", VNum (Int 1)); ("1", VNum (Int 2))];
   mkObject KFunction [];
   mkObject KFunction []].

Definition paired (a b : nat) : Prop :=
  (a = 0 /\ b = 2)%nat \/ (a = 1 /\ b = 3)%nat.

Lemma paired_isomorphism : isomorphism tokens paired.
Proof.
  split.
  - intros a b [[-> ->]|[-> ->]]; eexists _, _;
      (split; [reflexivity|]); (split; [reflexivity|]); (split; [reflexivity|]);
      (split; [by apply (bool_decide_unpack _)|]);
      (split; [by apply (bool_decide_unpack _)|]);
      intros key; cbn [assoc oprops].
    + destruct (String.eqb "a" key) eqn:Ea, (String.eqb "b" key) eqn:Eb;
        cbn; try done.
      * apply String.eqb_eq in Ea, Eb. congruence.
      * by right.
    + destruct (String.eqb "0" key) eqn:Ea, (String.eqb "1" key) eqn:Eb;
        cbn; done.
  - intros a b b' [[-> ->]|[-> ->]] [[? ->]|[? ->]]; done.
  - intros a a' b [[-> ->]|[-> ->]] [[-> ?]|[-> ?]]; done.
Qed.

(** [s = [1, 2]; {x: s, y: s}] and [{y: [1, 2], x: [1, 2]}]: one array under
    two keys in the first object, an array for each key in the second. *)
Definition shared : heap :=
  [mkObject KObject [("x", VRef 1); ("y", VRef 1)];
   mkObject (KArray 2) [("0", VNum (Int 1)); ("1", VNum (Int 2))];
   mkObject KObject [("y", VRef 3); ("x", VRef 4)];
   mkObject (KArray 2) [("0", VNum (Int 1)); ("1", VNum (Int 2))];
   mkObject (KArray 2) [("0", VNum (Int 1)); ("1", VNum (Int 2))]].

Lemma shared_arrays (a b : nat) :
  (a = 1)%nat -> (b = 3 \/ b = 4)%nat -> same_shape shared (VRef a) (VRef b).
Proof.
  intros -> Hb.
  assert (Hob : shared !! b =
                Some (mkObject (KArray 2) [("0", VNum (Int 1)); ("1", VNum (Int 2))]))
    by (by destruct Hb as [-> | ->]).
  eapply shape_object; [reflexivity | exact Hob | reflexivity
                       | by destruct Hb as [-> | ->] | reflexivity
                       | by apply (bool_decide_unpack _)
                       | by apply (bool_decide_unpack _) | |];
    cbn [oprops assoc].
  - intros key. by destruct (String.eqb "0" key), (String.eqb "1" key).
  - intros key v w.
    destruct (String.eqb "0" key); [by intros [= <-] [= <-]; apply shape_primitive|].
    destruct (String.eqb "1" key); [by intros [= <-] [= <-]; apply shape_primitive|].
    done.
Qed.

Lemma shared_same_shape : same_shape shared (VRef 0) (VRef 2).
Proof.
  eapply shape_object; [reflexivity | reflexivity | reflexivity | reflexivity
                       | reflexivity | by apply (bool_decide_unpack _)
                       | by apply (bool_decide_unpack _) | |];
    cbn [oprops assoc].
  - intros key. by destruct (String.eqb "x" key), (String.eqb "y" key).
  - intros key v w.
    destruct (String.eqb "x" key) eqn:Ex, (String.eqb "y" key) eqn:Ey.
    + apply String.eqb_eq in Ex, Ey. congruence.
    + intros [= <-] [= <-]. apply shared_arrays; [done | by right].
    + intros [= <-] [= <-]. apply shared_arrays; [done | by left].
    + done.
Qed.


(** C8, as stated, fails for objects with cycles.  An object that is its
    own property and a cycle of three objects are structurally equal: each
    object has the one key [p], bound to an object of the same kind, and
    [equal] holds the two equal.  Their tokens differ: the cycle check
    works on the identity of the objects, and a token shows where a cycle
    closes. *)
Definition cycles : heap :=
  [mkObject KObject [("p", VRef 0)];
   mkObject KObject [("p", VRef 2)];
   mkObject KObject [("p", VRef 3)];
   mkObject KObject [("p", VRef 1)]].



(** * Further properties *)

(** ** Decimal numerals *)

Lemma digits_value_acc (d : Decimal.uint) (acc : positive) :
  digits_value (Z.pos acc) (NilEmpty.string_of_uint d) = Z.pos (Pos.of_uint_acc d acc).
Proof.
  revert acc. induction d; intros acc; cbn [NilEmpty.string_of_uint digits_value Pos.of_uint_acc];
    [done|..];
    match goal with
    | |- digits_value ?z _ = Z.pos (Pos.of_uint_acc _ ?q) =>
        replace z with (Z.pos q);
        [apply IHd
        |match goal with
         | |- context [Z.of_nat (nat_of_ascii ?c)] =>
             let v := eval vm_compute in (Z.of_nat (nat_of_ascii c)) in
             change (Z.of_nat (nat_of_ascii c)) with v
         end; lia]
    end.
Qed.

Lemma digits_value_uint (d : Decimal.uint) :
  digits_value 0 (NilEmpty.string_of_uint d) = Z.of_N (Pos.of_uint d).
Proof.
  induction d; cbn [NilEmpty.string_of_uint digits_value Pos.of_uint];
    [done | apply IHd |..];
    match goal with
    | |- digits_value ?z _ = Z.of_N (N.pos (Pos.of_uint_acc _ ?q)) =>
        replace z with (Z.pos q) by reflexivity; apply digits_value_acc
    end.
Qed.

Lemma all_digits_uint (d : Decimal.uint) :
  all_chars is_digit (NilEmpty.string_of_uint d) = true.
Proof. induction d; cbn; done. Qed.

Lemma string_of_uint_nonnil (d : Decimal.uint) :
  d <> Decimal.Nil ->
  NilZero.string_of_uint d = NilEmpty.string_of_uint d /\
  NilEmpty.string_of_uint d <> "".
Proof. by destruct d. Qed.

Lemma parse_digits_uint (d : Decimal.uint) :
  d <> Decimal.Nil ->
  parse_digits (NilEmpty.string_of_uint d) = Some (Z.of_N (Pos.of_uint d)).
Proof.
  intros [_ Hd]%string_of_uint_nonnil. unfold parse_digits.
  destruct (NilEmpty.string_of_uint d) eqn:Hs; [done|].
  by rewrite <- Hs, all_digits_uint, digits_value_uint.
Qed.

(** The numeral of a natural number reads back as that number. *)
Lemma parse_digits_Z_to_string (z : Z) :
  0 <= z -> parse_digits (Z_to_string z) = Some z.
Proof.
  intros Hz. destruct z as [|p|p]; [done | | lia].
  unfold Z_to_string. cbn [Z.to_int NilZero.string_of_int].
  pose proof (DecimalPos.Unsigned.to_uint_nonnil p) as Hnil.
  destruct (string_of_uint_nonnil _ Hnil) as [-> _].
  by rewrite parse_digits_uint, DecimalPos.Unsigned.of_to.
Qed.

Lemma Z_to_string_inj (x y : Z) : Z_to_string x = Z_to_string y -> x = y.
Proof.
  unfold Z_to_string. intros Hxy. apply DecimalZ.to_int_inj.
  assert (Hn : forall z, Z.to_int z <> Decimal.Pos Decimal.Nil /\
                         Z.to_int z <> Decimal.Neg Decimal.Nil).
  { intros [|p|p]; cbn; split; try done;
      intros [= Hp]; by apply (DecimalPos.Unsigned.to_uint_nonnil p). }
  pose proof (NilZero.isi (Z.to_int x) (proj1 (Hn x)) (proj2 (Hn x))) as Hx.
  pose proof (NilZero.isi (Z.to_int y) (proj1 (Hn y)) (proj2 (Hn y))) as Hy.
  rewrite Hxy in Hx. congruence.
Qed.

(** The numeral of an integer: digits, after a minus sign for a negative
    one. *)
Lemma Z_to_string_shape (z : Z) :
  exists s, all_chars is_digit s = true /\ s <> "" /\
            Z_to_string z = if Z.ltb z 0 then String "-" s else s.
Proof.
  assert (Hp : forall p, all_chars is_digit (NilZero.string_of_uint (Pos.to_uint p)) = true /\
                         NilZero.string_of_uint (Pos.to_uint p) <> "").
  { intros p. pose proof (DecimalPos.Unsigned.to_uint_nonnil p) as Hnil.
    unfold NilZero.string_of_uint.
    destruct (Pos.to_uint p) eqn:Hd; [done|..]; rewrite <- Hd;
      (split; [apply all_digits_uint|]); rewrite Hd; done. }
  destruct z as [|p|p].
  - by exists "0".
  - exists (NilZero.string_of_uint (Pos.to_uint p)). by destruct (Hp p).
  - exists (NilZero.string_of_uint (Pos.to_uint p)). by destruct (Hp p).
Qed.

Lemma array_index_index_key (n : nat) :
  (Z.of_nat n < 2 ^ 32 - 1) -> array_index (index_key n) = Some n.
Proof.
  intros Hn. unfold array_index, index_key.
  rewrite parse_digits_Z_to_string by lia.
  rewrite String.eqb_refl. cbn [andb].
  destruct (Z.ltb_spec (Z.of_nat n) (2 ^ 32 - 1)); [|lia].
  by rewrite Nat2Z.id.
Qed.

Lemma index_key_inj (n m : nat) : index_key n = index_key m -> n = m.
Proof. intros H%Z_to_string_inj. lia. Qed.


(** ** Equality of values *)

Lemma Z_to_string_not_special (z : Z) :
  Z_to_string z <> "NaN" /\ Z_to_string z <> "Infinity" /\
  Z_to_string z <> "-Infinity".
Proof.
  destruct (Z_to_string_shape z) as (s & Hs & _ & ->).
  destruct (Z.ltb z 0); repeat split; intros E;
    try (injection E as E); subst; done.
Qed.

Lemma isEqual_numbers (h : heap) (fuel : nat) (x y : number) (t : trav) :
  exists r, isEqual (S fuel) h (VNum x) (VNum y) t = Ok (r, t) /\
            (r = true <-> x = y).
Proof.
  assert (Hstr : forall s s', s <> s' ->
            exists r, Ok (String.eqb s s', t) = Ok (r, t) /\ (r = true <-> False)).
  { intros s s' Hne%String.eqb_neq. rewrite Hne. by eexists. }
  assert (Hdiff : forall (c : T bool) (P : Prop),
            ~ P ->
            (exists r, c t = Ok (r, t) /\ (r = true <-> False)) ->
            exists r, c t = Ok (r, t) /\ (r = true <-> P)).
  { intros c P HP (r & Hr & Hiff). exists r. split; [done|]. tauto. }
  destruct x as [| | | |z], y as [| | | |z'];
    try (eexists; split; [vm_compute; reflexivity | done]).
  - destruct (Z_to_string_not_special z') as (Hn & _ & _).
    apply Hdiff; [done|]. apply (Hstr "NaN" (Z_to_string z')). congruence.
  - destruct (Z_to_string_not_special z') as (_ & Hn & _).
    apply Hdiff; [done|]. apply (Hstr "Infinity" (Z_to_string z')). congruence.
  - destruct (Z_to_string_not_special z') as (_ & _ & Hn).
    apply Hdiff; [done|]. apply (Hstr "-Infinity" (Z_to_string z')). congruence.
  - destruct (Z.eqb_spec z' 0) as [->|Hz].
    + eexists; split; [vm_compute; reflexivity | done].
    + apply Hdiff; [done|]. cbn [isEqual]. unfold isEqual_body.
      cbn [strict_eq num_eqb]. apply Z.eqb_neq in Hz. rewrite Hz.
      apply (Hstr "0" (Z_to_string z')). intros E. apply Z.eqb_neq in Hz.
      by apply Hz, Z_to_string_inj.
  - destruct (Z_to_string_not_special z) as (Hn & _ & _).
    apply Hdiff; [done|]. by destruct z; apply (Hstr (Z_to_string _) "NaN").
  - destruct (Z_to_string_not_special z) as (_ & Hn & _).
    apply Hdiff; [done|]. by destruct z; apply (Hstr (Z_to_string _) "Infinity").
  - destruct (Z_to_string_not_special z) as (_ & _ & Hn).
    apply Hdiff; [done|]. by destruct z; apply (Hstr (Z_to_string _) "-Infinity").
  - destruct (Z.eqb_spec z 0) as [->|Hz].
    + eexists; split; [vm_compute; reflexivity | done].
    + apply Hdiff; [done|]. cbn [isEqual]. unfold isEqual_body.
      cbn [strict_eq num_eqb]. apply Z.eqb_neq in Hz. rewrite Hz.
      assert (Hne : Z_to_string z <> "0").
      { intros E. apply Z.eqb_neq in Hz. by apply Hz, Z_to_string_inj. }
      by destruct z; apply (Hstr (Z_to_string _) "0").
  - cbn [isEqual]. unfold isEqual_body. cbn [strict_eq num_eqb].
    destruct (Z.eqb_spec z z') as [<-|Hne].
    + destruct (Z.eqb_spec z 0) as [->|Hz].
      * eexists; split; [vm_compute; reflexivity | done].
      * by eexists.
    + apply Hdiff; [congruence|].
      assert (Hs : Z_to_string z <> Z_to_string z').
      { intros E. by apply Hne, Z_to_string_inj. }
      by destruct z; apply (Hstr (Z_to_string _) (Z_to_string z')).
Qed.

Lemma equal_primitives (h : heap) (a b : value) :
  primitive a -> primitive b ->
  exists r, equal h a b = Ok r /\ (r = true <-> a = b).
Proof.
  intros Ha Hb. unfold equal, depth_bound. cbn [Nat.add].
  destruct a as [| |x|x|s|?], b as [| |y|y|s'|?]; try done;
    try (exists false; split; [reflexivity | done]);
    try (exists true; split; [reflexivity | done]).
  - destruct x, y;
      (exists false; split; [reflexivity | done]) ||
      (exists true; split; [reflexivity | done]).
  - destruct (isEqual_numbers h (S (S (length h))) x y (mkTrav [] []))
      as (r & -> & Hr).
    exists r. split; [done|]. rewrite Hr. split; congruence.
  - exists (String.eqb s s'). split.
    + cbn [isEqual]. unfold isEqual_body. cbn [strict_eq].
      destruct (String.eqb s s') eqn:Hs; [done|].
      transitivity (match Ok (String.eqb s s', mkTrav [] []) with
                    | Ok (r, _) => Ok r
                    | Throw e => Throw e
                    | Unmodelled => Unmodelled
                    | OutOfFuel => @OutOfFuel bool
                    end); [by destruct s | by rewrite Hs].
    + rewrite String.eqb_eq. split; congruence.
Qed.

(** X1. On primitive values [equal] is the same-value relation: it holds
    between a value and itself, NaN included, and between no two others;
    0 and -0 are two values. *)
Theorem equal_primitives_same_value (h : heap) (a b : value) :
  primitive a -> primitive b ->
  exists r, equal h a b = Ok r /\ (r = true <-> a = b).
Proof. apply equal_primitives. Qed.

Lemma equal_primitives_same_value_witness :
  exists r, equal [] (VNum NegZero) (VNum (Int 0)) = Ok r /\
            (r = true <-> VNum NegZero = VNum (Int 0)).
Proof. apply (equal_primitives_same_value [] (VNum NegZero) (VNum (Int 0)) I I). Defined.

(** X2. [equal] holds between every value and itself: an object, whatever
    its class and whether the heap holds it or not, a primitive, NaN and
    the two zeros included. *)
Theorem equal_reflexive (h : heap) (a : value) : equal h a a = Ok true.
Proof.
  destruct a as [| |b|x|s|r].
  - reflexivity.
  - reflexivity.
  - by destruct b.
  - destruct (equal_primitives h (VNum x) (VNum x) I I)
      as (r & -> & Hr). f_equal. by apply Hr.
  - destruct (equal_primitives h (VStr s) (VStr s) I I)
      as (r & -> & Hr). f_equal. by apply Hr.
  - unfold equal, depth_bound. cbn [Nat.add isEqual]. unfold isEqual_body.
    cbn [strict_eq]. by rewrite Nat.eqb_refl.
Qed.


(** X3. An object that is not serializable and is no Set, Map or Error (a
    function, an instance of a class, a chainable) is equal to no other
    object. *)
Theorem equal_hosts_by_identity (h : heap) (a b : nat) (className : string) :
  classToString h (VRef a) = Some className ->
  isSerializable h (VRef a) className = false ->
  isSet className = false -> isMap className = false ->
  isError className = false ->
  is_Some (h !! b) ->
  a <> b ->
  equal h (VRef a) (VRef b) = Ok false.
Proof.
  intros Hclass Hser Hset Hmap Herr [ob Hb] Hab.
  unfold equal, depth_bound. cbn [Nat.add isEqual]. unfold isEqual_body.
  cbn [strict_eq]. apply Nat.eqb_neq in Hab. rewrite Hab, Hclass.
  rewrite (classToString_known _ _ _ Hb).
  unfold bind at 1. cbn [liftOpt ret]. unfold bind at 1. cbn [liftOpt ret].
  destruct (negb (String.eqb className _)); [done|].
  by rewrite Hser, Hset, Hmap, Herr.
Qed.

(** Two functions and a plain object. *)
Definition callbacks : heap :=
  [mkObject KFunction []; mkObject KFunction []; mkObject KObject []].

Lemma equal_hosts_by_identity_witness :
  equal callbacks (VRef 0) (VRef 1) = Ok false.
Proof.
  apply (equal_hosts_by_identity callbacks 0 1 "[object Function]");
    try reflexivity; [by eexists | discriminate].
Defined.

(** X4. Values of two classes are not equal. *)
Theorem equal_needs_same_class (h : heap) (a b : value) (aClass bClass : string) :
  classToString h a = Some aClass ->
  classToString h b = Some bClass ->
  aClass <> bClass ->
  equal h a b = Ok false.
Proof.
  intros Ha Hb Hne.
  assert (Hstrict : strict_eq a b = false).
  { destruct (strict_eq a b) eqn:E; [|done]. exfalso. apply Hne.
    destruct a as [| | | | |r], b as [| | | | |r']; try done;
      try (cbn in Ha, Hb; congruence).
    cbn in E. apply Nat.eqb_eq in E. subst r'. congruence. }
  unfold equal, depth_bound. cbn [Nat.add isEqual]. unfold isEqual_body.
  rewrite Hstrict, Ha, Hb.
  unfold bind at 1. cbn [liftOpt ret]. unfold bind at 1. cbn [liftOpt ret].
  apply String.eqb_neq in Hne. by rewrite Hne.
Qed.

Lemma equal_needs_same_class_witness :
  equal tokens (VRef 0) (VRef 1) = Ok false /\
  equal [] VNull VUndefined = Ok false /\
  equal [] (VStr "1") (VNum (Int 1)) = Ok false.
Proof.
  split; [|split].
  - by apply (equal_needs_same_class tokens (VRef 0) (VRef 1)
                "[object Object]" "[object Array]").
  - by apply (equal_needs_same_class [] VNull VUndefined
                "[object Null]" "[object Undefined]").
  - by apply (equal_needs_same_class [] (VStr "1") (VNum (Int 1))
                "[object String]" "[object Number]").
Defined.

(** ** Tokens of primitive values *)

Lemma serialize_string (h : heap) (s : string) :
  serialize h (VStr s) = Ok (VStr ("string" +:+ s)).
Proof.
  unfold serialize, depth_bound. cbn [Nat.add serializeInternal].
  unfold serializeInternal_body at 1. cbn [typeof isPrimitive isRealNaN strict_eq].
  by rewrite (String.eqb_refl s).
Qed.

Lemma serialize_number (h : heap) (x : number) :
  serialize h (VNum x) =
  Ok (VStr (match x with
            | NaN => "number[object Number]NaN"
            | _ => "number" +:+ num_to_string x
            end)).
Proof.
  destruct x as [| | | |z]; try reflexivity.
  unfold serialize, depth_bound. cbn [Nat.add serializeInternal].
  unfold serializeInternal_body at 1.
  cbn [typeof isPrimitive isRealNaN strict_eq num_eqb].
  by rewrite (Z.eqb_refl z).
Qed.

Lemma num_to_string_inj (x y : number) :
  x <> NaN -> y <> NaN ->
  num_to_string x = num_to_string y ->
  x = y \/ (is_zero x = true /\ is_zero y = true).
Proof.
  intros Hx Hy.
  destruct x as [| | | |z], y as [| | | |z']; try done; cbn;
    try (intros E; by left);
    try (intros E; by right);
    try (intros E; symmetry in E; by apply Z_to_string_not_special in E);
    try (intros E; by apply Z_to_string_not_special in E).
  - intros E. change "0" with (Z_to_string 0) in E.
    apply Z_to_string_inj in E as <-. by right.
  - intros E. change "0" with (Z_to_string 0) in E.
    apply Z_to_string_inj in E as ->. by right.
  - intros E%Z_to_string_inj. left. congruence.
Qed.

(** The token of a primitive value: its type, then the value as a string;
    NaN goes the way of the objects of a known class. *)
Definition primitive_token (v : value) : string :=
  match v with
  | VNum NaN => "number[object Number]NaN"
  | VRef _ => ""
  | _ => typeof [] v +:+ prim_to_string v
  end.

Lemma serialize_primitive (h : heap) (v : value) :
  primitive v -> serialize h v = Ok (VStr (primitive_token v)).
Proof.
  destruct v as [| |[]|x|s|?]; try done.
  - intros _. rewrite serialize_number. by destruct x.
  - intros _. by rewrite serialize_string.
Qed.

Lemma primitive_token_inj (a b : value) :
  primitive a -> primitive b ->
  primitive_token a = primitive_token b ->
  a = b \/
  exists x y, a = VNum x /\ b = VNum y /\ is_zero x = true /\ is_zero y = true.
Proof.
  intros Ha Hb E.
  destruct a as [| |x|x|s|?]; try done; destruct b as [| |y|y|s'|?]; try done;
    try (by left).
  all: try (destruct x; cbn in E; discriminate E).
  all: try (destruct y; cbn in E; discriminate E).
  - destruct x, y; try discriminate E; by left.
  - assert (Hnan : forall n, n = NaN \/ n <> NaN) by (intros []; auto).
    destruct (Hnan x) as [->|Hx], (Hnan y) as [->|Hy].
    + by left.
    + destruct y as [| | | |z]; try done.
      destruct (Z_to_string_shape z) as (d & Hd & Hne & Ez).
      cbn [primitive_token typeof prim_to_string num_to_string String.append] in E.
      rewrite Ez in E.
      destruct (Z.ltb z 0); [done|]. destruct d as [|c d]; [done|].
      injection E as E _. by subst c.
    + destruct x as [| | | |z]; try done.
      destruct (Z_to_string_shape z) as (d & Hd & Hne & Ez).
      cbn [primitive_token typeof prim_to_string num_to_string String.append] in E.
      rewrite Ez in E.
      destruct (Z.ltb z 0); [done|]. destruct d as [|c d]; [done|].
      injection E as E _. by subst c.
    + assert (Hs : num_to_string x = num_to_string y).
      { destruct x, y; try done; by injection E. }
      destruct (num_to_string_inj x y Hx Hy Hs) as [->|[Hzx Hzy]];
        [by left | right; by exists x, y].
  - left. f_equal. by apply (inj (String.append "string")).
Qed.

(** A primitive value whose string the model writes as the host does: any
    but a number, NaN, an infinity, a zero, and an integer below 2^53 in
    magnitude.  A double holds such an integer exactly and [Number::toString]
    writes it in decimal digits; from 10^21 on it writes an exponent, which
    [num_to_string] does not. *)
Definition plain (v : value) : Prop :=
  match v with
  | VNum (Int z) => Z.abs z < 2 ^ 53
  | VRef _ => False
  | _ => True
  end.

(** X5. The tokens of primitive values are strings, and they tell the
    values apart, the numbers among them being NaN, the infinities, the
    zeros and the integers below 2^53 in magnitude: two such values with one
    token are one value, or they are zeros, 0 or -0 each. *)
Theorem serialize_primitives_injective (h : heap) (a b : value) :
  plain a -> plain b ->
  (exists tok, serialize h a = Ok (VStr tok)) /\
  (serialize h a = serialize h b ->
   a = b \/
   exists x y, a = VNum x /\ b = VNum y /\ is_zero x = true /\ is_zero y = true).
Proof.
  intros Ha Hb.
  assert (Hpa : primitive a) by (by destruct a).
  assert (Hpb : primitive b) by (by destruct b).
  rewrite !serialize_primitive by done. split; [by eexists|].
  intros [= E]. by apply primitive_token_inj.
Qed.

Lemma serialize_primitives_injective_witness :
  (exists tok, serialize [] (VNum NegZero) = Ok (VStr tok)) /\
  (serialize [] (VNum NegZero) = serialize [] (VNum (Int 0)) ->
   VNum NegZero = VNum (Int 0) \/
   exists x y, VNum NegZero = VNum x /\ VNum (Int 0) = VNum y /\
               is_zero x = true /\ is_zero y = true).
Proof.
  apply (serialize_primitives_injective [] (VNum NegZero) (VNum (Int 0)));
    [exact I | reflexivity].
Defined.


(** ** The two kinds of token *)

Lemma slow_path_reference (h : heap) (x : value) (className : string) :
  isPrimitive x (typeof h x) && negb (isRealNaN x) = false ->
  classToString h x = Some className ->
  isSerializable h x className = false ->
  exists a, x = VRef a.
Proof.
  intros Hfast Hclass Hser. destruct x as [| |b|n|s|a]; try done.
  - by destruct b.
  - destruct n as [| | | |z]; try done.
    + cbn in Hclass. by injection Hclass as <-.
    + cbn in Hfast. by rewrite Z.eqb_refl in Hfast.
  - cbn in Hfast. by rewrite String.eqb_refl in Hfast.
  - by exists a.
Qed.

Lemma typeof_letter (h : heap) (v : value) (rest : string) :
  exists c s, typeof h v +:+ rest = String c s /\ is_digit c = false.
Proof.
  destruct v as [| | | | |a]; try (by eexists _, _).
  cbn. destruct (h !! a) as [[[] ?]|]; by eexists _, _.
Qed.

(** X6. A token is the index of a non-serializable object in the table of
    references, or a string that starts with the type of the value; as keys
    of the table of a memoized function the two kinds are apart, a numeral
    being no such string. *)
Theorem token_kinds (h : heap) :
  (forall fuel x t tok t',
     serializeInternal fuel h x t = Ok (tok, t') ->
     (exists a i, x = VRef a /\ isHost h a = true /\
                  tok = VNum (Int (Z.of_nat i)) /\
                  indexOf (refs t') x = Some i) \/
     (exists rest, tok = VStr (typeof h x +:+ rest) /\
                   forall a, x = VRef a -> isHost h a = false)) /\
  (forall (i : nat) y rest,
     prim_to_string (VNum (Int (Z.of_nat i))) <> typeof h y +:+ rest).
Proof.
  split.
  - intros [|fuel] x t tok t' Hrun; [done|].
    cbn [serializeInternal] in Hrun. unfold serializeInternal_body in Hrun.
    destruct (isPrimitive x (typeof h x) && negb (isRealNaN x)) eqn:Hfast.
    { injection Hrun as <- <-. right. eexists. split; [done|].
      intros a ->. cbn in Hfast. by destruct (h !! a) as [[[] ?]|]. }
    apply bind_Ok in Hrun as (className & t1 & Hclass & Hrun).
    destruct (classToString h x) as [cls|] eqn:Hcls; [|done].
    injection Hclass as <- <-.
    destruct (isSerializable h x cls) eqn:Hser; cbn [negb] in Hrun.
    + right. apply bind_Ok in Hrun as (value & t1 & _ & [= <- <-]).
      eexists. split; [done|]. intros a ->. unfold isHost. by rewrite Hcls, Hser.
    + left. destruct (slow_path_reference h x cls Hfast Hcls Hser) as [a ->].
      assert (Hhost : isHost h a = true).
      { unfold isHost. by rewrite Hcls, Hser. }
      exists a. unfold bind, getState, putState, ret in Hrun.
      destruct (indexOf (refs t) (VRef a)) as [i|] eqn:Hi;
        injection Hrun as <- <-; eexists; (do 2 (split; [done|])); [done|].
      cbn [refs]. unfold indexOf in *.
      rewrite (indexOf_from_new 0 (refs t) [] (VRef a) Hi); [done|].
      apply Nat.eqb_refl.
  - intros i y rest E. cbn [prim_to_string num_to_string] in E.
    destruct (Z_to_string_shape (Z.of_nat i)) as (d & Hd & Hne & Ei).
    destruct (Z.ltb_spec (Z.of_nat i) 0); [lia|].
    destruct (typeof_letter h y rest) as (c & s & Et & Hc).
    rewrite Ei, Et in E. subst d. cbn in Hd. by rewrite Hc in Hd.
Qed.

Lemma token_kinds_witness :
  (exists a i, VRef 4 = VRef a /\ isHost tokens a = true /\
               VNum (Int 0) = VNum (Int (Z.of_nat i)) /\
               indexOf [VRef 4] (VRef 4) = Some i) \/
  (exists rest, VNum (Int 0) = VStr (typeof tokens (VRef 4) +:+ rest) /\
                forall a, VRef 4 = VRef a -> isHost tokens a = false).
Proof.
  apply (proj1 (token_kinds tokens) 1%nat (VRef 4) (mkTrav [] []) (VNum (Int 0))
           (mkTrav [VRef 4] [])).
  reflexivity.
Defined.


(** ** Strings of repeated parts *)

Lemma append_nil_r (s : string) : s +:+ "" = s.
Proof.
  induction s as [|a s IH]; [done|].
  change (String a (s +:+ "") = String a s). by rewrite IH.
Qed.

Lemma append_assoc (s1 s2 s3 : string) : (s1 +:+ s2) +:+ s3 = s1 +:+ (s2 +:+ s3).
Proof.
  induction s1 as [|a s1 IH]; [done|].
  change (String a ((s1 +:+ s2) +:+ s3) = String a (s1 +:+ (s2 +:+ s3))).
  by rewrite IH.
Qed.

Lemma length_append (s1 s2 : string) :
  String.length (s1 +:+ s2) = (String.length s1 + String.length s2)%nat.
Proof.
  induction s1 as [|a s1 IH]; [done|].
  change (S (String.length (s1 +:+ s2)) = S (String.length s1 + String.length s2)).
  by rewrite IH.
Qed.

(** [n] copies of [s], one after the other. *)
Fixpoint copies (n : nat) (s : string) : string :=
  match n with
  | O => ""
  | S n' => s +:+ copies n' s
  end.

Lemma copies_add (n m : nat) (s : string) :
  copies (n + m) s = copies n s +:+ copies m s.
Proof. induction n; cbn; [done|]. by rewrite IHn, append_assoc. Qed.

Lemma copies_double (n : nat) (s : string) :
  copies n (s +:+ s) = copies (2 * n) s.
Proof.
  induction n; [done|]. replace (2 * S n)%nat with (2 + 2 * n)%nat by lia.
  cbn [copies Nat.add]. by rewrite IHn, !append_assoc.
Qed.

Lemma copies_concat (n : nat) (s : string) :
  copies n s = String.concat "" (repeat s n).
Proof.
  induction n as [|n IH]; [done|]. cbn [copies repeat]. rewrite IH.
  destruct n; cbn; [apply append_nil_r | done].
Qed.

Lemma to_int32_small (z : Z) : 0 <= z < 2 ^ 31 -> to_int32 (Int z) = z.
Proof.
  intros Hz. unfold to_int32.
  rewrite Z.mod_small by lia. lia.
Qed.

Lemma repeatString_loop_stop (fuel : nat) (res str : string) (num : number) :
  num_ltb (Int 0) num = false ->
  repeatString_loop (S fuel) res str num = Ok res.
Proof. intros Hnum. cbn [repeatString_loop]. by rewrite Hnum. Qed.

Lemma repeatString_loop_spec (fuel : nat) (res str : string) (k : Z) :
  0 <= k < 2 ^ 31 -> k < 2 ^ Z.of_nat fuel ->
  repeatString_loop (S fuel) res str (Int k) =
  Ok (res +:+ copies (Z.to_nat k) str).
Proof.
  revert res str k. induction fuel as [|fuel IH]; intros res str k Hk Hfuel.
  { assert (k = 0) as -> by (change (2 ^ Z.of_nat 0) with 1 in Hfuel; lia).
    rewrite repeatString_loop_stop by done. cbn [Z.to_nat copies].
    by rewrite append_nil_r. }
  remember (S fuel) as fuel' eqn:Hfuel'.
  cbn [repeatString_loop num_ltb]. destruct (Z.ltb_spec 0 k) as [Hpos|Hzero].
  - rewrite to_int32_small by done.
    assert (Hland : Z.land k 1 = k mod 2) by (apply (Z.land_ones k 1); lia).
    rewrite Hland, Z.shiftr_div_pow2 by lia. change (2 ^ 1) with 2.
    assert (Hhalf : k / 2 < 2 ^ Z.of_nat fuel).
    { apply Z.div_lt_upper_bound; [lia|].
      rewrite <- Z.pow_succ_r by lia. rewrite <- Nat2Z.inj_succ. by subst. }
    subst fuel'.
    rewrite IH; [|split; [apply Z.div_pos; lia | apply Z.div_lt_upper_bound; lia]
                |done].
    f_equal.
    assert (Hmod : k mod 2 = 0 \/ k mod 2 = 1).
    { pose proof (Z.mod_pos_bound k 2). lia. }
    assert (Hsplit : Z.to_nat k = (Z.to_nat (k mod 2) + 2 * Z.to_nat (k / 2))%nat).
    { pose proof (Z.div_mod k 2). pose proof (Z.div_pos k 2). lia. }
    rewrite Hsplit, copies_add, <- copies_double.
    destruct (Z.eqb_spec (k / 2) 0) as [Hq|Hq].
    + rewrite Hq.
      destruct Hmod as [-> | ->]; cbn [Z.eqb];
        change (Z.to_nat 0) with 0%nat; change (Z.to_nat 1) with 1%nat;
        cbn [copies]; by rewrite ?append_nil_r.
    + destruct Hmod as [-> | ->]; cbn [Z.eqb];
        change (Z.to_nat 0) with 0%nat; change (Z.to_nat 1) with 1%nat;
        cbn [copies]; [done|].
      by rewrite append_nil_r, append_assoc.
  - assert (k = 0) as -> by lia. change (Z.to_nat 0) with 0%nat.
    cbn [copies]. by rewrite append_nil_r.
Qed.

(** X7. [repeatString(str, n)] is [n] copies of [str] for an integer [n]
    from 0 below 2^31, and the empty string for a negative one, for NaN and
    for the infinities. *)
Theorem repeatString_copies (str : string) :
  (forall n, 0 <= n < 2 ^ 31 ->
     repeatString str (Int n) = Ok (String.concat "" (repeat str (Z.to_nat n)))) /\
  (forall n, n <= 0 -> repeatString str (Int n) = Ok "") /\
  repeatString str NaN = Ok "" /\
  repeatString str PosInf = Ok "" /\
  repeatString str NegInf = Ok "" /\
  repeatString str NegZero = Ok "".
Proof.
  split; [|split; [|repeat split; vm_compute; reflexivity]].
  - intros n Hn. unfold repeatString.
    rewrite repeatString_loop_spec; [|done|].
    + by rewrite copies_concat.
    + change (Z.of_nat 32) with 32. lia.
  - intros n Hn. unfold repeatString. apply repeatString_loop_stop.
    cbn [num_ltb]. by destruct (Z.ltb_spec 0 n); [lia|].
Qed.

Lemma repeatString_copies_witness :
  repeatString "ab" (Int 5) = Ok (String.concat "" (repeat "ab" (Z.to_nat 5))) /\
  repeatString "ab" (Int (-3)) = Ok "".
Proof.
  destruct (repeatString_copies "ab") as (Hcopies & Hneg & _).
  split; [apply (Hcopies 5); lia | apply (Hneg (-3)); lia].
Defined.


(** ** Padded numerals *)

Lemma nzhead_shape (d : Decimal.uint) :
  match Decimal.nzhead d with Decimal.D0 _ => False | _ => True end.
Proof. induction d; done. Qed.

Lemma digits_value_lower (s : string) (acc : Z) :
  1 <= acc -> all_chars is_digit s = true ->
  acc + Z.of_nat (String.length s) <= digits_value acc s.
Proof.
  revert acc. induction s as [|c s IH]; intros acc Hacc Hs; cbn [digits_value String.length].
  - lia.
  - cbn [all_chars] in Hs. apply andb_prop in Hs as [Hc Hs].
    unfold is_digit in Hc. apply andb_prop in Hc as [Hlo Hhi].
    apply Nat.leb_le in Hlo, Hhi.
    etrans; [|apply IH; [lia | done]]. lia.
Qed.

(** A numeral has no more digits than its value, 0 apart. *)
Lemma Z_to_string_length (z : Z) :
  0 <= z -> Z.of_nat (String.length (Z_to_string z)) <= Z.max 1 z.
Proof.
  intros Hz. destruct z as [|p|p]; [done | | lia].
  pose proof (parse_digits_Z_to_string (Z.pos p) ltac:(lia)) as Hparse.
  unfold Z_to_string in *. cbn [Z.to_int NilZero.string_of_int] in *.
  pose proof (DecimalPos.Unsigned.to_uint_nonnil p) as Hnil.
  pose proof (DecimalPos.Unsigned.to_uint_nonzero p) as Hzero.
  pose proof (DecimalPos.Unsigned.to_of (Pos.to_uint p)) as Hnorm.
  rewrite DecimalPos.Unsigned.of_to in Hnorm. cbn [N.to_uint] in Hnorm.
  destruct (string_of_uint_nonnil _ Hnil) as [E _]. rewrite E in *. clear E.
  pose proof (all_digits_uint (Pos.to_uint p)) as Hdigits.
  unfold parse_digits in Hparse. rewrite Hdigits in Hparse.
  pose proof (nzhead_shape (Pos.to_uint p)) as Hhead.
  unfold Decimal.unorm in Hnorm.
  destruct (Pos.to_uint p) as [|d|d|d|d|d|d|d|d|d|d] eqn:Hd; [done|..];
    try (cbn [NilEmpty.string_of_uint digits_value String.length all_chars] in *;
         apply andb_prop in Hdigits as [_ Hdigits];
         injection Hparse as Hparse;
         match type of Hparse with
         | digits_value ?acc ?s = _ =>
             let v := eval vm_compute in acc in
             change (digits_value v s = Z.pos p) in Hparse;
             pose proof (digits_value_lower s v ltac:(lia) Hdigits)
         end; lia).
  exfalso. cbn [Decimal.nzhead] in Hnorm, Hhead.
  by destruct (Decimal.nzhead d) eqn:Hn.
Qed.

Lemma parse_digits_padded (k : nat) (z : Z) :
  0 <= z -> parse_digits (copies k "0" +:+ Z_to_string z) = Some z.
Proof.
  intros Hz. pose proof (parse_digits_Z_to_string z Hz) as Hparse.
  induction k as [|k IH]; [done|].
  change (copies (S k) "0" +:+ Z_to_string z)
    with (String "0" (copies k "0" +:+ Z_to_string z)).
  unfold parse_digits in *.
  destruct (copies k "0" +:+ Z_to_string z) as [|c s] eqn:Hs.
  - destruct k; [|done]. change (Z_to_string z = "") in Hs.
    by rewrite Hs in Hparse.
  - cbn [all_chars digits_value]. change (is_digit "0") with true. cbn [andb].
    done.
Qed.

Lemma str_to_number_digits (s : string) (z : Z) :
  parse_digits s = Some z -> z < 2 ^ 53 -> str_to_number s = Some (Int z).
Proof.
  intros Hs Hz. unfold str_to_number. destruct s as [|c s]; [done|].
  rewrite Hs. cbn [mbind option_bind].
  by destruct (Z.ltb_spec z (2 ^ 53)); [|lia].
Qed.

Lemma str_to_number_minus (s : string) (z : Z) :
  parse_digits s = Some z -> z < 2 ^ 53 ->
  str_to_number (String "-" s) = Some (if Z.eqb z 0 then NegZero else Int (- z)).
Proof.
  intros Hs Hz. unfold str_to_number.
  change (parse_digits (String "-" s)) with (@None Z).
  change (Ascii.eqb "-" "-") with true. cbv iota.
  rewrite Hs. cbn [mbind option_bind].
  by destruct (Z.ltb_spec z (2 ^ 53)); [|lia].
Qed.

Lemma str_to_number_plus (s : string) (z : Z) :
  parse_digits s = Some z -> z < 2 ^ 53 ->
  str_to_number (String "+" s) = Some (Int z).
Proof.
  intros Hs Hz. unfold str_to_number.
  change (parse_digits (String "+" s)) with (@None Z).
  change (Ascii.eqb "+" "-") with false. change (Ascii.eqb "+" "+") with true.
  cbv iota. rewrite Hs. cbn [mbind option_bind].
  by destruct (Z.ltb_spec z (2 ^ 53)); [|lia].
Qed.

(** X8. [padNumber] in base 10, padding with zeros, writes an integer below
    2^53 so that it reads back as the same number: the sign, if there is
    one to write, the zeros that bring the digits to [place], the digits. *)
Theorem padNumber_reads_back (n p : Z) (sign : bool) :
  Z.abs n < 2 ^ 53 -> 0 <= p < 2 ^ 31 ->
  let digits := Z_to_string (Z.abs n) in
  let signed := sign || Z.ltb n 0 in
  exists s,
    padNumber (Int n) (Int p) sign VUndefined "" = Ok s /\
    to_number (VStr s) = Some (Int n) /\
    Z.of_nat (String.length s) =
      Z.max p (Z.of_nat (String.length digits)) + (if signed then 1 else 0).
Proof.
  intros Hn Hp digits signed.
  pose proof (Z_to_string_length (Z.abs n) ltac:(lia)) as Hlen.
  fold digits in Hlen.
  set (len := Z.of_nat (String.length digits)) in *.
  set (k := Z.to_nat (p - len)).
  assert (Hpad : repeatString "0" (Int (p - len)) = Ok (copies k "0")).
  { destruct (Z.le_gt_cases (p - len) 0) as [Hle|Hgt].
    - unfold repeatString. rewrite repeatString_loop_stop.
      + subst k. by replace (Z.to_nat (p - len)) with 0%nat by lia.
      + cbn [num_ltb]. by destruct (Z.ltb_spec 0 (p - len)); [lia|].
    - unfold repeatString. rewrite repeatString_loop_spec; [done|lia|].
      change (Z.of_nat 32) with 32. lia. }
  assert (Hsub : num_sub (Int p) (Int len) = Some (Int (p - len))).
  { unfold num_sub, num_neg. destruct len eqn:E.
    - cbn. by rewrite Z.sub_0_r.
    - cbn [num_add]. destruct (Z.ltb_spec (Z.abs (p + - Z.pos p0)) (2 ^ 53)); [|lia].
      done.
    - lia. }
  assert (Hbody : parse_digits (copies k "0" +:+ digits) = Some (Z.abs n)).
  { apply parse_digits_padded. lia. }
  assert (Hlength : Z.of_nat (String.length (copies k "0" +:+ digits)) = Z.max p len).
  { rewrite length_append.
    assert (Hc : forall m, String.length (copies m "0") = m).
    { induction m; [done|]. cbn [copies]. rewrite length_append, IHm. done. }
    rewrite Hc. subst k len. lia. }
  unfold padNumber. cbn [truthy andb num_abs num_to_string num_ltb].
  destruct (Z.ltb_spec (Z.abs n) (10 ^ 21)); [|lia]. cbn [negb].
  fold digits. fold len. rewrite Hsub. cbn [String.eqb]. rewrite Hpad.
  cbn [num_ltb]. subst signed.
  set (body := copies k "0" +:+ digits) in *.
  destruct (Z.ltb_spec n 0) as [Hneg|Hpos].
  - rewrite orb_true_r. eexists. split; [done|]. split.
    + cbn [to_number]. change ("-" +:+ body) with (String "-" body).
      rewrite (str_to_number_minus body (Z.abs n)) by (done || lia).
      destruct (Z.eqb_spec (Z.abs n) 0); [lia|]. do 2 f_equal. lia.
    + change ("-" +:+ body) with (String "-" body).
      cbn [String.length]. rewrite Nat2Z.inj_succ, Hlength. lia.
  - rewrite orb_false_r. destruct sign.
    + eexists. split; [done|]. split.
      * cbn [to_number]. change ("+" +:+ body) with (String "+" body).
        rewrite (str_to_number_plus body (Z.abs n)) by (done || lia).
        do 2 f_equal. lia.
      * change ("+" +:+ body) with (String "+" body).
        cbn [String.length]. rewrite Nat2Z.inj_succ, Hlength. lia.
    + eexists. split; [done|]. split.
      * cbn [to_number].
        rewrite (str_to_number_digits body (Z.abs n)) by (done || lia).
        do 2 f_equal. lia.
      * rewrite Hlength. lia.
Qed.

Lemma padNumber_reads_back_witness :
  exists s,
    padNumber (Int (-7)) (Int 3) false VUndefined "" = Ok s /\
    to_number (VStr s) = Some (Int (-7)) /\
    Z.of_nat (String.length s) =
      Z.max 3 (Z.of_nat (String.length (Z_to_string (Z.abs (-7))))) +
      (if false || Z.ltb (-7) 0 then 1 else 0).
Proof. apply (padNumber_reads_back (-7) 3 false); [reflexivity | lia]. Defined.


(** ** Indices *)

(** X9. With [loop] set, [getNormalizedIndex] brings every integer index
    into the bounds of a length above 0: the result is the index modulo the
    length (as -0 when a negative index is a multiple of the length).
    Without [loop] an index from 0 on is left as it is and a negative one
    has the length added, once. *)
Theorem getNormalizedIndex_bounds (i l : Z) :
  0 < l < 2 ^ 53 -> Z.abs i < 2 ^ 53 ->
  (exists r, getNormalizedIndex (Int i) (Int l) true = Some r /\
             (r = Int (i mod l) \/ (r = NegZero /\ i < 0 /\ i mod l = 0))) /\
  getNormalizedIndex (Int i) (Int l) false =
    Some (Int (if Z.ltb i 0 then l + i else i)).
Proof.
  intros Hl Hi. split.
  - unfold getNormalizedIndex. cbn [truthy andb].
    destruct (Z.eqb_spec i 0) as [->|Hi0].
    { eexists. split; [done|]. left. by rewrite Z.mod_0_l by lia. }
    assert (Htruthy : (match i with 0 => false | _ => true end) = true)
      by (by destruct i).
    rewrite Htruthy. cbn [andb]. unfold num_rem.
    assert (Hl0 : match l with 0 => NaN | _ =>
                    if Z.eqb (Z.rem i l) 0
                    then (if Z.ltb i 0 then NegZero else Int 0)
                    else Int (Z.rem i l) end =
                  if Z.eqb (Z.rem i l) 0
                  then (if Z.ltb i 0 then NegZero else Int 0)
                  else Int (Z.rem i l)) by (destruct l; [lia|done..]).
    rewrite Hl0. clear Hl0 Htruthy.
    pose proof (Z.rem_bound_abs i l ltac:(lia)) as Hbound.
    pose proof (Z.quot_rem' i l) as Hqr.
    destruct (Z.eqb_spec (Z.rem i l) 0) as [Hr0|Hr0].
    + assert (Hmod : i mod l = 0).
      { symmetry. apply (Z.mod_unique_pos i l (Z.quot i l) 0); lia. }
      destruct (Z.ltb_spec i 0).
      * eexists. split; [done|]. by right.
      * eexists. split; [done|]. left. by rewrite Hmod.
    + cbn [num_ltb]. destruct (Z.ltb_spec (Z.rem i l) 0) as [Hneg|Hpos].
      * cbn [num_add].
        destruct (Z.ltb_spec (Z.abs (l + Z.rem i l)) (2 ^ 53)); [|lia].
        eexists. split; [done|]. left. f_equal.
        apply (Z.mod_unique_pos i l (Z.quot i l - 1)); lia.
      * eexists. split; [done|]. left. f_equal.
        apply (Z.mod_unique_pos i l (Z.quot i l)); lia.
  - unfold getNormalizedIndex. rewrite andb_false_r. cbn [num_ltb].
    destruct (Z.ltb_spec i 0); [|done]. cbn [num_add].
    by destruct (Z.ltb_spec (Z.abs (l + i)) (2 ^ 53)); [|lia].
Qed.

Lemma getNormalizedIndex_bounds_witness :
  (exists r, getNormalizedIndex (Int (-7)) (Int 3) true = Some r /\
             (r = Int ((-7) mod 3) \/ (r = NegZero /\ -7 < 0 /\ (-7) mod 3 = 0))) /\
  getNormalizedIndex (Int (-7)) (Int 3) false =
    Some (Int (if Z.ltb (-7) 0 then 3 + -7 else -7)).
Proof. apply (getNormalizedIndex_bounds (-7) 3); [lia | reflexivity]. Defined.

(** X10. [coercePositiveInteger] returns an integer from 0 on, never NaN,
    -0 or an infinity: NaN and the zeros become 0, and a negative number or
    an infinity is answered with a RangeError. *)
Theorem coercePositiveInteger_range (v : value) (x : number) :
  to_number v = Some x ->
  match x with
  | NaN | NegZero => coercePositiveInteger v = Ok (Int 0)
  | PosInf | NegInf => coercePositiveInteger v = Throw (RangeError "Invalid number")
  | Int z =>
      coercePositiveInteger v =
      if Z.ltb z 0 then Throw (RangeError "Invalid number") else Ok (Int z)
  end.
Proof.
  intros Hv. unfold coercePositiveInteger. rewrite Hv.
  destruct x as [| | | |z]; try done.
  cbn [truthy num_ltb]. destruct z as [|p|p]; done.
Qed.

Lemma coercePositiveInteger_range_witness :
  coercePositiveInteger (VStr "-3") = Throw (RangeError "Invalid number") /\
  coercePositiveInteger VUndefined = Ok (Int 0).
Proof.
  split.
  - apply (coercePositiveInteger_range (VStr "-3") (Int (-3))). reflexivity.
  - apply (coercePositiveInteger_range VUndefined NaN). reflexivity.
Defined.


(** ** Paths of plain keys *)

Definition is_bracket (c : ascii) : bool := Ascii.eqb c "[" || Ascii.eqb c "]".

(** A path of keys with single periods between them: no bracket and no
    range. *)
Definition dotted (key : string) : bool :=
  all_chars (fun c => negb (is_bracket c)) key && negb (contains ".." key).

(** The walk along own properties: [follows h v ps r] when the keys [ps],
    taken one after the other from [v], are own properties and lead to the
    value [r], or when one of them is missing. *)
Inductive follows (h : heap) : value -> list string -> option value -> Prop :=
| follows_end v : follows h v [] (Some v)
| follows_step v p v' ps r :
    hasOwn h v p = Ok true -> getProp h v p = Ok v' ->
    follows h v' ps r -> follows h v (p :: ps) r
| follows_missing v p ps :
    hasOwn h v p = Ok false -> follows h v (p :: ps) None.

Lemma all_chars_impl (P Q : ascii -> bool) (s : string) :
  (forall c, P c = true -> Q c = true) ->
  all_chars P s = true -> all_chars Q s = true.
Proof.
  intros HPQ. induction s as [|c s IH]; [done|]. cbn [all_chars].
  intros [Hc Hs]%andb_true_iff. by rewrite (HPQ c Hc), IH.
Qed.

Lemma split_on_free (c : ascii) (s : string) :
  all_chars (fun d => negb (Ascii.eqb d c)) s = true -> split_on c s = [s].
Proof.
  induction s as [|d s IH]; [done|]. cbn [all_chars split_on].
  intros [Hd Hs]%andb_true_iff. apply negb_true_iff in Hd. rewrite Hd.
  by rewrite (IH Hs).
Qed.

Lemma split_on_all_chars (P : ascii -> bool) (c : ascii) (s : string) :
  all_chars P s = true ->
  Forall (fun p => all_chars P p = true) (split_on c s).
Proof.
  induction s as [|d s IH]; [by repeat constructor|]. cbn [all_chars split_on].
  intros [Hd Hs]%andb_true_iff. specialize (IH Hs).
  destruct (Ascii.eqb d c); [by constructor|].
  destruct (split_on c s) as [|p ps]; [by repeat constructor; cbn; rewrite Hd|].
  inversion IH; subst. constructor; [|done]. cbn [all_chars]. by rewrite Hd.
Qed.

Lemma split_on_cons (c : ascii) (s : string) :
  exists p ps, split_on c s = p :: ps.
Proof.
  destruct s as [|d s]; [by eexists _, _|]. cbn [split_on].
  destruct (Ascii.eqb d c); [by eexists _, _|].
  destruct (split_on c s); by eexists _, _.
Qed.

Lemma index_of_char_free (c : ascii) (s : string) :
  all_chars (fun d => negb (Ascii.eqb d c)) s = true -> index_of_char c s = None.
Proof.
  induction s as [|d s IH]; [done|]. cbn [all_chars index_of_char].
  intros [Hd Hs]%andb_true_iff. apply negb_true_iff in Hd. rewrite Hd.
  by rewrite (IH Hs).
Qed.

Lemma dotted_parts (key : string) :
  dotted key = true ->
  split_on "[" key = [key] /\
  contains ".." key = false /\
  Forall (fun p => index_of_char "]" p = None) (periodSplit key).
Proof.
  unfold dotted. intros [Hb Hr]%andb_true_iff. apply negb_true_iff in Hr.
  split; [|split; [done|]].
  - apply split_on_free. revert Hb. apply all_chars_impl.
    intros c. unfold is_bracket. by intros [-> _]%negb_true_iff%orb_false_iff.
  - unfold periodSplit.
    assert (Hc : all_chars (fun d => negb (Ascii.eqb d "]")) key = true).
    { revert Hb. apply all_chars_impl.
      intros c. unfold is_bracket.
      by intros [_ ->]%negb_true_iff%orb_false_iff. }
    eapply Forall_impl; [apply (split_on_all_chars _ "." _ Hc)|].
    intros p Hp. by apply index_of_char_free.
Qed.

(** On a dotted key [handleDeepProperty] is the walk along its parts. *)
Lemma handleDeepProperty_dotted (fuel : nat) (obj any : value) (key : string)
  (has fill fillLast : bool) (val : value) (h : heap) :
  dotted key = true ->
  handleDeepProperty (S fuel) obj (VStr key) any has fill fillLast val h =
  (let* w := walkKeys any has fill fillLast val 1 0 (periodSplit key)
               (Continue (if truthy obj then obj else VUndefined)) in
   match w with
   | Continue ns => ret ns
   | Return v => ret v
   end) h.
Proof.
  intros (Hsplit & Hrange & _)%dotted_parts.
  cbn [handleDeepProperty]. unfold handleDeepProperty_body.
  unfold bind at 1. cbn [getState].
  assert (Hobj : isObjectType h (VStr key) = false).
  { unfold isObjectType. cbn [typeof]. apply andb_false_r. }
  rewrite Hobj. unfold bind at 1. unfold bind at 1.
  cbn [toString prim_to_string liftR]. rewrite Hrange. cbn [ret].
  rewrite Hsplit. cbn [map imap foldM length fst snd].
  unfold bind at 1. unfold bind at 2.
  unfold bind. destruct (walkKeys _ _ _ _ _ _ _ _ _ _) as [[w h']| | |]; done.
Qed.

Lemma foldM_Return {B} (f : walk -> B -> H walk) (l : list B) (v : value)
  (h : heap) :
  (forall b, f (Return v) b = ret (Return v)) ->
  foldM f l (Return v) h = Ok (Return v, h).
Proof.
  intros Hf. induction l as [|b l IH]; [done|].
  cbn [foldM]. unfold bind. by rewrite Hf.
Qed.

(** One key of a walk that reads. *)
Lemma handleKey_read (any : value) (has : bool) (plen j : nat) (part : string)
  (ns : value) (h : heap) (b : bool) :
  truthy any = false ->
  index_of_char "]" part = None ->
  hasOwn h ns part = Ok b ->
  handleKey any has false false VUndefined 1 0 plen j part ns h =
  if has && ((j =? plen - 1)%nat || negb b) then Ok (Return (VBool b), h)
  else if b then
         match getProp h ns part with
         | Ok v => Ok (Continue v, h)
         | Throw e => Throw e
         | Unmodelled => Unmodelled
         | OutOfFuel => OutOfFuel
         end
       else Ok (Continue VUndefined, h).
Proof.
  intros Hany Hcbi Hown. unfold handleKey. rewrite Hcbi, Hany.
  cbn [strict_eq negb andb orb Nat.ltb Nat.leb Nat.eqb Nat.sub].
  unfold bind at 1. cbn [ret]. unfold bind at 1. cbn [ret].
  cbn [negb orb]. rewrite orb_true_r. cbn [negb].
  unfold bind at 1. unfold readH at 1. cbn [toString prim_to_string].
  cbn [mbind result_bind]. unfold bind at 1. unfold readH at 1.
  rewrite Hown. cbn [mbind result_bind].
  destruct (has && _); [done|].
  rewrite andb_false_r. cbn [andb]. unfold bind at 1. cbn [ret].
  destruct b; [|done]. unfold bind, readH.
  by destruct (getProp h ns part).
Qed.

(** From [undefined] a walk that reads stays there. *)
Lemma walkKeys_undefined (any : value) (plen : nat) (g : nat -> nat)
  (ps : list string) (h : heap) :
  truthy any = false ->
  Forall (fun p => index_of_char "]" p = None) ps ->
  foldM (fun w jp =>
           match w with
           | Return _ => ret w
           | Continue ns =>
               handleKey any false false false VUndefined 1 0 plen (fst jp)
                 (snd jp) ns
           end)
    (imap (fun j p => (g j, p)) ps) (Continue VUndefined) h =
  Ok (Continue VUndefined, h).
Proof.
  intros Hany Hps. revert g.
  induction Hps as [|q ps Hq _ IH]; intros g; [done|].
  cbn [imap foldM fst snd]. unfold bind at 1.
  rewrite (handleKey_read any false plen (g 0%nat) q VUndefined h false Hany Hq
             eq_refl).
  cbn [andb]. apply (IH (g ∘ S)).
Qed.

(** A walk that reads, from a value whose path is known. *)
Lemma walkKeys_get (any : value) (plen : nat) (g : nat -> nat)
  (ps : list string) (ns : value) (h : heap) (r : option value) :
  truthy any = false ->
  Forall (fun p => index_of_char "]" p = None) ps ->
  follows h ns ps r ->
  foldM (fun w jp =>
           match w with
           | Return _ => ret w
           | Continue ns =>
               handleKey any false false false VUndefined 1 0 plen (fst jp)
                 (snd jp) ns
           end)
    (imap (fun j p => (g j, p)) ps) (Continue ns) h =
  Ok (Continue (default VUndefined r), h).
Proof.
  intros Hany Hps Hfollows. revert g Hps.
  induction Hfollows as [v|v p v' ps r Hown Hget _ IH|v p ps Hown];
    intros g Hps.
  - done.
  - inversion Hps as [|? ? Hp Hps']; subst.
    cbn [imap foldM fst snd]. unfold bind at 1.
    rewrite (handleKey_read _ _ _ _ _ _ _ true Hany Hp Hown), Hget.
    cbn [andb]. apply (IH (g ∘ S) Hps').
  - inversion Hps as [|? ? Hp Hps']; subst.
    cbn [imap foldM fst snd]. unfold bind at 1.
    rewrite (handleKey_read _ _ _ _ _ _ _ false Hany Hp Hown).
    cbn [andb default]. by apply (walkKeys_undefined any plen (g ∘ S)).
Qed.

(** A walk that tests. *)
Lemma walkKeys_has (any : value) (plen : nat) (g : nat -> nat)
  (ps : list string) (ns : value) (h : heap) (r : option value) :
  truthy any = false ->
  Forall (fun p => index_of_char "]" p = None) ps ->
  (forall j, (j < length ps)%nat ->
             (g j =? plen - 1)%nat = (j =? length ps - 1)%nat) ->
  ps <> [] ->
  follows h ns ps r ->
  foldM (fun w jp =>
           match w with
           | Return _ => ret w
           | Continue ns =>
               handleKey any true false false VUndefined 1 0 plen (fst jp)
                 (snd jp) ns
           end)
    (imap (fun j p => (g j, p)) ps) (Continue ns) h =
  Ok (Return (VBool (bool_decide (is_Some r))), h).
Proof.
  intros Hany Hps Hg Hne Hfollows. revert g Hps Hg Hne.
  induction Hfollows as [v|v p v' ps r Hown Hget Hrest IH|v p ps Hown];
    intros g Hps Hg Hne.
  - done.
  - inversion Hps as [|? ? Hp Hps']; subst.
    cbn [imap foldM fst snd]. unfold bind at 1.
    rewrite (handleKey_read _ _ _ _ _ _ _ true Hany Hp Hown), Hget.
    rewrite (Hg 0%nat) by (cbn; lia). cbn [negb orb andb length Nat.sub].
    destruct ps as [|q ps].
    + cbn [Nat.eqb andb imap foldM]. inversion Hrest; subst. done.
    + rewrite Nat.sub_0_r. cbn [Nat.eqb andb].
      apply (IH (g ∘ S) Hps'); [|done].
      intros j Hj. unfold compose. rewrite Hg by (cbn [length] in *; lia).
      cbn [length Nat.sub Nat.eqb]. by rewrite Nat.sub_0_r.
  - inversion Hps as [|? ? Hp Hps']; subst.
    cbn [imap foldM fst snd]. unfold bind at 1.
    rewrite (handleKey_read _ _ _ _ _ _ _ false Hany Hp Hown).
    cbn [negb]. rewrite orb_true_r. cbn [andb].
    by apply foldM_Return.
Qed.


Lemma follows_truthy (h : heap) (obj : value) (ps : list string)
  (r : option value) :
  ps <> [] -> follows h obj ps r ->
  follows h (if truthy obj then obj else VUndefined) ps r.
Proof.
  intros Hne Hf. destruct (truthy obj) eqn:Ht; [done|].
  inversion Hf as [|? ? ? ? ? Hown|]; subst; [done| |by constructor].
  unfold hasOwn in Hown. by rewrite Ht in Hown.
Qed.

(** X11. On a path of keys with periods between them, and without [any],
    [deepGetProperty] walks along own properties: it returns the value the
    keys lead to, and undefined when a key is missing on the way, whatever
    the keys after it; [deepHasProperty] tells which of the two it is.
    Neither changes the heap. *)
Theorem get_follows_own_properties (h : heap) (obj any : value) (key : string)
  (r : option value) :
  dotted key = true -> truthy any = false ->
  follows h obj (periodSplit key) r ->
  deepGetProperty obj (VStr key) any h = Ok (default VUndefined r, h) /\
  deepHasProperty obj (VStr key) any h = Ok (VBool (bool_decide (is_Some r)), h).
Proof.
  intros Hkey Hany Hf.
  destruct (dotted_parts key Hkey) as (_ & _ & Hps).
  destruct (split_on_cons "." key) as (p & ps & Hsplit).
  assert (Hne : periodSplit key <> []) by (unfold periodSplit; by rewrite Hsplit).
  apply (follows_truthy _ _ _ _ Hne) in Hf.
  unfold deepGetProperty, deepHasProperty, key_fuel.
  split.
  - unfold bind at 1. cbn [getState].
    rewrite handleDeepProperty_dotted by done. unfold walkKeys.
    unfold bind at 1.
    by rewrite (walkKeys_get any _ id _ _ _ _ Hany Hps Hf).
  - unfold bind at 1. cbn [getState].
    rewrite handleDeepProperty_dotted by done. unfold walkKeys.
    unfold bind at 1.
    pose proof (walkKeys_has any (length (periodSplit key)) id _ _ _ _ Hany Hps
                  (fun _ _ => eq_refl) Hne Hf) as Hwalk.
    unfold id in Hwalk. by rewrite Hwalk.
Qed.

(** An object with an object in it. *)
Definition nested : heap :=
  [mkObject KObject [("a", VRef 1)]; mkObject KObject [("b", VNum (Int 5))]].

Lemma get_follows_own_properties_witness :
  deepGetProperty (VRef 0) (VStr "a.b") VUndefined nested =
    Ok (VNum (Int 5), nested) /\
  deepHasProperty (VRef 0) (VStr "a.b") VUndefined nested =
    Ok (VBool true, nested).
Proof.
  apply (get_follows_own_properties nested (VRef 0) VUndefined "a.b"
           (Some (VNum (Int 5)))); [reflexivity..|].
  apply (follows_step nested (VRef 0) "a" (VRef 1)); [reflexivity..|].
  apply (follows_step nested (VRef 1) "b" (VNum (Int 5))); [reflexivity..|].
  apply follows_end.
Defined.


(** ** Writing along a path *)

Lemma assoc_insert_index_same {A} (i : nat) (key : string) (v : A)
  (l : list (string * A)) :
  assoc key l = None -> assoc key (insert_index i key v l) = Some v.
Proof.
  induction l as [|[k w] l IH]; cbn [assoc insert_index].
  - by rewrite String.eqb_refl.
  - destruct (String.eqb k key) eqn:Hk; [done|]. intros Hl.
    destruct (array_index k) as [j|]; [destruct (j <? i)%nat|];
      cbn [assoc]; rewrite ?Hk, ?String.eqb_refl; auto.
Qed.

Lemma assoc_insert_index_other {A} (i : nat) (key key' : string) (v : A)
  (l : list (string * A)) :
  key' <> key -> assoc key' (insert_index i key v l) = assoc key' l.
Proof.
  intros Hne. apply String.eqb_neq in Hne. rewrite String.eqb_sym in Hne.
  induction l as [|[k w] l IH]; cbn [assoc insert_index].
  - by rewrite Hne.
  - destruct (array_index k) as [j|]; [destruct (j <? i)%nat|];
      cbn [assoc]; rewrite ?Hne, ?IH; done.
Qed.

Lemma assoc_set_same {A} (key : string) (v : A) (l : list (string * A)) :
  assoc key (assoc_set key v l) = Some v.
Proof.
  unfold assoc_set. destruct (assoc key l) eqn:Hk.
  - apply assoc_replace_same. by rewrite Hk.
  - destruct (array_index key).
    + by apply assoc_insert_index_same.
    + rewrite assoc_app_None by done. cbn. by rewrite String.eqb_refl.
Qed.

Lemma assoc_set_other {A} (key key' : string) (v : A) (l : list (string * A)) :
  key' <> key -> assoc key' (assoc_set key v l) = assoc key' l.
Proof.
  intros Hne. unfold assoc_set. destruct (assoc key l).
  - by apply assoc_replace_other.
  - destruct (array_index key).
    + by apply assoc_insert_index_other.
    + destruct (assoc key' l) eqn:Hk.
      * by apply assoc_app_Some.
      * rewrite assoc_app_None by done. cbn.
        by rewrite (proj2 (String.eqb_neq key key')).
Qed.

Lemma strict_eq_undefined (val : value) :
  val <> VUndefined -> strict_eq val VUndefined = false.
Proof. by destruct val. Qed.

Lemma hasOwn_object (h : heap) (a : nat) (props : list (string * value))
  (p : string) :
  h !! a = Some (mkObject KObject props) ->
  hasOwn h (VRef a) p = Ok (bool_decide (is_Some (assoc p props))).
Proof.
  intros Ha. unfold hasOwn. cbn [truthy negb]. rewrite Ha. cbn [oprops okind].
  destruct (assoc p props); [done|]. unfold hidden_prop.
  by destruct (mem_str p object_proto_names).
Qed.

(** One key of a walk that writes. *)
Lemma handleKey_write (val : value) (plen j : nat) (part : string) (ns : value)
  (h : heap) (b : bool) :
  strict_eq val VUndefined = false ->
  index_of_char "]" part = None ->
  hasOwn h ns part = Ok b ->
  handleKey (VBool false) false true false val 1 0 plen j part ns h =
  (if negb (j =? plen - 1)%nat && negb b then
     let* fresh := alloc (mkObject KObject []) in
     let* _ := writeH (fun h => setProp h ns part (VRef fresh)) in
     ret (Continue (VRef fresh))
   else
     let* _ :=
       if (j =? plen - 1)%nat then
         let* _ := assertWritable ns in
         writeH (fun h => setProp h ns part val)
       else ret tt in
     if b then
       let* v := readH (fun h => getProp h ns part) in ret (Continue v)
     else ret (Continue VUndefined)) h.
Proof.
  intros Hval Hcbi Hown. unfold handleKey. rewrite Hcbi, Hval.
  cbn [truthy negb andb orb Nat.ltb Nat.leb Nat.eqb Nat.sub].
  unfold bind at 1. cbn [ret]. unfold bind at 1. cbn [ret].
  rewrite orb_true_r. cbn [negb].
  unfold bind at 1. unfold readH at 1. cbn [toString prim_to_string].
  cbn [mbind result_bind]. unfold bind at 1. unfold readH at 1.
  rewrite Hown. cbn [mbind result_bind].
  rewrite orb_false_r.
  destruct (j =? plen - 1)%nat, b; done.
Qed.

Lemma assertWritable_object (h : heap) (a : nat) (o : object) :
  h !! a = Some o -> assertWritable (VRef a) h = Ok (tt, h).
Proof.
  intros Ha. unfold assertWritable, bind. cbn [getState typeof].
  rewrite Ha. by destruct o as [[] ?].
Qed.

Lemma setProp_literal (h : heap) (a : nat) (props : list (string * value))
  (p : string) (v : value) :
  h !! a = Some (mkObject KObject props) -> p <> "__proto__" ->
  setProp h (VRef a) p v = Ok (<[a := mkObject KObject (assoc_set p v props)]> h).
Proof.
  intros Ha Hp. unfold setProp. rewrite (proj2 (String.eqb_neq _ _) Hp).
  by rewrite Ha.
Qed.

(** A walk that writes, along keys that are new from the first on: each key
    but the last gets an object of its own, the last one the value. *)
Lemma walkKeys_set_fresh (val : value) (plen : nat) (ps : list string) :
  strict_eq val VUndefined = false ->
  forall (g : nat -> nat) (p : string) (h : heap) (f : nat)
    (props : list (string * value)),
  Forall (fun p => index_of_char "]" p = None) (p :: ps) ->
  Forall (fun p => p <> "__proto__") (p :: ps) ->
  (forall j, (j < length (p :: ps))%nat ->
             (g j =? plen - 1)%nat = (j =? length (p :: ps) - 1)%nat) ->
  h !! f = Some (mkObject KObject props) ->
  ps = [] \/ assoc p props = None ->
  exists w h',
    foldM (fun w jp =>
             match w with
             | Return _ => ret w
             | Continue ns =>
                 handleKey (VBool false) false true false val 1 0 plen (fst jp)
                   (snd jp) ns
             end)
      (imap (fun j q => (g j, q)) (p :: ps)) (Continue (VRef f)) h =
      Ok (w, h') /\
    follows h' (VRef f) (p :: ps) (Some val) /\
    (forall b, (b < length h)%nat -> b <> f -> h' !! b = h !! b) /\
    (length h <= length h')%nat /\
    exists x, h' !! f = Some (mkObject KObject (assoc_set p x props)).
Proof.
  intros Hval. induction ps as [|q ps IH]; intros g p h f props Hps Hpr Hg Hf Hnew;
    inversion Hpr as [|? ? Hproto Hpr']; subst.
  - inversion Hps as [|? ? Hp _]; subst. cbn [imap foldM fst snd].
    unfold bind at 1.
    rewrite (handleKey_write _ _ _ _ _ _ _ Hval Hp (hasOwn_object _ _ _ p Hf)).
    rewrite (Hg 0%nat) by (cbn; lia). cbn [length Nat.sub Nat.eqb negb andb].
    unfold bind at 1. unfold bind at 1.
    rewrite (assertWritable_object _ _ _ Hf).
    unfold writeH at 1. rewrite (setProp_literal _ _ _ _ _ Hf Hproto).
    cbn [mbind result_bind].
    set (h' := <[f := mkObject KObject (assoc_set p val props)]> h).
    assert (Hf' : h' !! f = Some (mkObject KObject (assoc_set p val props))).
    { apply list_lookup_insert_eq. by eapply lookup_lt_Some. }
    assert (Hfollows : follows h' (VRef f) [p] (Some val)).
    { eapply follows_step; [| |apply follows_end].
      - rewrite (hasOwn_object _ _ _ p Hf'). by rewrite assoc_set_same.
      - unfold getProp. rewrite Hf'. cbn [oprops]. by rewrite assoc_set_same. }
    assert (Hframe : forall b, (b < length h)%nat -> b <> f -> h' !! b = h !! b).
    { intros b _ Hb. by apply list_lookup_insert_ne. }
    assert (Hlen : (length h <= length h')%nat).
    { unfold h'. by rewrite length_insert. }
    destruct (bool_decide (is_Some (assoc p props))).
    + unfold bind, readH, getProp. rewrite Hf'. cbn [oprops].
      rewrite assoc_set_same. cbn [mbind result_bind ret]. eauto 10.
    + cbn [ret]. eauto 10.
  - destruct Hnew as [[=]|Hnew].
    inversion Hps as [|? ? Hp Hps']; subst. cbn [imap foldM fst snd].
    unfold bind at 1.
    rewrite (handleKey_write _ _ _ _ _ _ _ Hval Hp (hasOwn_object _ _ _ p Hf)).
    rewrite (Hg 0%nat) by (cbn; lia). rewrite Hnew.
    cbn [length Nat.sub Nat.eqb negb andb bool_decide].
    rewrite bool_decide_eq_false_2 by (by intros [? [=]]).
    cbn [negb andb]. unfold bind at 1. unfold alloc at 1.
    unfold bind at 1. unfold writeH at 1.
    pose proof (lookup_lt_Some _ _ _ Hf) as Hlt.
    rewrite (setProp_literal (h ++ [mkObject KObject []]) f props p _
               (lookup_app_l_Some _ _ _ _ Hf) Hproto).
    cbn [mbind result_bind ret].
    set (fresh := length h).
    set (h2 := <[f := mkObject KObject (assoc_set p (VRef fresh) props)]>
                 (h ++ [mkObject KObject []])).
    assert (Hfresh : h2 !! fresh = Some (mkObject KObject [])).
    { unfold h2. rewrite list_lookup_insert_ne by (unfold fresh; lia).
      unfold fresh. rewrite lookup_app_r by lia. by rewrite Nat.sub_diag. }
    assert (Hlen2 : length h2 = S (length h)).
    { unfold h2. rewrite length_insert, length_app. cbn. lia. }
    destruct (IH (g ∘ S) q h2 fresh [] Hps' Hpr')
      as (w & h' & Hrun & Hfol & Hfr & Hl & _); [|done|by right|].
    { intros j Hj. unfold compose. rewrite Hg by (cbn [length] in *; lia).
      cbn [length Nat.sub Nat.eqb]. by rewrite !Nat.sub_0_r. }
    exists w, h'. split; [exact Hrun|].
    assert (Hf' : h' !! f = Some (mkObject KObject (assoc_set p (VRef fresh) props))).
    { rewrite Hfr by (unfold fresh; lia). unfold h2.
      apply list_lookup_insert_eq. rewrite length_app. lia. }
    split; [|split; [|split]].
    + eapply follows_step; [| |exact Hfol].
      * rewrite (hasOwn_object _ _ _ p Hf'). by rewrite assoc_set_same.
      * unfold getProp. rewrite Hf'. cbn [oprops]. by rewrite assoc_set_same.
    + intros b Hb Hbf. rewrite Hfr by (unfold fresh; lia). unfold h2.
      rewrite list_lookup_insert_ne by done. by rewrite lookup_app_l.
    + lia.
    + eauto.
Qed.

(** X12. [deepSetProperty] on an object literal, with a value other than
    undefined and a path of keys with periods between them that is a single
    key or starts with a key the object does not have: the object is
    returned, every key but the last gets a new object, and
    [deepGetProperty] then returns the value for the same path.  The other
    objects of the heap and the other properties of the object are as
    before.  ([__proto__] is no key of the path: an assignment to it changes
    the prototype, which the heap does not hold.) *)
Theorem set_then_get (h : heap) (a : nat) (props : list (string * value))
  (key : string) (val : value) :
  dotted key = true ->
  h !! a = Some (mkObject KObject props) ->
  val <> VUndefined ->
  "__proto__" ∉ periodSplit key ->
  length (periodSplit key) = 1%nat \/
    assoc (hd "" (periodSplit key)) props = None ->
  exists h',
    deepSetProperty (VRef a) (VStr key) val h = Ok (VRef a, h') /\
    deepGetProperty (VRef a) (VStr key) VUndefined h' = Ok (val, h') /\
    deepHasProperty (VRef a) (VStr key) VUndefined h' = Ok (VBool true, h') /\
    (forall b, (b < length h)%nat -> b <> a -> h' !! b = h !! b) /\
    (forall k, k <> hd "" (periodSplit key) ->
               getProp h' (VRef a) k = getProp h (VRef a) k).
Proof.
  intros Hkey Ha Hval%strict_eq_undefined Hproto Hnew.
  destruct (dotted_parts key Hkey) as (_ & _ & Hps).
  destruct (split_on_cons "." key) as (p & ps & Hsplit).
  unfold periodSplit in *. rewrite Hsplit in *. cbn [hd] in *.
  assert (Hnew' : ps = [] \/ assoc p props = None).
  { destruct Hnew as [Hlen|]; [left|by right]. by destruct ps. }
  assert (Hpr : Forall (fun p => p <> "__proto__") (p :: ps)).
  { apply Forall_forall. intros q Hq ->. by apply Hproto, list_elem_of_In. }
  destruct (walkKeys_set_fresh val (length (p :: ps)) ps Hval id p h a props Hps
              Hpr (fun _ _ => eq_refl) Ha Hnew')
    as (w & h' & Hrun & Hfol & Hframe & _ & x & Ha').
  unfold id in Hrun. exists h'. split; [|split; [|split; [|split]]].
  - unfold deepSetProperty, key_fuel. unfold bind at 1. cbn [getState].
    unfold bind at 1. rewrite handleDeepProperty_dotted by done.
    unfold walkKeys, periodSplit. rewrite Hsplit. cbn [truthy].
    unfold bind at 1. rewrite Hrun. by destruct w.
  - unfold deepGetProperty, key_fuel. unfold bind at 1. cbn [getState].
    rewrite handleDeepProperty_dotted by done.
    unfold walkKeys, periodSplit. rewrite Hsplit. cbn [truthy].
    unfold bind at 1.
    by rewrite (walkKeys_get VUndefined _ id _ _ _ _ eq_refl Hps Hfol).
  - unfold deepHasProperty, key_fuel. unfold bind at 1. cbn [getState].
    rewrite handleDeepProperty_dotted by done.
    unfold walkKeys, periodSplit. rewrite Hsplit. cbn [truthy].
    unfold bind at 1.
    pose proof (walkKeys_has VUndefined (length (p :: ps)) id _ _ _ _ eq_refl
                  Hps (fun _ _ => eq_refl) ltac:(done) Hfol) as Hwalk.
    unfold id in Hwalk. by rewrite Hwalk.
  - exact Hframe.
  - intros k Hk. unfold getProp. rewrite Ha, Ha'. cbn [oprops okind].
    by rewrite assoc_set_other.
Qed.

Lemma set_then_get_witness :
  exists h',
    deepSetProperty (VRef 1) (VStr "x.y.z") (VNum (Int 7)) nested =
      Ok (VRef 1, h') /\
    deepGetProperty (VRef 1) (VStr "x.y.z") VUndefined h' = Ok (VNum (Int 7), h') /\
    deepHasProperty (VRef 1) (VStr "x.y.z") VUndefined h' = Ok (VBool true, h') /\
    (forall b, (b < length nested)%nat -> b <> 1%nat -> h' !! b = nested !! b) /\
    (forall k, k <> hd "" (periodSplit "x.y.z") ->
               getProp h' (VRef 1) k = getProp nested (VRef 1) k).
Proof.
  apply (set_then_get nested 1 [("b", VNum (Int 5))] "x.y.z" (VNum (Int 7)));
    [reflexivity | reflexivity | discriminate | | by right].
  vm_compute. intros H. by repeat (apply elem_of_cons in H as [[=]|H]);
    apply elem_of_nil in H.
Defined.


(** ** Paths into primitive values *)

Lemma string_get_lt (s : string) (i : nat) :
  (i < String.length s)%nat -> exists c, String.get i s = Some c.
Proof.
  revert i. induction s as [|c s IH]; intros i Hi; cbn in *; [lia|].
  destruct i as [|i]; [by eexists|]. apply IH. lia.
Qed.

(** The own properties of a primitive value are primitive values. *)
Lemma hasOwn_primitive (h : heap) (ns : value) (p : string) :
  primitive ns ->
  exists b, hasOwn h ns p = Ok b /\
            (b = true -> exists v, getProp h ns p = Ok v /\ primitive v).
Proof.
  intros Hns. unfold hasOwn. destruct (truthy ns) eqn:Ht; cbn [negb].
  2: { by exists false. }
  destruct ns as [| |b|n|s|a]; try done; try (by exists false).
  eexists. split; [done|]. unfold getProp.
  destruct (String.eqb p "length"); [by eexists|]. cbn [orb].
  destruct (array_index p) as [i|]; [|done].
  intros Hi%Nat.ltb_lt. destruct (string_get_lt s i Hi) as [c ->]. by eexists.
Qed.

Lemma primitive_follows (h : heap) (ps : list string) (ns : value) :
  primitive ns ->
  exists r, follows h ns ps r /\ from_option primitive True r.
Proof.
  revert ns. induction ps as [|p ps IH]; intros ns Hns.
  - exists (Some ns). split; [constructor | done].
  - destruct (hasOwn_primitive h ns p Hns) as ([] & Hown & Hget).
    + destruct (Hget eq_refl) as (v & Hv & Hprim).
      destruct (IH v Hprim) as (r & Hr & Hrp).
      exists r. split; [by eapply follows_step | done].
    + exists None. split; [by apply follows_missing | done].
Qed.

(** X13. On a primitive value, without [any], [deepGetProperty] and
    [deepHasProperty] do not throw, whatever the keys of the path:
    [deepGetProperty] returns a primitive value (undefined, or the length or
    a character of a string) and [deepHasProperty] a boolean, and the heap
    is left as it is. *)
Theorem get_on_primitive (h : heap) (obj any : value) (key : string) :
  dotted key = true -> truthy any = false -> primitive obj ->
  exists (v : value) (b : bool),
    deepGetProperty obj (VStr key) any h = Ok (v, h) /\ primitive v /\
    deepHasProperty obj (VStr key) any h = Ok (VBool b, h) /\
    (b = false -> v = VUndefined).
Proof.
  intros Hkey Hany Hobj.
  destruct (primitive_follows h (periodSplit key) obj Hobj) as (r & Hf & Hr).
  destruct (dotted_parts key Hkey) as (_ & _ & Hps).
  destruct (split_on_cons "." key) as (p & ps & Hsplit).
  assert (Hne : periodSplit key <> []) by (unfold periodSplit; by rewrite Hsplit).
  apply (follows_truthy _ _ _ _ Hne) in Hf.
  exists (default VUndefined r), (bool_decide (is_Some r)).
  split; [|split; [|split]].
  - unfold deepGetProperty, key_fuel. unfold bind at 1. cbn [getState].
    rewrite handleDeepProperty_dotted by done. unfold walkKeys.
    unfold bind at 1.
    by rewrite (walkKeys_get any _ id _ _ _ _ Hany Hps Hf).
  - by destruct r.
  - unfold deepHasProperty, key_fuel. unfold bind at 1. cbn [getState].
    rewrite handleDeepProperty_dotted by done. unfold walkKeys.
    unfold bind at 1.
    pose proof (walkKeys_has any (length (periodSplit key)) id _ _ _ _ Hany Hps
                  (fun _ _ => eq_refl) Hne Hf) as Hwalk.
    unfold id in Hwalk. by rewrite Hwalk.
  - destruct r; [|done]. intros Hb. apply bool_decide_eq_false in Hb.
    by destruct Hb.
Qed.

Lemma get_on_primitive_witness :
  exists (v : value) (b : bool),
    deepGetProperty (VStr "abc") (VStr "length.x") VUndefined [] = Ok (v, []) /\
    primitive v /\
    deepHasProperty (VStr "abc") (VStr "length.x") VUndefined [] = Ok (VBool b, []) /\
    (b = false -> v = VUndefined).
Proof.
  apply (get_on_primitive [] (VStr "abc") VUndefined "length.x");
    reflexivity || exact I.
Defined.

Lemma assertWritable_primitive (h : heap) (ns : value) :
  primitive ns ->
  assertWritable ns h = Throw (TypeError "Property cannot be written").
Proof. intros Hns. by destruct ns as [| |[]| | |]. Qed.

Lemma setProp_primitive (h : heap) (ns : value) (p : string) (v : value) :
  primitive ns -> p <> "__proto__" ->
  exists msg, setProp h ns p v = Throw (TypeError msg).
Proof.
  intros Hns Hp. unfold setProp. rewrite (proj2 (String.eqb_neq _ _) Hp).
  destruct ns; try done; by eexists.
Qed.

(** A walk that writes, from a primitive value. *)
Lemma walkKeys_set_primitive (val : value) (plen : nat) (ps : list string) :
  strict_eq val VUndefined = false ->
  forall (g : nat -> nat) (p : string) (h : heap) (ns : value),
  Forall (fun p => index_of_char "]" p = None) (p :: ps) ->
  "__proto__" ∉ removelast (p :: ps) ->
  (forall j, (j < length (p :: ps))%nat ->
             (g j =? plen - 1)%nat = (j =? length (p :: ps) - 1)%nat) ->
  primitive ns ->
  exists msg,
    foldM (fun w jp =>
             match w with
             | Return _ => ret w
             | Continue ns =>
                 handleKey (VBool false) false true false val 1 0 plen (fst jp)
                   (snd jp) ns
             end)
      (imap (fun j q => (g j, q)) (p :: ps)) (Continue ns) h =
      Throw (TypeError msg) /\
    (ps = [] -> msg = "Property cannot be written").
Proof.
  intros Hval. induction ps as [|q ps IH]; intros g p h ns Hps Hpr Hg Hns;
    inversion Hps as [|? ? Hp Hps']; subst;
    destruct (hasOwn_primitive h ns p Hns) as (b & Hown & Hget);
    cbn [imap foldM fst snd]; unfold bind at 1;
    rewrite (handleKey_write _ _ _ _ _ _ _ Hval Hp Hown);
    rewrite (Hg 0%nat) by (cbn; lia);
    cbn [length Nat.sub Nat.eqb negb andb].
  - unfold bind at 1. unfold bind at 1.
    rewrite (assertWritable_primitive _ _ Hns). by eexists.
  - destruct b; cbn [negb].
    + destruct (Hget eq_refl) as (v & Hv & Hprim).
      unfold bind at 1. cbn [ret]. unfold bind at 1. unfold readH at 1.
      rewrite Hv. cbn [mbind result_bind ret].
      destruct (IH (g ∘ S) q h v Hps') as (msg & Hrun & _); [|  |done|].
      { intros Hin. apply Hpr. change (removelast (p :: q :: ps))
          with (p :: removelast (q :: ps)). by right. }
      { intros j Hj. unfold compose. rewrite Hg by (cbn [length] in *; lia).
        cbn [length Nat.sub Nat.eqb]. by rewrite !Nat.sub_0_r. }
      exists msg. split; [exact Hrun | done].
    + unfold bind at 1. unfold alloc at 1. unfold bind at 1. unfold writeH at 1.
      destruct (setProp_primitive (h ++ [mkObject KObject []]) ns p
                  (VRef (length h)) Hns) as (msg & ->).
      { intros ->. apply Hpr. change (removelast ("__proto__" :: q :: ps))
          with ("__proto__" :: removelast (q :: ps)). by left. }
      by exists msg.
Qed.

(** X14. [deepSetProperty] on a primitive value, with a value other than
    undefined and a path in which no key but the last is [__proto__], throws
    a TypeError and writes nothing; for a single key it is the error of
    [assertWritable].  (An assignment to [__proto__] on the way runs the
    setter of [Object.prototype], which does not throw on a primitive
    value.) *)
Theorem set_on_primitive_throws (h : heap) (obj : value) (key : string)
  (val : value) :
  dotted key = true -> primitive obj -> val <> VUndefined ->
  "__proto__" ∉ removelast (periodSplit key) ->
  exists msg,
    deepSetProperty obj (VStr key) val h = Throw (TypeError msg) /\
    (length (periodSplit key) = 1%nat -> msg = "Property cannot be written").
Proof.
  intros Hkey Hobj Hval%strict_eq_undefined Hpr.
  destruct (dotted_parts key Hkey) as (_ & _ & Hps).
  destruct (split_on_cons "." key) as (p & ps & Hsplit).
  unfold periodSplit in *. rewrite Hsplit in *.
  assert (Hns : primitive (if truthy obj then obj else VUndefined))
    by (by destruct (truthy obj)).
  destruct (walkKeys_set_primitive val (length (p :: ps)) ps Hval id p h _ Hps
              Hpr (fun _ _ => eq_refl) Hns) as (msg & Hrun & Hmsg).
  unfold id in Hrun. exists msg. split.
  - unfold deepSetProperty, key_fuel. unfold bind at 1. cbn [getState].
    unfold bind at 1. rewrite handleDeepProperty_dotted by done.
    unfold walkKeys, periodSplit. rewrite Hsplit.
    unfold bind at 1. by rewrite Hrun.
  - intros Hlen. apply Hmsg. by destruct ps.
Qed.

Lemma set_on_primitive_throws_witness :
  exists msg,
    deepSetProperty (VNum (Int 5)) (VStr "a") (VNum (Int 1)) [] =
      Throw (TypeError msg) /\
    (length (periodSplit "a") = 1%nat -> msg = "Property cannot be written").
Proof.
  apply (set_on_primitive_throws [] (VNum (Int 5)) "a" (VNum (Int 1)));
    [reflexivity | exact I | discriminate | vm_compute; apply not_elem_of_nil].
Defined.


(** ** Bracketed indices *)

Lemma contains_free (s : string) :
  all_chars (fun d => negb (Ascii.eqb d ".")) s = true -> contains ".." s = false.
Proof.
  induction s as [|c s IH]; [done|]. cbn [all_chars].
  intros [Hc Hs]%andb_true_iff. apply negb_true_iff in Hc.
  cbn [contains String.prefix]. rewrite (IH Hs).
  destruct (ascii_dec "." c) as [<-|_]; done.
Qed.



(** A key that is one bracketed part, [[part]: the walk is the one step of
    that part. *)
Lemma handleDeepProperty_bracket (fuel : nat) (obj any : value) (part : string)
  (has fill fillLast : bool) (val : value) (h : heap) :
  all_chars (fun d => negb (Ascii.eqb d "[")) part = true ->
  all_chars (fun d => negb (Ascii.eqb d ".")) part = true ->
  handleDeepProperty (S fuel) obj (VStr (String "[" part)) any has fill fillLast
    val h =
  (let* w := handleKey any has fill fillLast val 2 1 1 0 part
               (if truthy obj then obj else VUndefined) in
   match w with
   | Continue ns => ret ns
   | Return v => ret v
   end) h.
Proof.
  intros Hb Hp.
  cbn [handleDeepProperty]. unfold handleDeepProperty_body.
  unfold bind at 1. cbn [getState].
  assert (Hobj : isObjectType h (VStr (String "[" part)) = false).
  { unfold isObjectType. cbn [typeof]. apply andb_false_r. }
  rewrite Hobj. unfold bind at 1. unfold bind at 1.
  cbn [toString prim_to_string liftR].
  assert (Hrange : contains ".." (String "[" part) = false).
  { apply contains_free. cbn [all_chars]. by rewrite Hp. }
  rewrite Hrange. cbn [ret].
  change (split_on "[" (String "[" part)) with ("" :: split_on "[" part).
  rewrite (split_on_free _ _ Hb). cbn [map]. unfold periodSplit.
  rewrite (split_on_free _ _ Hp).
  cbn [map split_on imap foldM length fst snd compose].
  unfold walkKeys. cbn [imap foldM length fst snd].
  unfold bind at 1. unfold bind at 1. unfold bind at 1.
  unfold handleKey at 1.
  cbn [index_of_char strict_eq negb andb orb Nat.ltb Nat.leb Nat.eqb Nat.sub].
  rewrite andb_false_r. unfold bind at 1. cbn [ret]. unfold bind at 1.
  cbn [ret truthy String.eqb negb orb].
  unfold bind.
  destruct (handleKey _ _ _ _ _ _ _ _ _ _ _ _) as [[w h']| | |]; done.
Qed.

Lemma Z_to_string_neg (k : Z) :
  k < 0 -> Z_to_string k = String "-" (Z_to_string (- k)).
Proof. intros Hk. destruct k as [|p|p]; [lia..|done]. Qed.

Lemma str_to_number_Z_to_string (k : Z) :
  Z.abs k < 2 ^ 53 -> str_to_number (Z_to_string k) = Some (Int k).
Proof.
  intros Hk. destruct (Z.ltb_spec k 0) as [Hneg|Hpos].
  - rewrite (Z_to_string_neg k Hneg).
    rewrite (str_to_number_minus _ (- k)) by (rewrite ?parse_digits_Z_to_string; lia || done).
    destruct (Z.eqb_spec (- k) 0); [lia|]. by rewrite Z.opp_involutive.
  - apply str_to_number_digits; [|lia]. by apply parse_digits_Z_to_string.
Qed.

Definition is_numeral_char (c : ascii) : bool := is_digit c || Ascii.eqb c "-".

Lemma Z_to_string_chars (k : Z) :
  all_chars is_numeral_char (Z_to_string k) = true.
Proof.
  destruct (Z_to_string_shape k) as (s & Hs & _ & ->).
  assert (Hs' : all_chars is_numeral_char s = true).
  { revert Hs. apply all_chars_impl. intros c Hc. unfold is_numeral_char.
    by rewrite Hc. }
  by destruct (Z.ltb k 0).
Qed.

Lemma numeral_char_plain (c : ascii) :
  is_numeral_char c = true ->
  Ascii.eqb c "[" = false /\ Ascii.eqb c "]" = false /\ Ascii.eqb c "." = false.
Proof.
  destruct c as [x0 x1 x2 x3 x4 x5 x6 x7].
  destruct x0, x1, x2, x3, x4, x5, x6, x7; vm_compute; intros; done.
Qed.

Lemma numeral_free (k : Z) (c : ascii) :
  c = "["%char \/ c = "]"%char \/ c = "."%char ->
  all_chars (fun d => negb (Ascii.eqb d c)) (Z_to_string k) = true.
Proof.
  intros Hc. generalize (Z_to_string_chars k). apply all_chars_impl.
  intros d (H1 & H2 & H3)%numeral_char_plain.
  destruct Hc as [-> | [-> | ->]]; by apply negb_true_iff.
Qed.

Lemma all_chars_app (P : ascii -> bool) (s t : string) :
  all_chars P (s +:+ t) = all_chars P s && all_chars P t.
Proof.
  induction s as [|c s IH]; [done|].
  change (String c s +:+ t) with (String c (s +:+ t)). cbn [all_chars].
  by rewrite IH, andb_assoc.
Qed.

Lemma index_of_char_end (c : ascii) (s : string) :
  all_chars (fun d => negb (Ascii.eqb d c)) s = true ->
  index_of_char c (s +:+ String c "") = Some (String.length s).
Proof.
  induction s as [|d s IH].
  - intros _. change (index_of_char c (String c "") = Some 0%nat).
    cbn [index_of_char]. by rewrite Ascii.eqb_refl.
  - cbn [all_chars]. intros [Hd Hs]%andb_true_iff. apply negb_true_iff in Hd.
    change (String d s +:+ String c "") with (String d (s +:+ String c "")).
    cbn [index_of_char String.length]. by rewrite Hd, (IH Hs).
Qed.

Lemma drop_last_end (c : ascii) (s : string) :
  drop_last (s +:+ String c "") = s.
Proof.
  induction s as [|d s IH]; [done|].
  change (String d s +:+ String c "") with (String d (s +:+ String c "")).
  cbn [drop_last]. rewrite IH.
  destruct s; done.
Qed.

Lemma mem_str_first_char (P : ascii -> bool) (c : ascii) (s : string)
  (l : list string) :
  P c = true ->
  Forall (fun name => match name with
                      | EmptyString => True
                      | String d _ => P d = false
                      end) l ->
  mem_str (String c s) l = false.
Proof.
  intros Hc Hl. unfold mem_str. induction Hl as [|name l Hname _ IH]; [done|].
  cbn [existsb]. rewrite IH, orb_false_r. destruct name as [|d name]; [done|].
  cbn [String.eqb]. destruct (Ascii.eqb_spec c d) as [->|_]; [congruence|done].
Qed.

(** A numeral is no name of a built-in member. *)
Lemma hidden_prop_numeral (len : nat) (k : Z) :
  hidden_prop (KArray len) (Z_to_string k) = HAbsent.
Proof.
  pose proof (Z_to_string_chars k) as Hchars.
  destruct (Z_to_string_shape k) as (s & _ & Hne & E).
  assert (exists c t, Z_to_string k = String c t /\ is_numeral_char c = true)
    as (c & t & Hk & Hc).
  { rewrite E in Hchars |- *. destruct (Z.ltb k 0); [by eexists _, _|].
    destruct s as [|c t]; [done|]. exists c, t. split; [done|].
    cbn [all_chars] in Hchars. by apply andb_true_iff in Hchars as [? _]. }
  rewrite Hk. unfold hidden_prop.
  assert (Hlen : String.eqb (String c t) "length" = false).
  { cbn [String.eqb]. destruct (Ascii.eqb_spec c "l") as [->|_]; done. }
  rewrite Hlen.
  rewrite (mem_str_first_char is_numeral_char c t array_proto_names Hc)
    by (repeat constructor).
  rewrite (mem_str_first_char is_numeral_char c t object_proto_names Hc)
    by (repeat constructor).
  done.
Qed.


Lemma getProp_length (h : heap) (a len : nat) (props : list (string * value)) :
  h !! a = Some (mkObject (KArray len) props) ->
  assoc "length" props = None ->
  getProp h (VRef a) "length" = Ok (VNum (Int (Z.of_nat len))).
Proof. intros Ha Hl. unfold getProp. by rewrite Ha; cbn [oprops]; rewrite Hl. Qed.

Lemma hasOwn_numeral (h : heap) (a len : nat) (props : list (string * value))
  (k : Z) :
  h !! a = Some (mkObject (KArray len) props) ->
  hasOwn h (VRef a) (Z_to_string k) =
    Ok (bool_decide (is_Some (assoc (Z_to_string k) props))) /\
  getProp h (VRef a) (Z_to_string k) =
    Ok (default VUndefined (assoc (Z_to_string k) props)).
Proof.
  intros Ha. unfold hasOwn, getProp. cbn [truthy negb]. rewrite Ha.
  cbn [oprops okind]. rewrite hidden_prop_numeral.
  by destruct (assoc (Z_to_string k) props).
Qed.

(** The step of a bracketed index in a walk that reads. *)
Lemma handleKey_index (h : heap) (a len : nat) (props : list (string * value))
  (k : Z) :
  h !! a = Some (mkObject (KArray len) props) ->
  assoc "length" props = None ->
  Z.abs k < 2 ^ 53 -> Z.of_nat len < 2 ^ 32 ->
  handleKey VUndefined false false false VUndefined 2 1 1 0
    (Z_to_string k +:+ "]") (VRef a) h =
  Ok (Continue (default VUndefined
                  (assoc (Z_to_string (if Z.ltb k 0 then k + Z.of_nat len else k))
                     props)), h).
Proof.
  intros Ha Hl Hk Hlen. unfold handleKey.
  rewrite (index_of_char_end "]" _ (numeral_free k "]" ltac:(auto))).
  rewrite drop_last_end.
  cbn [strict_eq negb andb]. unfold bind at 1. cbn [ret].
  unfold bind at 1. unfold bind at 1. cbn [to_number liftOpt].
  rewrite (str_to_number_Z_to_string k Hk). cbn [liftOpt ret num_ltb].
  destruct (Z.ltb_spec k 0) as [Hneg|Hpos].
  - unfold bind at 1. unfold readH at 1.
    rewrite (getProp_length _ _ _ _ Ha Hl). cbn [mbind result_bind].
    unfold bind at 1. cbn [plus_length num_add liftOpt].
    destruct (Z.ltb_spec (Z.abs (k + Z.of_nat len)) (2 ^ 53)) as [_|Hbig]; [|lia].
    cbn [liftOpt ret Nat.ltb Nat.leb orb negb].
    unfold bind at 1. unfold readH at 1. cbn [toString prim_to_string num_to_string].
    cbn [mbind result_bind truthy]. unfold bind at 1. unfold readH at 1.
    destruct (hasOwn_numeral h a len props (k + Z.of_nat len) Ha) as [-> Hget].
    cbn [mbind result_bind andb]. unfold bind at 1. cbn [ret].
    destruct (assoc (Z_to_string (k + Z.of_nat len)) props) eqn:Hassoc.
    + rewrite bool_decide_eq_true_2 by done. unfold bind, readH.
      rewrite Hget. cbn [mbind result_bind ret]. by rewrite ?Hassoc.
    + by rewrite bool_decide_eq_false_2 by (by intros [? [=]]).
  - cbn [ret Nat.ltb Nat.leb orb negb].
    unfold bind at 1. unfold readH at 1. cbn [toString prim_to_string].
    cbn [mbind result_bind truthy]. unfold bind at 1. unfold readH at 1.
    destruct (hasOwn_numeral h a len props k Ha) as [-> Hget].
    cbn [mbind result_bind andb]. unfold bind at 1. cbn [ret].
    destruct (assoc (Z_to_string k) props) eqn:Hassoc.
    + rewrite bool_decide_eq_true_2 by done. unfold bind, readH.
      rewrite Hget. cbn [mbind result_bind ret]. by rewrite ?Hassoc.
    + by rewrite bool_decide_eq_false_2 by (by intros [? [=]]).
Qed.

(** X15. In an array [[k]] reads the element at index [k], and for a
    negative [k] the one at [length + k]: [[-1]] is the last element.
    Where the array has no such element the result is undefined. *)
Theorem get_index_counts_from_end (h : heap) (a len : nat)
  (props : list (string * value)) (k : Z) :
  h !! a = Some (mkObject (KArray len) props) ->
  assoc "length" props = None ->
  Z.abs k < 2 ^ 53 -> Z.of_nat len < 2 ^ 32 ->
  deepGetProperty (VRef a) (VStr ("[" +:+ Z_to_string k +:+ "]")) VUndefined h =
  Ok (default VUndefined
        (assoc (Z_to_string (if Z.ltb k 0 then k + Z.of_nat len else k)) props),
      h).
Proof.
  intros Ha Hl Hk Hlen. unfold deepGetProperty, key_fuel.
  unfold bind at 1. cbn [getState].
  change ("[" +:+ Z_to_string k +:+ "]") with (String "[" (Z_to_string k +:+ "]")).
  rewrite handleDeepProperty_bracket
    by (rewrite all_chars_app, numeral_free by auto; done).
  unfold bind at 1. cbn [truthy].
  by rewrite (handleKey_index h a len props k Ha Hl Hk Hlen).
Qed.

Lemma get_index_counts_from_end_witness :
  deepGetProperty (VRef 0) (VStr "[-1]") VUndefined tens =
    Ok (VNum (Int 40), tens).
Proof.
  apply (get_index_counts_from_end tens 0 4
           (oprops (array_of [VNum (Int 10); VNum (Int 20); VNum (Int 30);
                              VNum (Int 40)])) (-1));
    [reflexivity | reflexivity | lia | lia].
Defined.

(** The step of the push syntax in a walk that writes. *)
Lemma handleKey_push (h : heap) (a len : nat) (props : list (string * value))
  (val : value) :
  h !! a = Some (mkObject (KArray len) props) ->
  assoc "length" props = None ->
  assoc (index_key len) props = None ->
  Z.of_nat len < 2 ^ 32 - 1 ->
  strict_eq val VUndefined = false ->
  handleKey (VBool false) false true false val 2 1 1 0 "]" (VRef a) h =
  Ok (Continue VUndefined,
      <[a := mkObject (KArray (S len)) (assoc_set (index_key len) val props)]> h).
Proof.
  intros Ha Hl Hnew Hlen Hval. unfold handleKey. rewrite Hval.
  cbn [index_of_char Ascii.eqb Bool.eqb negb andb].
  unfold bind at 1. unfold bind at 1. unfold readH at 1.
  rewrite (getProp_length _ _ _ _ Ha Hl). cbn [mbind result_bind].
  unfold bind at 1. unfold bind at 1. cbn [to_number liftOpt ret num_ltb].
  destruct (Z.ltb_spec (Z.of_nat len) 0) as [?|_]; [lia|].
  cbn [ret Nat.ltb Nat.leb orb negb].
  unfold bind at 1. unfold readH at 1.
  cbn [toString prim_to_string num_to_string mbind result_bind truthy].
  unfold bind at 1. unfold readH at 1.
  destruct (hasOwn_numeral h a len props (Z.of_nat len) Ha) as [-> _].
  fold (index_key len). rewrite Hnew.
  rewrite bool_decide_eq_false_2 by (by intros [? [=]]).
  cbn [mbind result_bind Nat.eqb Nat.sub andb orb negb].
  unfold bind at 1. unfold bind at 1.
  rewrite (assertWritable_object _ _ _ Ha).
  assert (Hproto : String.eqb (index_key len) "__proto__" = false).
  { apply String.eqb_neq. intros E.
    pose proof (hidden_prop_numeral len (Z.of_nat len)) as Hh.
    fold (index_key len) in Hh. rewrite E in Hh. done. }
  unfold writeH, setProp. rewrite Hproto, Ha. cbn [okind oprops].
  assert (Hlength : String.eqb (index_key len) "length" = false).
  { apply String.eqb_neq. intros E.
    pose proof (hidden_prop_numeral len (Z.of_nat len)) as Hh.
    fold (index_key len) in Hh. rewrite E in Hh. done. }
  rewrite Hlength, (array_index_index_key len Hlen).
  cbn [mbind result_bind ret]. by rewrite Nat.max_r by lia.
Qed.

(** X16. [deepSetProperty] with the push syntax [[]] appends to an array:
    the value is stored at the index that was the length, the length grows
    by one, the other properties stay, and [[-1]] then reads the value. *)
Theorem push_appends (h : heap) (a len : nat) (props : list (string * value))
  (val : value) :
  h !! a = Some (mkObject (KArray len) props) ->
  assoc "length" props = None ->
  assoc (index_key len) props = None ->
  Z.of_nat len < 2 ^ 32 - 1 ->
  val <> VUndefined ->
  exists h',
    deepSetProperty (VRef a) (VStr "[]") val h = Ok (VRef a, h') /\
    getProp h' (VRef a) "length" = Ok (VNum (Int (Z.of_nat (S len)))) /\
    getProp h' (VRef a) (index_key len) = Ok val /\
    (forall k, k <> index_key len -> k <> "length" ->
               getProp h' (VRef a) k = getProp h (VRef a) k) /\
    (forall b, b <> a -> h' !! b = h !! b) /\
    deepGetProperty (VRef a) (VStr "[-1]") VUndefined h' = Ok (val, h').
Proof.
  intros Ha Hl Hnew Hlen Hval%strict_eq_undefined.
  set (props' := assoc_set (index_key len) val props).
  set (h' := <[a := mkObject (KArray (S len)) props']> h).
  assert (Ha' : h' !! a = Some (mkObject (KArray (S len)) props')).
  { apply list_lookup_insert_eq. by eapply lookup_lt_Some. }
  assert (Hlength : index_key len <> "length").
  { intros E. pose proof (hidden_prop_numeral len (Z.of_nat len)) as Hh.
    fold (index_key len) in Hh. rewrite E in Hh. done. }
  assert (Hl' : assoc "length" props' = None).
  { unfold props'. by rewrite assoc_set_other. }
  exists h'. split; [|split; [|split; [|split; [|split]]]].
  - unfold deepSetProperty, key_fuel. unfold bind at 1. cbn [getState].
    unfold bind at 1. rewrite handleDeepProperty_bracket by done.
    unfold bind at 1. cbn [truthy].
    by rewrite (handleKey_push h a len props val Ha Hl Hnew Hlen Hval).
  - by apply (getProp_length _ _ _ _ Ha' Hl').
  - unfold getProp. rewrite Ha'. cbn [oprops]. unfold props'.
    by rewrite assoc_set_same.
  - intros k Hk Hkl. unfold getProp. rewrite Ha, Ha'. cbn [oprops okind].
    unfold props'. rewrite assoc_set_other by done.
    destruct (assoc k props); [done|]. unfold hidden_prop.
    by rewrite (proj2 (String.eqb_neq k "length") Hkl).
  - intros b Hb. by apply list_lookup_insert_ne.
  - unfold deepGetProperty, key_fuel. unfold bind at 1. cbn [getState].
    change "[-1]" with (String "[" (Z_to_string (-1) +:+ "]")).
    rewrite handleDeepProperty_bracket by done.
    unfold bind at 1. cbn [truthy].
    rewrite (handleKey_index h' a (S len) props' (-1) Ha' Hl') by lia.
    cbn [Z.ltb Z.compare]. replace (-1 + Z.of_nat (S len)) with (Z.of_nat len) by lia.
    fold (index_key len). unfold props' at 1. by rewrite assoc_set_same.
Qed.

Lemma push_appends_witness :
  exists h',
    deepSetProperty (VRef 0) (VStr "[]") (VNum (Int 50)) tens = Ok (VRef 0, h') /\
    getProp h' (VRef 0) "length" = Ok (VNum (Int (Z.of_nat 5))) /\
    getProp h' (VRef 0) (index_key 4) = Ok (VNum (Int 50)) /\
    (forall k, k <> index_key 4 -> k <> "length" ->
               getProp h' (VRef 0) k = getProp tens (VRef 0) k) /\
    (forall b, b <> 0%nat -> h' !! b = tens !! b) /\
    deepGetProperty (VRef 0) (VStr "[-1]") VUndefined h' = Ok (VNum (Int 50), h').
Proof.
  apply (push_appends tens 0 4
           (oprops (array_of [VNum (Int 10); VNum (Int 20); VNum (Int 30);
                              VNum (Int 40)]))
           (VNum (Int 50)));
    [reflexivity | reflexivity | reflexivity | lia | discriminate].
Defined.


(** ** Reading leaves the objects as they are *)

Lemma respects_readH {A} (P : heap -> heap -> Prop) `{!Reflexive P}
  (f : heap -> result A) : respects P (readH f).
Proof.
  intros h a h'. unfold readH. destruct (f h); intros [= _ <-] || discriminate.
  reflexivity.
Qed.

Lemma respects_alloc (o : object) : respects prefix (alloc o).
Proof. intros h a h' [= _ <-]. by apply prefix_app_r. Qed.

Lemma respects_if {S A} (P : S -> S -> Prop) (b : bool) (c1 c2 : M S A) :
  respects P c1 -> respects P c2 -> respects P (if b then c1 else c2).
Proof. by destruct b. Qed.

Ltac reads_step :=
  match goal with
  | |- respects _ (readH _) => apply respects_readH; apply _
  | |- respects _ (alloc _) => apply respects_alloc
  | |- respects _ (if _ then _ else _) => apply respects_if
  | _ => respects_step
  end.

Lemma handleKey_reads (any : value) (has fillLast : bool) (blen i plen j : nat)
  (part : string) (ns : value) :
  respects prefix
    (handleKey any has false fillLast VUndefined blen i plen j part ns).
Proof.
  unfold handleKey. cbn [strict_eq negb andb].
  rewrite !andb_false_r. cbn [andb].
  repeat reads_step.
Qed.

Lemma slice_reads (arr : value) (start final : number) :
  respects prefix (slice arr start final).
Proof. unfold slice. repeat reads_step. Qed.

Lemma arrayMap_reads (arr : value) (fn : value -> H value) :
  (forall el, respects prefix (fn el)) -> respects prefix (arrayMap arr fn).
Proof. intros Hfn. unfold arrayMap. repeat (reads_step || apply Hfn). Qed.

Lemma assertArray_reads (obj : value) : respects prefix (assertArray obj).
Proof. unfold assertArray. repeat reads_step. Qed.

(** Without a value to write and without filling, [handleDeepProperty]
    leaves the heap it has found and may add new arrays to it. *)
Lemma handleDeepProperty_reads (fuel : nat) (obj key any : value)
  (has fillLast : bool) :
  respects prefix
    (handleDeepProperty fuel obj key any has false fillLast VUndefined).
Proof.
  revert obj key any has fillLast.
  induction fuel as [|fuel IH]; intros obj key any has fillLast; [discriminate|].
  cbn [handleDeepProperty]. unfold handleDeepProperty_body.
  assert (Hwalk : forall bs : list (list string),
    respects prefix
      (let* w :=
         foldM (fun w ips =>
                  walkKeys any has false fillLast VUndefined (length bs)
                    (fst ips) (snd ips) w)
           (imap (fun i ps => (i, ps)) bs)
           (Continue (if truthy obj then obj else VUndefined)) in
       match w with
       | Continue ns => ret ns
       | Return v => ret v
       end)).
  { intros bs. unfold walkKeys.
    repeat (reads_step || apply handleKey_reads). }
  assert (Hrange : forall k,
    respects prefix (handleArrayIndexRange (handleDeepProperty fuel) obj k any
                       VUndefined)).
  { intros k. unfold handleArrayIndexRange. cbn [strict_eq negb].
    destruct (PROPERTY_RANGE_REG k) as [[[[leading m2] m3] trailing]|];
      [|apply respects_ret; apply _].
    repeat (reads_step || apply IH || apply slice_reads
            || apply assertArray_reads || apply arrayMap_reads). }
  destruct key; try (apply respects_ret; apply _);
    (apply respects_bind; [apply _ | apply respects_getState; apply _ |]);
    intros h; (apply respects_bind; [apply _ | |]);
    try (intros [k|bs]; [apply Hrange | apply Hwalk]);
    repeat reads_step.
Qed.

(** X17. [deepGetProperty] and [deepHasProperty] write to no object,
    whatever the key, ranges and arrays of keys included: the heap they
    leave is the one they found, with the arrays they made for ranges after
    it. *)
Theorem get_writes_nothing (obj key any : value) (h h' : heap) (v : value) :
  deepGetProperty obj key any h = Ok (v, h') \/
  deepHasProperty obj key any h = Ok (v, h') ->
  exists new, h' = h ++ new.
Proof.
  intros [Hrun|Hrun]; revert Hrun.
  - unfold deepGetProperty. intros (h0 & h1 & [= <- <-] & Hrun)%bind_Ok.
    by apply (handleDeepProperty_reads _ _ _ _ _ _ _ _ _ Hrun).
  - unfold deepHasProperty. intros (h0 & h1 & [= <- <-] & Hrun)%bind_Ok.
    by apply (handleDeepProperty_reads _ _ _ _ _ _ _ _ _ Hrun).
Qed.

Lemma get_writes_nothing_witness :
  exists new : heap, tens ++ [array_of [VNum (Int 20); VNum (Int 30)]] = tens ++ new.
Proof.
  apply (get_writes_nothing (VRef 0) (VStr "[1..2]") VUndefined tens
           (tens ++ [array_of [VNum (Int 20); VNum (Int 30)]]) (VRef 1)).
  left. vm_compute. reflexivity.
Defined.


(** ** The registry and the native classes *)

(** Every namespace is still there, with the same [proj]. *)
Definition kept {A} (proj : namespace -> A) (st st' : state) : Prop :=
  forall ns o, namespaces st !! ns = Some o ->
               exists o', namespaces st' !! ns = Some o' /\ proj o' = proj o.

#[local] Instance kept_refl {A} (proj : namespace -> A) : Reflexive (kept proj).
Proof. intros st ns o Ho. by exists o. Qed.

#[local] Instance kept_trans {A} (proj : namespace -> A) : Transitive (kept proj).
Proof.
  intros x y z H1 H2 ns o Ho.
  destruct (H1 ns o Ho) as (o1 & Ho1 & E1).
  destruct (H2 ns o1 Ho1) as (o2 & Ho2 & E2).
  exists o2. split; [done | congruence].
Qed.

Lemma updNamespace_kept {A} (proj : namespace -> A) (ns : nat)
  (f : namespace -> namespace) :
  (forall o, proj (f o) = proj o) -> respects (kept proj) (updNamespace ns f).
Proof.
  intros Hf. apply respects_modifyState. intros st ns' o' Ho'. cbn.
  destruct (namespaces st !! ns) as [o|] eqn:Ho; [|by exists o'].
  destruct (decide (ns = ns')) as [<-|Hne].
  - rewrite list_lookup_insert_eq by (by eapply lookup_lt_Some).
    exists (f o). split; [done|]. rewrite Hf. congruence.
  - rewrite list_lookup_insert_ne by done. by exists o'.
Qed.

Lemma namespaces_kept {A} (proj : namespace -> A) (f : state -> state) :
  (forall st, namespaces (f st) = namespaces st) ->
  respects (kept proj) (modifyState f).
Proof.
  intros Hf. apply respects_modifyState. intros st ns o Ho.
  exists o. by rewrite Hf.
Qed.

Ltac kept_step :=
  first
    [ respects_step
    | apply updNamespace_kept; by intros ?
    | apply namespaces_kept; by intros ? ].

Section Kept.
Context {A : Type} (proj : namespace -> A).
Hypothesis proj_proto : forall name methods active proto proto',
  proj (mkNamespace name methods active proto') =
  proj (mkNamespace name methods active proto).

Lemma set_proto_kept ns methodName fn :
  respects (kept proj) (set_proto ns methodName fn).
Proof using proj_proto.
  unfold set_proto. apply updNamespace_kept. intros []. apply proj_proto.
Qed.

Lemma setObjectChainableOnNamespace_kept ns methodName fn :
  respects (kept proj) (setObjectChainableOnNamespace ns methodName fn).
Proof using proj_proto.
  unfold setObjectChainableOnNamespace, getNamespace.
  repeat (kept_step || apply set_proto_kept).
Qed.

Lemma mapObjectChainableToAllNamespaces_kept methodName fn :
  respects (kept proj) (mapObjectChainableToAllNamespaces methodName fn).
Proof using proj_proto.
  unfold mapObjectChainableToAllNamespaces.
  repeat (kept_step || apply setObjectChainableOnNamespace_kept).
Qed.

Lemma defineChainableMethod_kept ns methodName fn :
  respects (kept proj) (defineChainableMethod ns methodName fn).
Proof using proj_proto.
  unfold defineChainableMethod.
  repeat (kept_step || apply set_proto_kept
          || apply mapObjectChainableToAllNamespaces_kept).
Qed.
End Kept.

Lemma setMethod_active ns methodName method :
  respects (kept ns_active) (setMethod ns methodName method).
Proof.
  unfold setMethod.
  repeat (kept_step || by apply defineChainableMethod_kept).
Qed.

Lemma setMethod_tables ns methodName method :
  respects same_tables (setMethod ns methodName method).
Proof.
  unfold setMethod.
  repeat (respects_step || apply updNamespace_tables
          || apply defineChainableMethod_tables).

Qed.




(** The own member [key] of a native class or of its prototype. *)
Definition nativeMember (st : state) (name : string) (t : target) (key : string)
  : option nprop :=
  n ← assoc name (globalContext st);
  assoc key (match t with TClass => n_static n | TProto => n_proto n end).

(** The member [key] is the same, wherever it is, and the natives are the
    same ones. *)
Definition same_key (key : string) (st st' : state) : Prop :=
  (forall name t, nativeMember st' name t key = nativeMember st name t key) /\
  (forall name, is_Some (assoc name (globalContext st')) <->
                is_Some (assoc name (globalContext st))).

#[local] Instance same_key_refl key : Reflexive (same_key key).
Proof. by intros st. Qed.

#[local] Instance same_key_trans key : Transitive (same_key key).
Proof.
  intros x y z [H1 H1'] [H2 H2']. split.
  - intros name t. by rewrite H2, H1.
  - intros name. by rewrite H2', H1'.
Qed.

#[local] Instance target_eq_dec : EqDecision target.
Proof. solve_decision. Defined.

Lemma setNativeProperty_member (name : string) (t : target) (key : string)
  (v : nprop) (st st1 : state) (name' : string) (t' : target) (key' : string) :
  setNativeProperty name t key v st = Ok (tt, st1) ->
  nativeMember st1 name' t' key' =
  if decide (name' = name /\ t' = t /\ key' = key /\
             is_Some (assoc name (globalContext st)))
  then Some v else nativeMember st name' t' key'.
Proof.
  intros [= <-]. unfold nativeMember.
  destruct (assoc name (globalContext st)) as [n|] eqn:Hn.
  2: { rewrite decide_False; [done|]. by intros (_ & _ & _ & [? [=]]). }
  cbn [globalContext set_globalContext].
  destruct (decide (name' = name)) as [->|Hname].
  2: { rewrite assoc_table_set_other by done.
       rewrite decide_False; [done | by intros (? & _)]. }
  rewrite assoc_table_set, Hn. cbn [mbind option_bind].
  destruct t, t'; cbn [n_static n_proto];
    try (rewrite decide_False; [done | by intros (_ & [=] & _)]);
    (destruct (decide (key' = key)) as [->|Hkey];
     [rewrite assoc_table_set, decide_True; [done | by repeat split]
     |rewrite assoc_table_set_other by done;
      rewrite decide_False; [done | by intros (_ & _ & ? & _)]]).
Qed.

Lemma setNativeProperty_present (name : string) (t : target) (key : string)
  (v : nprop) (st st1 : state) (name' : string) :
  setNativeProperty name t key v st = Ok (tt, st1) ->
  is_Some (assoc name' (globalContext st1)) <->
  is_Some (assoc name' (globalContext st)).
Proof.
  intros [= <-].
  destruct (assoc name (globalContext st)) as [n|] eqn:Hn; [|done].
  cbn [globalContext set_globalContext].
  destruct (decide (name' = name)) as [->|Hname].
  - rewrite assoc_table_set, Hn. split; eauto.
  - by rewrite assoc_table_set_other.
Qed.

Lemma setNativeProperty_key (name : string) (t : target) (key key' : string)
  (v : nprop) :
  key' <> key -> respects (same_key key') (setNativeProperty name t key v).
Proof.
  intros Hne st [] st1 Hrun. split.
  - intros name' t'. rewrite (setNativeProperty_member _ _ _ _ _ _ _ _ _ Hrun).
    rewrite decide_False; [done | by intros (_ & _ & ? & _)].
  - intros name'. by apply (setNativeProperty_present _ _ _ _ _ _ _ Hrun).
Qed.

Lemma is_Some_iff_cases {A B} (a : option A) (b : option B) :
  (is_Some a <-> is_Some b) ->
  (exists x y, a = Some x /\ b = Some y) \/ (a = None /\ b = None).
Proof.
  intros [H1 H2]. destruct a as [x|], b as [y|]; eauto.
  - destruct H1 as [? [=]]; eauto.
  - destruct H2 as [? [=]]; eauto.
Qed.

(** [target[methodName]] depends on the members of that name only. *)
Lemma targetMember_same_key (key : string) (st st' : state) (name : string)
  (t : target) :
  same_key key st st' -> targetMember st' name t key = targetMember st name t key.
Proof.
  intros [Hm Hp]. unfold targetMember, objectProtoMember.
  pose proof (Hm name TClass) as HC. pose proof (Hm name TProto) as HP.
  pose proof (Hm "Function" TProto) as HF. pose proof (Hm "Object" TProto) as HO.
  unfold nativeMember in *.
  destruct (is_Some_iff_cases _ _ (Hp name)) as [(n' & n & En' & En)|[En' En]];
    rewrite En', En in *; [|done].
  cbn [mbind option_bind] in HC, HP.
  assert (Hobj : match assoc "Object" (globalContext st') with
                 | Some n0 => Ok (assoc key (n_proto n0))
                 | None => Unmodelled
                 end =
                 match assoc "Object" (globalContext st) with
                 | Some n0 => Ok (assoc key (n_proto n0))
                 | None => Unmodelled
                 end).
  { destruct (is_Some_iff_cases _ _ (Hp "Object")) as [(o' & o & Eo' & Eo)|[Eo' Eo]];
      rewrite Eo', Eo in *; [|done]. cbn in HO. by rewrite HO. }
  destruct t.
  - rewrite HC. destruct (assoc key (n_static n)); [done|].
    destruct (is_Some_iff_cases _ _ (Hp "Function")) as [(f' & f & Ef' & Ef)|[Ef' Ef]];
      rewrite Ef', Ef in *; [|done]. cbn in HF. rewrite HF.
    by destruct (assoc key (n_proto f)).
  - rewrite HP. destruct (assoc key (n_proto n)); [done|].
    by destruct (String.eqb name "Object").
Qed.

Lemma extendNative_key (name : string) (t : target)
  (source : list (string * nprop)) (polyfill override : bool) (key : string) :
  assoc key source = None ->
  respects (same_key key) (extendNative name t source polyfill override).
Proof.
  intros Hkey. unfold extendNative. apply respects_foldM_in; try apply _.
  intros [] [k v] Hin.
  assert (key <> k).
  { intros <-. apply assoc_In in Hin as [? Hin]. congruence. }
  repeat (respects_step || by apply setNativeProperty_key).
Qed.

Lemma targetMember_own (st : state) (name : string) (t : target) (key : string)
  (p : nprop) :
  nativeMember st name t key = Some p -> targetMember st name t key = Ok (Some p).
Proof.
  unfold nativeMember, targetMember.
  destruct (assoc name (globalContext st)) as [n|]; [|done]. cbn.
  by destruct t; intros ->.
Qed.

Lemma targetMember_native (st : state) (name : string) (t : target)
  (key : string) (b : bool) :
  targetMember st name t key ≫= memberTruthy = Ok b ->
  is_Some (assoc name (globalContext st)).
Proof.
  unfold targetMember. by destruct (assoc name (globalContext st)).
Qed.

(** A polyfill that does not override leaves a member that is there. *)
Lemma extendNative_keeps (name : string) (t : target)
  (source : list (string * nprop)) (key : string) (p : nprop) (st st' : state) :
  nativeMember st name t key = Some p ->
  memberTruthy (Some p) = Ok true ->
  extendNative name t source true false st = Ok (tt, st') ->
  same_key key st st'.
Proof.
  intros Hown Htruthy. unfold extendNative. revert st Hown.
  induction source as [|[k v] source IH]; intros st Hown; cbn [foldM].
  - by intros [= <-].
  - intros ([] & s1 & Hstep & Hrest)%bind_Ok.
    assert (Hs1 : same_key key st s1).
    { revert Hstep. intros (? & ? & [= <- <-] & Hstep)%bind_Ok.
      apply bind_Ok in Hstep as (present & ? & Hpresent & Hstep).
      unfold liftR in Hpresent.
      destruct (targetMember st name t k ≫= memberTruthy) as [b| | |] eqn:Hb;
        try discriminate.
      injection Hpresent as <- <-. cbn [andb negb] in Hstep.
      destruct (decide (k = key)) as [->|Hne].
      - rewrite (targetMember_own _ _ _ _ _ Hown) in Hb.
        change (memberTruthy (Some p) = Ok b) in Hb.
        rewrite Htruthy in Hb. injection Hb as <-. by injection Hstep as <-.
      - destruct b; [by injection Hstep as <-|].
        by apply (setNativeProperty_key name t k key v ltac:(done)) in Hstep. }
    transitivity s1; [done|]. apply IH; [|done].
    destruct Hs1 as [Hm _]. by rewrite Hm.
Qed.

(** A member that is written is the one of the source. *)
Lemma extendNative_fills (name : string) (t : target)
  (source : list (string * nprop)) (polyfill override : bool) (key : string)
  (v : nprop) (st st' : state) :
  NoDup (map fst source) -> In (key, v) source ->
  polyfill && negb override = false \/
    targetMember st name t key ≫= memberTruthy = Ok false ->
  extendNative name t source polyfill override st = Ok (tt, st') ->
  nativeMember st' name t key = Some v.
Proof.
  unfold extendNative. revert st.
  induction source as [|[k w] source IH]; intros st Hnd Hin Hwrite; [done|].
  cbn [foldM]. intros ([] & s1 & Hstep & Hrest)%bind_Ok.
  cbn [map fst] in Hnd. apply NoDup_cons in Hnd as [Hk Hnd].
  apply bind_Ok in Hstep as (? & ? & [= <- <-] & Hstep).
  apply bind_Ok in Hstep as (present & ? & Hpresent & Hstep).
  unfold liftR in Hpresent.
  destruct (targetMember st name t k ≫= memberTruthy) as [b| | |] eqn:Hb;
    try discriminate.
  injection Hpresent as <- <-.
  destruct Hin as [[= -> ->]|Hin].
  - assert (Hset : setNativeProperty name t key v st = Ok (tt, s1)).
    { destruct Hwrite as [Hpo|Hfalse]; [by rewrite Hpo in Hstep|].
      rewrite Hb in Hfalse.
      injection Hfalse as ->. by rewrite andb_false_r in Hstep. }
    assert (Hrest' : same_key key s1 st').
    { eapply (extendNative_key name t source polyfill override key); [|exact Hrest].
      destruct (assoc key source) eqn:Hassoc; [|done]. exfalso. apply Hk.
      clear -Hassoc. induction source as [|[k' w'] source IH]; [done|].
      cbn in *. destruct (String.eqb_spec k' key) as [->|_]; [by left|].
      right. by apply IH. }
    destruct Hrest' as [-> _].
    rewrite (setNativeProperty_member _ _ _ _ _ _ _ _ _ Hset).
    rewrite decide_True; [done|]. repeat split.
    by apply (targetMember_native _ _ _ _ _ Hb).
  - assert (Hne : key <> k).
    { intros ->. apply Hk. apply list_elem_of_In. by apply (in_map fst) in Hin. }
    assert (Hs1 : same_key key st s1).
    { destruct (polyfill && negb override && b); [by injection Hstep as <-|].
      by apply (setNativeProperty_key name t k key w Hne) in Hstep. }
    apply (IH s1 Hnd Hin); [|done].
    destruct Hwrite as [?|Hfalse]; [by left|right].
    by rewrite (targetMember_same_key _ _ _ _ _ Hs1).
Qed.

Lemma foldM_defineChainableMethod_tables ns (methods : list (string * fnval)) :
  respects same_tables
    (foldM (fun _ m => defineChainableMethod ns (fst m) (snd m)) methods tt).
Proof. repeat (respects_step || apply defineChainableMethod_tables). Qed.

(** The polyfill of a namespace on one of its two targets. *)
Definition definePolyfill (t : target) :=
  match t with
  | TClass => defineStaticPolyfill
  | TProto => defineInstancePolyfill
  end.

Lemma definePolyfill_natives (t : target) (ns : nat) (o : namespace)
  (methods : list (string * fnval)) (override : bool) (st st' : state) :
  namespaces st !! ns = Some o ->
  definePolyfill t ns methods override st = Ok (tt, st') ->
  exists s1,
    extendNative (ns_name o) t (map (fun m => (fst m, PFun (snd m))) methods)
      true override st = Ok (tt, s1) /\
    globalContext st' = globalContext s1.
Proof.
  intros Ho. destruct t; cbn [definePolyfill];
    unfold defineStaticPolyfill, defineInstancePolyfill, getNamespace;
    intros (o' & ? & Hget & Hrun)%bind_Ok;
    apply bind_Ok in Hget as (? & ? & [= <- <-] & Hget);
    rewrite Ho in Hget; injection Hget as <- <-.
  - destruct (extendNative _ _ _ _ _ _) as [[[] s1]| | |] eqn:E; try done.
    injection Hrun as <-. eauto.
  - apply bind_Ok in Hrun as ([] & s1 & Hext & Hrest).
    exists s1. split; [done|].
    by apply foldM_defineChainableMethod_tables in Hrest as (_ & _ & _ & _ & ? & _).
Qed.

(** X19. A polyfill that does not override fills gaps only: a member the
    native class (for [defineStaticPolyfill]) or its prototype (for
    [defineInstancePolyfill]) has, and that is truthy, stays as it is; a
    method whose name the target neither has nor inherits is installed; and
    no name outside the methods is written anywhere. *)
Theorem polyfill_fills_gaps_only (t : target) (ns : nat) (o : namespace)
  (methods : list (string * fnval)) (st st' : state) :
  namespaces st !! ns = Some o ->
  definePolyfill t ns methods false st = Ok (tt, st') ->
  (forall key p,
     nativeMember st (ns_name o) t key = Some p ->
     memberTruthy (Some p) = Ok true ->
     nativeMember st' (ns_name o) t key = Some p) /\
  (NoDup (map fst methods) ->
   forall key fn,
     In (key, fn) methods ->
     targetMember st (ns_name o) t key ≫= memberTruthy = Ok false ->
     nativeMember st' (ns_name o) t key = Some (PFun fn)) /\
  (forall key, assoc key methods = None ->
     forall name t', nativeMember st' name t' key = nativeMember st name t' key).
Proof.
  intros Ho Hrun.
  destruct (definePolyfill_natives t ns o methods false st st' Ho Hrun)
    as (s1 & Hext & Hg).
  assert (Hmember : forall name t' key,
            nativeMember st' name t' key = nativeMember s1 name t' key).
  { intros name t' key. unfold nativeMember. by rewrite Hg. }
  split; [|split].
  - intros key p Hown Htruthy. rewrite Hmember.
    destruct (extendNative_keeps _ _ _ _ _ _ _ Hown Htruthy Hext) as [-> _].
    done.
  - intros Hnd key fn Hin Habsent. rewrite Hmember.
    eapply (extendNative_fills _ _ _ _ _ key (PFun fn)); [| |by right|exact Hext].
    + by rewrite map_map.
    + apply in_map_iff. by exists (key, fn).
  - intros key Hkey name t'. rewrite Hmember.
    eapply (extendNative_key _ _ _ _ _ key) in Hext; [by destruct Hext as [-> _]|].
    clear -Hkey. induction methods as [|[k f] methods IH]; [done|].
    cbn in *. destruct (String.eqb k key); [done | by apply IH].
Qed.

(** A polyfill of [Boolean.prototype] with two methods, one of which is
    there already. *)
Definition booleanPolyfill : list (string * fnval) :=
  [("toString", FUser 1 firstArgument); ("negate", FUser 1 firstArgument)].

Definition afterPolyfill : state :=
  match defineInstancePolyfill 0 booleanPolyfill false afterBoolean with
  | Ok (_, st) => st
  | _ => afterBoolean
  end.

Lemma polyfill_fills_gaps_only_witness :
  nativeMember afterPolyfill "Boolean" TProto "toString" =
    Some (PFun (FNative "Boolean" "toString" 0)) /\
  nativeMember afterPolyfill "Boolean" TProto "negate" =
    Some (PFun (FUser 1 firstArgument)).
Proof.
  assert (Hns : namespaces afterBoolean !! 0%nat =
                Some (mkNamespace "Boolean" [] false
                        (default [] (ns_proto <$> namespaces afterBoolean !! 0%nat))))
    by reflexivity.
  assert (Hrun : definePolyfill TProto 0 booleanPolyfill false afterBoolean =
                 Ok (tt, afterPolyfill)) by (vm_compute; reflexivity).
  destruct (polyfill_fills_gaps_only TProto 0 _ booleanPolyfill afterBoolean
              afterPolyfill Hns Hrun) as (Hkeep & Hfill & _).
  split.
  - apply Hkeep; reflexivity.
  - apply Hfill; [| by right; left | reflexivity].
    apply NoDup_cons. split; [by intros [=]%list_elem_of_singleton|].
    apply NoDup_singleton.
Defined.


(** ** What [extend] writes *)

Lemma canExtend_excepted (st : state) (opts : options) (nativeName : string)
  (isObject : bool) (m : string) (method : method) (t : target) :
  methodIsExcepted opts m = true ->
  canExtend st opts nativeName isObject m method t <> Ok true.
Proof.
  intros Hex. unfold canExtend. rewrite Hex.
  destruct (objectRestricted st isObject m t); [done|].
  by destruct (disallowedByFlags _ _ _ _ _ _) as [[]| | |].
Qed.

(** A name that is no candidate, or is excepted, is not collected. *)
Lemma collectMethod_skips (st : state) (opts : options) (nativeName : string)
  (isObject : bool) (acc acc' : list (string * nprop) * list (string * nprop))
  (candidate : string * option method) (m : string) :
  collectMethod st opts nativeName isObject acc candidate = Ok acc' ->
  fst candidate <> m \/ methodIsExcepted opts m = true ->
  assoc m (fst acc) = None /\ assoc m (snd acc) = None ->
  assoc m (fst acc') = None /\ assoc m (snd acc') = None.
Proof.
  destruct acc as [staticMethods instanceMethods],
           candidate as [methodName [method|]];
    cbn [collectMethod fst snd]; [|by intros [= <-]].
  intros H Hskip [HS HI].
  assert (Hset : forall (t : target) (v : nprop) (l l' : list (string * nprop)),
             assoc m l = None ->
             match canExtend st opts nativeName isObject methodName method t with
             | Ok true => Ok (literal_set methodName v l)
             | Ok false => Ok l
             | Throw e => Throw e
             | Unmodelled => Unmodelled
             | OutOfFuel => OutOfFuel
             end = Ok l' -> assoc m l' = None).
  { intros t v l l' Hl.
    pose proof (canExtend_excepted st opts nativeName isObject m method t) as Hex.
    destruct (canExtend st opts nativeName isObject methodName method t)
      as [[]| | |] eqn:Hcan; try discriminate; intros [= <-]; [|done].
    destruct Hskip as [Hne|Hexcepted].
    - by rewrite assoc_literal_set_other.
    - destruct (decide (methodName = m)) as [->|Hne].
      + by destruct (Hex Hexcepted).
      + by rewrite assoc_literal_set_other. }
  destruct (m_instance method) as [i|].
  - destruct (match canExtend st opts nativeName isObject methodName method TProto
              with Ok true => _ | _ => _ end) as [instanceMethods'| | |] eqn:HI';
      try discriminate.
    apply (Hset TProto _ _ _ HI) in HI'.
    destruct (m_static method); [|by injection H as <-].
    destruct (canExtend st opts nativeName isObject methodName method TClass)
      as [[]| | |] eqn:Hcan; try discriminate; injection H as <-;
      cbn [fst snd]; (split; [|done]); [|done].
    apply (Hset TClass (PFun (m_fn method)) staticMethods _ HS).
    by rewrite Hcan.
  - destruct (m_static method); [|by injection H as <-].
    destruct (canExtend st opts nativeName isObject methodName method TClass)
      as [[]| | |] eqn:Hcan; try discriminate; injection H as <-;
      cbn [fst snd]; (split; [|done]); [|done].
    apply (Hset TClass (PFun (m_fn method)) staticMethods _ HS).
    by rewrite Hcan.
Qed.

Lemma foldR_collectMethod_skips (st : state) (opts : options)
  (nativeName : string) (isObject : bool)
  (candidates : list (string * option method))
  (acc acc' : list (string * nprop) * list (string * nprop)) (m : string) :
  foldR (collectMethod st opts nativeName isObject) candidates acc = Ok acc' ->
  Forall (fun c => fst c <> m) candidates \/ methodIsExcepted opts m = true ->
  assoc m (fst acc) = None /\ assoc m (snd acc) = None ->
  assoc m (fst acc') = None /\ assoc m (snd acc') = None.
Proof.
  revert acc. induction candidates as [|c l IH]; intros acc; cbn [foldR].
  - by intros [= <-].
  - destruct (collectMethod st opts nativeName isObject acc c) as [acc1| | |] eqn:H1;
      try discriminate.
    intros H Hskip Hacc. eapply IH; [exact H | |].
    + destruct Hskip as [Hall|?]; [left|by right]. by inversion Hall.
    + eapply collectMethod_skips; [exact H1 | | done].
      destruct Hskip as [Hall|?]; [left|by right]. by inversion Hall.
Qed.

Lemma same_key_globals (key : string) (st st' : state) :
  globalContext st' = globalContext st -> same_key key st st'.
Proof. intros Hg. unfold same_key, nativeMember. by rewrite Hg. Qed.


(** [extend] with the method [pick] excepted. *)
Definition exceptPick : options := mkOptions None (Some [ElName "pick"]) None None [].

Definition afterExceptPick : state :=
  match extend 1 exceptPick afterThree with
  | Ok (_, st) => st
  | _ => afterThree
  end.



Lemma table_set_keys {A} (key : string) (v : A) (l : list (string * A)) :
  NoDup (map fst l) -> NoDup (map fst (table_set key v l)).
Proof.
  unfold table_set. destruct (assoc key l) eqn:Hk.
  - assert (E : map fst (assoc_replace key v l) = map fst l); [|by rewrite E].
    clear Hk. induction l as [|[k w] l IH]; [done|]. cbn.
    destruct (String.eqb k key); cbn; [done | by rewrite IH].
  - intros Hnd. rewrite map_app. cbn. apply NoDup_app. split; [done|].
    split; [|apply NoDup_singleton].
    intros k Hin ->%list_elem_of_singleton.
    clear Hnd. induction l as [|[k w] l IH]; [by apply elem_of_nil in Hin|].
    cbn in *. destruct (String.eqb_spec k key) as [->|Hne]; [done|].
    apply elem_of_cons in Hin as [?|Hin]; [done | by apply IH].
Qed.

Lemma literal_set_keys {A} (key : string) (v : A) (l : list (string * A)) :
  NoDup (map fst l) -> NoDup (map fst (literal_set key v l)).
Proof.
  unfold literal_set. destruct (String.eqb key "__proto__"); [done|].
  apply table_set_keys.
Qed.

Lemma isNamespaceMember_proto (m : string) :
  isNamespaceMember m = false -> m <> "__proto__".
Proof. by intros H ->. Qed.

Lemma optionIsFalse_noOptions (flag : string) : optionIsFalse noOptions flag = false.
Proof. unfold optionIsFalse. by destruct (String.eqb flag "objectPrototype"). Qed.

(** Without options [canExtend] stops at the restriction of
    [Object.prototype] only. *)
Lemma canExtend_noOptions (st : state) (nativeName : string) (isObject : bool)
  (m : string) (method : method) (t : target) (b : bool) :
  canExtend st noOptions nativeName isObject m method t = Ok b ->
  b = negb (objectRestricted st isObject m t).
Proof.
  unfold canExtend. destruct (objectRestricted st isObject m t); [by intros [= <-]|].
  unfold disallowedByFlags.
  destruct (targetMember st nativeName t m ≫= memberTruthy) as [present| | |];
    try discriminate.
  destruct (m_flags method) as [fl|]; [|by intros [= <-]].
  assert (E : existsb (optionIsFalse noOptions) fl = false).
  { induction fl as [|f fl IH]; [done|]. cbn [existsb].
    by rewrite optionIsFalse_noOptions, IH. }
  rewrite E, andb_false_r. by intros [= <-].
Qed.

(** What [collectMethod] adds for a method, without options. *)
Definition collected (st : state) (isObject : bool) (m : string)
  (method : method) (t : target) : option nprop :=
  if objectRestricted st isObject m t then None else
  match t with
  | TProto => instanceMember <$> m_instance method
  | TClass => if m_static method then Some (PFun (m_fn method)) else None
  end.

Definition staged (t : target)
  (acc : list (string * nprop) * list (string * nprop)) : list (string * nprop) :=
  match t with TClass => fst acc | TProto => snd acc end.

(** The result of [collectMethod] by what [canExtend] answers. *)
Lemma collectMethod_Ok (st : state) (opts : options) (nativeName : string)
  (isObject : bool) (acc acc' : list (string * nprop) * list (string * nprop))
  (m : string) (method : method) :
  collectMethod st opts nativeName isObject acc (m, Some method) = Ok acc' ->
  exists bi bs,
    (m_instance method = None \/
     canExtend st opts nativeName isObject m method TProto = Ok bi) /\
    (m_static method = false \/
     canExtend st opts nativeName isObject m method TClass = Ok bs) /\
    acc' =
      (if m_static method && bs
       then literal_set m (PFun (m_fn method)) (fst acc) else fst acc,
       match m_instance method with
       | Some i => if bi then literal_set m (instanceMember i) (snd acc) else snd acc
       | None => snd acc
       end).
Proof.
  destruct acc as [staticMethods instanceMethods]. cbn [collectMethod fst snd].
  destruct (m_instance method) as [i|].
  - destruct (canExtend st opts nativeName isObject m method TProto)
      as [bi| | |]; try (by destruct bi); try discriminate.
    destruct (m_static method).
    + destruct (canExtend st opts nativeName isObject m method TClass)
        as [bs| | |]; try (by destruct bi); try discriminate.
      intros H. exists bi, bs. split; [by right|]. split; [by right|].
      destruct bi, bs; by injection H as <-.
    + intros H. exists bi, false. split; [by right|]. split; [by left|].
      destruct bi; by injection H as <-.
  - destruct (m_static method).
    + destruct (canExtend st opts nativeName isObject m method TClass)
        as [bs| | |]; try discriminate.
      intros H. exists false, bs. split; [by left|]. split; [by right|].
      destruct bs; by injection H as <-.
    + intros [= <-]. exists false, false. split; [by left|]. split; [by left|done].
Qed.

Lemma collectMethod_other (st : state) (opts : options) (nativeName : string)
  (isObject : bool) (acc acc' : list (string * nprop) * list (string * nprop))
  (candidate : string * option method) (m : string) (t : target) :
  collectMethod st opts nativeName isObject acc candidate = Ok acc' ->
  fst candidate <> m ->
  assoc m (staged t acc') = assoc m (staged t acc) /\
  (NoDup (map fst (staged t acc)) -> NoDup (map fst (staged t acc'))).
Proof.
  destruct candidate as [methodName [method|]]; cbn [fst];
    [|destruct acc; by intros [= <-]].
  intros (bi & bs & _ & _ & ->)%collectMethod_Ok Hne.
  destruct t; cbn [staged fst snd].
  - destruct (m_static method && bs); [|done].
    rewrite assoc_literal_set_other by done. split; [done | apply literal_set_keys].
  - destruct (m_instance method) as [i|]; [|done]. destruct bi; [|done].
    rewrite assoc_literal_set_other by done. split; [done | apply literal_set_keys].
Qed.

Lemma collectMethod_this (st : state) (nativeName : string) (isObject : bool)
  (acc acc' : list (string * nprop) * list (string * nprop))
  (m : string) (method : method) (t : target) :
  m <> "__proto__" ->
  collectMethod st noOptions nativeName isObject acc (m, Some method) = Ok acc' ->
  assoc m (staged t acc) = None ->
  assoc m (staged t acc') = collected st isObject m method t /\
  (NoDup (map fst (staged t acc)) -> NoDup (map fst (staged t acc'))).
Proof.
  intros Hproto (bi & bs & Hi & Hs & ->)%collectMethod_Ok Hacc. unfold collected.
  destruct t; cbn [staged fst snd] in *.
  - destruct (m_static method).
    + destruct Hs as [?|Hs]; [done|]. apply canExtend_noOptions in Hs as ->.
      cbn [andb]. destruct (objectRestricted st isObject m TClass); cbn [negb].
      * done.
      * rewrite assoc_literal_set by done. split; [done | apply literal_set_keys].
    + cbn [andb]. by destruct (objectRestricted st isObject m TClass).
  - destruct (m_instance method) as [i|].
    + destruct Hi as [?|Hi]; [done|]. apply canExtend_noOptions in Hi as ->.
      destruct (objectRestricted st isObject m TProto); cbn [negb].
      * done.
      * rewrite assoc_literal_set by done. split; [done | apply literal_set_keys].
    + by destruct (objectRestricted st isObject m TProto).
Qed.

(** The methods [extend] stages for a target, without options: for a
    method of the namespace, what [collected] says. *)
Lemma foldR_collectMethod_all (st : state) (nativeName : string)
  (isObject : bool) (methods : list (string * method))
  (acc acc' : list (string * nprop) * list (string * nprop))
  (m : string) (method : method) (t : target) :
  foldR (collectMethod st noOptions nativeName isObject)
    (map (fun member => (fst member, Some (snd member))) methods) acc = Ok acc' ->
  m <> "__proto__" ->
  NoDup (map fst methods) ->
  assoc m methods = Some method ->
  assoc m (staged t acc) = None ->
  NoDup (map fst (staged t acc)) ->
  assoc m (staged t acc') = collected st isObject m method t /\
  NoDup (map fst (staged t acc')).
Proof.
  revert acc. induction methods as [|[k meth] methods IH]; intros acc; [done|].
  cbn [map foldR fst snd assoc].
  destruct (collectMethod st noOptions nativeName isObject acc (k, Some meth))
    as [acc1| | |] eqn:H1; try discriminate.
  intros Hrest Hproto [Hk Hnd]%NoDup_cons Hm Hacc Hkeys.
  destruct (String.eqb_spec k m) as [->|Hne].
  - injection Hm as ->.
    destruct (collectMethod_this _ _ _ _ _ _ _ t Hproto H1 Hacc) as [Hthis Hkeys1].
    clear IH H1. revert acc1 Hrest Hthis Hkeys1.
    induction methods as [|[k' meth'] methods IH]; intros acc1; cbn [map foldR fst snd].
    + intros [= <-]. auto.
    + destruct (collectMethod st noOptions nativeName isObject acc1 (k', Some meth'))
        as [acc2| | |] eqn:H2; try discriminate.
      intros Hrest Hthis Hkeys1.
      assert (Hne : k' <> m).
      { intros ->. apply Hk. cbn. by left. }
      destruct (collectMethod_other _ _ _ _ _ _ _ m t H2 Hne) as [E Hk2].
      apply (IH ltac:(intros ?; apply Hk; cbn; by right)
                ltac:(by apply NoDup_cons in Hnd as [_ ?]) acc2 Hrest);
        [by rewrite E | auto].
  - destruct (collectMethod_other _ _ _ _ _ _ _ m t H1 Hne) as [E Hk1].
    apply (IH acc1 Hrest Hproto Hnd Hm); [by rewrite E | auto].
Qed.

(** The own members of one target are the same. *)
Definition same_target (name : string) (t : target) (st st' : state) : Prop :=
  forall key, nativeMember st' name t key = nativeMember st name t key.

#[local] Instance same_target_refl name t : Reflexive (same_target name t).
Proof. by intros st key. Qed.

#[local] Instance same_target_trans name t : Transitive (same_target name t).
Proof. intros x y z H1 H2 key. by rewrite H2, H1. Qed.

Lemma setNativeProperty_target (name : string) (t : target) (key : string)
  (v : nprop) (name' : string) (t' : target) :
  name' <> name \/ t' <> t ->
  respects (same_target name' t') (setNativeProperty name t key v).
Proof.
  intros Hne st [] st1 Hset key'.
  rewrite (setNativeProperty_member _ _ _ _ _ _ _ _ _ Hset).
  rewrite decide_False; [done | by intros (? & ? & _); destruct Hne].
Qed.

Lemma extendNative_target (name : string) (t : target)
  (source : list (string * nprop)) (polyfill override : bool)
  (name' : string) (t' : target) :
  name' <> name \/ t' <> t ->
  respects (same_target name' t') (extendNative name t source polyfill override).
Proof.
  intros Hne. unfold extendNative.
  repeat (respects_step || by apply setNativeProperty_target).
Qed.

Lemma assoc_Some_In {A} (key : string) (v : A) (l : list (string * A)) :
  assoc key l = Some v -> In (key, v) l.
Proof.
  induction l as [|[k w] l IH]; [done|]. cbn.
  destruct (String.eqb_spec k key) as [->|_]; [by intros [= ->]; left|].
  intros H. right. by apply IH.
Qed.

(** What [extend()] leaves on the native class of the namespace. *)
Lemma extend_installs (ns : nat) (o : namespace) (m : string) (method : method)
  (st st' : state) :
  namespaces st !! ns = Some o ->
  m <> "__proto__" ->
  NoDup (map fst (ns_methods o)) ->
  assoc m (ns_methods o) = Some method ->
  extend ns noOptions st = Ok (tt, st') ->
  (forall t v,
     collected st (String.eqb (ns_name o) "Object") m method t = Some v ->
     nativeMember st' (ns_name o) t m = Some v) /\
  exists o', namespaces st' !! ns = Some o' /\ ns_active o' = true /\
             ns_methods o' = ns_methods o.
Proof.
  intros Ho Hproto Hnd Hm. unfold extend, getNamespace.
  intros (o1 & s0 & Hget & Hrun)%bind_Ok.
  apply bind_Ok in Hget as (? & ? & [= <- <-] & Hget).
  rewrite Ho in Hget. injection Hget as <- <-.
  apply bind_Ok in Hrun as (? & ? & [= <- <-] & Hrun).
  destruct (assoc (ns_name o) (globalContext st)) as [n|]; [|discriminate].
  change (namespaceIsExcepted noOptions (ns_name o)) with false in Hrun.
  cbv iota in Hrun. cbn [o_objectPrototype noOptions o_methods] in Hrun.
  apply bind_Ok in Hrun as ([] & s1 & Hflag & Hrun).
  assert (s1 = st) as -> by (destruct (String.eqb (ns_name o) "Object");
                             by injection Hflag as <-).
  apply bind_Ok in Hrun as (? & ? & [= <- <-] & Hrun).
  apply bind_Ok in Hrun as ([staticMethods instanceMethods] & ? & Hcollect & Hrun).
  unfold liftR in Hcollect.
  destruct (foldR _ _ _) as [acc| | |] eqn:Hfold; try discriminate.
  injection Hcollect as -> <-.
  pose proof (fun t => foldR_collectMethod_all _ _ _ _ _ _ m method t Hfold Hproto
                        Hnd Hm) as Hstaged.
  apply bind_Ok in Hrun as ([] & s2 & Hstatic & Hrun).
  apply bind_Ok in Hrun as ([] & s3 & Hinstance & Hrun).
  assert (Hns3 : ns_methods <$> namespaces s3 !! ns = Some (ns_methods o)).
  { apply extendNative_methods in Hstatic, Hinstance.
    by rewrite Hinstance, Hstatic, Ho. }
  destruct (namespaces s3 !! ns) as [o3|] eqn:Ho3; [|discriminate].
  injection Hns3 as Hns3. injection Hrun as <-. split.
  - intros t v Hv. unfold nativeMember. cbn [globalContext set_namespaces].
    fold (nativeMember s3 (ns_name o) t m).
    destruct (Hstaged t) as [Hassoc Hkeys];
      [by destruct t | destruct t; constructor |].
    rewrite Hv in Hassoc. apply assoc_Some_In in Hassoc. destruct t; cbn [staged fst snd] in *.
    + rewrite (extendNative_target (ns_name o) TProto instanceMethods false false
                 (ns_name o) TClass ltac:(by right) _ _ _ Hinstance).
      exact (extendNative_fills (ns_name o) TClass staticMethods false false m v
               st s2 Hkeys Hassoc (or_introl eq_refl) Hstatic).
    + exact (extendNative_fills (ns_name o) TProto instanceMethods false false m v
               s2 s3 Hkeys Hassoc (or_introl eq_refl) Hinstance).
  - cbn [namespaces set_namespaces]. rewrite Ho3.
    eexists. split; [apply list_lookup_insert_eq; by eapply lookup_lt_Some|].
    by cbn.
Qed.


Definition afterExtendBoolean : state :=
  match extend 1 noOptions afterThree with
  | Ok (_, st) => st
  | _ => afterThree
  end.



Lemma setMethod_identity ns methodName method :
  respects (kept (fun o => (ns_name o, ns_active o)))
    (setMethod ns methodName method).
Proof.
  unfold setMethod.
  repeat (kept_step || by apply defineChainableMethod_kept).
Qed.

Lemma setMethod_methods (ns : nat) (o : namespace) (methodName : string)
  (method : method) (st st' : state) :
  namespaces st !! ns = Some o ->
  setMethod ns methodName method st = Ok (tt, st') ->
  ns_methods <$> namespaces st' !! ns =
    Some (table_set methodName method (ns_methods o)).
Proof.
  intros Ho. unfold setMethod.
  destruct (isNamespaceMember methodName); [discriminate|].
  intros ([] & s1 & Hupd & Hdef)%bind_Ok.
  assert (H1 : ns_methods <$> namespaces s1 !! ns =
               Some (table_set methodName method (ns_methods o))).
  { injection Hupd as <-. cbn. rewrite Ho.
    by rewrite list_lookup_insert_eq by (by eapply lookup_lt_Some). }
  destruct (m_instance method) as [[instance|]|].
  - apply defineChainableMethod_methods in Hdef. by rewrite Hdef.
  - by injection Hdef as <-.
  - by injection Hdef as <-.
Qed.

(** A method set on an active namespace and extended at once. *)
Lemma define_then_extend (ns : nat) (o : namespace) (m : string)
  (method : method) (st s2 st' : state) :
  namespaces st !! ns = Some o ->
  NoDup (map fst (ns_methods o)) ->
  setMethod ns m method st = Ok (tt, s2) ->
  extend ns noOptions s2 = Ok (tt, st') ->
  forall t v,
    collected st (String.eqb (ns_name o) "Object") m method t = Some v ->
    nativeMember st' (ns_name o) t m = Some v.
Proof.
  intros Ho Hnd Hset Hext t v Hv.
  assert (Hproto : m <> "__proto__").
  { apply isNamespaceMember_proto. revert Hset. unfold setMethod.
    by destruct (isNamespaceMember m). }
  pose proof (setMethod_methods _ _ _ _ _ _ Ho Hset) as Hmethods.
  destruct (setMethod_identity _ _ _ _ _ _ Hset ns o Ho) as (o2 & Ho2 & [= Hname _]).
  pose proof (setMethod_tables _ _ _ _ _ _ Hset) as (_ & _ & _ & _ & _ & Hallow).
  rewrite Ho2 in Hmethods. injection Hmethods as Hmethods.
  destruct (extend_installs ns o2 m method s2 st' Ho2 Hproto) as [Hinst _];
    [rewrite Hmethods; by apply table_set_keys
    |rewrite Hmethods; apply assoc_table_set
    |done|].
  rewrite <- Hname. apply Hinst. rewrite Hname.
  revert Hv. unfold collected, objectRestricted. by rewrite Hallow.
Qed.


Definition afterActivePick : state :=
  match defineStatic 1 [("choose", plainMethod threeParameters)] None
          afterExtendBoolean with
  | Ok (_, st) => st
  | _ => afterExtendBoolean
  end.



(** ** Partial application *)

(** The curried arguments [cs] filled from the call-site arguments [args]:
    a defined argument stays, an undefined one takes the next call-site
    argument, or stays undefined when there is none; [rest] are the
    call-site arguments left. *)
Inductive fills : list value -> list value -> list value -> list value -> Prop :=
| fills_nil args : fills [] args [] args
| fills_defined c cs args filled rest :
    c <> VUndefined -> fills cs args filled rest ->
    fills (c :: cs) args (c :: filled) rest
| fills_hole cs args filled rest :
    fills cs (tl args) filled rest ->
    fills (VUndefined :: cs) args (hd VUndefined args :: filled) rest.

Lemma isDefined_spec (v : value) :
  isDefined v = false <-> v = VUndefined.
Proof. unfold isDefined. by destruct v. Qed.

Lemma partialArgs_loop (cs args : list value) (acc : list value) (k : nat) :
  exists filled rest,
    fills cs (drop k args) filled rest /\
    length filled = length cs /\
    (let '(applyArgs, argIndex) :=
       fold_left (fun '(applyArgs, argIndex) arg =>
                    if isDefined arg then (applyArgs ++ [arg], argIndex)
                    else (applyArgs ++ [nth argIndex args VUndefined],
                          S argIndex))
         cs (acc, k) in
     applyArgs ++ drop argIndex args) = acc ++ filled ++ rest.
Proof.
  revert acc k. induction cs as [|c cs IH]; intros acc k.
  - exists [], (drop k args). split; [constructor|]. split; [done|]. done.
  - cbn [fold_left]. destruct (isDefined c) eqn:Hc.
    + destruct (IH (acc ++ [c]) k) as (filled & rest & Hf & Hl & E).
      exists (c :: filled), rest. split; [|split].
      * constructor; [|done]. intros ->. by rewrite (proj2 (isDefined_spec _)) in Hc.
      * cbn. by rewrite Hl.
      * rewrite E. by rewrite <- app_assoc.
    + apply isDefined_spec in Hc as ->.
      destruct (IH (acc ++ [nth k args VUndefined]) (S k))
        as (filled & rest & Hf & Hl & E).
      exists (nth k args VUndefined :: filled), rest. split; [|split].
      * assert (Hhd : nth k args VUndefined = hd VUndefined (drop k args)).
        { clear. revert k. induction args as [|a args IH]; intros [|k]; cbn; auto. }
        assert (Htl : drop (S k) args = tl (drop k args)).
        { clear. revert k. induction args as [|a args IH]; intros [|k]; cbn;
            rewrite ?drop_0; auto. }
        rewrite Hhd. constructor. by rewrite <- Htl.
      * cbn. by rewrite Hl.
      * rewrite E. by rewrite <- app_assoc.
Qed.

(** X23. The function [partial(fn, curriedArgs)] returns calls [fn] on the
    same [this] with the curried arguments, the undefined ones among them
    replaced by the call-site arguments in their order, and then the
    call-site arguments that are left.  After [lock(fn, n)] with [n] no
    number the arguments that are left are dropped; with a number from 0 on
    only the first [n] arguments are passed; a negative number, NaN and
    -Infinity make the call throw a RangeError. *)
Theorem partial_fills_placeholders (fn : jsfun) (curriedArgs args : list value)
  (this : value) (h : heap) :
  instanceOfCaller h this = false ->
  exists filled rest,
    fills curriedArgs args filled rest /\
    length filled = length curriedArgs /\
    partial fn curriedArgs LockUnset this args h = fn this (filled ++ rest) h /\
    forall n lock,
      lockPartial n = Ok lock ->
      partial fn curriedArgs lock this args h =
      match n with
      | VNum (Int z) =>
          if Z.ltb z 0 then Throw (RangeError "Invalid array length")
          else fn this (take (Z.to_nat z) (filled ++ rest)) h
      | VNum PosInf => fn this (filled ++ rest) h
      | VNum NegZero => fn this [] h
      | VNum _ => Throw (RangeError "Invalid array length")
      | _ => fn this filled h
      end.
Proof.
  intros Hthis.
  destruct (partialArgs_loop curriedArgs args [] 0) as (filled & rest & Hf & Hl & E).
  rewrite drop_0 in Hf. cbn [app] in E.
  exists filled, rest. split; [done|]. split; [done|].
  assert (Hnull : partial fn curriedArgs LockNull this args h = fn this filled h).
  { unfold partial, bind. cbn [getState]. rewrite Hthis. unfold partialArgs.
    rewrite E. cbn [ret truncateArgs liftR].
    destruct (Z.ltb_spec (Z.of_nat (length curriedArgs)) 0); [lia|].
    rewrite Nat2Z.id, <- Hl. by rewrite take_app_length. }
  split.
  - unfold partial, bind. cbn [getState]. rewrite Hthis. unfold partialArgs.
    by rewrite E.
  - intros n lock Hlock. destruct n as [| |b|x|s|a]; try discriminate;
      injection Hlock as <-; try exact Hnull.
    unfold partial, bind. cbn [getState]. rewrite Hthis. unfold partialArgs.
    rewrite E. destruct x as [| | | |z]; cbn [ret truncateArgs liftR]; try done.
    by destruct (Z.ltb z 0).
Qed.

Lemma partial_fills_placeholders_witness :
  exists filled rest,
    fills [VUndefined; VStr "b"] [VStr "a"; VStr "c"] filled rest /\
    length filled = length [VUndefined; VStr "b"] /\
    partial collectArguments [VUndefined; VStr "b"] LockUnset VUndefined
      [VStr "a"; VStr "c"] [] =
      collectArguments VUndefined (filled ++ rest) [] /\
    forall n lock,
      lockPartial n = Ok lock ->
      partial collectArguments [VUndefined; VStr "b"] lock VUndefined
        [VStr "a"; VStr "c"] [] =
      match n with
      | VNum (Int z) =>
          if Z.ltb z 0 then Throw (RangeError "Invalid array length")
          else collectArguments VUndefined (take (Z.to_nat z) (filled ++ rest)) []
      | VNum PosInf => collectArguments VUndefined (filled ++ rest) []
      | VNum NegZero => collectArguments VUndefined [] []
      | VNum _ => Throw (RangeError "Invalid array length")
      | _ => collectArguments VUndefined filled []
      end.
Proof.
  apply (partial_fills_placeholders collectArguments [VUndefined; VStr "b"]
           [VStr "a"; VStr "c"] VUndefined []).
  reflexivity.
Defined.


(** ** Copies of objects *)

(** The loop of [simpleMerge] on an object literal. *)
Lemma simpleMerge_loop (source : list (string * value)) (h : heap) (a : nat)
  (props : list (string * value)) :
  h !! a = Some (mkObject KObject props) ->
  "__proto__" ∉ map fst source ->
  exists props',
    foldM (fun _ member =>
             writeH (fun h => setProp h (VRef a) (fst member) (snd member)))
      source tt h =
      Ok (tt, <[a := mkObject KObject props']> h) /\
    forall key,
      assoc key props' =
      match assoc key (rev source) with
      | Some v => Some v
      | None => assoc key props
      end.
Proof.
  revert h props. induction source as [|[k v] source IH]; intros h props Ha Hproto.
  - exists props. split; [|done]. cbn [foldM ret].
    by rewrite list_insert_id.
  - cbn [map fst] in Hproto. apply not_elem_of_cons in Hproto as [Hk Hproto].
    cbn [foldM fst snd]. unfold bind at 1. unfold writeH at 1.
    rewrite (setProp_literal _ _ _ _ _ Ha) by done. cbn [mbind result_bind].
    set (h1 := <[a := mkObject KObject (assoc_set k v props)]> h).
    assert (Ha1 : h1 !! a = Some (mkObject KObject (assoc_set k v props))).
    { apply list_lookup_insert_eq. by eapply lookup_lt_Some. }
    destruct (IH h1 _ Ha1 Hproto) as (props' & Hrun & Hprops).
    exists props'. split.
    + rewrite Hrun. unfold h1. by rewrite list_insert_insert_eq.
    + intros key. rewrite Hprops. cbn [rev].
      destruct (assoc key (rev source)) eqn:Hrev.
      * by rewrite (assoc_app_Some _ _ _ _ Hrev).
      * rewrite (assoc_app_None _ _ _ Hrev). cbn [assoc].
        destruct (String.eqb_spec k key) as [->|Hne].
        -- by rewrite assoc_set_same.
        -- by rewrite assoc_set_other.
Qed.

Lemma assoc_rev {A} (key : string) (l : list (string * A)) :
  NoDup (map fst l) -> assoc key (rev l) = assoc key l.
Proof.
  induction l as [|[k v] l IH]; [done|]. cbn [map fst rev assoc].
  intros [Hk Hnd]%NoDup_cons. specialize (IH Hnd).
  destruct (assoc key (rev l)) eqn:Hrev.
  - rewrite (assoc_app_Some _ _ _ _ Hrev).
    destruct (String.eqb_spec k key) as [->|_]; [|done].
    exfalso. apply Hk. symmetry in IH. apply assoc_Some_In in IH.
    apply list_elem_of_In. by apply (in_map fst) in IH.
  - rewrite (assoc_app_None _ _ _ Hrev). cbn [assoc].
    by destruct (String.eqb k key).
Qed.

Lemma simpleClone_loop_object (h : heap) (a : nat)
  (props : list (string * value)) :
  h !! a = Some (mkObject KObject props) ->
  NoDup (map fst props) ->
  "__proto__" ∉ map fst props ->
  exists props',
    simpleClone (VRef a) h =
      Ok (VRef (length h), h ++ [mkObject KObject props']) /\
    forall key, assoc key props' = assoc key props.
Proof.
  intros Ha Hnd Hproto. unfold simpleClone, simpleMerge.
  unfold bind at 1. unfold alloc at 1. unfold bind at 1. cbn [getState].
  unfold bind at 1. rewrite (lookup_app_l h) by (by eapply lookup_lt_Some).
  rewrite Ha. cbn [fmap option_fmap option_map liftOpt ret oprops].
  destruct (simpleMerge_loop props (h ++ [mkObject KObject []]) (length h) [])
    as (props' & Hrun & Hprops); [|done|].
  { rewrite lookup_app_r by lia. by rewrite Nat.sub_diag. }
  unfold bind at 1. rewrite Hrun. cbn [ret].
  exists props'. split.
  - do 2 f_equal. rewrite insert_app_r_alt by lia.
    by rewrite Nat.sub_diag.
  - intros key. rewrite Hprops, (assoc_rev _ _ Hnd). cbn [assoc].
    by destruct (assoc key props).
Qed.

(** X24. [simpleClone] of an object gives a new object literal with the
    same own enumerable properties, and leaves every object there was as it
    is, the source included.  ([__proto__] is no property of the source: an
    assignment to it changes the prototype, which the heap does not
    hold.) *)
Theorem simpleClone_copies (h : heap) (a : nat) (o : object) :
  h !! a = Some o ->
  NoDup (getKeys o) ->
  "__proto__" ∉ getKeys o ->
  exists props',
    simpleClone (VRef a) h =
      Ok (VRef (length h), h ++ [mkObject KObject props']) /\
    forall key, assoc key props' = assoc key (oprops o).
Proof.
  intros Ha Hnd Hproto. unfold simpleClone, simpleMerge.
  unfold bind at 1. unfold alloc at 1. unfold bind at 1. cbn [getState].
  unfold bind at 1. rewrite (lookup_app_l h) by (by eapply lookup_lt_Some).
  rewrite Ha. cbn [fmap option_fmap option_map liftOpt ret].
  destruct (simpleMerge_loop (oprops o) (h ++ [mkObject KObject []]) (length h) [])
    as (props' & Hrun & Hprops); [|done|].
  { rewrite lookup_app_r by lia. by rewrite Nat.sub_diag. }
  unfold bind at 1. rewrite Hrun. cbn [ret].
  exists props'. split.
  - do 2 f_equal. rewrite insert_app_r_alt by lia.
    by rewrite Nat.sub_diag.
  - intros key. rewrite Hprops, (assoc_rev _ _ Hnd). cbn [assoc].
    by destruct (assoc key (oprops o)).
Qed.

Lemma simpleClone_copies_witness :
  exists props',
    simpleClone (VRef 1) nested =
      Ok (VRef (length nested), nested ++ [mkObject KObject props']) /\
    forall key, assoc key props' = assoc key [("b", VNum (Int 5))].
Proof.
  apply (simpleClone_copies nested 1 (mkObject KObject [("b", VNum (Int 5))]));
    [reflexivity | apply NoDup_singleton | by intros [=]%list_elem_of_singleton].
Defined.

Lemma getProp_object (h : heap) (a : nat) (props : list (string * value))
  (key : string) :
  h !! a = Some (mkObject KObject props) ->
  getProp h (VRef a) key =
  match assoc key props with
  | Some v => Ok v
  | None => if mem_str key object_proto_names then Unmodelled else Ok VUndefined
  end.
Proof.
  intros Ha. unfold getProp. rewrite Ha. cbn [oprops okind hidden_prop].
  destruct (assoc key props); [done|]. by destruct (mem_str key object_proto_names).
Qed.

(** X25. The options of [defineOptionsAccessor] start as a copy of the
    defaults: [getOption] reads what the defaults have.  [setOption] with a
    value other than null makes [getOption] return that value for the name;
    with null it makes it return the default again; either way the other
    options and the object of the defaults stay as they are.  ([__proto__]
    is neither the name nor a property of the defaults: an assignment to it
    makes no property; and the default of the name is one [getProp] gives,
    a property of the defaults or undefined.) *)
Theorem options_accessor (h : heap) (d : nat) (defaults : list (string * value))
  (name : string) (val dv : value) :
  h !! d = Some (mkObject KObject defaults) ->
  NoDup (map fst defaults) ->
  "__proto__" ∉ name :: map fst defaults ->
  getProp h (VRef d) name = Ok dv ->
  exists obj h0 h1,
    defineOptionsAccessor (VRef d) h = Ok (obj, h0) /\
    (forall k, getOption obj k h0 = v ← getProp h (VRef d) k; Ok (v, h0)) /\
    setOption obj (VRef d) name val h0 = Ok (tt, h1) /\
    getOption obj name h1 = Ok (if strict_eq val VNull then dv else val, h1) /\
    (forall k, k <> name ->
               getOption obj k h1 = v ← getProp h (VRef d) k; Ok (v, h1)) /\
    h1 !! d = h !! d.
Proof.
  intros Hd Hnd [Hname Hproto]%not_elem_of_cons Hdv.
  destruct (simpleClone_loop_object h d defaults Hd Hnd Hproto)
    as (props' & Hclone & Hprops).
  set (c := length h) in *.
  set (h0 := h ++ [mkObject KObject props']) in *.
  assert (Hc0 : h0 !! c = Some (mkObject KObject props')).
  { unfold h0, c. rewrite lookup_app_r by lia. by rewrite Nat.sub_diag. }
  assert (Hd0 : h0 !! d = Some (mkObject KObject defaults)).
  { unfold h0. rewrite lookup_app_l by (by eapply lookup_lt_Some). done. }
  assert (Hcd : c <> d).
  { unfold c. apply lookup_lt_Some in Hd. lia. }
  assert (Hread : forall (h' : heap) p k,
            h' !! c = Some (mkObject KObject p) ->
            assoc k p = assoc k defaults ->
            getProp h' (VRef c) k = getProp h (VRef d) k).
  { intros h' p k Hc Hk.
    by rewrite (getProp_object _ _ _ _ Hc), (getProp_object _ _ _ _ Hd), Hk. }
  set (v := if strict_eq val VNull then dv else val).
  set (h1 := <[c := mkObject KObject (assoc_set name v props')]> h0).
  assert (Hc1 : h1 !! c = Some (mkObject KObject (assoc_set name v props'))).
  { apply list_lookup_insert_eq. by eapply lookup_lt_Some. }
  exists (VRef c), h0, h1. split; [exact Hclone|]. split; [|split; [|split; [|split]]].
  - intros k. unfold getOption, readH.
    by rewrite (Hread h0 props' k Hc0 (Hprops k)).
  - unfold setOption, bind, h1, v. destruct (strict_eq val VNull).
    + unfold readH. rewrite (getProp_object _ _ _ _ Hd0).
      rewrite (getProp_object _ _ _ _ Hd) in Hdv. rewrite Hdv.
      cbn [mbind result_bind]. unfold writeH.
      by rewrite (setProp_literal _ _ _ _ _ Hc0) by done.
    + cbn [ret]. unfold writeH. by rewrite (setProp_literal _ _ _ _ _ Hc0) by done.
  - unfold getOption, readH. rewrite (getProp_object _ _ _ _ Hc1).
    by rewrite assoc_set_same.
  - intros k Hk. unfold getOption, readH.
    rewrite (Hread h1 _ k Hc1); [done|].
    by rewrite assoc_set_other, Hprops.
  - unfold h1. rewrite list_lookup_insert_ne by done. by rewrite Hd0.
Qed.

Lemma options_accessor_witness :
  exists obj h0 h1,
    defineOptionsAccessor (VRef 1) nested = Ok (obj, h0) /\
    (forall k, getOption obj k h0 = v ← getProp nested (VRef 1) k; Ok (v, h0)) /\
    setOption obj (VRef 1) "b" VNull h0 = Ok (tt, h1) /\
    getOption obj "b" h1 =
      Ok (if strict_eq VNull VNull then VNum (Int 5) else VNull, h1) /\
    (forall k, k <> "b" ->
               getOption obj k h1 = v ← getProp nested (VRef 1) k; Ok (v, h1)) /\
    h1 !! 1%nat = nested !! 1%nat.
Proof.
  apply (options_accessor nested 1 [("b", VNum (Int 5))] "b" VNull (VNum (Int 5)));
    [reflexivity | apply NoDup_singleton | | reflexivity].
  intros H. by repeat (apply elem_of_cons in H as [[=]|H]); apply elem_of_nil in H.
Defined.


(** ** Calls through a chainable *)

(** The prototype of the namespace [ns] has the member [m], the function
    [f]. *)
Definition proto_has (ns : nat) (m : string) (f : fnval) (st : state) : Prop :=
  exists o e, namespaces st !! ns = Some o /\
              assoc m (ns_proto o) = Some e /\ p_fn e = f.

(** [dcp] has the constructor [getNewChainableClass] gave it. *)
Definition dcp_intact (st : state) : Prop :=
  assoc "constructor" (dcp st) = Some (mkEntry (FConstructor None) false).

(** A property of the state that a computation hands on. *)
Definition hands_on (Inv : state -> Prop) (st st' : state) : Prop :=
  Inv st -> Inv st'.

#[local] Instance hands_on_refl Inv : Reflexive (hands_on Inv).
Proof. intros st H. exact H. Qed.

#[local] Instance hands_on_trans Inv : Transitive (hands_on Inv).
Proof. intros x y z H1 H2 Hx. by apply H2, H1. Qed.

Lemma assoc_proto_set_same (key : string) (fn : fnval) (l : list (string * pentry)) :
  exists e, assoc key (proto_set key fn l) = Some e /\ p_fn e = fn.
Proof.
  unfold proto_set. destruct (assoc key l) as [e|] eqn:Hk.
  - exists (mkEntry fn (p_enum e)). split; [|done].
    apply assoc_replace_same. by rewrite Hk.
  - exists (mkEntry fn true). split; [|done]. rewrite assoc_app_None by done.
    cbn. by rewrite String.eqb_refl.
Qed.

Lemma assoc_proto_set_other (key key' : string) (fn : fnval)
  (l : list (string * pentry)) :
  key' <> key -> assoc key' (proto_set key fn l) = assoc key' l.
Proof.
  intros Hne. unfold proto_set. destruct (assoc key l) as [e|] eqn:Hk.
  - by apply assoc_replace_other.
  - destruct (assoc key' l) eqn:Hk'.
    + by apply assoc_app_Some.
    + rewrite assoc_app_None by done. cbn.
      by rewrite (proj2 (String.eqb_neq key key')).
Qed.

Lemma set_proto_has (ns : nat) (m : string) (fn : fnval) (st st' : state) :
  is_Some (namespaces st !! ns) ->
  set_proto ns m fn st = Ok (tt, st') -> proto_has ns m fn st'.
Proof.
  intros [o Ho] [= <-]. unfold proto_has. cbn [namespaces set_namespaces].
  rewrite Ho. destruct (assoc_proto_set_same m fn (ns_proto o)) as (e & He & Hfn).
  eexists _, e. split; [apply list_lookup_insert_eq; by eapply lookup_lt_Some|].
  by cbn.
Qed.

Lemma setObjectChainableOnNamespace_has ns m f ns' m' fn' :
  respects (hands_on (proto_has ns m f))
    (setObjectChainableOnNamespace ns' m' fn').
Proof.
  intros st [] st' Hrun (o & e & Ho & He & Hf).
  revert Hrun. unfold setObjectChainableOnNamespace, getNamespace.
  intros (o' & ? & Hget & Hrun)%bind_Ok.
  apply bind_Ok in Hget as (? & ? & [= <- <-] & Hget).
  destruct (namespaces st !! ns') as [o1|] eqn:Ho1; [|discriminate].
  injection Hget as <- <-.
  destruct (assoc m' (ns_proto o1)) eqn:Hm'; [injection Hrun as <-; by exists o, e|].
  injection Hrun as <-. unfold proto_has. cbn [namespaces set_namespaces].
  rewrite Ho1. destruct (decide (ns' = ns)) as [->|Hne].
  - rewrite Ho in Ho1. injection Ho1 as <-.
    eexists _, e. split; [apply list_lookup_insert_eq; by eapply lookup_lt_Some|].
    cbn. split; [|done]. rewrite assoc_proto_set_other; [done|].
    intros <-. congruence.
  - exists o, e. by rewrite list_lookup_insert_ne.
Qed.

Lemma mapObjectChainableToAllNamespaces_has ns m f m' fn' :
  respects (hands_on (proto_has ns m f))
    (mapObjectChainableToAllNamespaces m' fn').
Proof.
  unfold mapObjectChainableToAllNamespaces.
  repeat (respects_step || apply setObjectChainableOnNamespace_has).
Qed.

(** After [defineChainableMethod] the prototype of the namespace has the
    wrapped method, and [dcp] its constructor if the name is another. *)
Lemma defineChainableMethod_has (ns : nat) (m : string) (fn : fnval)
  (st st' : state) :
  is_Some (namespaces st !! ns) ->
  defineChainableMethod ns m fn st = Ok (tt, st') ->
  proto_has ns m (FChainable fn) st' /\
  (m <> "constructor" -> dcp_intact st -> dcp_intact st').
Proof.
  intros Hns. unfold defineChainableMethod.
  destruct (String.eqb m "__proto__"); [discriminate|].
  intros (? & ? & [= <- <-] & Hrun)%bind_Ok.
  apply bind_Ok in Hrun as (inherited & sa & Hin & Hrun).
  assert (sa = st) as ->
    by (unfold liftR in Hin; by destruct (objectProtoMember st m); simplify_eq).
  apply bind_Ok in Hrun as ([] & s0 & H0 & Hrun).
  assert (s0 = st) as -> by (destruct inherited as [[]|]; by inversion H0).
  destruct (match assoc m (dcp st) with Some e => _ | None => _ end)
    as [[existing existingDisambiguate] collision].
  apply bind_Ok in Hrun as ([] & s1 & Hdcp & Hrun).
  assert (Hns1 : namespaces s1 = namespaces st).
  { destruct (negb existing || negb existingDisambiguate); by injection Hdcp as <-. }
  assert (Hdcp1 : m <> "constructor" -> dcp_intact st -> dcp_intact s1).
  { intros Hm. unfold dcp_intact.
    destruct (negb existing || negb existingDisambiguate); injection Hdcp as <-;
      [|done]. cbn [dcp set_dcp]. by rewrite assoc_proto_set_other. }
  apply bind_Ok in Hrun as ([] & s2 & Hset & Hrun).
  pose proof (set_proto_has ns m (FChainable fn) s1 s2
                ltac:(by rewrite Hns1) Hset) as Hhas.
  assert (Hdcp2 : dcp s2 = dcp s1) by (by injection Hset as <-).
  apply bind_Ok in Hrun as (? & ? & [= <- <-] & Hrun).
  destruct (decide _).
  - split.
    + by apply (mapObjectChainableToAllNamespaces_has _ _ _ _ _ _ _ _ Hrun).
    + intros Hm Hi. unfold dcp_intact.
      assert (Hd : dcp st' = dcp s2).
      { revert Hrun. clear. unfold mapObjectChainableToAllNamespaces.
        intros (? & ? & [= <- <-] & Hrun)%bind_Ok.
        revert Hrun. generalize (namespacesByName s2) at 1. intros l. revert s2.
        induction l as [|entry l IH]; intros s2; cbn [foldM].
        - by intros [= <-].
        - intros ([] & s3 & Hstep & Hrest)%bind_Ok.
          rewrite (IH _ Hrest). revert Hstep.
          unfold setObjectChainableOnNamespace, getNamespace.
          intros (o' & ? & Hget & Hrun)%bind_Ok.
          apply bind_Ok in Hget as (? & ? & [= <- <-] & Hget).
          destruct (namespaces s2 !! entry.2) as [o1|]; [|discriminate].
          injection Hget as <- <-.
          destruct (assoc m (ns_proto o1)); by injection Hrun as <-. }
      rewrite Hd, Hdcp2. by apply Hdcp1.
  - injection Hrun as <-. split; [done|]. intros Hm Hi.
    unfold dcp_intact. rewrite Hdcp2. by apply Hdcp1.
Qed.

(** The chainable prototypes are the same. *)
Definition same_chainables (st st' : state) : Prop :=
  dcp st' = dcp st /\
  forall ns, (ns_proto <$> namespaces st' !! ns) = (ns_proto <$> namespaces st !! ns).

#[local] Instance same_chainables_refl : Reflexive same_chainables.
Proof. by intros st. Qed.

#[local] Instance same_chainables_trans : Transitive same_chainables.
Proof.
  intros x y z [D1 H1] [D2 H2]. split; [congruence|].
  intros ns. by rewrite H2, H1.
Qed.

Lemma updNamespace_chainables (ns : nat) (f : namespace -> namespace) :
  (forall o, ns_proto (f o) = ns_proto o) ->
  respects same_chainables (updNamespace ns f).
Proof.
  intros Hf. apply respects_modifyState. intros st. split; [done|].
  intros ns'. cbn.
  destruct (namespaces st !! ns) as [o|] eqn:Ho; [|done].
  destruct (decide (ns = ns')) as [<-|Hne].
  - rewrite list_lookup_insert_eq by (by eapply lookup_lt_Some).
    rewrite Ho. cbn. by rewrite Hf.
  - by rewrite list_lookup_insert_ne.
Qed.

Lemma extendNative_chainables name t source polyfill override :
  respects same_chainables (extendNative name t source polyfill override).
Proof.
  unfold extendNative, setNativeProperty.
  repeat (respects_step ||
          (apply respects_modifyState; intros st;
           by destruct (assoc name (globalContext st)))).
Qed.

Lemma extend_chainables ns opts : respects same_chainables (extend ns opts).
Proof.
  unfold extend, getNamespace.
  repeat (respects_step || apply extendNative_chainables
          || (apply updNamespace_chainables; by intros ?)
          || (apply respects_modifyState; by intros ?)).
Qed.


(** A chainable of the namespace of [Boolean]. *)
Definition wrappedBoolean : heap :=
  [mkObject (KChainable (Some 1%nat)) [("raw", VBool true)]].


Lemma set_proto_keeps ns m f ns' m' fn' :
  ns' <> ns \/ m' <> m ->
  respects (hands_on (proto_has ns m f)) (set_proto ns' m' fn').
Proof.
  intros Hne st [] st' [= <-] (o & e & Ho & He & Hf).
  unfold proto_has. cbn [namespaces set_namespaces].
  destruct (namespaces st !! ns') as [o1|] eqn:Ho1; [|by exists o, e].
  destruct (decide (ns' = ns)) as [->|Hns].
  - rewrite Ho in Ho1. injection Ho1 as <-.
    eexists _, e. split; [apply list_lookup_insert_eq; by eapply lookup_lt_Some|].
    cbn. split; [|done]. rewrite assoc_proto_set_other; [done|].
    intros <-. by destruct Hne.
  - exists o, e. by rewrite list_lookup_insert_ne.
Qed.

Lemma dcp_keeps ns m f (g : state -> state) :
  (forall st, namespaces (g st) = namespaces st) ->
  respects (hands_on (proto_has ns m f)) (modifyState g).
Proof.
  intros Hg st [] st' [= <-] (o & e & Ho & He & Hf).
  exists o, e. by rewrite Hg.
Qed.

Lemma defineChainableMethod_keeps ns m f ns' m' fn' :
  ns' <> ns \/ m' <> m ->
  respects (hands_on (proto_has ns m f)) (defineChainableMethod ns' m' fn').
Proof.
  intros Hne. unfold defineChainableMethod.
  repeat (respects_step || by apply set_proto_keeps
          || apply mapObjectChainableToAllNamespaces_has
          || (apply dcp_keeps; by intros ?)).
Qed.

Lemma defineChainableMethod_namespace ns ns' m' fn' :
  respects (hands_on (fun st => is_Some (namespaces st !! ns)))
    (defineChainableMethod ns' m' fn').
Proof.
  intros st [] st' Hrun [o Ho].
  apply defineChainableMethod_methods in Hrun. specialize (Hrun ns).
  rewrite Ho in Hrun. by destruct (namespaces st' !! ns).
Qed.

(** The loop of [mapNativeToChainable]. *)
Lemma mapNativeToChainable_loop (a : nat) (members : list (string * nprop))
  (st st' : state) :
  NoDup (map fst members) ->
  is_Some (namespaces st !! a) ->
  foldM (fun _ member =>
           let '(methodName, p) := member in
           if nativeMethodProhibited methodName then ret tt else
           match p with
           | PFun fn => defineChainableMethod a methodName fn
           | PData _ | PThrows => ret tt
           end) members tt st = Ok (tt, st') ->
  is_Some (namespaces st' !! a) /\
  (forall m fn, In (m, PFun fn) members -> nativeMethodProhibited m = false ->
                proto_has a m (FChainable fn) st') /\
  (forall m f, nativeMethodProhibited m = true \/ ~ In m (map fst members) ->
               proto_has a m f st -> proto_has a m f st').
Proof.
  revert st. induction members as [|[k p] members IH]; intros st Hnd Hns; cbn [foldM].
  - intros [= <-]. by repeat split.
  - intros ([] & s1 & Hstep & Hrest)%bind_Ok.
    cbn [map fst] in Hnd. apply NoDup_cons in Hnd as [Hk Hnd].
    assert (Hns1 : is_Some (namespaces s1 !! a)).
    { destruct (nativeMethodProhibited k); [by injection Hstep as <-|].
      destruct p; try (by injection Hstep as <-).
      by apply (defineChainableMethod_namespace a _ _ _ _ _ _ Hstep). }
    destruct (IH s1 Hnd Hns1 Hrest) as (Hns' & Hnew & Hold).
    split; [done|]. split.
    + intros m fn [[= -> ->]|Hin] Hm.
      * apply Hold.
        { right. intros Hin. apply Hk. by apply list_elem_of_In. }
        rewrite Hm in Hstep.
        by destruct (defineChainableMethod_has _ _ _ _ _ Hns Hstep).
      * by apply Hnew.
    + intros m f Hm Hhas. apply Hold.
      { destruct Hm as [?|Hm]; [by left|right]. intros Hin. apply Hm. by right. }
      destruct (nativeMethodProhibited k) eqn:Hpk; [by injection Hstep as <-|].
      destruct p; try (by injection Hstep as <-).
      apply (defineChainableMethod_keeps a m f a k f0) in Hstep; [by apply Hstep|].
      right. intros ->. destruct Hm as [Hm|Hm]; [congruence|]. apply Hm. by left.
Qed.

(** X27. [createNamespace(name)] gives the chainable class of the new
    namespace the methods of the native prototype: for every function
    member of the prototype of the native class, except [constructor],
    [valueOf] and [__proto__], the prototype of the chainable has a member
    of that name that wraps the result of the native method; its own
    [constructor] and [valueOf] stay. *)
Theorem createNamespace_maps_native_methods (name : string) (st st' : state)
  (a : nat) (n : native) :
  createNamespace name st = Ok (a, st') ->
  assoc name (globalContext st) = Some n ->
  NoDup (map fst (n_proto n)) ->
  (forall m fn, assoc m (n_proto n) = Some (PFun fn) ->
                nativeMethodProhibited m = false ->
                proto_has a m (FChainable fn) st') /\
  proto_has a "constructor" (FConstructor (Some a)) st' /\
  proto_has a "valueOf" FValueOf st'.
Proof.
  intros Hrun Hn Hnd. revert Hrun. unfold createNamespace, getNewChainableClass.
  destruct (isSugarMember name); [discriminate|].
  intros (a' & s1 & H1 & H)%bind_Ok.
  apply bind_Ok in H1 as (s0 & ? & [= <- <-] & H1).
  apply bind_Ok in H1 as ([] & ? & [= <-] & [= <- <-]).
  apply bind_Ok in H as ([] & s2 & [= <-] & H).
  apply bind_Ok in H as ([] & s3 & [= <-] & H).
  apply bind_Ok in H as ([] & s4 & H4 & H).
  apply bind_Ok in H as ([] & s5 & H5 & H).
  apply bind_Ok in H as ([] & s6 & [= <-] & [= <- <-]).
  set (a := length (namespaces st)) in *.
  set (s3 := set_namespacesByClassString _ _) in *.
  assert (Ha3 : namespaces s3 !! a =
                Some (mkNamespace name [] false
                        [("constructor", mkEntry (FConstructor (Some a)) false);
                         ("valueOf", mkEntry FValueOf false)])).
  { unfold s3, a. cbn. rewrite lookup_app_r by lia. by rewrite Nat.sub_diag. }
  revert H4. unfold mapNativeToChainable.
  intros (? & ? & [= <- <-] & H4)%bind_Ok.
  apply bind_Ok in H4 as (ns & sb & Hns & H4).
  assert (Hgc : globalContext s3 = globalContext st) by done.
  assert (ns = a /\ sb = s3) as [-> ->].
  { unfold s3 in Hns. cbn in Hns. rewrite assoc_table_set in Hns.
    by injection Hns as <- <-. }
  rewrite Hgc, Hn in H4.
  destruct (mapNativeToChainable_loop a (n_proto n) s3 s4 Hnd
              ltac:(by rewrite Ha3) H4) as (Hns4 & Hnew & Hold).
  assert (H5' : forall m f, proto_has a m f s4 -> proto_has a m f s5).
  { intros m f. revert H5. unfold mapObjectChainablesToNamespace, getNamespace.
    apply (respects_bind (hands_on (proto_has a m f)));
      [apply respects_getState; apply _|].
    repeat (respects_step || apply setObjectChainableOnNamespace_has). }
  assert (H6 : forall m f, proto_has a m f s5 ->
                 proto_has a m f (set_Sugar (table_set name a (Sugar s5)) s5)).
  { intros m f (o & e & Ho & He & Hf). by exists o, e. }
  split; [|split].
  - intros m fn Hm Hp. apply H6, H5', Hnew; [|done]. by apply assoc_Some_In.
  - apply H6, H5', Hold; [by left|]. eexists _, _. split; [exact Ha3|]. by cbn.
  - apply H6, H5', Hold; [by left|]. eexists _, _. split; [exact Ha3|]. by cbn.
Qed.

Lemma createNamespace_maps_native_methods_witness :
  proto_has 0 "toString" (FChainable (FNative "Boolean" "toString" 0)) afterBoolean /\
  proto_has 0 "valueOf" FValueOf afterBoolean.
Proof.
  destruct (createNamespace_maps_native_methods "Boolean" (initial sampleGlobals)
              afterBoolean 0
              (mkNative [] [("toString", PFun (FNative "Boolean" "toString" 0));
                            ("valueOf", PFun (FNative "Boolean" "valueOf" 0))]))
    as (Hnew & _ & Hvalue).
  - vm_compute. reflexivity.
  - reflexivity.
  - apply NoDup_cons. split; [by intros [=]%list_elem_of_singleton|].
    apply NoDup_singleton.
  - split; [|exact Hvalue]. by apply Hnew.
Defined.


(** ** Equality of flat objects *)

(** [isEqual] on primitive values, at any depth and with any stack. *)
Lemma isEqual_primitives (h : heap) (fuel : nat) (a b : value) (t : trav) :
  primitive a -> primitive b ->
  exists r, isEqual (S (S fuel)) h a b t = Ok (r, t) /\ (r = true <-> a = b).
Proof.
  intros Ha Hb.
  destruct a as [| |x|x|s|?], b as [| |y|y|s'|?]; try done;
    try (exists false; split; [reflexivity | done]);
    try (exists true; split; [reflexivity | done]).
  - destruct x, y;
      (exists false; split; [reflexivity | done]) ||
      (exists true; split; [reflexivity | done]).
  - destruct (isEqual_numbers h (S fuel) x y t) as (r & -> & Hr).
    exists r. split; [done|]. rewrite Hr. split; congruence.
  - exists (String.eqb s s'). split.
    + cbn [isEqual]. unfold isEqual_body. cbn [strict_eq].
      destruct (String.eqb s s') eqn:Hs; [done|].
      transitivity (Ok (String.eqb s s', t)); [by destruct s | by rewrite Hs].
    + rewrite String.eqb_eq. split; congruence.
Qed.

(** A key that is no name of a member of [Object.prototype] and is not
    [length] or [join]. *)
Definition ordinary (key : string) : bool :=
  negb (mem_str key object_proto_names) &&
  negb (String.eqb key "length") && negb (String.eqb key "join").

(** An object literal with primitive values under ordinary keys. *)
Definition flat (props : list (string * value)) : Prop :=
  NoDup (map fst props) /\
  Forall (fun member => ordinary (fst member) = true /\ primitive (snd member)) props.

Lemma flat_assoc (props : list (string * value)) (key : string) (v : value) :
  flat props -> assoc key props = Some v -> ordinary key = true /\ primitive v.
Proof.
  intros [_ Hall] Hk%assoc_Some_In. rewrite Forall_forall in Hall.
  by apply (Hall (key, v)), list_elem_of_In.
Qed.

Lemma flat_special (props : list (string * value)) (key : string) :
  flat props -> ordinary key = false -> assoc key props = None.
Proof.
  intros Hflat Hkey. destruct (assoc key props) as [v|] eqn:Hk; [|done].
  destruct (flat_assoc _ _ _ Hflat Hk). congruence.
Qed.

Lemma ordinary_absent (key : string) :
  ordinary key = true -> hidden_prop KObject key = HAbsent.
Proof.
  unfold ordinary, hidden_prop.
  by intros [[->%negb_true_iff _]%andb_true_iff _]%andb_true_iff.
Qed.

Lemma hasIn_flat (h : heap) (b : nat) (pb : list (string * value)) (key : string) :
  h !! b = Some (mkObject KObject pb) -> ordinary key = true ->
  hasIn h (VRef b) key =
  Ok (match assoc key pb with Some _ => true | None => false end).
Proof.
  intros Hb Hkey. unfold hasIn. rewrite Hb. cbn [oprops okind].
  destruct (assoc key pb); [done|]. by rewrite (ordinary_absent _ Hkey).
Qed.

(** The loop of [objectIsEqual] over the properties of a flat object. *)
Lemma equalStep_loop (h : heap) (a b : nat) (pb : list (string * value))
  (fuel : nat) (l : list (string * value)) :
  h !! b = Some (mkObject KObject pb) ->
  flat pb ->
  Forall (fun member =>
            getProp h (VRef a) (fst member) = Ok (snd member) /\
            ordinary (fst member) = true /\ primitive (snd member)) l ->
  forall (propsEqual : bool) (count : nat) (t : trav),
  stack t = [] ->
  exists propsEqual',
    foldM (fun acc key =>
             let* val := liftR (getProp h (VRef a) key) in
             next (equalStep (isEqual (S (S fuel)) h) h (VRef b)) val key acc)
      (map fst l) (propsEqual, count) t =
      Ok ((propsEqual', (count + length l)%nat), t) /\
    (propsEqual' = true <->
     propsEqual = true /\
     Forall (fun member => assoc (fst member) pb = Some (snd member)) l).
Proof.
  intros Hb Hflat Hl. induction Hl as [|[k v] l (Hget & Hk & Hv) _ IH];
    intros propsEqual count t Ht.
  - exists propsEqual. cbn [map foldM length]. rewrite Nat.add_0_r.
    split; [done|]. split; [by intros -> | by intros [-> _]].
  - cbn [map foldM fst snd length] in *.
    assert (Hstep : exists r,
      (let* val := liftR (getProp h (VRef a) k) in
       next (equalStep (isEqual (S (S fuel)) h) h (VRef b)) val k
         (propsEqual, count)) t = Ok ((r, S count), t) /\
      (r = true <-> propsEqual = true /\ assoc k pb = Some v)).
    { unfold bind at 1. rewrite Hget. cbn [liftR]. unfold next.
      unfold bind at 1. cbn [getState]. unfold onStack. rewrite Ht.
      cbn [length Nat.ltb Nat.leb]. unfold bind at 1. unfold pushStack.
      cbn [modifyState]. rewrite Ht. cbn [app refs stack].
      unfold bind at 1. unfold equalStep. unfold bind at 1. unfold bind at 1.
      rewrite (hasIn_flat _ _ _ _ Hb Hk). cbn [liftR].
      destruct (assoc k pb) as [vb|] eqn:Hkb; cbn [negb].
      - unfold bind at 1.
        rewrite (getProp_object _ _ _ _ Hb), Hkb. cbn [liftR].
        destruct (flat_assoc _ _ _ Hflat Hkb) as [_ Hvb].
        destruct (isEqual_primitives h fuel v vb (mkTrav (refs t) [v]) Hv Hvb)
          as (r & Hr & Hiff).
        unfold bind at 1. rewrite Hr. cbn [ret]. unfold bind at 1.
        unfold popStack. cbn [modifyState refs stack removelast ret].
        exists (if r then propsEqual else false). split.
        + destruct t as [rs st]. cbn in Ht. by subst st.
        + destruct r.
          * split; [intros ->; split; [done|]; f_equal; symmetry; by apply Hiff
                   |by intros [-> _]].
          * split; [done|]. intros [_ [= E]]. symmetry in E.
            by apply Hiff in E.
      - cbn [ret]. unfold bind at 1. unfold popStack.
        cbn [modifyState refs stack removelast ret].
        exists false. split.
        + destruct t as [rs st]. cbn in Ht. by subst st.
        + split; [done | by intros [_ ?]]. }
    destruct Hstep as (r & Hstep & Hr).
    destruct (IH r (S count) t Ht) as (r' & Hrest & Hr').
    exists r'. split.
    + unfold bind at 1. cbn beta. rewrite Hstep.
      rewrite Hrest. do 3 f_equal. lia.
    + rewrite Hr', Hr, Forall_cons. cbn [fst snd]. tauto.
Qed.

Lemma In_assoc {A} (key : string) (v : A) (l : list (string * A)) :
  NoDup (map fst l) -> In (key, v) l -> assoc key l = Some v.
Proof.
  induction l as [|[k w] l IH]; [done|]. cbn [map fst assoc].
  intros [Hk Hnd]%NoDup_cons [[= -> ->]|Hin].
  - by rewrite String.eqb_refl.
  - destruct (String.eqb_spec k key) as [->|_]; [|by apply IH].
    exfalso. apply Hk. apply list_elem_of_In. by apply (in_map fst) in Hin.
Qed.

Lemma flat_object_facts (h : heap) (a : nat) (pa : list (string * value)) :
  h !! a = Some (mkObject KObject pa) -> flat pa ->
  classToString h (VRef a) = Some "[object Object]" /\
  isSerializable h (VRef a) "[object Object]" = true /\
  typeof h (VRef a) = "object" /\
  getProp h (VRef a) "length" = Ok VUndefined /\
  callToString h (VRef a) = Ok "[object Object]" /\
  valueOf h (VRef a) = Ok (VRef a) /\
  Forall (fun member =>
            getProp h (VRef a) (fst member) = Ok (snd member) /\
            ordinary (fst member) = true /\ primitive (snd member)) pa.
Proof.
  intros Ha Hflat.
  pose proof (flat_special pa "constructor" Hflat eq_refl) as Hctor.
  pose proof (flat_special pa "length" Hflat eq_refl) as Hlen.
  pose proof (flat_special pa "toString" Hflat eq_refl) as Hts.
  pose proof (flat_special pa "join" Hflat eq_refl) as Hjoin.
  pose proof (flat_special pa "valueOf" Hflat eq_refl) as Hvalue.
  split; [|split; [|split; [|split; [|split; [|split]]]]].
  - unfold classToString. by rewrite Ha.
  - unfold isSerializable, isPlainObject, isObjectType,
      hasValidPlainObjectPrototype, typeof. by rewrite Ha, Hctor.
  - unfold typeof. by rewrite Ha.
  - by rewrite (getProp_object _ _ _ _ Ha), Hlen.
  - unfold callToString, toString. cbn [toStringObj]. rewrite Ha.
    unfold overridesToString. cbn [oprops okind]. by rewrite Hts, Hjoin.
  - unfold valueOf. rewrite Ha. cbn [oprops okind]. by rewrite Hvalue.
  - destruct Hflat as [Hnd Hall]. rewrite Forall_forall in Hall |- *.
    intros [k v] Hin. destruct (Hall _ Hin) as [Hk Hv]. cbn [fst snd] in *.
    split; [|done]. rewrite (getProp_object _ _ _ _ Ha).
    by rewrite (In_assoc k v pa Hnd) by (by apply (proj1 (list_elem_of_In _ _))).
Qed.

(** Two lists that say the same at every key. *)
Lemma same_lookup_iff (pa pb : list (string * value)) :
  NoDup (map fst pa) -> NoDup (map fst pb) ->
  (Forall (fun member => assoc (fst member) pb = Some (snd member)) pa /\
   length pa = length pb) <->
  (forall key, assoc key pa = assoc key pb).
Proof.
  intros Ha Hb. split.
  - intros [Hall Hlen] key.
    assert (Hsub : forall k, k ∈ map fst pa -> k ∈ map fst pb).
    { intros k Hk. apply list_elem_of_In, in_map_iff in Hk as (kv & <- & Hin).
      apply (proj2 (list_elem_of_In _ _)) in Hin.
      rewrite Forall_forall in Hall. specialize (Hall _ Hin).
      apply assoc_Some_In, (in_map fst) in Hall.
      by apply (proj2 (list_elem_of_In _ _)). }
    assert (Hperm : map fst pa ≡ₚ map fst pb).
    { apply submseteq_length_Permutation.
      - by apply NoDup_submseteq.
      - rewrite !length_map. lia. }
    destruct (assoc key pa) as [v|] eqn:Hk.
    + rewrite Forall_forall in Hall. symmetry.
      apply (Hall (key, v)). by apply (proj2 (list_elem_of_In _ _)), assoc_Some_In.
    + symmetry. apply assoc_None_keys. rewrite <- Hperm.
      by apply assoc_None_keys.
  - intros Hsame. split.
    + apply Forall_forall. intros [k v] Hin. cbn [fst snd].
      rewrite <- Hsame. apply In_assoc; [done | by apply (proj1 (list_elem_of_In _ _))].
    + rewrite <- (length_map fst pa), <- (length_map fst pb).
      apply Permutation_length, NoDup_Permutation; [done..|].
      intros k. pose proof (assoc_None_keys k pa) as Ka.
      pose proof (assoc_None_keys k pb) as Kb. rewrite Hsame in Ka.
      destruct (decide (k ∈ map fst pa)), (decide (k ∈ map fst pb)); tauto.
Qed.

Lemma isEqual_S (fuel : nat) (h : heap) (a b : value) :
  isEqual (S fuel) h a b = isEqual_body (isEqual fuel h) h a b.
Proof. reflexivity. Qed.

(** X28. Two object literals with primitive values under ordinary keys are
    equal for [isEqual] exactly when they have the same keys with the same
    values, in whatever order the keys were added. *)
Theorem equal_flat_objects (h : heap) (a b : nat) (pa pb : list (string * value)) :
  h !! a = Some (mkObject KObject pa) -> h !! b = Some (mkObject KObject pb) ->
  flat pa -> flat pb ->
  exists r, equal h (VRef a) (VRef b) = Ok r /\
            (r = true <-> forall key, assoc key pa = assoc key pb).
Proof.
  intros Ha Hb Hfa Hfb.
  destruct (decide (a = b)) as [->|Hab].
  { exists true. split.
    - unfold equal, depth_bound. cbn [Nat.add isEqual]. unfold isEqual_body.
      cbn [strict_eq]. by rewrite Nat.eqb_refl.
    - rewrite Ha in Hb. by injection Hb as ->. }
  destruct (flat_object_facts h a pa Ha Hfa)
    as (Hca & Hsa & Hta & Hla & Hstra & Hva & Hpa).
  destruct (flat_object_facts h b pb Hb Hfb)
    as (Hcb & Hsb & Htb & Hlb & Hstrb & Hvb & _).
  destruct (equalStep_loop h a b pb (length h) pa Hb Hfb Hpa true 0 (mkTrav [] [])
              eq_refl) as (propsEqual & Hloop & Hprops).
  exists (propsEqual && (length pa =? length pb)%nat). split.
  - unfold equal, depth_bound. change (3 + length h)%nat with (S (S (S (length h)))).
    rewrite isEqual_S. unfold isEqual_body.
    cbn [strict_eq]. rewrite (proj2 (Nat.eqb_neq a b) Hab), Hca, Hcb.
    unfold bind at 1. cbn [liftOpt ret]. unfold bind at 1. cbn [liftOpt ret].
    change (negb (String.eqb "[object Object]" "[object Object]")) with false.
    cbv iota. rewrite Hsa, Hsb. cbn [andb].
    unfold objectIsEqual. rewrite Hta, Htb.
    change (negb (String.eqb "object" "object")) with false. cbv iota.
    unfold bind at 1. rewrite Hva. cbn [liftR].
    assert (Hobj : isObjectType h (VRef a) = true).
    { unfold isObjectType. by rewrite Hta. }
    rewrite Hobj. unfold bind at 1. unfold bind at 1. rewrite Hla. cbn [liftR].
    unfold bind at 1. rewrite Hlb. cbn [liftR strict_eq negb].
    unfold bind at 1. unfold iterateWithCyclicCheck. rewrite Ha.
    unfold getKeys. cbn [oprops]. cbn [Nat.add] in Hloop. rewrite Hloop.
    unfold bind at 1. rewrite Hb. cbn [fmap option_fmap option_map liftOpt ret].
    unfold getKeys. cbn [oprops]. rewrite length_map.
    destruct propsEqual, (length pa =? length pb)%nat; cbn [negb orb andb ret];
      try reflexivity.
    unfold bind. rewrite Hvb. cbn [liftR]. rewrite Hstra, Hstrb. reflexivity.
  - rewrite <- same_lookup_iff by (apply Hfa || apply Hfb).
    rewrite andb_true_iff, Nat.eqb_eq, Hprops. tauto.
Qed.

(** Two object literals with the same properties, added in two orders. *)
Definition shuffled : heap :=
  [mkObject KObject [("x", VNum (Int 1)); ("y", VStr "two")];
   mkObject KObject [("y", VStr "two"); ("x", VNum (Int 1))]].

Lemma equal_flat_objects_witness :
  exists r, equal shuffled (VRef 0) (VRef 1) = Ok r /\
            (r = true <->
             forall key, assoc key [("x", VNum (Int 1)); ("y", VStr "two")] =
                         assoc key [("y", VStr "two"); ("x", VNum (Int 1))]).
Proof.
  apply (equal_flat_objects shuffled 0 1); [reflexivity | reflexivity | |];
    (split; [|by repeat constructor]);
    (apply NoDup_cons; split; [by intros [=]%list_elem_of_singleton|]);
    apply NoDup_singleton.
Defined.


(** ** Ranges of an array *)

Lemma span_app (p : ascii -> bool) (s t : string) :
  all_chars p s = true ->
  match t with EmptyString => True | String c _ => p c = false end ->
  span p (s +:+ t) = (s, t).
Proof.
  intros Hs Ht. induction s as [|c s IH].
  - change ("" +:+ t) with t. destruct t as [|c t]; [done|]. cbn [span].
    by rewrite Ht.
  - cbn [all_chars] in Hs. apply andb_true_iff in Hs as [Hc Hs].
    change (String c s +:+ t) with (String c (s +:+ t)). cbn [span].
    by rewrite Hc, (IH Hs).
Qed.

Lemma Z_to_string_range_chars (k : Z) :
  all_chars is_range_char (Z_to_string k) = true.
Proof. apply Z_to_string_chars. Qed.

Lemma Z_to_string_nonempty (k : Z) : Z_to_string k <> "".
Proof.
  destruct (Z_to_string_shape k) as (s & _ & Hne & ->). by destruct (Z.ltb k 0).
Qed.

(** The key of a range [[i..j]]. *)
Definition range_key (i j : Z) : string :=
  "[" +:+ Z_to_string i +:+ ".." +:+ Z_to_string j +:+ "]".

Lemma PROPERTY_RANGE_REG_range (i j : Z) :
  PROPERTY_RANGE_REG (range_key i j) = Some ("", Z_to_string i, Z_to_string j, "").
Proof.
  unfold PROPERTY_RANGE_REG, range_key.
  change ("[" +:+ Z_to_string i +:+ ".." +:+ Z_to_string j +:+ "]")
    with (String "[" (Z_to_string i +:+ String "." (String "." (Z_to_string j +:+ "]")))).
  assert (Hhere : match_range_here
            (String "[" (Z_to_string i +:+ String "." (String "." (Z_to_string j +:+ "]")))) =
          Some (Z_to_string i, Z_to_string j, "")).
  { cbn [match_range_here].
    rewrite (span_app is_range_char (Z_to_string i)) by (done || apply Z_to_string_range_chars).
    rewrite (span_app is_range_char (Z_to_string j)) by (done || apply Z_to_string_range_chars).
    done. }
  destruct (Z_to_string i +:+ _) eqn:E; cbn [match_range_from]; by rewrite Hhere.
Qed.

Lemma contains_range_key (i j : Z) : contains ".." (range_key i j) = true.
Proof.
  unfold range_key.
  change ("[" +:+ Z_to_string i +:+ ".." +:+ Z_to_string j +:+ "]")
    with (String "[" (Z_to_string i +:+ String "." (String "." (Z_to_string j +:+ "]")))).
  cbn [contains]. apply orb_true_iff. right.
  generalize (Z_to_string j +:+ "]"). intros rest.
  induction (Z_to_string i) as [|c s IH].
  - change ("" +:+ String "." (String "." rest)) with (String "." (String "." rest)).
    cbn [contains]. apply orb_true_iff. left.
    cbn [String.prefix].
    destruct (ascii_dec "." ".") as [_|Hne]; [|by destruct Hne].
    by destruct rest.
  - change (String c s +:+ String "." (String "." rest))
      with (String c (s +:+ String "." (String "." rest))).
    cbn [contains]. apply orb_true_iff. by right.
Qed.

Lemma index_key_eqb (m n : nat) :
  String.eqb (index_key m) (index_key n) = (m =? n)%nat.
Proof.
  destruct (Nat.eqb_spec m n) as [->|Hne]; [apply String.eqb_refl|].
  apply String.eqb_neq. intros E. by apply Hne, index_key_inj.
Qed.

Lemma omap_cons_eq {A B} (f : A -> option B) (x : A) (l : list A) :
  omap f (x :: l) = match f x with Some y => y :: omap f l | None => omap f l end.
Proof. reflexivity. Qed.

(** The elements [slice] copies. *)
Lemma slice_elements (props : list (string * value)) (k0 s c n : nat) :
  assoc (index_key n)
    (omap (fun m =>
             match assoc (index_key (k0 + m)) props with
             | Some v => Some (index_key m, v)
             | None => None
             end) (seq s c)) =
  if ((s <=? n) && (n <? s + c))%nat then assoc (index_key (k0 + n)) props
  else None.
Proof.
  revert s. induction c as [|c IH]; intros s.
  - cbn [seq omap assoc].
    destruct (s <=? n)%nat eqn:E1, (n <? s + 0)%nat eqn:E2; try done.
    apply Nat.leb_le in E1. apply Nat.ltb_lt in E2. lia.
  - cbn [seq]. rewrite omap_cons_eq. rewrite Nat.add_succ_r, <- Nat.add_succ_l.
    destruct (Nat.eq_dec s n) as [->|Hne].
    + rewrite Nat.leb_refl.
      destruct (Nat.ltb_spec n (S n + c)) as [_|?]; [|lia]. cbn [andb].
      destruct (assoc (index_key (k0 + n)) props) as [v|] eqn:Hv.
      * cbn [assoc]. by rewrite index_key_eqb, Nat.eqb_refl.
      * rewrite IH. destruct (Nat.leb_spec (S n) n); [lia | done].
    + assert (Hrest : ((s <=? n) && (n <? S s + c))%nat =
                      ((S s <=? n) && (n <? S s + c))%nat).
      { destruct (Nat.leb_spec s n), (Nat.leb_spec (S s) n); try done; lia. }
      rewrite Hrest, <- IH.
      destruct (assoc (index_key (k0 + s)) props) as [v|]; [|done].
      cbn [assoc]. rewrite index_key_eqb.
      by destruct (Nat.eqb_spec s n).
Qed.

(** X29. On an array [deepGetProperty] with the range [[i..j]] returns a
    new array with the elements from index [i] to index [j], both
    included, and for [j = -1] to the end of the array; the holes of the
    array are holes of the result, and the array itself is not changed. *)
Theorem get_range (h : heap) (a len : nat) (props : list (string * value))
  (any : value) (i : nat) (j : Z) :
  h !! a = Some (mkObject (KArray len) props) ->
  assoc "length" props = None ->
  Z.of_nat len < 2 ^ 32 ->
  -1 <= j < Z.of_nat len ->
  let stop := if Z.eqb j (-1) then len else Z.to_nat (j + 1) in
  (i <= stop)%nat ->
  exists copied,
    deepGetProperty (VRef a) (VStr (range_key (Z.of_nat i) j)) any h =
      Ok (VRef (length h), h ++ [mkObject (KArray (stop - i)) copied]) /\
    forall n, assoc (index_key n) copied =
              if (n <? stop - i)%nat then assoc (index_key (i + n)) props
              else None.
Proof.
  intros Ha Hl Hlen Hj stop Hi.
  assert (Hstop : (stop <= len)%nat).
  { unfold stop. destruct (Z.eqb_spec j (-1)); lia. }
  eexists. split.
  - unfold deepGetProperty, key_fuel. unfold bind at 1. cbn [getState].
    cbn [handleDeepProperty]. unfold handleDeepProperty_body.
    unfold bind at 1. cbn [getState].
    assert (Hobj : isObjectType h (VStr (range_key (Z.of_nat i) j)) = false).
    { unfold isObjectType. cbn [typeof]. apply andb_false_r. }
    rewrite Hobj. unfold bind at 1. unfold bind at 1.
    cbn [toString prim_to_string liftR]. rewrite contains_range_key. cbn [ret].
    unfold handleArrayIndexRange. rewrite PROPERTY_RANGE_REG_range.
    cbn [strict_eq negb String.eqb]. unfold bind at 1. cbn [ret].
    unfold bind at 1. unfold assertArray. unfold bind at 1. cbn [getState].
    unfold isArray. rewrite Ha. cbn [ret].
    unfold bind at 1. unfold readH at 1.
    rewrite (getProp_length _ _ _ _ Ha Hl). cbn [mbind result_bind].
    rewrite (proj2 (String.eqb_neq _ _) (Z_to_string_nonempty (Z.of_nat i))).
    rewrite (proj2 (String.eqb_neq _ _) (Z_to_string_nonempty j)).
    cbn [negb]. unfold bind at 1.
    rewrite (str_to_number_Z_to_string (Z.of_nat i)) by lia. cbn [liftOpt ret].
    unfold bind at 1.
    rewrite (str_to_number_Z_to_string j) by lia. cbn [liftOpt ret].
    cbn [num_eqb to_number]. unfold bind at 1.
    assert (Hfinal :
      (if Z.eqb j (-1) then liftOpt (Some (Int (Z.of_nat len)))
       else liftOpt (num_add (Int j) (Int 1))) h =
      Ok (Int (Z.of_nat stop), h)).
    { unfold stop. destruct (Z.eqb_spec j (-1)); [done|].
      cbn [num_add]. destruct (Z.ltb_spec (Z.abs (j + 1)) (2 ^ 53)); [|lia].
      cbn [liftOpt ret]. by rewrite Z2Nat.id by lia. }
    rewrite Hfinal. unfold bind at 1. unfold slice. unfold bind at 1.
    cbn [getState]. rewrite Ha. cbn [to_integer liftOpt ret].
    unfold bind at 1. cbn [ret]. unfold bind at 1. cbn [ret].
    destruct (Z.ltb_spec (Z.of_nat i) 0) as [?|_]; [lia|].
    destruct (Z.ltb_spec (Z.of_nat stop) 0) as [?|_]; [lia|].
    rewrite (Z.min_l (Z.of_nat i)) by lia.
    rewrite (Z.min_l (Z.of_nat stop)) by lia.
    replace (Z.to_nat (Z.of_nat stop - Z.of_nat i)) with (stop - i)%nat by lia.
    rewrite Nat2Z.id. unfold bind at 1. unfold alloc at 1. cbn [ret].
    reflexivity.
  - intros n. rewrite slice_elements. cbn [Nat.leb Nat.add andb]. done.
Qed.

Lemma get_range_witness :
  exists copied,
    deepGetProperty (VRef 0) (VStr (range_key (Z.of_nat 1) (-1))) VUndefined tens =
      Ok (VRef (length tens), tens ++ [mkObject (KArray (4 - 1)) copied]) /\
    forall n, assoc (index_key n) copied =
              if (n <? 4 - 1)%nat
              then assoc (index_key (1 + n))
                     (oprops (array_of [VNum (Int 10); VNum (Int 20);
                                        VNum (Int 30); VNum (Int 40)]))
              else None.
Proof.
  apply (get_range tens 0 4
           (oprops (array_of [VNum (Int 10); VNum (Int 20); VNum (Int 30);
                              VNum (Int 40)])) VUndefined 1 (-1));
    [reflexivity | reflexivity | lia | lia | cbn; lia].
Defined.


(** ** The namespaces of the natives *)

(** What identifies a namespace beside its prototype. *)
Definition identity (o : namespace) : string * list (string * method) * bool :=
  (ns_name o, ns_methods o, ns_active o).

Lemma identity_proto name methods active proto proto' :
  identity (mkNamespace name methods active proto') =
  identity (mkNamespace name methods active proto).
Proof. reflexivity. Qed.

Lemma getNewChainableClass_kept {A} (proj : namespace -> A) (name : string) :
  respects (kept proj) (getNewChainableClass name).
Proof.
  intros st a st' Hrun ns o Ho. revert Hrun. unfold getNewChainableClass.
  intros (? & ? & [= <- <-] & Hrun)%bind_Ok.
  apply bind_Ok in Hrun as ([] & ? & [= <-] & [= _ <-]).
  exists o. split; [|done]. cbn. by apply lookup_app_l_Some.
Qed.

Lemma mapNativeToChainable_kept (name : string) :
  respects (kept identity) (mapNativeToChainable name).
Proof.
  unfold mapNativeToChainable.
  repeat (kept_step
          || apply (defineChainableMethod_kept identity identity_proto)).
Qed.

Lemma mapObjectChainablesToNamespace_kept (ns : nat) :
  respects (kept identity) (mapObjectChainablesToNamespace ns).
Proof.
  unfold mapObjectChainablesToNamespace, getNamespace.
  repeat (kept_step
          || apply (setObjectChainableOnNamespace_kept identity identity_proto)).
Qed.

Lemma createNamespace_kept (name : string) :
  respects (kept identity) (createNamespace name).
Proof.
  unfold createNamespace.
  repeat (kept_step || apply getNewChainableClass_kept
          || apply mapNativeToChainable_kept
          || apply mapObjectChainablesToNamespace_kept).
Qed.

(** The namespace [createNamespace] makes, and the entries of the tables
    under other names. *)
Lemma createNamespace_new (name : string) (st st1 : state) (a : nat) :
  createNamespace name st = Ok (a, st1) ->
  (exists o, namespaces st1 !! a = Some o /\ identity o = (name, [], false)) /\
  forall name', name' <> name ->
    assoc name' (Sugar st1) = assoc name' (Sugar st) /\
    assoc name' (namespacesByName st1) = assoc name' (namespacesByName st).
Proof.
  unfold createNamespace, getNewChainableClass.
  destruct (isSugarMember name); [discriminate|].
  intros (a' & s1 & H1 & H)%bind_Ok.
  apply bind_Ok in H1 as (s0 & ? & [= <- <-] & H1).
  apply bind_Ok in H1 as ([] & ? & [= <-] & [= <- <-]).
  apply bind_Ok in H as ([] & s2 & [= <-] & H).
  apply bind_Ok in H as ([] & s3 & [= <-] & H).
  apply bind_Ok in H as ([] & s4 & H4 & H).
  apply bind_Ok in H as ([] & s5 & H5 & H).
  apply bind_Ok in H as ([] & s6 & [= <-] & [= <- <-]).
  set (s3 := set_namespacesByClassString _ _) in *.
  assert (Ha3 : exists o, namespaces s3 !! length (namespaces st) = Some o /\
                          identity o = (name, [], false)).
  { unfold s3. cbn. rewrite lookup_app_r by lia. rewrite Nat.sub_diag.
    eexists. split; [reflexivity|]. reflexivity. }
  destruct Ha3 as (o3 & Ho3 & Hid3).
  pose proof (mapNativeToChainable_kept _ _ _ _ H4) as K4.
  pose proof (mapObjectChainablesToNamespace_kept _ _ _ _ H5) as K5.
  destruct (K4 _ _ Ho3) as (o4 & Ho4 & Hid4).
  destruct (K5 _ _ Ho4) as (o5 & Ho5 & Hid5).
  apply mapNativeToChainable_tables in H4 as (L4 & N4 & C4 & S4 & G4 & _).
  apply mapObjectChainablesToNamespace_tables in H5 as (L5 & N5 & C5 & S5 & G5 & _).
  split.
  - exists o5. split; [done | congruence].
  - intros name' Hne. cbn [Sugar set_Sugar namespacesByName].
    rewrite S5, S4, N5, N4. unfold s3. cbn.
    by rewrite !assoc_table_set_other.
Qed.

(** The loop of [setupGlobal]. *)
Lemma setupGlobal_loop (names : list string) :
  NoDup names ->
  Forall (fun name => isSugarMember name = false) names ->
  forall st,
  sound st ->
  (forall name, name ∈ names -> ready (globalContext st) name = true) ->
  exists st',
    foldM (fun _ name => let* _ := createNamespace name in ret tt) names tt st =
      Ok (tt, st') /\
    kept identity st st' /\
    length (namespaces st') = (length (namespaces st) + length names)%nat /\
    (forall name, name ∉ names ->
       assoc name (Sugar st') = assoc name (Sugar st) /\
       assoc name (namespacesByName st') = assoc name (namespacesByName st)) /\
    forall i name, names !! i = Some name ->
      assoc name (Sugar st') = Some (length (namespaces st) + i)%nat /\
      assoc name (namespacesByName st') = Some (length (namespaces st) + i)%nat /\
      exists o, namespaces st' !! (length (namespaces st) + i)%nat = Some o /\
                identity o = (name, [], false).
Proof.
  induction 1 as [|name names Hname Hnd IH]; intros Hmembers st Hsound Hready;
    [|apply Forall_cons in Hmembers as [Hmember Hmembers]].
  - exists st. cbn [foldM length]. rewrite Nat.add_0_r.
    split; [done|]. split; [reflexivity|]. split; [done|]. split; [done|].
    intros i name. by rewrite lookup_nil.
  - destruct (createNamespace_ok name st Hsound) as (a & s1 & Hrun);
      [apply Hready; by left | done |].
    pose proof (createNamespace_spec _ _ _ _ Hrun) as (-> & L1 & N1 & _ & S1 & G1).
    pose proof (createNamespace_sound _ _ _ _ Hsound Hrun) as Hsound1.
    pose proof (createNamespace_kept _ _ _ _ Hrun) as K1.
    destruct (createNamespace_new _ _ _ _ Hrun) as ((o1 & Ho1 & Hid1) & Hother1).
    destruct (IH Hmembers s1 Hsound1) as (st' & Hrest & K & L & Hother & Hnew).
    { intros name' Hin. rewrite G1. apply Hready. by right. }
    exists st'. split; [|split; [|split; [|split]]].
    + cbn [foldM]. unfold bind at 1. unfold bind at 1. by rewrite Hrun.
    + by transitivity s1.
    + rewrite L, L1. cbn [length]. lia.
    + intros name' [Hne Hnin]%not_elem_of_cons.
      destruct (Hother name' Hnin) as [-> ->]. by apply Hother1.
    + intros [|i] name' Hi; cbn in Hi.
      * injection Hi as <-. rewrite Nat.add_0_r.
        destruct (Hother name Hname) as [-> ->]. split; [done|]. split; [done|].
        destruct (K _ _ Ho1) as (o' & Ho' & Hid'). exists o'.
        split; [done | congruence].
      * destruct (Hnew i name' Hi) as (HS & HN & Ho). rewrite L1 in HS, HN, Ho.
        by rewrite <- Nat.add_succ_comm.
Qed.

(** X30. When the global context is ready for the seven native classes,
    [setupGlobal] creates their namespaces, in the order of [NATIVE_NAMES]:
    the namespace of [Object] first and that of [Function] last, each one
    named after its class, without methods and not active, and [Sugar] and
    [namespacesByName] map the name of each class to its namespace. *)
Theorem setupGlobal_namespaces (globals : list (string * native)) :
  (forall name, name ∈ NATIVE_NAMES -> ready globals name = true) ->
  exists st,
    setupGlobal (initial globals) = Ok (tt, st) /\
    length (namespaces st) = 7%nat /\
    forall i name, NATIVE_NAMES !! i = Some name ->
      assoc name (Sugar st) = Some i /\
      assoc name (namespacesByName st) = Some i /\
      exists o, namespaces st !! i = Some o /\
                ns_name o = name /\ ns_methods o = [] /\ ns_active o = false.
Proof.
  intros Hready.
  destruct (setupGlobal_loop NATIVE_NAMES) with (st := initial globals)
    as (st & Hrun & _ & L & _ & Hnew).
  - unfold NATIVE_NAMES. repeat (apply NoDup_cons; split;
      [intros H; by repeat (apply elem_of_cons in H as [[=]|H]);
         apply elem_of_nil in H|]).
    apply NoDup_nil_2.
  - by repeat constructor.
  - split; constructor.
  - exact Hready.
  - exists st. split; [exact Hrun|]. split; [exact L|].
    intros i name Hi. destruct (Hnew i name Hi) as (HS & HN & o & Ho & Hid).
    cbn [initial namespaces length Nat.add] in *.
    split; [done|]. split; [done|]. exists o. split; [done|].
    by injection Hid as -> -> ->.
Qed.

(** A global context with the seven classes, each with a [toString]. *)
Definition nativeGlobals : list (string * native) :=
  map (fun name => (name, mkNative [] [("toString", PFun (FNative name "toString" 0))]))
    NATIVE_NAMES.

Lemma setupGlobal_namespaces_witness :
  (forall name, name ∈ NATIVE_NAMES -> ready nativeGlobals name = true) /\
  exists st,
    setupGlobal (initial nativeGlobals) = Ok (tt, st) /\
    length (namespaces st) = 7%nat /\
    forall i name, NATIVE_NAMES !! i = Some name ->
      assoc name (Sugar st) = Some i /\
      assoc name (namespacesByName st) = Some i /\
      exists o, namespaces st !! i = Some o /\
                ns_name o = name /\ ns_methods o = [] /\ ns_active o = false.
Proof.
  assert (Hready : forall name, name ∈ NATIVE_NAMES -> ready nativeGlobals name = true).
  { intros name H. unfold NATIVE_NAMES in H.
    repeat (apply elem_of_cons in H as [->|H]; [by vm_compute|]).
    by apply elem_of_nil in H. }
  split; [exact Hready | exact (setupGlobal_namespaces nativeGlobals Hready)].
Defined.


(** ** Memoization and the path resolver *)

(** The tables a function [memoizeFunction(fn)] goes through. *)
Inductive reachable {V} (fn : string -> result V) : memoTable V -> Prop :=
| reach_empty : reachable fn memoEmpty
| reach_call (m : memoTable V) (key : string) :
    reachable fn m -> reachable fn (snd (memoizeFunction fn key m)).

(** The table after calls with the keys of a list, one after the other. *)
Definition calls {V} (fn : string -> result V) (keys : list string)
  (m : memoTable V) : memoTable V :=
  fold_left (fun m key => snd (memoizeFunction fn key m)) keys m.

Lemma reachable_calls {V} (fn : string -> result V) (keys : list string)
  (m : memoTable V) :
  reachable fn m -> reachable fn (calls fn keys m).
Proof.
  revert m. induction keys as [|key keys IH]; intros m Hm; [done|].
  apply IH. by apply reach_call.
Qed.

Lemma memo_set_same {V} (key : string) (v : V) (memo : gmap string V) :
  key <> "__proto__" -> memo_set key v memo !! key = Some v.
Proof.
  intros Hkey. unfold memo_set. rewrite (proj2 (String.eqb_neq _ _) Hkey).
  apply lookup_insert_eq.
Qed.

Lemma memo_set_other {V} (key k : string) (v : V) (memo : gmap string V) :
  k <> key -> memo_set key v memo !! k = memo !! k.
Proof.
  intros Hk. unfold memo_set. destruct (String.eqb key "__proto__"); [done|].
  by apply lookup_insert_ne.
Qed.

Lemma memo_set_proto {V} (key : string) (v : V) (memo : gmap string V) :
  memo !! "__proto__" = None -> memo_set key v memo !! "__proto__" = None.
Proof.
  intros Hp. unfold memo_set. destruct (String.eqb_spec key "__proto__"); [done|].
  by rewrite lookup_insert_ne.
Qed.

Lemma memo_set_size {V} (key : string) (v : V) (memo : gmap string V) :
  memo !! key = None -> (size (memo_set key v memo) <= S (size memo))%nat.
Proof.
  intros Hkey. unfold memo_set. destruct (String.eqb key "__proto__"); [lia|].
  by rewrite map_size_insert, Hkey.
Qed.

(** The result of a miss, by what [fn] answers. *)
Lemma memoizeFunction_miss {V} (fn : string -> result V) (key : string)
  (m : memoTable V) :
  memo m !! key = None ->
  let m1 := if (counter m =? INTERNAL_MEMOIZE_LIMIT)%nat then memoEmpty else m in
  memoizeFunction fn key m =
  (fn key,
   mkMemo (match fn key with
           | Ok v => memo_set key v (memo m1)
           | _ => memo m1
           end) (S (counter m1))).
Proof.
  intros Hkey. unfold memoizeFunction. rewrite Hkey. cbn zeta.
  by destruct (fn key).
Qed.

Lemma memo_invariant {V} (fn : string -> result V) (m : memoTable V) :
  reachable fn m ->
  (forall k v, memo m !! k = Some v -> fn k = Ok v) /\
  (size (memo m) <= counter m)%nat /\
  (counter m <= INTERNAL_MEMOIZE_LIMIT)%nat /\
  memo m !! "__proto__" = None.
Proof.
  induction 1 as [|m key Hm (Hfn & Hsize & Hcount & Hproto)].
  - unfold memoEmpty. cbn [memo counter].
    split; [intros k v; by rewrite lookup_empty|].
    rewrite map_size_empty, lookup_empty. unfold INTERNAL_MEMOIZE_LIMIT.
    repeat split; lia.
  - destruct (memo m !! key) as [w|] eqn:Hkey.
    { unfold memoizeFunction. by rewrite Hkey. }
    rewrite (memoizeFunction_miss fn key m Hkey). cbn [snd memo counter].
    set (m1 := if (counter m =? INTERNAL_MEMOIZE_LIMIT)%nat then memoEmpty else m).
    assert (H1 : (forall k v, memo m1 !! k = Some v -> fn k = Ok v) /\
                 (size (memo m1) <= counter m1)%nat /\
                 (counter m1 < INTERNAL_MEMOIZE_LIMIT)%nat /\
                 memo m1 !! "__proto__" = None /\
                 memo m1 !! key = None).
    { unfold m1. destruct (Nat.eqb_spec (counter m) INTERNAL_MEMOIZE_LIMIT).
      - unfold memoEmpty. cbn [memo counter].
        rewrite map_size_empty, !lookup_empty. unfold INTERNAL_MEMOIZE_LIMIT.
        split; [intros k v; by rewrite lookup_empty|]. repeat split; lia.
      - repeat split; try done; lia. }
    destruct H1 as (Hfn1 & Hsize1 & Hcount1 & Hproto1 & Hkey1).
    destruct (fn key) as [v| | |] eqn:Hv;
      try (split; [done|]; split; [lia|]; split; [lia | done]).
    split; [|split; [|split; [lia|]]].
    + intros k w. destruct (decide (k = key)) as [->|Hk].
      * unfold memo_set. destruct (String.eqb key "__proto__").
        -- by rewrite Hkey1.
        -- rewrite lookup_insert_eq. by intros [= <-].
      * rewrite memo_set_other by done. apply Hfn1.
    + pose proof (memo_set_size key v (memo m1) Hkey1). lia.
    + by apply memo_set_proto.
Qed.

(** C3, as stated, fails: no representation of a path is kept.  On the heap
    that holds the array [[10, 20, 30, 40]] and nothing else, [get] and
    [has] with the path ["[1]"] return and leave the heap as it was, and
    [set] leaves the array with its new element and nothing else: no
    object, hence no cache, has received the path. *)
Lemma path_is_not_memoized :
  deepGetProperty (VRef 0) (VStr "[1]") VUndefined tens =
    Ok (VNum (Int 20), tens) /\
  deepHasProperty (VRef 0) (VStr "[1]") VUndefined tens =
    Ok (VBool true, tens) /\
  deepSetProperty (VRef 0) (VStr "[1]") (VNum (Int 99)) tens =
    Ok (VRef 0,
        [array_of [VNum (Int 10); VNum (Int 99); VNum (Int 30); VNum (Int 40)]]).
Proof. repeat split; vm_compute; reflexivity. Qed.

(** C3, amended.  The bounded cache is that of [memoizeFunction]: on every
    table such a function goes through, a call returns the result of [fn]
    on the key, hit or miss, and the table holds at most 1000 entries.  A
    hit leaves the table as it is.  A miss stores the result under the key
    (unless the key is [__proto__], which is never stored), so that the
    next call with the key is a hit; when it finds the counter at 1000 it
    empties the table first, and otherwise every entry stays.  The path
    resolver has no part in it: [deepGetProperty] and [deepHasProperty]
    store nothing, the heap they leave being the one they found with the
    arrays they return for ranges after it. *)
Theorem memoization_is_bounded_and_transparent {V} (fn : string -> result V)
  (m : memoTable V) (key : string) :
  reachable fn m ->
  let m' := snd (memoizeFunction fn key m) in
  fst (memoizeFunction fn key m) = fn key /\
  (size (memo m') <= INTERNAL_MEMOIZE_LIMIT)%nat /\
  (is_Some (memo m !! key) -> m' = m) /\
  (memo m !! key = None -> key <> "__proto__" ->
   forall v, fn key = Ok v ->
     memo m' !! key = Some v /\ memoizeFunction fn key m' = (Ok v, m')) /\
  (memo m !! key = None -> counter m = INTERNAL_MEMOIZE_LIMIT ->
   forall k, k <> key -> memo m' !! k = None) /\
  (counter m <> INTERNAL_MEMOIZE_LIMIT ->
   forall k v, memo m !! k = Some v -> memo m' !! k = Some v) /\
  memo m' !! "__proto__" = None /\
  (forall (obj path any v : value) (h h' : heap),
     deepGetProperty obj path any h = Ok (v, h') \/
     deepHasProperty obj path any h = Ok (v, h') ->
     exists new, h' = h ++ new).
Proof.
  intros Hm m'.
  pose proof (memo_invariant fn _ (reach_call fn m key Hm))
    as (_ & Hsize' & Hcount' & Hproto').
  pose proof (memo_invariant fn m Hm) as (Hfn & _ & _ & _).
  fold m' in Hsize', Hcount', Hproto'.
  split; [|split; [lia|split; [|split; [|split; [|split; [|split; [done|]]]]]]].
  - unfold memoizeFunction. destruct (memo m !! key) as [v|] eqn:Hkey.
    + cbn. symmetry. by apply Hfn.
    + by destruct (fn key).
  - intros [v Hkey]. unfold m', memoizeFunction. by rewrite Hkey.
  - intros Hkey Hname v Hv.
    assert (Hstored : memo m' !! key = Some v).
    { unfold m'. rewrite (memoizeFunction_miss fn key m Hkey), Hv.
      cbn [snd memo]. by apply memo_set_same. }
    split; [done|]. unfold memoizeFunction. by rewrite Hstored.
  - intros Hkey Hfull k Hk. unfold m'.
    rewrite (memoizeFunction_miss fn key m Hkey), Hfull, Nat.eqb_refl.
    unfold memoEmpty. cbn [snd memo].
    destruct (fn key); rewrite ?memo_set_other by done; apply lookup_empty.
  - intros Hroom k v Hk. unfold m'.
    destruct (memo m !! key) as [w|] eqn:Hkey.
    { unfold memoizeFunction. by rewrite Hkey. }
    rewrite (memoizeFunction_miss fn key m Hkey).
    apply Nat.eqb_neq in Hroom. rewrite Hroom. cbn [snd memo].
    destruct (fn key); try done.
    rewrite memo_set_other; [done | congruence].
  - intros obj path any v h h' [Hrun|Hrun]; revert Hrun.
    + unfold deepGetProperty. intros (h0 & h1 & [= <- <-] & Hrun)%bind_Ok.
      by apply (handleDeepProperty_reads _ _ _ _ _ _ _ _ _ Hrun).
    + unfold deepHasProperty. intros (h0 & h1 & [= <- <-] & Hrun)%bind_Ok.
      by apply (handleDeepProperty_reads _ _ _ _ _ _ _ _ _ Hrun).
Qed.

(** A function to memoize, and the table after calls with the keys ["0"] to
    ["999"]. *)
Definition keyLength (key : string) : result nat := Ok (String.length key).

Definition thousand : memoTable nat :=
  calls keyLength (map index_key (seq 0 1000)) memoEmpty.

Lemma memoization_is_bounded_and_transparent_witness :
  reachable keyLength thousand /\
  size (memo thousand) = 1000%nat /\
  memo (snd (memoizeFunction keyLength "next" thousand)) !! "next" = Some 4%nat /\
  (forall k, k <> "next" ->
     memo (snd (memoizeFunction keyLength "next" thousand)) !! k = None).
Proof.
  assert (Hreach : reachable keyLength thousand)
    by apply reachable_calls, reach_empty.
  assert (Hmiss : memo thousand !! "next" = None) by (vm_compute; reflexivity).
  assert (Hfull : counter thousand = INTERNAL_MEMOIZE_LIMIT)
    by (vm_compute; reflexivity).
  destruct (memoization_is_bounded_and_transparent keyLength thousand "next" Hreach)
    as (_ & _ & _ & Hstore & Hreset & _).
  split; [exact Hreach|]. split; [vm_compute; reflexivity|].
  split; [|exact (Hreset Hmiss Hfull)].
  apply (Hstore Hmiss); [discriminate | reflexivity].
Defined.
